(** * Thread reconstruction for the cypherpunk archive: model and proofs

    A shallow embedding of the threading pipeline
    (threading_step1.py ... threading_step4.py).  Email records are JSON
    objects mutated in place; the phases share them through the [emails]
    list, the per-subject groups and the [by_message_id] dictionary.  The
    model keeps the records in one store (a list, a position is an object
    identity) and lets groups and dictionaries hold positions, so that a
    mutation is seen through every alias. *)

From stdpp Require Import gmap strings list fin_maps sorting.
From Stdlib Require Import ZArith Ascii String Lia.

Set Warnings "-clear-no-such-hyp".

Local Open Scope string_scope.
Local Open Scope Z_scope.
Local Open Scope list_scope.

(** ** Python values *)

(** The value of a message-id-like field: Python [None] or a [str]. *)
Definition pyid := option string.

(** Truth value of such a field ([if x:], [while x:]). *)
Definition truthy (v : pyid) : bool :=
  match v with
  | Some s => negb (String.eqb s "")
  | None => false
  end.

(** A key of a JSON object read with a subscript ([e['id']]): the key can be
    missing, which [e.get] turns into [None] and a subscript into KeyError. *)
Inductive field := Absent | Present (v : pyid).

Definition get (f : field) : pyid :=
  match f with Absent => None | Present v => v end.

Inductive exn := KeyError | ZeroDivisionError | RecursionError.

Inductive result (A : Type) := Ok (a : A) | Raise (e : exn).
Arguments Ok {A} a.
Arguments Raise {A} e.

Definition bind {A B} (m : result A) (k : A -> result B) : result B :=
  match m with Ok a => k a | Raise e => Raise e end.

Notation "'do' x <- m ; k" := (bind m (fun x => k))
  (at level 10, x name, m at level 100, k at level 200).

Definition subscript (f : field) : result pyid :=
  match f with Absent => Raise KeyError | Present v => Ok v end.

Inductive status :=
  | has_parent | true_root | orphan_reply
  | matched_by_subject | matched_by_quote | matched_by_time_proximity.

Global Instance status_eq_dec : EqDecision status.
Proof. solve_decision. Defined.

Global Instance field_eq_dec : EqDecision field.
Proof. solve_decision. Defined.

(** ** Strings

    Subjects are sequences of characters with Python's character classes
    restricted to the ASCII range: [str.isspace] and the regular-expression
    class [\s] are the codes 9-13 and 28-32, [\w] is letters, digits and the
    underscore, and [str.lower] moves A-Z to a-z. *)

Definition isspace (c : ascii) : bool :=
  let n := nat_of_ascii c in
  ((9 <=? n)%nat && (n <=? 13)%nat) || ((28 <=? n)%nat && (n <=? 32)%nat).

Definition isupper (c : ascii) : bool :=
  let n := nat_of_ascii c in (65 <=? n)%nat && (n <=? 90)%nat.

Definition isword (c : ascii) : bool :=
  let n := nat_of_ascii c in
  ((48 <=? n)%nat && (n <=? 57)%nat) || ((65 <=? n)%nat && (n <=? 90)%nat)
  || ((97 <=? n)%nat && (n <=? 122)%nat) || (n =? 95)%nat.

Definition lower_char (c : ascii) : ascii :=
  if isupper c then ascii_of_nat (nat_of_ascii c + 32) else c.

(** [s.lower()] *)
Fixpoint lower (s : string) : string :=
  match s with
  | EmptyString => EmptyString
  | String c s' => String (lower_char c) (lower s')
  end.

(** [s.lstrip()] *)
Fixpoint lstrip (s : string) : string :=
  match s with
  | EmptyString => EmptyString
  | String c s' => if isspace c then lstrip s' else s
  end.

(** [s.rstrip()] *)
Fixpoint rstrip (s : string) : string :=
  match s with
  | EmptyString => EmptyString
  | String c s' =>
      match rstrip s' with
      | EmptyString => if isspace c then EmptyString else String c EmptyString
      | r => String c r
      end
  end.

(** [s.strip()] *)
Definition strip (s : string) : string := rstrip (lstrip s).

(** [re.match] of a literal at the start of [s], ignoring case as
    [re.IGNORECASE] does; the rest of [s] on a match. *)
Fixpoint ci_prefix (lit s : string) : option string :=
  match lit, s with
  | EmptyString, _ => Some s
  | String a lit', String c s' =>
      if Ascii.eqb (lower_char a) (lower_char c) then ci_prefix lit' s' else None
  | String _ _, EmptyString => None
  end.

(** The longest run of characters of the class [[\w\s-]] at the start of
    [s], as its length and the rest. *)
Definition tag_char (c : ascii) : bool :=
  isword c || isspace c || Ascii.eqb c "-".

Fixpoint tag_run (s : string) : nat * string :=
  match s with
  | String c s' =>
      if tag_char c then let '(n, r) := tag_run s' in (S n, r) else (O, s)
  | EmptyString => (O, EmptyString)
  end.

(** The prefixes of [normalize_subject]: a literal followed by [\s*], or the
    bracketed tag [^\[[\w\s-]+\]\s*]. *)
Inductive prefix_pat := PLit (lit : string) | PTag.

Definition prefixes : list prefix_pat :=
  [PLit "Re:"; PLit "RE:"; PLit "Fwd:"; PLit "FWD:"; PLit "Fw:"; PLit "FW:"; PTag].

(** What is left of [s] after the match of the prefix, if it matches. *)
Definition match_prefix (p : prefix_pat) (s : string) : option string :=
  match p with
  | PLit lit =>
      match ci_prefix lit s with
      | Some rest => Some (lstrip rest)
      | None => None
      end
  | PTag =>
      match s with
      | String "[" s' =>
          match tag_run s' with
          | (S _, String "]" rest) => Some (lstrip rest)
          | _ => None
          end
      | _ => None
      end
  end.

(** [re.sub(prefix, '', s, flags=re.IGNORECASE)]: the pattern is anchored, so
    at most the match at the start is removed. *)
Definition re_sub (p : prefix_pat) (s : string) : string :=
  match match_prefix p s with
  | Some rest => rest
  | None => s
  end.

(** ** The subject normalizer (threading_step2.py) *)

(** One iteration of the body of [for prefix in prefixes]. *)
Definition strip_step (acc : string * bool) (p : prefix_pat) : string * bool :=
  let '(s, changed) := acc in
  let new_s := re_sub p s in
  if decide (new_s = s) then (s, changed) else (strip new_s, true).

(** One pass of the [for] loop, started with [changed = False]. *)
Definition strip_pass (s : string) : string * bool :=
  fold_left strip_step prefixes (s, false).

(** The [while changed] loop.  Every pass that changes [s] makes it
    shorter, so [S (length s)] passes are enough (lemma
    [strip_loop_fixpoint]). *)
Fixpoint strip_loop (fuel : nat) (s : string) : string :=
  match fuel with
  | O => s
  | S fuel' =>
      let '(s', changed) := strip_pass s in
      if changed then strip_loop fuel' s' else s'
  end.

Definition normalize_subject (subject : option string) : string :=
  match subject with
  | None => ""
  | Some "" => ""
  | Some sub =>
      let s := strip sub in
      lower (strip (strip_loop (S (String.length s)) s))
  end.

(** [re.match(p, s)] for the case-sensitive literal patterns of
    [is_reply_subject]. *)
Definition reply_patterns : list string :=
  ["Re:"; "RE:"; "Fw:"; "FW:"; "Fwd:"; "FWD:"].

Definition is_reply_subject (subject : option string) : bool :=
  match subject with
  | None => false
  | Some "" => false
  | Some sub => existsb (fun p => String.prefix p (strip sub)) reply_patterns
  end.

(** ** Email records *)

(** A record of the archive.  [id] and [message_id] are read with a
    subscript in places, so that a missing key is told apart.  The other
    keys are read with [e.get(k)]: [None] is a key that is missing or
    null.  The upstream parser writes [subject], [body] and [date_raw] as
    strings, never as null, and [None] is the missing key for them. *)
Record email := Email {
  id : field;
  message_id : field;
  in_reply_to : pyid;
  subject : option string;
  normalized_subject : option string;
  date_parsed : option string;
  date_raw : option string;
  from_email : option string;
  from_raw : option string;
  body : option string;
  has_pgp : bool;
  parent_id : pyid;
  children_ids : option (list pyid);
  is_thread_root : option bool;
  orphan_status : option status;
  orphan_type : option string;
  match_score : option Z;
  quote_match_score : option Z;
  time_proximity_days : option Z;
  thread_id : option string
}.

(** Assignments to one key of a record ([email[k] = v]). *)

Definition set_parent_id (v : pyid) (e : email) : email :=
  {| id := id e;
     message_id := message_id e;
     in_reply_to := in_reply_to e;
     subject := subject e;
     normalized_subject := normalized_subject e;
     date_parsed := date_parsed e;
     date_raw := date_raw e;
     from_email := from_email e;
     from_raw := from_raw e;
     body := body e;
     has_pgp := has_pgp e;
     parent_id := v;
     children_ids := children_ids e;
     is_thread_root := is_thread_root e;
     orphan_status := orphan_status e;
     orphan_type := orphan_type e;
     match_score := match_score e;
     quote_match_score := quote_match_score e;
     time_proximity_days := time_proximity_days e;
     thread_id := thread_id e |}.

Definition set_children_ids (v : option (list pyid)) (e : email) : email :=
  {| id := id e;
     message_id := message_id e;
     in_reply_to := in_reply_to e;
     subject := subject e;
     normalized_subject := normalized_subject e;
     date_parsed := date_parsed e;
     date_raw := date_raw e;
     from_email := from_email e;
     from_raw := from_raw e;
     body := body e;
     has_pgp := has_pgp e;
     parent_id := parent_id e;
     children_ids := v;
     is_thread_root := is_thread_root e;
     orphan_status := orphan_status e;
     orphan_type := orphan_type e;
     match_score := match_score e;
     quote_match_score := quote_match_score e;
     time_proximity_days := time_proximity_days e;
     thread_id := thread_id e |}.

Definition set_is_thread_root (v : option bool) (e : email) : email :=
  {| id := id e;
     message_id := message_id e;
     in_reply_to := in_reply_to e;
     subject := subject e;
     normalized_subject := normalized_subject e;
     date_parsed := date_parsed e;
     date_raw := date_raw e;
     from_email := from_email e;
     from_raw := from_raw e;
     body := body e;
     has_pgp := has_pgp e;
     parent_id := parent_id e;
     children_ids := children_ids e;
     is_thread_root := v;
     orphan_status := orphan_status e;
     orphan_type := orphan_type e;
     match_score := match_score e;
     quote_match_score := quote_match_score e;
     time_proximity_days := time_proximity_days e;
     thread_id := thread_id e |}.

Definition set_orphan_status (v : option status) (e : email) : email :=
  {| id := id e;
     message_id := message_id e;
     in_reply_to := in_reply_to e;
     subject := subject e;
     normalized_subject := normalized_subject e;
     date_parsed := date_parsed e;
     date_raw := date_raw e;
     from_email := from_email e;
     from_raw := from_raw e;
     body := body e;
     has_pgp := has_pgp e;
     parent_id := parent_id e;
     children_ids := children_ids e;
     is_thread_root := is_thread_root e;
     orphan_status := v;
     orphan_type := orphan_type e;
     match_score := match_score e;
     quote_match_score := quote_match_score e;
     time_proximity_days := time_proximity_days e;
     thread_id := thread_id e |}.

Definition set_orphan_type (v : option string) (e : email) : email :=
  {| id := id e;
     message_id := message_id e;
     in_reply_to := in_reply_to e;
     subject := subject e;
     normalized_subject := normalized_subject e;
     date_parsed := date_parsed e;
     date_raw := date_raw e;
     from_email := from_email e;
     from_raw := from_raw e;
     body := body e;
     has_pgp := has_pgp e;
     parent_id := parent_id e;
     children_ids := children_ids e;
     is_thread_root := is_thread_root e;
     orphan_status := orphan_status e;
     orphan_type := v;
     match_score := match_score e;
     quote_match_score := quote_match_score e;
     time_proximity_days := time_proximity_days e;
     thread_id := thread_id e |}.

Definition set_normalized_subject (v : option string) (e : email) : email :=
  {| id := id e;
     message_id := message_id e;
     in_reply_to := in_reply_to e;
     subject := subject e;
     normalized_subject := v;
     date_parsed := date_parsed e;
     date_raw := date_raw e;
     from_email := from_email e;
     from_raw := from_raw e;
     body := body e;
     has_pgp := has_pgp e;
     parent_id := parent_id e;
     children_ids := children_ids e;
     is_thread_root := is_thread_root e;
     orphan_status := orphan_status e;
     orphan_type := orphan_type e;
     match_score := match_score e;
     quote_match_score := quote_match_score e;
     time_proximity_days := time_proximity_days e;
     thread_id := thread_id e |}.

Definition set_match_score (v : option Z) (e : email) : email :=
  {| id := id e;
     message_id := message_id e;
     in_reply_to := in_reply_to e;
     subject := subject e;
     normalized_subject := normalized_subject e;
     date_parsed := date_parsed e;
     date_raw := date_raw e;
     from_email := from_email e;
     from_raw := from_raw e;
     body := body e;
     has_pgp := has_pgp e;
     parent_id := parent_id e;
     children_ids := children_ids e;
     is_thread_root := is_thread_root e;
     orphan_status := orphan_status e;
     orphan_type := orphan_type e;
     match_score := v;
     quote_match_score := quote_match_score e;
     time_proximity_days := time_proximity_days e;
     thread_id := thread_id e |}.

Definition set_quote_match_score (v : option Z) (e : email) : email :=
  {| id := id e;
     message_id := message_id e;
     in_reply_to := in_reply_to e;
     subject := subject e;
     normalized_subject := normalized_subject e;
     date_parsed := date_parsed e;
     date_raw := date_raw e;
     from_email := from_email e;
     from_raw := from_raw e;
     body := body e;
     has_pgp := has_pgp e;
     parent_id := parent_id e;
     children_ids := children_ids e;
     is_thread_root := is_thread_root e;
     orphan_status := orphan_status e;
     orphan_type := orphan_type e;
     match_score := match_score e;
     quote_match_score := v;
     time_proximity_days := time_proximity_days e;
     thread_id := thread_id e |}.

Definition set_time_proximity_days (v : option Z) (e : email) : email :=
  {| id := id e;
     message_id := message_id e;
     in_reply_to := in_reply_to e;
     subject := subject e;
     normalized_subject := normalized_subject e;
     date_parsed := date_parsed e;
     date_raw := date_raw e;
     from_email := from_email e;
     from_raw := from_raw e;
     body := body e;
     has_pgp := has_pgp e;
     parent_id := parent_id e;
     children_ids := children_ids e;
     is_thread_root := is_thread_root e;
     orphan_status := orphan_status e;
     orphan_type := orphan_type e;
     match_score := match_score e;
     quote_match_score := quote_match_score e;
     time_proximity_days := v;
     thread_id := thread_id e |}.

Definition set_thread_id (v : option string) (e : email) : email :=
  {| id := id e;
     message_id := message_id e;
     in_reply_to := in_reply_to e;
     subject := subject e;
     normalized_subject := normalized_subject e;
     date_parsed := date_parsed e;
     date_raw := date_raw e;
     from_email := from_email e;
     from_raw := from_raw e;
     body := body e;
     has_pgp := has_pgp e;
     parent_id := parent_id e;
     children_ids := children_ids e;
     is_thread_root := is_thread_root e;
     orphan_status := orphan_status e;
     orphan_type := orphan_type e;
     match_score := match_score e;
     quote_match_score := quote_match_score e;
     time_proximity_days := time_proximity_days e;
     thread_id := v |}.

(** ** The cycle guard (threading_step3_fixed.py, would_create_cycle) *)

Section CycleGuard.

Context (by_message_id : gmap pyid email).

(** The [while current_id:] loop; one unit of fuel per execution of the
    loop body. *)
Fixpoint wcc_loop (fuel : nat) (child_msg_id current_id : pyid)
    (visited : gset pyid) : option bool :=
  if truthy current_id then
    match fuel with
    | O => None
    | S fuel' =>
      if decide (current_id = child_msg_id) then Some true
      else if decide (current_id ∈ visited) then Some true
      else
        match by_message_id !! current_id with
        | None => Some false
        | Some parent_email =>
            wcc_loop fuel' child_msg_id (parent_id parent_email)
                     ({[current_id]} ∪ visited)
        end
    end
  else Some false.

(** The ids the loop adds to [visited], in order. *)
Fixpoint wcc_visits (fuel : nat) (child_msg_id current_id : pyid)
    (visited : gset pyid) : list pyid :=
  if truthy current_id then
    match fuel with
    | O => []
    | S fuel' =>
      if decide (current_id = child_msg_id) then []
      else if decide (current_id ∈ visited) then []
      else
        current_id ::
        match by_message_id !! current_id with
        | None => []
        | Some parent_email =>
            wcc_visits fuel' child_msg_id (parent_id parent_email)
                       ({[current_id]} ∪ visited)
        end
    end
  else [].

Definition would_create_cycle (child_msg_id parent_msg_id : pyid) : bool :=
  match wcc_loop (S (size by_message_id)) child_msg_id parent_msg_id ∅ with
  | Some b => b
  | None => false
  end.

(** One step of the walk: from a truthy id held by the index to the
    [parent_id] of its record. *)
Definition pstep (a b : pyid) : Prop :=
  truthy a = true ∧ ∃ e, by_message_id !! a = Some e ∧ parent_id e = b.

(** The walk from [a] stops: it reaches a falsy id or an id the index does
    not hold. *)
Inductive terminates : pyid -> Prop :=
  | term_falsy a : truthy a = false -> terminates a
  | term_miss a : by_message_id !! a = None -> terminates a
  | term_step a e :
      by_message_id !! a = Some e -> terminates (parent_id e) -> terminates a.

End CycleGuard.


(** ** Containers shared by the phases *)

(** [list.sort(key=...)]: Python's sort is stable, so its result is the one
    of a stable insertion sort. *)
Fixpoint insert_sorted {A} (le : A -> A -> bool) (x : A) (l : list A) : list A :=
  match l with
  | [] => [x]
  | y :: l' => if le x y then x :: l else y :: insert_sorted le x l'
  end.

Definition stable_sort {A} (le : A -> A -> bool) (l : list A) : list A :=
  foldr (insert_sorted le) [] l.

(** A [for] loop whose body can raise. *)
Fixpoint for_each {A B} (f : A -> B -> result A) (l : list B) (a : A) : result A :=
  match l with
  | [] => Ok a
  | x :: l' => do a' <- f a x; for_each f l' a'
  end.

(** The positions of the records of a store. *)
Definition positions (emails : list email) : list nat := seq 0 (List.length emails).

(** [{e['message_id']: e for e in emails if e.get('message_id')}]: a later
    record replaces an earlier one with the same message id. *)
Definition build_index (emails : list email) : gmap pyid nat :=
  fold_left
    (fun idx i =>
       match emails !! i with
       | Some e =>
           if truthy (get (message_id e)) then <[get (message_id e) := i]> idx
           else idx
       | None => idx
       end)
    (positions emails) ∅.

(** [{e['id']: e for e in emails}] *)
Definition build_by_id (emails : list email) : result (gmap pyid nat) :=
  for_each
    (fun idx i =>
       match emails !! i with
       | Some e => do k <- subscript (id e); Ok (<[k := i]> idx)
       | None => Ok idx
       end)
    (positions emails) ∅.

(** The dictionary as [would_create_cycle] reads it: every key with the
    current state of the record it refers to. *)
Definition deref (emails : list email) (idx : gmap pyid nat) : gmap pyid email :=
  omap (fun i => emails !! i) idx.

(** [defaultdict(list)] keyed by a subject, in insertion order. *)
Fixpoint alist_append (k : string) (i : nat) (g : list (string * list nat))
    : list (string * list nat) :=
  match g with
  | [] => [(k, [i])]
  | (k', l) :: g' =>
      if String.eqb k k' then (k', l ++ [i]) :: g'
      else (k', l) :: alist_append k i g'
  end.

Fixpoint alist_get (k : string) (g : list (string * list nat)) : list nat :=
  match g with
  | [] => []
  | (k', l) :: g' => if String.eqb k k' then l else alist_get k g'
  end.

(** [email.get('normalized_subject', '')] *)
Definition norm_subj_of (e : email) : string := default "" (normalized_subject e).

(** The records grouped by normalized subject, those with an empty one left
    out. *)
Definition group_by_subject (keep : email -> bool) (emails : list email)
    : list (string * list nat) :=
  fold_left
    (fun g i =>
       match emails !! i with
       | Some e =>
           if keep e && negb (String.eqb (norm_subj_of e) "")
           then alist_append (norm_subj_of e) i g else g
       | None => g
       end)
    (positions emails) [].

(** [e.get('date_parsed') or e.get('date_raw') or ''] *)
Definition nonempty (o : option string) : option string :=
  match o with
  | Some "" => None
  | o => o
  end.

Definition date_key (e : email) : string :=
  match nonempty (date_parsed e) with
  | Some s => s
  | None => default "" (nonempty (date_raw e))
  end.

Definition le_at {K} (le : K -> K -> bool) (key : email -> K) (dflt : K)
    (emails : list email) (i j : nat) : bool :=
  le (default dflt (key <$> emails !! i)) (default dflt (key <$> emails !! j)).

(** ** Dates

    The string surgery of [parse_date] is modelled; [datetime.fromisoformat]
    is a parameter of the development.  A naive [datetime] is the number of
    microseconds since an epoch, so that a [timedelta] is a difference. *)

Fixpoint remove_char (c : ascii) (s : string) : string :=
  match s with
  | EmptyString => EmptyString
  | String a s' => if Ascii.eqb a c then remove_char c s' else String a (remove_char c s')
  end.

Fixpoint replace_char (c d : ascii) (s : string) : string :=
  match s with
  | EmptyString => EmptyString
  | String a s' => String (if Ascii.eqb a c then d else a) (replace_char c d s')
  end.

Fixpoint count_char (c : ascii) (s : string) : nat :=
  match s with
  | EmptyString => O
  | String a s' => ((if Ascii.eqb a c then 1 else 0) + count_char c s')%nat
  end.

(** [s.find(c)] *)
Fixpoint find_char (c : ascii) (s : string) : option nat :=
  match s with
  | EmptyString => None
  | String a s' => if Ascii.eqb a c then Some O else S <$> find_char c s'
  end.

(** [s.rfind(c)] *)
Fixpoint rfind_char (c : ascii) (s : string) : option nat :=
  match s with
  | EmptyString => None
  | String a s' =>
      match rfind_char c s' with
      | Some n => Some (S n)
      | None => if Ascii.eqb a c then Some O else None
      end
  end.

(** [s[:n]] *)
Definition take_str (n : nat) (s : string) : string := String.substring 0 n s.

Definition strip_timezone (date_str : string) : string :=
  let s1 := remove_char "Z" date_str in
  let s2 := match rfind_char "+" s1 with
            | Some n => take_str n s1
            | None => s1
            end in
  let s3 := if (2 <? count_char "-" s2)%nat then
              match find_char "T" s2, rfind_char "-" s2 with
              | Some t_pos, Some last_dash =>
                  if (t_pos <? last_dash)%nat then take_str last_dash s2 else s2
              | _, _ => s2
              end
            else s2 in
  let s4 := replace_char "T" " " s3 in
  match find_char "." s4 with
  | Some n => take_str n s4
  | None => s4
  end.

Definition usec_per_second : Z := 1000000.
Definition usec_per_day : Z := 86400 * usec_per_second.

(** [timedelta.days] *)
Definition days_of (delta : Z) : Z := delta `div` usec_per_day.

(** [timedelta.total_seconds() < n] for an integer [n] *)
Definition seconds_lt (delta n : Z) : bool := delta <? n * usec_per_second.

(** A parser for the instants of the examples: [YYYY-MM-DD HH:MM:SS], the
    shape that [datetime.isoformat] prints and [strip_timezone] leaves, or
    the date alone.  It instantiates [fromisoformat] where a statement is
    run on concrete records. *)
Definition digit_of (c : ascii) : option Z :=
  let n := nat_of_ascii c in
  if (48 <=? n)%nat && (n <=? 57)%nat then Some (Z.of_nat (n - 48)) else None.

Fixpoint number_of (acc : Z) (s : string) : option Z :=
  match s with
  | EmptyString => Some acc
  | String c s' =>
      match digit_of c with
      | Some d => number_of (10 * acc + d) s'
      | None => None
      end
  end.

Definition field_of (start len : nat) (s : string) : option Z :=
  let f := String.substring start len s in
  if (String.length f =? len)%nat then number_of 0 f else None.

(** Days from 0001-01-01 in the proleptic Gregorian calendar. *)
Definition days_from_civil (y m d : Z) : Z :=
  let y' := if m <=? 2 then y - 1 else y in
  let era := y' `div` 400 in
  let yoe := y' - era * 400 in
  let mp := (m + 9) `mod` 12 in
  let doy := (153 * mp + 2) `div` 5 + d - 1 in
  let doe := yoe * 365 + yoe `div` 4 - yoe `div` 100 + doy in
  era * 146097 + doe - 306.

Definition iso_instant (s : string) : option Z :=
  y ← field_of 0 4 s;
  m ← field_of 5 2 s;
  d ← field_of 8 2 s;
  if negb ((1 <=? m) && (m <=? 12) && (1 <=? d) && (d <=? 31)) then None
  else
    let day := days_from_civil y m d in
    if (String.length s =? 10)%nat then Some (day * usec_per_day)
    else if (String.length s =? 19)%nat then
      hh ← field_of 11 2 s;
      mm ← field_of 14 2 s;
      ss ← field_of 17 2 s;
      if (hh <? 24) && (mm <? 60) && (ss <? 60)
      then Some (day * usec_per_day + ((hh * 60 + mm) * 60 + ss) * usec_per_second)
      else None
    else None.

(** ** Text helpers of the Quote Matcher (threading_step3b_quotes.py) *)

(** [s.split(c)] *)
Fixpoint split_on (c : ascii) (s : string) : list string :=
  match s with
  | EmptyString => [EmptyString]
  | String a s' =>
      if Ascii.eqb a c then EmptyString :: split_on c s'
      else
        match split_on c s' with
        | h :: t => String a h :: t
        | [] => [String a EmptyString]
        end
  end.

Definition newline : ascii := ascii_of_nat 10.

(** [re.sub(r'^>+\s*', '', s)] on a string that starts with [>] *)
Fixpoint drop_quote_marks (s : string) : string :=
  match s with
  | String ">" s' => drop_quote_marks s'
  | _ => lstrip s
  end.

Definition starts_with_quote (s : string) : bool :=
  match s with
  | String ">" _ => true
  | _ => false
  end.

Definition extract_quoted_lines (body : option string) : list string :=
  match nonempty body with
  | None => []
  | Some b =>
      omap
        (fun line =>
           let l := strip line in
           if starts_with_quote l then
             let cleaned := drop_quote_marks l in
             if (20 <? String.length cleaned)%nat then Some cleaned else None
           else None)
        (split_on newline b)
  end.

(** [re.sub(r'\s+', ' ', text)]; [in_ws] tells that the previous character
    was white space. *)
Fixpoint collapse_ws (in_ws : bool) (s : string) : string :=
  match s with
  | EmptyString => EmptyString
  | String c s' =>
      if isspace c then
        if in_ws then collapse_ws true s' else String " " (collapse_ws true s')
      else String c (collapse_ws false s')
  end.

(** [re.sub(r'[^\w\s]', '', text)] *)
Fixpoint remove_punct (s : string) : string :=
  match s with
  | EmptyString => EmptyString
  | String c s' =>
      if isword c || isspace c then String c (remove_punct s') else remove_punct s'
  end.

Definition normalize_for_matching (text : string) : string :=
  strip (remove_punct (collapse_ws false (lower text))).

(** [a in b] on strings *)
Fixpoint is_substring (a b : string) : bool :=
  String.prefix a b ||
  match b with
  | EmptyString => false
  | String _ b' => is_substring a b'
  end.

(** [str(v)] inside an f-string *)
Definition py_str (v : pyid) : string := default "None" v.

(** [e.get('from_email') or e.get('from_raw', '')], when it is truthy *)
Definition sender (e : email) : option string :=
  match nonempty (from_email e) with
  | Some s => Some s
  | None => nonempty (from_raw e)
  end.

(** A record of threading_step4_threads.json; the two dates are kept as
    instants rather than printed with [isoformat]. *)
Record thread := Thread {
  t_id : string;
  root_message_id : pyid;
  t_subject : option string;
  t_normalized_subject : option string;
  message_ids : list pyid;
  message_count : nat;
  participants : list string;
  participant_count : nat;
  date_start : option Z;
  date_end : option Z;
  depth : nat;
  root_author : option string;
  t_has_pgp : bool
}.

(** [min(l) if l else None] and [max(l) if l else None] *)
Definition min_of (l : list Z) : option Z :=
  match l with
  | [] => None
  | x :: l' => Some (fold_left Z.min l' x)
  end.

Definition max_of (l : list Z) : option Z :=
  match l with
  | [] => None
  | x :: l' => Some (fold_left Z.max l' x)
  end.

(** [a / b] of the printed summaries: only whether it raises matters. *)
Definition py_div (a b : nat) : result unit :=
  match b with
  | O => Raise ZeroDivisionError
  | S _ => Ok tt
  end.

Fixpoint map_result {A B} (f : A -> result B) (l : list A) : result (list B) :=
  match l with
  | [] => Ok []
  | x :: l' => do y <- f x; do ys <- map_result f l'; Ok (y :: ys)
  end.

Definition count_status (s : status) (emails : list email) : nat :=
  List.length (filter (fun e => orphan_status e = Some s) emails).

(** [if 'children_ids' not in e: e['children_ids'] = []] *)
Definition ensure_children (e : email) : email :=
  match children_ids e with
  | None => set_children_ids (Some []) e
  | Some _ => e
  end.

(** Step 3: the list is created and extended only when the child is not in
    [e.get('children_ids', [])]. *)
Definition add_child (child : pyid) (e : email) : email :=
  let kids := default [] (children_ids e) in
  if decide (child ∈ kids) then e
  else set_children_ids (Some (kids ++ [child])) e.

(** Steps 3b and 3c: the list is created first, then extended when the child
    is not in it. *)
Definition add_child_created (child : pyid) (e : email) : email :=
  let e1 := ensure_children e in
  let kids := default [] (children_ids e1) in
  if decide (child ∈ kids) then e1
  else set_children_ids (Some (kids ++ [child])) e1.

(** [e.get('children_ids')] as a truth value *)
Definition has_children (e : email) : bool :=
  match children_ids e with
  | Some (_ :: _) => true
  | _ => false
  end.

Section Pipeline.

(** [datetime.fromisoformat]; [None] is the ValueError that [parse_date]
    catches. *)
Variable fromisoformat : string -> option Z.

(** [datetime.min] *)
Variable datetime_min : Z.

(** The nesting depth of calls at which Python raises RecursionError. *)
Variable recursion_limit : nat.

Definition parse_date (date_str : option string) : option Z :=
  match nonempty date_str with
  | None => None
  | Some s => fromisoformat (strip_timezone s)
  end.

(** *** Step 1: the Direct Linker (threading_step1.py) *)

Record links := Links {
  parent_of : gmap pyid pyid;
  children_of : gmap pyid (list pyid);
  with_in_reply_to : nat;
  in_reply_to_matched : nat;
  in_reply_to_unmatched : nat
}.

Definition link_step (idx : gmap pyid nat) (acc : links) (e : email) : links :=
  let msg_id := get (message_id e) in
  let reply_to := in_reply_to e in
  if truthy reply_to then
    match idx !! reply_to with
    | Some _ =>
        {| parent_of := <[msg_id := reply_to]> (parent_of acc);
           children_of :=
             <[reply_to := default [] (children_of acc !! reply_to) ++ [msg_id]]>
               (children_of acc);
           with_in_reply_to := S (with_in_reply_to acc);
           in_reply_to_matched := S (in_reply_to_matched acc);
           in_reply_to_unmatched := in_reply_to_unmatched acc |}
    | None =>
        {| parent_of := parent_of acc;
           children_of := children_of acc;
           with_in_reply_to := S (with_in_reply_to acc);
           in_reply_to_matched := in_reply_to_matched acc;
           in_reply_to_unmatched := S (in_reply_to_unmatched acc) |}
    end
  else acc.

Definition collect_links (emails : list email) : links :=
  fold_left (link_step (build_index emails)) emails
    {| parent_of := ∅; children_of := ∅; with_in_reply_to := O;
       in_reply_to_matched := O; in_reply_to_unmatched := O |}.

(** The last loop of the step: the threading keys of one record. *)
Definition annotate (l : links) (e : email) : email :=
  let msg_id := get (message_id e) in
  set_is_thread_root (Some (bool_decide (parent_of l !! msg_id = None)))
    (set_children_ids (Some (default [] (children_of l !! msg_id)))
       (set_parent_id (default None (parent_of l !! msg_id)) e)).

(** The records written to threading_step1.json. *)
Definition build_thread_trees_output (emails : list email) : list email :=
  annotate (collect_links emails) <$> emails.

(** The whole function: the output is written, then the summary is
    printed with its percentages. *)
Definition build_thread_trees (emails : list email) : result links :=
  let l := collect_links emails in
  do _ <- py_div (100 * with_in_reply_to l) (List.length emails);
  do _ <- py_div (100 * in_reply_to_matched l) (with_in_reply_to l);
  do _ <- py_div (100 * in_reply_to_unmatched l) (with_in_reply_to l);
  Ok l.

(** *** Step 2: the Orphan Classifier (threading_step2.py) *)

Definition classify (e : email) : result email :=
  let has_parent_b := bool_decide (is_Some (parent_id e)) in
  let is_reply := is_reply_subject (subject e) in
  let norm_subj := normalize_subject (subject e) in
  do _ <- (if String.eqb norm_subj "" then Ok None else subscript (id e));
  do e1 <-
    (if has_parent_b then Ok (set_orphan_status (Some has_parent) e)
     else if is_reply then
       let e' := set_orphan_status (Some orphan_reply) e in
       let e'' := set_orphan_type
                    (Some (if bool_decide (is_Some (in_reply_to e))
                           then "in_reply_to_unmatched" else "no_in_reply_to")) e' in
       do _ <- subscript (id e); Ok e''
     else Ok (set_orphan_status (Some true_root) e));
  Ok (set_normalized_subject (Some norm_subj) e1).

(** The records written to threading_step2.json; [by_id] is built before
    they are written. *)
Definition identify_orphans_output (emails : list email) : result (list email) :=
  do emails' <- map_result classify emails;
  do _ <- build_by_id emails';
  Ok emails'.

(** The whole function, returning the number of orphans; the summary
    divides by it. *)
Definition identify_orphans (emails : list email) : result nat :=
  do emails' <- identify_orphans_output emails;
  let orphans := count_status orphan_reply emails' in
  do _ <- py_div 100 orphans;
  Ok orphans.

(** *** Step 3: the Subject Matcher (threading_step3_fixed.py) *)

(** [by_subject] after each group is sorted by its date string. *)
Definition sorted_by_subject (emails : list email) : list (string * list nat) :=
  (fun kl => (kl.1, stable_sort (le_at String.leb date_key "" emails) kl.2))
    <$> group_by_subject (fun _ => true) emails.

Record choice := Choice {
  best_parent : option nat;
  best_score : Z;
  cycles_seen : nat
}.

Definition proximity_bonus (time_gap : Z) : Z :=
  if seconds_lt time_gap 86400 then 5
  else if seconds_lt time_gap 604800 then 3
  else if seconds_lt time_gap 2592000 then 1
  else 0.

Definition score_candidate (orphan_date cand_date : option Z) (candidate : email) : Z :=
  (if decide (orphan_status candidate = Some true_root) then 10 else 0)
  + (if has_children candidate then 5 else 0)
  + (if truthy (parent_id candidate) then 3 else 0)
  + match orphan_date, cand_date with
    | Some od, Some cd => proximity_bonus (od - cd)
    | _, _ => 0
    end.

(** [orphan_date and cand_date and cand_date >= orphan_date] *)
Definition not_earlier (orphan_date cand_date : option Z) : bool :=
  match orphan_date, cand_date with
  | Some od, Some cd => od <=? cd
  | _, _ => false
  end.

(** The body of [for candidate in same_subject]. *)
Definition consider (emails : list email) (idx : gmap pyid nat) (orphan : email)
    (orphan_date : option Z) (acc : choice) (j : nat) : result choice :=
  match emails !! j with
  | None => Ok acc
  | Some candidate =>
      do cid <- subscript (id candidate);
      do eid <- subscript (id orphan);
      if decide (cid = eid) then Ok acc
      else
        let cand_date := parse_date (date_parsed candidate) in
        if not_earlier orphan_date cand_date then Ok acc
        else
          do emid <- subscript (message_id orphan);
          do cmid <- subscript (message_id candidate);
          if would_create_cycle (deref emails idx) emid cmid then
            Ok {| best_parent := best_parent acc; best_score := best_score acc;
                  cycles_seen := S (cycles_seen acc) |}
          else
            let score := score_candidate orphan_date cand_date candidate in
            if best_score acc <? score then
              Ok {| best_parent := Some j; best_score := score;
                    cycles_seen := cycles_seen acc |}
            else Ok acc
  end.

Record matcher := Matcher {
  m_emails : list email;
  m_index : gmap pyid nat;
  m_matched : nat;
  m_unmatched : nat;
  m_prevented : nat
}.

Definition count_unmatched (cycles : nat) (m : matcher) : matcher :=
  {| m_emails := m_emails m; m_index := m_index m; m_matched := m_matched m;
     m_unmatched := S (m_unmatched m);
     m_prevented := (m_prevented m + cycles)%nat |}.

(** The assignments made when [best_parent] is found. *)
Definition link_orphan (m : matcher) (i j : nat) (score : Z) (cycles : nat)
    : result matcher :=
  match m_emails m !! i, m_emails m !! j with
  | Some orphan, Some parent =>
      do pmid <- subscript (message_id parent);
      do emid <- subscript (message_id orphan);
      let orphan' :=
        set_match_score (Some score)
          (set_orphan_status (Some matched_by_subject)
             (set_parent_id pmid orphan)) in
      let emails1 := <[i := orphan']> (m_emails m) in
      let emails2 := alter (add_child emid) j emails1 in
      Ok {| m_emails := emails2;
            m_index := <[emid := i]> (m_index m);
            m_matched := S (m_matched m);
            m_unmatched := m_unmatched m;
            m_prevented := (m_prevented m + cycles)%nat |}
  | _, _ => Ok m
  end.

(** The body of [for email in emails]. *)
Definition match_one (by_subject : list (string * list nat)) (m : matcher) (i : nat)
    : result matcher :=
  match m_emails m !! i with
  | None => Ok m
  | Some orphan =>
      if decide (orphan_status orphan = Some orphan_reply) then
        let norm_subj := norm_subj_of orphan in
        if String.eqb norm_subj "" then Ok (count_unmatched 0 m)
        else
          let same_subject := alist_get norm_subj by_subject in
          if (List.length same_subject <=? 1)%nat then Ok (count_unmatched 0 m)
          else
            let orphan_date := parse_date (date_parsed orphan) in
            do c <- for_each (consider (m_emails m) (m_index m) orphan orphan_date)
                      same_subject
                      {| best_parent := None; best_score := -1; cycles_seen := O |};
            match best_parent c with
            | Some j => link_orphan m i j (best_score c) (cycles_seen c)
            | None => Ok (count_unmatched (cycles_seen c) m)
            end
      else Ok m
  end.

Definition match_orphans_run (emails : list email) : result matcher :=
  do _ <- build_by_id emails;
  for_each (match_one (sorted_by_subject emails)) (positions emails)
    {| m_emails := emails; m_index := build_index emails;
       m_matched := O; m_unmatched := O; m_prevented := O |}.

(** The records written to threading_step3.json. *)
Definition match_orphans_output (emails : list email) : result (list email) :=
  do m <- match_orphans_run emails; Ok (m_emails m).

(** The whole function: the summary divides by [orphans_before]. *)
Definition match_orphans (emails : list email) : result matcher :=
  let orphans_before := count_status orphan_reply emails in
  do m <- match_orphans_run emails;
  do _ <- py_div (100 * m_matched m) orphans_before;
  Ok m.

(** *** Step 3b: the Quote Matcher (threading_step3b_quotes.py) *)

(** The lines of one body added to [body_index]. *)
Definition index_body (acc : gmap string (list pyid)) (e : email)
    : result (gmap string (list pyid)) :=
  match nonempty (body e) with
  | None => Ok acc
  | Some b =>
      if (String.length b <? 50)%nat then Ok acc
      else
        for_each
          (fun acc line =>
             let l := strip line in
             if (30 <? String.length l)%nat then
               let normalized := normalize_for_matching l in
               if (20 <? String.length normalized)%nat then
                 do k <- subscript (id e);
                 Ok (<[normalized := default [] (acc !! normalized) ++ [k]]> acc)
               else Ok acc
             else Ok acc)
          (split_on newline b) acc
  end.

Definition build_body_index (emails : list email) : result (gmap string (list pyid)) :=
  for_each index_body emails ∅.

(** The true roots with quoted text, with their quoted lines. *)
Definition quote_candidates (emails : list email) : list (nat * list string) :=
  omap
    (fun i =>
       match emails !! i with
       | Some e =>
           if decide (orphan_status e = Some true_root) then
             match extract_quoted_lines (body e) with
             | [] => None
             | ql => Some (i, ql)
             end
           else None
       | None => None
       end)
    (positions emails).

Definition day_bonus (days_apart : Z) : Z :=
  if days_apart <? 1 then 5
  else if days_apart <? 7 then 3
  else if days_apart <? 30 then 1
  else 0.

Definition score_source (norm_subj : string) (email_date source_date : option Z)
    (source : email) : Z :=
  let source_subj := norm_subj_of source in
  1
  + (if String.eqb source_subj norm_subj then 10
     else if is_substring norm_subj source_subj || is_substring source_subj norm_subj
          then 5 else 0)
  + match email_date, source_date with
    | Some ed, Some sd => day_bonus (days_of (ed - sd))
    | _, _ => 0
    end.

(** The body of [for source_id in potential_sources]. *)
Definition consider_source (emails : list email) (by_id : gmap pyid nat)
    (quoting : email) (email_date : option Z) (acc : option nat * Z)
    (source_id : pyid) : result (option nat * Z) :=
  match by_id !! source_id with
  | None => Ok acc
  | Some j =>
      match emails !! j with
      | None => Ok acc
      | Some source =>
          do sid <- subscript (id source);
          do eid <- subscript (id quoting);
          if decide (sid = eid) then Ok acc
          else
            let source_date := parse_date (date_parsed source) in
            if not_earlier email_date source_date then Ok acc
            else
              let score :=
                score_source (norm_subj_of quoting) email_date source_date source in
              if acc.2 <? score then Ok (Some j, score) else Ok acc
      end
  end.

(** The body of [for quoted_line in quoted_lines[:5]]. *)
Definition consider_quote (emails : list email) (by_id : gmap pyid nat)
    (body_index : gmap string (list pyid)) (quoting : email)
    (email_date : option Z) (acc : option nat * Z) (quoted_line : string)
    : result (option nat * Z) :=
  let normalized_quote := normalize_for_matching quoted_line in
  if (String.length normalized_quote <? 20)%nat then Ok acc
  else
    for_each (consider_source emails by_id quoting email_date)
      (default [] (body_index !! normalized_quote)) acc.

(** The emails with the same subject or, when there is at most one, with a
    subject that contains it or is contained in it. *)
Definition same_or_similar (by_subject : list (string * list nat)) (norm_subj : string)
    : list nat :=
  let same_subject := alist_get norm_subj by_subject in
  if (List.length same_subject <=? 1)%nat then
    List.concat
      ((fun kl =>
          if is_substring norm_subj kl.1 || is_substring kl.1 norm_subj
          then kl.2 else [])
         <$> by_subject)
  else same_subject.

Definition count_prevented (m : matcher) : matcher :=
  {| m_emails := m_emails m; m_index := m_index m; m_matched := m_matched m;
     m_unmatched := m_unmatched m; m_prevented := S (m_prevented m) |}.

(** The guarded link shared by steps 3b and 3c:
    [mark] sets the status and the score of the child. *)
Definition link_guarded (mark : email -> email) (m : matcher) (i j : nat)
    : result matcher :=
  match m_emails m !! i, m_emails m !! j with
  | Some child, Some parent =>
      do cmid <- subscript (message_id child);
      do pmid <- subscript (message_id parent);
      if would_create_cycle (deref (m_emails m) (m_index m)) cmid pmid
      then Ok (count_prevented m)
      else
        let emails1 := <[i := mark (set_parent_id pmid child)]> (m_emails m) in
        let emails2 := alter (add_child_created cmid) j emails1 in
        Ok {| m_emails := emails2;
              m_index := <[cmid := i]> (m_index m);
              m_matched := S (m_matched m);
              m_unmatched := m_unmatched m;
              m_prevented := m_prevented m |}
  | _, _ => Ok m
  end.

(** The body of [for email, quoted_lines in candidates]. *)
Definition match_quote_one (by_subject : list (string * list nat))
    (by_id : gmap pyid nat) (body_index : gmap string (list pyid))
    (m : matcher) (cand : nat * list string) : result matcher :=
  let '(i, quoted_lines) := cand in
  match m_emails m !! i with
  | None => Ok m
  | Some quoting =>
      let norm_subj := norm_subj_of quoting in
      let email_date := parse_date (date_parsed quoting) in
      if String.eqb norm_subj "" then Ok m
      else
        match same_or_similar by_subject norm_subj with
        | [] => Ok (count_unmatched 0 m)
        | _ :: _ =>
            do best <- for_each
                         (consider_quote (m_emails m) by_id body_index quoting email_date)
                         (take 5 quoted_lines) (None, 0);
            match best.1 with
            | Some j =>
                link_guarded
                  (fun e => set_quote_match_score (Some best.2)
                              (set_orphan_status (Some matched_by_quote) e))
                  m i j
            | None => Ok (count_unmatched 0 m)
            end
        end
  end.

Definition match_by_quotes_run (emails : list email) : result matcher :=
  do by_id <- build_by_id emails;
  do body_index <- build_body_index emails;
  for_each
    (match_quote_one (group_by_subject (fun _ => true) emails) by_id body_index)
    (quote_candidates emails)
    {| m_emails := emails; m_index := build_index emails;
       m_matched := O; m_unmatched := O; m_prevented := O |}.

(** The records written to threading_step3b.json. *)
Definition match_by_quotes_output (emails : list email) : result (list email) :=
  do m <- match_by_quotes_run emails; Ok (m_emails m).

(** *** Step 3c: the Time-Proximity Merger (threading_step3c_timeprox.py) *)

Definition is_mergeable_root (e : email) : bool :=
  bool_decide (orphan_status e = Some true_root)
  && (3 <? String.length (norm_subj_of e))%nat.

(** [multi_root_subjects], in the order in which the subjects first occur. *)
Definition multi_root_subjects (emails : list email) : list (string * list nat) :=
  filter (fun kl => (1 < List.length kl.2)%nat)
    (group_by_subject is_mergeable_root emails).

(** [roots_with_dates] of one group, sorted by date. *)
Definition roots_with_dates (emails : list email) (roots : list nat)
    : list (nat * Z) :=
  stable_sort (fun a b => a.2 <=? b.2)
    (omap
       (fun r =>
          match emails !! r with
          | Some e => (fun dt => (r, dt)) <$> parse_date (date_parsed e)
          | None => None
          end)
       roots).

(** The state of the walk over one group: the phase state and the
    canonical root with its date. *)
Record walk := Walk {
  w_state : matcher;
  canonical_root : nat;
  canonical_date : Z
}.

(** The body of [for later_root, later_date in roots_with_dates[1:]];
    [m_unmatched] counts [too_far_apart]. *)
Definition walk_step (max_days : Z) (w : walk) (later : nat * Z) : result walk :=
  let '(later_root, later_date) := later in
  let days_apart := days_of (later_date - canonical_date w) in
  if max_days <? days_apart then
    Ok {| w_state := count_unmatched 0 (w_state w);
          canonical_root := later_root;
          canonical_date := later_date |}
  else
    do m <- link_guarded
              (fun e => set_time_proximity_days (Some days_apart)
                          (set_orphan_status (Some matched_by_time_proximity) e))
              (w_state w) later_root (canonical_root w);
    Ok {| w_state := m;
          canonical_root := canonical_root w;
          canonical_date := canonical_date w |}.

(** The body of [for norm_subj, roots in multi_root_subjects.items()]. *)
Definition merge_group (max_days : Z) (m : matcher) (group : string * list nat)
    : result matcher :=
  match roots_with_dates (m_emails m) group.2 with
  | (r0, d0) :: ((_ :: _) as rest) =>
      do w <- for_each (walk_step max_days) rest
                {| w_state := m; canonical_root := r0; canonical_date := d0 |};
      Ok (w_state w)
  | _ => Ok m
  end.

Definition merge_by_time_proximity_run (max_days : Z) (emails : list email)
    : result matcher :=
  for_each (merge_group max_days) (multi_root_subjects emails)
    {| m_emails := emails; m_index := build_index emails;
       m_matched := O; m_unmatched := O; m_prevented := O |}.

(** The records written to threading_step3c.json. *)
Definition merge_by_time_proximity_output (max_days : Z) (emails : list email)
    : result (list email) :=
  do m <- merge_by_time_proximity_run max_days emails; Ok (m_emails m).

(** *** Step 4: the Thread Assembler (threading_step4.py) *)

(** [get_thread_messages]: the record at [root] with its depth, then the
    messages under each child that the index resolves.  [fuel] is the
    number of nested calls still allowed. *)
Fixpoint get_thread_messages (fuel : nat) (emails : list email)
    (idx : gmap pyid nat) (root : nat) (d : nat) : result (list (nat * nat)) :=
  match fuel with
  | O => Raise RecursionError
  | S fuel' =>
      do below <-
        (fix children (cs : list pyid) : result (list (nat * nat)) :=
           match cs with
           | [] => Ok []
           | c :: cs' =>
               do here <- match idx !! c with
                          | Some j => get_thread_messages fuel' emails idx j (S d)
                          | None => Ok []
                          end;
               do more <- children cs';
               Ok (here ++ more)
           end)
          (default [] (emails !! root ≫= children_ids));
      Ok ((root, d) :: below)
  end.

(** [parse_date(e.get('date_parsed')) or datetime.min] *)
Definition thread_sort_key (emails : list email) (m : nat * nat) : Z :=
  default datetime_min (emails !! m.1 ≫= fun e => parse_date (date_parsed e)).

Definition member (emails : list email) (m : nat * nat) : option email :=
  emails !! m.1.

(** The thread record of one root and the members in date order. *)
Definition assemble (emails : list email) (idx : gmap pyid nat) (root : nat)
    : result (thread * list (nat * nat)) :=
  do unsorted <- get_thread_messages recursion_limit emails idx root O;
  let thread_messages :=
    stable_sort
      (fun a b => thread_sort_key emails a <=? thread_sort_key emails b)
      unsorted in
  let members := omap (member emails) thread_messages in
  do ids <- map_result (fun e => subscript (id e)) members;
  let people : gset string := list_to_set (omap sender members) in
  let dates := omap (fun e => parse_date (date_parsed e)) members in
  match emails !! root with
  | None => Ok ({| t_id := ""; root_message_id := None; t_subject := None;
                   t_normalized_subject := None; message_ids := [];
                   message_count := O; participants := []; participant_count := O;
                   date_start := None; date_end := None; depth := O;
                   root_author := None; t_has_pgp := false |}, [])
  | Some root_email =>
      do rid <- subscript (id root_email);
      Ok ({| t_id := "thread_" +:+ py_str rid;
             root_message_id := rid;
             t_subject := subject root_email;
             t_normalized_subject := normalized_subject root_email;
             message_ids := ids;
             message_count := List.length ids;
             participants := elements people;
             participant_count := List.length (elements people);
             date_start := min_of dates;
             date_end := max_of dates;
             depth := foldr Nat.max O (snd <$> thread_messages);
             root_author := sender root_email;
             t_has_pgp := existsb has_pgp members |},
          thread_messages)
  end.

(** The body of [for i, root in enumerate(roots)]: the thread is appended
    and every member is stamped. *)
Definition thread_step (idx : gmap pyid nat) (acc : list email * list thread)
    (root : nat) : result (list email * list thread) :=
  let '(emails, threads) := acc in
  do tm <- assemble emails idx root;
  let '(t, thread_messages) := tm in
  Ok (fold_left (fun es m => alter (set_thread_id (Some (t_id t))) m.1 es)
        thread_messages emails,
      threads ++ [t]).

(** [[e for e in emails if e.get('parent_id') is None]] *)
Definition thread_roots (emails : list email) : list nat :=
  filter (fun i => emails !! i ≫= parent_id = None) (positions emails).

(** The records and the threads written by step 4. *)
Definition build_threads (emails : list email) : result (list email * list thread) :=
  do _ <- build_by_id emails;
  for_each (thread_step (build_index emails)) (thread_roots emails) (emails, []).

(** ** Notions used in the statements *)

(** The record has the two keys that the phases read with a subscript. *)
Definition well_keyed (e : email) : Prop :=
  id e ≠ Absent ∧ message_id e ≠ Absent.

Global Instance well_keyed_dec e : Decision (well_keyed e).
Proof. unfold well_keyed. apply _. Defined.

(** The candidate at position [j] can become the parent of the orphan: it is
    another record, it is not known to be no earlier than the orphan, and
    the link would not close a cycle. *)
Definition eligible (emails : list email) (idx : gmap pyid nat) (orphan : email)
    (j : nat) : bool :=
  match emails !! j with
  | None => false
  | Some candidate =>
      negb (bool_decide (get (id candidate) = get (id orphan)))
      && negb (not_earlier (parse_date (date_parsed orphan))
                 (parse_date (date_parsed candidate)))
      && negb (would_create_cycle (deref emails idx)
                 (get (message_id orphan)) (get (message_id candidate)))
  end.

(** The score of the candidate at position [j] for the orphan. *)
Definition candidate_score (emails : list email) (orphan : email) (j : nat) : Z :=
  match emails !! j with
  | None => 0
  | Some candidate =>
      score_candidate (parse_date (date_parsed orphan))
        (parse_date (date_parsed candidate)) candidate
  end.

(** [e'] is [e] but for its [children_ids], which were only extended. *)
Definition grown (e e' : email) : Prop :=
  e' = set_children_ids (children_ids e') e
  ∧ default [] (children_ids e) `prefix_of` default [] (children_ids e').

(** What the loop over the candidates has found after the candidates
    [seen]: nothing when none of them is eligible, else the first of the
    eligible candidates with the highest score. *)
Definition chosen (emails : list email) (idx : gmap pyid nat) (orphan : email)
    (seen : list nat) (acc : choice) : Prop :=
  match best_parent acc with
  | None =>
      best_score acc = -1
      ∧ ∀ k, k ∈ seen -> eligible emails idx orphan k = false
  | Some j =>
      eligible emails idx orphan j = true
      ∧ best_score acc = candidate_score emails orphan j
      ∧ ∃ l1 l2, seen = l1 ++ j :: l2
          ∧ (∀ k, k ∈ l1 -> eligible emails idx orphan k = true ->
                  candidate_score emails orphan k < candidate_score emails orphan j)
          ∧ (∀ k, k ∈ l2 -> eligible emails idx orphan k = true ->
                  candidate_score emails orphan k <= candidate_score emails orphan j)
  end.

(** The two records are the same message: they differ at most in the keys
    that the threading phases assign. *)
Definition same_message (e e' : email) : Prop :=
  id e = id e' ∧ message_id e = message_id e' ∧ in_reply_to e = in_reply_to e'
  ∧ subject e = subject e' ∧ normalized_subject e = normalized_subject e'
  ∧ date_parsed e = date_parsed e' ∧ date_raw e = date_raw e'
  ∧ from_email e = from_email e' ∧ from_raw e = from_raw e'
  ∧ body e = body e' ∧ has_pgp e = has_pgp e'.

(** The state in which the Subject Matcher starts. *)
Definition matcher_start (emails : list email) : matcher :=
  {| m_emails := emails; m_index := build_index emails;
     m_matched := O; m_unmatched := O; m_prevented := O |}.

(** The store after the record at [i] became [child'] and its message id
    was added to the children of the record at [j]. *)
Definition linked (emails : list email) (i j : nat) (child' : email) (cmid : pyid)
    : list email :=
  alter (add_child cmid) j (<[i := child']> emails).

(** The orphan once it is matched by subject. *)
Definition matched_orphan (orphan candidate : email) (score : Z) : email :=
  set_match_score (Some score)
    (set_orphan_status (Some matched_by_subject)
       (set_parent_id (get (message_id candidate)) orphan)).

(** One step of a matching phase either leaves the store and the index as
    they are, or links the record at [i] under the record at [j] after the
    cycle guard has accepted the link. *)
Definition guarded_link (m m' : matcher) : Prop :=
  ∃ i j child cand child',
    m_emails m !! i = Some child ∧ m_emails m !! j = Some cand
    ∧ would_create_cycle (deref (m_emails m) (m_index m))
        (get (message_id child)) (get (message_id cand)) = false
    ∧ same_message child child'
    ∧ parent_id child' = get (message_id cand)
    ∧ children_ids child' = children_ids child
    ∧ m_emails m' = linked (m_emails m) i j child' (get (message_id child))
    ∧ m_index m' = <[get (message_id child) := i]> (m_index m).

Definition phase_step (m m' : matcher) : Prop :=
  (m_emails m' = m_emails m ∧ m_index m' = m_index m) ∨ guarded_link m m'.

(** A record that is not an orphan reply keeps every key but
    [children_ids], which is only extended. *)
Definition kept_unless_orphan (e e' : email) : Prop :=
  orphan_status e ≠ Some orphan_reply -> grown e e'.

(** The [in_reply_to] of the record names a message of the archive. *)
Definition resolves (emails : list email) (e : email) : bool :=
  truthy (in_reply_to e)
  && bool_decide (is_Some (build_index emails !! in_reply_to e)).

(** The later root once it is merged under the canonical root. *)
Definition merged_root (days_apart : Z) (canonical later : email) : email :=
  set_time_proximity_days (Some days_apart)
    (set_orphan_status (Some matched_by_time_proximity)
       (set_parent_id (get (message_id canonical)) later)).

(** The walk over a sorted group as the specification words it: every
    member after the first is compared with the canonical root of the
    moment; it is either in the window of [max_days] whole days, or it
    becomes the canonical root for the members that follow. *)
Inductive verdict := InWindow | NewCanonical.

Fixpoint assign_canonical (max_days : Z) (canonical : nat * Z)
    (rest : list (nat * Z)) : list (nat * Z * (nat * Z) * verdict) :=
  match rest with
  | [] => []
  | later :: rest' =>
      if max_days <? days_of (later.2 - canonical.2)
      then (later, canonical, NewCanonical) :: assign_canonical max_days later rest'
      else (later, canonical, InWindow) :: assign_canonical max_days canonical rest'
  end.

(** The state in which a matching phase starts. *)
Definition phase_start (emails : list email) : matcher := matcher_start emails.

(** The loop over the children inside [get_thread_messages]. *)
Definition thread_children (fuel : nat) (emails : list email) (idx : gmap pyid nat)
    (d : nat) : list pyid -> result (list (nat * nat)) :=
  fix children (cs : list pyid) : result (list (nat * nat)) :=
    match cs with
    | [] => Ok []
    | c :: cs' =>
        do here <- match idx !! c with
                   | Some j => get_thread_messages fuel emails idx j (S d)
                   | None => Ok []
                   end;
        do more <- children cs';
        Ok (here ++ more)
    end.

(** The children relation goes down a ranking: it has no cycle, and a
    traversal from a record of rank [r] nests at most [r + 1] calls. *)
Definition ranked (emails : list email) (idx : gmap pyid nat) (rank : nat -> nat) : Prop :=
  ∀ i e c j, emails !! i = Some e -> c ∈ default [] (children_ids e) ->
             idx !! c = Some j -> (rank j < rank i)%nat.

(** [e'] is [e] with a [thread_id] stamped on it. *)
Definition stamped (e e' : email) : Prop := e' = set_thread_id (thread_id e') e.

(** The dictionary that every phase builds from the records it reads. *)
Definition by_message_id_of (emails : list email) : gmap pyid email :=
  deref emails (build_index emails).

(** The walk along [parent_id] from [a] ends in a record without parent:
    every id on the way is held by the dictionary. *)
Inductive rooted (d : gmap pyid email) : pyid -> Prop :=
  | rooted_end a : truthy a = false -> rooted d a
  | rooted_step a e : d !! a = Some e -> rooted d (parent_id e) -> rooted d a.

(** The number of [parent_id] pointers followed from [current_id] to a
    record without parent; nothing when the walk meets an id that the
    dictionary does not hold, or needs more than [fuel] steps. *)
Fixpoint chain_length (d : gmap pyid email) (fuel : nat) (current_id : pyid)
    : option nat :=
  if truthy current_id then
    match fuel, d !! current_id with
    | S fuel', Some e => S <$> chain_length d fuel' (parent_id e)
    | _, _ => None
    end
  else Some O.

(** The walk from a record, with one step for each record of the store. *)
Definition hops_to_root (emails : list email) (e : email) : option nat :=
  chain_length (by_message_id_of emails) (List.length emails) (parent_id e).

(** Acyclicity: from every record the walk reaches a root in at most as
    many steps as there are records. *)
Definition forest (emails : list email) : Prop :=
  ∀ e, e ∈ emails -> ∃ n, hops_to_root emails e = Some n ∧ (n <= List.length emails)%nat.

(** The message ids that are not empty are pairwise different. *)
Definition unique_ids (emails : list email) : Prop :=
  NoDup (filter (fun k => truthy k = true) ((fun e => get (message_id e)) <$> emails)).

(** The records with their [in_reply_to] in the place of [parent_id]. *)
Definition replies (emails : list email) : list email :=
  (fun e => set_parent_id (in_reply_to e) e) <$> emails.

(** No chain of [in_reply_to] references comes back to a message of the
    chain: the walk along the references stops from every record. *)
Definition replies_end (emails : list email) : Prop :=
  Forall (fun e => terminates (by_message_id_of (replies emails)) (in_reply_to e)) emails.

(** Two stores with the same message ids and the same parents. *)
Definition same_links (emails emails' : list email) : Prop :=
  Forall2 (fun e e' => message_id e' = message_id e ∧ parent_id e' = parent_id e)
    emails emails'.

(** What a matching phase keeps while it runs on the records [emails0]:
    the message ids, the entries of the index for the non-empty ids, and
    the walks from the parents, which end in a root. *)
Definition link_inv (emails0 : list email) (m : matcher) : Prop :=
  Forall2 (fun e e' => message_id e' = message_id e) emails0 (m_emails m)
  ∧ (∀ k, truthy k = true -> m_index m !! k = build_index emails0 !! k)
  ∧ (∀ e, e ∈ m_emails m -> rooted (deref (m_emails m) (m_index m)) (parent_id e)).

(** Acyclicity, checked by running the walk from every record. *)
Definition forestb (emails : list email) : bool :=
  forallb (fun e => match hops_to_root emails e with Some _ => true | None => false end)
    emails.

(** The members of a group: the positions of the kept records with that
    subject, in the order of the archive. *)
Definition in_group (keep : email -> bool) (emails : list email) (k : string)
    (i : nat) : bool :=
  match emails !! i with
  | Some e => keep e && negb (String.eqb (norm_subj_of e) "")
              && String.eqb (norm_subj_of e) k
  | None => false
  end.

(** The marking of a linked child changes neither what message it is nor
    its links. *)
Definition mark_ok (mark : email -> email) : Prop :=
  ∀ e, same_message e (mark e) ∧ parent_id (mark e) = parent_id e
       ∧ children_ids (mark e) = children_ids e.

(** Every member of a thread already emitted carries the identifier of a
    thread that holds it. *)
Definition stamps_of (emails0 : list email) (idx : gmap pyid nat)
    (roots : list nat) (out : list email) : Prop :=
  ∀ r t tm p e,
    r ∈ roots -> assemble emails0 idx r = Ok (t, tm) -> p ∈ tm.*1 -> out !! p = Some e ->
    ∃ r' t' tm', r' ∈ roots ∧ assemble emails0 idx r' = Ok (t', tm')
                 ∧ p ∈ tm'.*1 ∧ thread_id e = Some (t_id t').

(** The answer of the cycle guard, in the state [w] of the walk, to the
    link of [child] under [parent]. *)
Definition guard_at (w : walk) (child parent : email) : bool :=
  would_create_cycle (deref (m_emails (w_state w)) (m_index (w_state w)))
    (get (message_id child)) (get (message_id parent)).

(** ** Notions used in the further properties *)

(** The records whose [in_reply_to] is [p] and resolves, in the order of
    the archive. *)
Definition replies_to (raw : list email) (p : pyid) : list email :=
  filter (fun r => resolves raw r && bool_decide (in_reply_to r = p) = true) raw.

(** The records with message id [m] whose [in_reply_to] resolves. *)
Definition carrying (raw : list email) (m : pyid) : list email :=
  filter (fun r => resolves raw r && bool_decide (get (message_id r) = m) = true) raw.

(** One prefix of the normalizer is removed from [s], which leaves [t]. *)
Definition peels (s t : string) : Prop :=
  ∃ p r, p ∈ prefixes ∧ match_prefix p s = Some r ∧ t = strip r.

(** [e'] is [e] as the Orphan Classifier leaves it: the normalized subject,
    the status and, for an orphan reply, the kind of orphan are set, and no
    other key is touched. *)
Definition classified_from (e e' : email) : Prop :=
  normalized_subject e' = Some (normalize_subject (subject e))
  ∧ orphan_status e'
    = Some (if bool_decide (is_Some (parent_id e)) then has_parent
            else if is_reply_subject (subject e) then orphan_reply
            else true_root)
  ∧ orphan_type e'
    = (if negb (bool_decide (is_Some (parent_id e))) && is_reply_subject (subject e)
       then Some (if bool_decide (is_Some (in_reply_to e))
                  then "in_reply_to_unmatched" else "no_in_reply_to")
       else orphan_type e)
  ∧ set_orphan_type (orphan_type e)
      (set_orphan_status (orphan_status e)
         (set_normalized_subject (normalized_subject e) e')) = e.

(** The number of entries [Some s] of a list of statuses. *)
Definition status_count (s : status) (l : list (option status)) : nat :=
  List.length (filter (fun o => o = Some s) l).

(** The status of a record after a matching phase that marks with [mark]:
    it is kept, or it went from [from] to [mark]. *)
Definition status_moved (from mark : status) (e e' : email) : Prop :=
  orphan_status e' = orphan_status e
  ∨ (orphan_status e = Some from ∧ orphan_status e' = Some mark).

(** Every character of [s] satisfies [P]. *)
Fixpoint string_forall (P : ascii -> bool) (s : string) : bool :=
  match s with
  | EmptyString => true
  | String c s' => P c && string_forall P s'
  end.

(** The characters of a matching key: a lower-case letter, a digit, an
    underscore or a space. *)
Definition key_char (c : ascii) : bool :=
  (isword c && negb (isupper c)) || Ascii.eqb c " ".

(** *** Step 3 before the cycle guard (threading_step3.py)

    [match_orphans] of threading_step3.py is the Subject Matcher without
    [would_create_cycle]: the loop over the candidates has no guard, and
    [by_message_id] is built but neither read nor updated.  The definitions
    carry the suffix [step3] because threading_step3_fixed.py uses the same
    names. *)

(** The body of [for candidate in same_subject]. *)
Definition consider_step3 (emails : list email) (orphan : email)
    (orphan_date : option Z) (acc : choice) (j : nat) : result choice :=
  match emails !! j with
  | None => Ok acc
  | Some candidate =>
      do cid <- subscript (id candidate);
      do eid <- subscript (id orphan);
      if decide (cid = eid) then Ok acc
      else
        let cand_date := parse_date (date_parsed candidate) in
        if not_earlier orphan_date cand_date then Ok acc
        else
          let score := score_candidate orphan_date cand_date candidate in
          if best_score acc <? score then
            Ok {| best_parent := Some j; best_score := score;
                  cycles_seen := cycles_seen acc |}
          else Ok acc
  end.

(** The assignments made when [best_parent] is found. *)
Definition link_orphan_step3 (m : matcher) (i j : nat) (score : Z) : result matcher :=
  match m_emails m !! i, m_emails m !! j with
  | Some orphan, Some parent =>
      do pmid <- subscript (message_id parent);
      do emid <- subscript (message_id orphan);
      let orphan' :=
        set_match_score (Some score)
          (set_orphan_status (Some matched_by_subject)
             (set_parent_id pmid orphan)) in
      let emails1 := <[i := orphan']> (m_emails m) in
      let emails2 := alter (add_child emid) j emails1 in
      Ok {| m_emails := emails2;
            m_index := m_index m;
            m_matched := S (m_matched m);
            m_unmatched := m_unmatched m;
            m_prevented := m_prevented m |}
  | _, _ => Ok m
  end.

(** The body of [for email in emails]. *)
Definition match_one_step3 (by_subject : list (string * list nat)) (m : matcher)
    (i : nat) : result matcher :=
  match m_emails m !! i with
  | None => Ok m
  | Some orphan =>
      if decide (orphan_status orphan = Some orphan_reply) then
        let norm_subj := norm_subj_of orphan in
        if String.eqb norm_subj "" then Ok (count_unmatched 0 m)
        else
          let same_subject := alist_get norm_subj by_subject in
          if (List.length same_subject <=? 1)%nat then Ok (count_unmatched 0 m)
          else
            let orphan_date := parse_date (date_parsed orphan) in
            do c <- for_each (consider_step3 (m_emails m) orphan orphan_date)
                      same_subject
                      {| best_parent := None; best_score := -1; cycles_seen := O |};
            match best_parent c with
            | Some j => link_orphan_step3 m i j (best_score c)
            | None => Ok (count_unmatched 0 m)
            end
      else Ok m
  end.

Definition match_orphans_run_step3 (emails : list email) : result matcher :=
  do _ <- build_by_id emails;
  for_each (match_one_step3 (sorted_by_subject emails)) (positions emails)
    {| m_emails := emails; m_index := build_index emails;
       m_matched := O; m_unmatched := O; m_prevented := O |}.

(** Two states of the Subject Matcher with the same records and the same
    counts of matched and unmatched orphans. *)
Definition same_matching (m m' : matcher) : Prop :=
  m_emails m = m_emails m' ∧ m_matched m = m_matched m'
  ∧ m_unmatched m = m_unmatched m'.

(** [e'] is [e] but for its list of children. *)
Definition kept_but_children (e e' : email) : Prop :=
  set_children_ids (children_ids e) e' = e.

(** [e'] is the true root [e] at position [i] once the Time-Proximity
    Merger has linked it: its parent is another true root of the archive
    with the same normalized subject, longer than 3 characters, dated no
    later, and the number of whole days between them, which is at most
    [max_days], is recorded. *)
Definition merged_under (max_days : Z) (emails : list email) (i : nat)
    (e e' : email) : Prop :=
  orphan_status e = Some true_root ∧ (3 < String.length (norm_subj_of e))%nat
  ∧ ∃ j c d dc,
      j ≠ i ∧ emails !! j = Some c ∧ orphan_status c = Some true_root
      ∧ norm_subj_of c = norm_subj_of e
      ∧ parse_date (date_parsed e) = Some d ∧ parse_date (date_parsed c) = Some dc
      ∧ dc <= d ∧ 0 <= days_of (d - dc) <= max_days
      ∧ orphan_status e' = Some matched_by_time_proximity
      ∧ parent_id e' = get (message_id c)
      ∧ time_proximity_days e' = Some (days_of (d - dc)).

(** A dated true root of the subject [subj]: the position and the date. *)
Definition dated_root (emails : list email) (subj : string) (x : nat * Z) : Prop :=
  ∃ e, emails !! x.1 = Some e ∧ orphan_status e = Some true_root
       ∧ norm_subj_of e = subj ∧ (3 < String.length subj)%nat
       ∧ parse_date (date_parsed e) = Some x.2.

(** What the Time-Proximity Merger has made of the records [emails]. *)
Definition merger_post (max_days : Z) (emails store : list email) : Prop :=
  Forall2 same_message emails store
  ∧ ∀ i e e', emails !! i = Some e -> store !! i = Some e' ->
      kept_but_children e e' ∨ merged_under max_days emails i e e'.

(** A record of [emails] with identifier [k] holds, in a body of at least
    50 characters, a line of more than 30 characters with the matching key
    of the quoted line [q], a key of at least 20 characters. *)
Definition quoted_from (emails : list email) (q : string) (k : pyid) : Prop :=
  (20 <= String.length (normalize_for_matching q))%nat
  ∧ ∃ src b line,
      src ∈ emails ∧ get (id src) = k ∧ nonempty (body src) = Some b
      ∧ (50 <= String.length b)%nat ∧ line ∈ split_on newline b
      ∧ (30 < String.length (strip line))%nat
      ∧ normalize_for_matching (strip line) = normalize_for_matching q.

(** [e'] is the true root [e] once the Quote Matcher has linked it: its
    parent [c] has another identifier, is not known to be dated at or after
    [e], and one of the first five quoted lines of [e] is a line of a
    record with the identifier of [c]; the score is recorded. *)
Definition matched_quote (emails : list email) (e e' : email) : Prop :=
  orphan_status e = Some true_root ∧ norm_subj_of e ≠ ""
  ∧ ∃ c q,
      c ∈ emails ∧ get (id c) ≠ get (id e)
      ∧ q ∈ take 5 (extract_quoted_lines (body e))
      ∧ quoted_from emails q (get (id c))
      ∧ not_earlier (parse_date (date_parsed e)) (parse_date (date_parsed c)) = false
      ∧ 1 <= score_source (norm_subj_of e) (parse_date (date_parsed e))
                (parse_date (date_parsed c)) c <= 16
      ∧ orphan_status e' = Some matched_by_quote
      ∧ parent_id e' = get (message_id c)
      ∧ quote_match_score e' =
          Some (score_source (norm_subj_of e) (parse_date (date_parsed e))
                  (parse_date (date_parsed c)) c).

(** What the Quote Matcher has made of the records [emails]. *)
Definition quote_post (emails store : list email) : Prop :=
  Forall2 same_message emails store
  ∧ ∀ i e e', emails !! i = Some e -> store !! i = Some e' ->
      kept_but_children e e' ∨ matched_quote emails e e'.

(** The best source found so far for the record [quoting], among the
    sources of the quoted lines [qs]. *)
Definition best_source (emails0 store : list email) (quoting : email)
    (qs : list string) (acc : option nat * Z) : Prop :=
  acc = (None, 0)
  ∨ ∃ j source q,
      acc.1 = Some j ∧ store !! j = Some source
      ∧ get (id source) ≠ get (id quoting)
      ∧ q ∈ qs ∧ quoted_from emails0 q (get (id source))
      ∧ not_earlier (parse_date (date_parsed quoting))
          (parse_date (date_parsed source)) = false
      ∧ acc.2 = score_source (norm_subj_of quoting) (parse_date (date_parsed quoting))
                  (parse_date (date_parsed source)) source.

(** *** The statistics of step 4 (threading_step4.py, build_threads)

    The counts that the function derives from the threads it has built:
    [single_message_threads], [multi_message_threads],
    [max_messages_in_thread] and [thread_size_distribution]. *)

(** [sum(1 for t in threads if t['message_count'] == 1)] *)
Definition single_message_threads (threads : list thread) : nat :=
  List.length (filter (fun t => message_count t = 1%nat) threads).

(** [sum(1 for t in threads if t['message_count'] > 1)] *)
Definition multi_message_threads (threads : list thread) : nat :=
  List.length (filter (fun t => (1 < message_count t)%nat) threads).

(** [max(t['message_count'] for t in threads) if threads else 0] *)
Definition max_messages_in_thread (threads : list thread) : nat :=
  foldr Nat.max O (message_count <$> threads).

(** [size_dist[k] += 1] on a [defaultdict(int)]; the keys stay in the
    order in which they were first counted. *)
Fixpoint bump (k : string) (d : list (string * nat)) : list (string * nat) :=
  match d with
  | [] => [(k, 1%nat)]
  | (k', n) :: d' =>
      if String.eqb k' k then (k', S n) :: d' else (k', n) :: bump k d'
  end.

(** [d.get(k, 0)] *)
Fixpoint count_of (k : string) (d : list (string * nat)) : nat :=
  match d with
  | [] => O
  | (k', n) :: d' => if String.eqb k' k then n else count_of k d'
  end.

(** The [if ... elif ... else] chain over [t['message_count']]. *)
Definition size_bucket (n : nat) : string :=
  if (n =? 1)%nat then "1"
  else if (n <=? 5)%nat then "2-5"
  else if (n <=? 10)%nat then "6-10"
  else if (n <=? 25)%nat then "11-25"
  else if (n <=? 50)%nat then "26-50"
  else if (n <=? 100)%nat then "51-100"
  else "100+".

Definition thread_size_distribution (threads : list thread) : list (string * nat) :=
  fold_left (fun d t => bump (size_bucket (message_count t)) d) threads [].

(** The status that the first two steps give to a record of the raw
    archive: [has_parent] when a record with its message id has an
    [in_reply_to] that names a message of the archive, else [orphan_reply]
    for a reply subject and [true_root] for any other. *)
Definition classification (raw : list email) (e : email) : status :=
  if bool_decide (carrying raw (get (message_id e)) ≠ []) then has_parent
  else if is_reply_subject (subject e) then orphan_reply
  else true_root.

(** *** Step 5: the final output (threading_step5.py)

    [create_final_output] reads the threads and the records that step 4
    has written.  A thread is modelled by the keys that the function reads.
    A key read with [get] is [None] when it is absent or null; [id] and
    [message_count], which are subscripted, can be absent; [root_author],
    which step 4 always writes as a string, is [None] when the key is
    absent.  A record is modelled by its [id] and its [year]. *)

Record final_thread := FinalThread {
  ft_id : field;
  ft_date_start : option string;
  ft_year_start : option Z;
  ft_root_author : option string;
  ft_normalized_subject : option string;
  ft_message_count : option nat;
  ft_rank : option nat
}.

Record final_email := FinalEmail {
  fe_id : field;
  fe_year : option Z
}.

(** [thread['rank'] = r] *)
Definition set_rank (r : nat) (t : final_thread) : final_thread :=
  {| ft_id := ft_id t; ft_date_start := ft_date_start t;
     ft_year_start := ft_year_start t; ft_root_author := ft_root_author t;
     ft_normalized_subject := ft_normalized_subject t;
     ft_message_count := ft_message_count t; ft_rank := Some r |}.

(** [t.get('date_start') or '0000'] *)
Definition rank_key (t : final_thread) : string :=
  default "0000" (nonempty (ft_date_start t)).

(** [sorted(threads, key=..., reverse=True)]: the most recent first;
    threads with the same key keep their order. *)
Definition threads_sorted (threads : list final_thread) : list final_thread :=
  stable_sort (fun a b => String.leb (rank_key b) (rank_key a)) threads.

(** [for i, thread in enumerate(threads_sorted): thread['rank'] = i + 1] *)
Definition ranked_threads (threads : list final_thread) : list final_thread :=
  imap (fun i t => set_rank (S i) t) (threads_sorted threads).

(** [t['message_count']] *)
Definition subscript_count (c : option nat) : result nat :=
  match c with
  | Some n => Ok n
  | None => Raise KeyError
  end.

(** The truth value of a year: [None] and [0] are falsy. *)
Definition truthy_year (y : option Z) : option Z :=
  match y with
  | Some 0 => None
  | y => y
  end.

(** [d[k].append(v)] on a [defaultdict(list)]; the keys stay in the order
    in which they were first used. *)
Fixpoint dict_append {K V} (eqb : K -> K -> bool) (k : K) (v : V)
    (d : list (K * list V)) : list (K * list V) :=
  match d with
  | [] => [(k, [v])]
  | (k', vs) :: d' =>
      if eqb k' k then (k', vs ++ [v]) :: d' else (k', vs) :: dict_append eqb k v d'
  end.

(** [d[k] = d.get(k, 0) + 1] *)
Fixpoint dict_count {K} (eqb : K -> K -> bool) (k : K) (d : list (K * nat))
    : list (K * nat) :=
  match d with
  | [] => [(k, 1%nat)]
  | (k', n) :: d' =>
      if eqb k' k then (k', S n) :: d' else (k', n) :: dict_count eqb k d'
  end.

(** The loop that fills [by_year]. *)
Definition index_by_year (threads : list final_thread)
    : result (list (Z * list pyid)) :=
  for_each
    (fun acc t =>
       match truthy_year (ft_year_start t) with
       | Some year => do k <- subscript (ft_id t); Ok (dict_append Z.eqb year k acc)
       | None => Ok acc
       end)
    threads [].

(** [thread.get('root_author', '').lower()] *)
Definition author_of (t : final_thread) : string :=
  lower (default "" (ft_root_author t)).

(** The loop that fills [by_author]. *)
Definition index_by_author (threads : list final_thread)
    : result (list (string * list pyid)) :=
  for_each
    (fun acc t =>
       let author := author_of t in
       if String.eqb author "" then Ok acc
       else do k <- subscript (ft_id t); Ok (dict_append String.eqb author k acc))
    threads [].

(** [sorted(author_thread_counts.items(), key=lambda x: -x[1])[:100]] *)
Definition top_authors (by_author : list (string * list pyid)) : list (string * nat) :=
  take 100
    (stable_sort (fun a b => (b.2 <=? a.2)%nat)
       ((fun kv => (kv.1, List.length kv.2)) <$> by_author)).

(** The loop that fills [subject_index]. *)
Definition index_by_subject (threads : list final_thread)
    : result (list (string * list pyid)) :=
  for_each
    (fun acc t =>
       let norm_subj := default "" (ft_normalized_subject t) in
       if negb (String.eqb norm_subj "") && (3 <? String.length norm_subj)%nat
       then do k <- subscript (ft_id t); Ok (dict_append String.eqb norm_subj k acc)
       else Ok acc)
    threads [].

(** [sorted(by_year.items())]: the years in increasing order. *)
Definition years_sorted {V} (by_year : list (Z * V)) : list (Z * V) :=
  stable_sort (fun a b => a.1 <=? b.1) by_year.

(** The loop that fills [stats['emails_by_year']]. *)
Definition count_emails_by_year (emails : list final_email) : list (Z * nat) :=
  fold_left
    (fun acc e =>
       match truthy_year (fe_year e) with
       | Some year => dict_count Z.eqb year acc
       | None => acc
       end)
    emails [].

(** stats.json; the years are kept as numbers where the file has their
    decimal notation. *)
Record final_stats := FinalStats {
  total_threads : nat;
  total_emails : nat;
  threads_by_year : list (Z * nat);
  emails_by_year : list (Z * nat);
  stats_top_authors : list (string * nat);
  single_message : nat;
  small_2_5 : nat;
  medium_6_25 : nat;
  large_26_100 : nat;
  very_large_100plus : nat;
  unique_normalized_subjects : nat
}.

(** The files that the step writes: threads.json, index_by_year.json,
    index_by_author.json and stats.json (emails.json is the input). *)
Record final_output := FinalOutput {
  out_threads : list final_thread;
  out_year_index : list (Z * list pyid);
  out_author_index : list (string * list pyid);
  out_stats : final_stats
}.

Definition create_final_output (threads : list final_thread)
    (emails : list final_email) : result final_output :=
  let sorted := ranked_threads threads in
  do _ <- for_each (fun _ e => do _ <- subscript (fe_id e); Ok tt) emails tt;
  do by_year <- index_by_year threads;
  do by_author <- index_by_author threads;
  do subject_index <- index_by_subject threads;
  do counts <- map_result (fun t => subscript_count (ft_message_count t)) threads;
  Ok {| out_threads := sorted;
        out_year_index := years_sorted by_year;
        out_author_index :=
          filter (fun kv => (5 <= List.length kv.2)%nat) by_author;
        out_stats :=
          {| total_threads := List.length threads;
             total_emails := List.length emails;
             threads_by_year :=
               (fun kv => (kv.1, List.length kv.2)) <$> years_sorted by_year;
             emails_by_year := count_emails_by_year emails;
             stats_top_authors := take 50 (top_authors by_author);
             single_message :=
               List.length (filter (fun n => n = 1%nat) counts);
             small_2_5 :=
               List.length (filter (fun n => (2 <= n <= 5)%nat) counts);
             medium_6_25 :=
               List.length (filter (fun n => (6 <= n <= 25)%nat) counts);
             large_26_100 :=
               List.length (filter (fun n => (26 <= n <= 100)%nat) counts);
             very_large_100plus :=
               List.length (filter (fun n => (100 < n)%nat) counts);
             unique_normalized_subjects := List.length subject_index |} |}.

(** The loops over the threads subscript [id] for a thread with a year, an
    author or a normalized subject longer than 3 characters. *)
Definition needs_id (t : final_thread) : bool :=
  bool_decide (is_Some (truthy_year (ft_year_start t)))
  || negb (String.eqb (author_of t) "")
  || (negb (String.eqb (default "" (ft_normalized_subject t)) "")
      && (3 <? String.length (default "" (ft_normalized_subject t)))%nat).

(** [d.get(k)] on a dict kept as a list of its items. *)
Fixpoint dict_lookup {K V} (eqb : K -> K -> bool) (k : K) (d : list (K * V))
    : option V :=
  match d with
  | [] => None
  | (k', v) :: d' => if eqb k' k then Some v else dict_lookup eqb k d'
  end.

(** The threads whose root author, in lower case, is [a]. *)
Definition threads_of_author (threads : list final_thread) (a : string)
    : list final_thread :=
  filter (fun t => author_of t = a) threads.

(** The threads that start in the year [y]. *)
Definition threads_of_year (threads : list final_thread) (y : Z)
    : list final_thread :=
  filter (fun t => truthy_year (ft_year_start t) = Some y) threads.

(** [ids] are the ids of [group], in its order. *)
Definition ids_of (group : list final_thread) (ids : list pyid) : Prop :=
  Forall2 (fun t k => ft_id t = Present k) group ids.

(** ** Records of the examples *)

(** A record as the upstream parser writes it: the threading keys are absent. *)
Definition message (i m : string) (reply : pyid) (subj : string)
    (date : option string) : email :=
  {| id := Present (Some i); message_id := Present (Some m); in_reply_to := reply;
     subject := Some subj; normalized_subject := None;
     date_parsed := date; date_raw := None;
     from_email := None; from_raw := None; body := None; has_pgp := false;
     parent_id := None; children_ids := None; is_thread_root := None;
     orphan_status := None; orphan_type := None; match_score := None;
     quote_match_score := None; time_proximity_days := None; thread_id := None |}.

Definition output_of (r : result (list email)) : list email :=
  match r with Ok l => l | Raise _ => [] end.

(** Scenario 1: a message and a reply to it that lost its [in_reply_to]. *)
Definition key_escrow : list email :=
  [message "1" "r1" None "Key escrow" (Some "1993-01-01T10:00:00");
   message "2" "r2" None "Re: Key escrow" (Some "1993-01-02T10:00:00")].

Definition key_escrow_classified : list email :=
  Eval vm_compute in
    output_of (identify_orphans_output (build_thread_trees_output key_escrow)).

(** A message that answers itself, and two messages that answer each
    other. *)
Definition self_reply : list email :=
  [message "1" "a" (Some "a") "Remailer list" None].

Definition mutual_replies : list email :=
  [message "1" "a" (Some "b") "Remailer list" None;
   message "2" "b" (Some "a") "Remailer list" None].

(** A record whose parent is the record with message id [b]. *)
Definition child_of_b : email :=
  set_parent_id (Some "b") (message "1" "a" None "Re: PGP" None).

Definition reply_dict : gmap pyid email :=
  deref [child_of_b; message "2" "b" None "PGP" None]
    (build_index [child_of_b; message "2" "b" None "PGP" None]).

(** A collection without any orphan reply, and one whose record has no
    [id]. *)
Definition lone_root : list email :=
  [set_orphan_status (Some true_root)
     (set_normalized_subject (Some "key escrow")
        (message "1" "r1" None "Key escrow" None))].

Definition without_id : email :=
  {| id := Absent; message_id := Present (Some "r1"); in_reply_to := None;
     subject := Some "Re: Key escrow"; normalized_subject := Some "key escrow";
     date_parsed := None; date_raw := None;
     from_email := None; from_raw := None; body := None; has_pgp := false;
     parent_id := None; children_ids := Some []; is_thread_root := Some true;
     orphan_status := Some orphan_reply; orphan_type := None; match_score := None;
     quote_match_score := None; time_proximity_days := None; thread_id := None |}.

Definition without_message_id : email :=
  {| id := Present (Some "2"); message_id := Absent; in_reply_to := None;
     subject := Some "Re: Key escrow"; normalized_subject := Some "key escrow";
     date_parsed := None; date_raw := None;
     from_email := None; from_raw := None; body := None; has_pgp := false;
     parent_id := None; children_ids := Some []; is_thread_root := Some true;
     orphan_status := Some orphan_reply; orphan_type := None; match_score := None;
     quote_match_score := None; time_proximity_days := None; thread_id := None |}.

(** The reply of scenario 1 once it is classified. *)
Definition key_escrow_reply : email :=
  Eval vm_compute in default without_id (key_escrow_classified !! 1%nat).

(** Scenario 3: three messages with one subject and no reply marker, on
    day 1, day 2 and day 10. *)
Definition crypto_wars : list email :=
  [message "1" "c1" None "Crypto wars" (Some "1993-01-01T09:00:00");
   message "2" "c2" None "Crypto wars" (Some "1993-01-02T09:00:00");
   message "3" "c3" None "Crypto wars" (Some "1993-01-10T09:00:00")].

Definition crypto_wars_classified : list email :=
  Eval vm_compute in
    output_of (identify_orphans_output (build_thread_trees_output crypto_wars)).

Definition crypto_wars_dated : list (nat * Z) :=
  Eval vm_compute in
    [(0%nat, default 0 (iso_instant "1993-01-01 09:00:00"));
     (1%nat, default 0 (iso_instant "1993-01-02 09:00:00"));
     (2%nat, default 0 (iso_instant "1993-01-10 09:00:00"))].

(** Two such messages three days and a half apart. *)
Definition late_answer : list email :=
  [message "1" "g1" None "Clipper chip" (Some "1993-01-01T00:00:00");
   message "2" "g2" None "Clipper chip" (Some "1993-01-04T12:00:00")].

Definition late_answer_classified : list email :=
  Eval vm_compute in
    output_of (identify_orphans_output (build_thread_trees_output late_answer)).

(** Scenario 5: a root, two answers to it and an answer to the first of
    them; the root and the second answer have the same sender. *)
Definition posted (i m : string) (reply : pyid) (from : string) (pgp : bool) : email :=
  {| id := Present (Some i); message_id := Present (Some m); in_reply_to := reply;
     subject := Some "Remailers"; normalized_subject := None;
     date_parsed := None; date_raw := None;
     from_email := Some from; from_raw := None; body := None; has_pgp := pgp;
     parent_id := None; children_ids := None; is_thread_root := None;
     orphan_status := None; orphan_type := None; match_score := None;
     quote_match_score := None; time_proximity_days := None; thread_id := None |}.

Definition four_messages : list email :=
  [posted "1" "m1" None "tcmay@netcom.com" false;
   posted "2" "m2" (Some "m1") "hfinney@shell.portal.com" false;
   posted "3" "m3" (Some "m1") "tcmay@netcom.com" true;
   posted "4" "m4" (Some "m2") "gnu@toad.com" false].

Definition four_messages_linked : list email :=
  Eval vm_compute in build_thread_trees_output four_messages.

Definition four_messages_rank (i : nat) : nat :=
  match i with
  | O => 2
  | S O => 1
  | _ => 0
  end.

(** A message with its text. *)
Definition written (i m : string) (reply : pyid) (subj : string)
    (date : option string) (text : string) : email :=
  {| id := Present (Some i); message_id := Present (Some m); in_reply_to := reply;
     subject := Some subj; normalized_subject := None;
     date_parsed := date; date_raw := None;
     from_email := None; from_raw := None; body := Some text; has_pgp := false;
     parent_id := None; children_ids := None; is_thread_root := None;
     orphan_status := None; orphan_type := None; match_score := None;
     quote_match_score := None; time_proximity_days := None; thread_id := None |}.

(** A small archive: a chain of two replies, a reply that lost its
    [in_reply_to], a message that quotes another one, two messages of one
    subject a day apart, and a reply to a message that the archive does not
    hold. *)
Definition archive : list email :=
  [message "a1" "m1" None "Remailers" (Some "1993-02-01T10:00:00");
   message "a2" "m2" (Some "m1") "Re: Remailers" (Some "1993-02-01T12:00:00");
   message "a3" "m3" (Some "m2") "Re: Remailers" (Some "1993-02-02T08:00:00");
   message "a4" "r1" None "Key escrow" (Some "1993-01-01T10:00:00");
   message "a5" "r2" None "Re: Key escrow" (Some "1993-01-02T10:00:00");
   written "a6" "d1" None "Digital cash" (Some "1993-03-01T10:00:00")
     (String.append "Blind signatures make the payments untraceable."
        (String newline "The bank cannot link a coin to its withdrawal."));
   written "a7" "d2" None "Digital cash" (Some "1993-03-10T10:00:00")
     (String.append "> Blind signatures make the payments untraceable."
        (String newline "Only if the bank keeps no record of the serial numbers."));
   message "a8" "c1" None "Crypto wars" (Some "1993-01-01T09:00:00");
   message "a9" "c2" None "Crypto wars" (Some "1993-01-02T09:00:00");
   message "a10" "x1" (Some "gone") "Re: PGP keys" None].

(** A record as the Quote Matcher reads it. *)
Definition filed (i m : string) (subj : string) (st : status) (parent : pyid)
    (text : string) : email :=
  {| id := Present (Some i); message_id := Present (Some m); in_reply_to := None;
     subject := Some subj; normalized_subject := Some "key escrow";
     date_parsed := None; date_raw := None;
     from_email := None; from_raw := None; body := Some text; has_pgp := false;
     parent_id := parent; children_ids := Some []; is_thread_root := Some true;
     orphan_status := Some st; orphan_type := None; match_score := None;
     quote_match_score := None; time_proximity_days := None; thread_id := None |}.

(** Two records share the message id [a]: the second one is a reply
    that the Subject Matcher has linked under the third record, which
    quotes it; the first one quotes the last record. *)
Definition shared_id : list email :=
  [filed "1" "a" "Key escrow" true_root None
     "> Nobody has said who the two escrow agents are going to be.";
   filed "2" "a" "Re: Key escrow" matched_by_subject (Some "q")
     "The escrow agents would hold both halves of every key.";
   filed "3" "q" "Key escrow" true_root None
     "> The escrow agents would hold both halves of every key.";
   filed "4" "p" "Key escrow" true_root None
     "Nobody has said who the two escrow agents are going to be."].

(** A thread as step 4 writes it. *)
Definition filed_thread (i : string) (date : option string) (year : option Z)
    (author subj : string) (count : nat) : final_thread :=
  {| ft_id := Present (Some i); ft_date_start := date; ft_year_start := year;
     ft_root_author := Some author; ft_normalized_subject := Some subj;
     ft_message_count := Some count; ft_rank := None |}.

(** Four threads of two authors, one of them without date, and the five
    messages of the first two. *)
Definition final_threads : list final_thread :=
  [filed_thread "thread_a1" (Some "1993-02-01T10:00:00") (Some 1993)
     "Hal@x.org" "remailers" 3;
   filed_thread "thread_a4" (Some "1993-01-01T10:00:00") (Some 1993)
     "tim@netcom.com" "key escrow" 2;
   filed_thread "thread_a10" None None "hal@x.org" "pgp" 1;
   filed_thread "thread_b1" (Some "1994-05-05T00:00:00") (Some 1994)
     "hal@x.org" "remailers" 1].

Definition final_emails : list final_email :=
  [FinalEmail (Present (Some "a1")) (Some 1993);
   FinalEmail (Present (Some "a2")) (Some 1993);
   FinalEmail (Present (Some "a3")) (Some 1993);
   FinalEmail (Present (Some "a4")) (Some 1993);
   FinalEmail (Present (Some "a5")) None].

(** * Properties of the cycle guard *)

Section CycleGuardFacts.

Context (d : gmap pyid email).

Lemma pstep_functional a b b' : pstep d a b -> pstep d a b' -> b = b'.
Proof.
  intros [_ (e & He & <-)] [_ (e' & He' & <-)]. congruence.
Qed.

(** With enough fuel the loop returns: every iteration that goes on has
    added a key of the dictionary to [visited]. *)
Lemma wcc_loop_total fuel child cur vis :
  vis ⊆ dom d ->
  (size (dom d ∖ vis) < fuel)%nat ->
  is_Some (wcc_loop d fuel child cur vis).
Proof.
  revert cur vis. induction fuel as [|fuel IH]; intros cur vis Hsub Hlt; [lia|].
  simpl. destruct (truthy cur); [|eauto].
  destruct (decide (cur = child)); [eauto|].
  destruct (decide (cur ∈ vis)) as [|Hnin]; [eauto|].
  destruct (d !! cur) as [pe|] eqn:Hcur; [|eauto].
  assert (cur ∈ dom d) by (apply elem_of_dom; eauto).
  apply IH; [set_solver|].
  assert (dom d ∖ ({[cur]} ∪ vis) ⊂ dom d ∖ vis) as Hss by set_solver.
  apply subset_size in Hss. lia.
Qed.

Lemma wcc_loop_mono fuel fuel' child cur vis b :
  (fuel <= fuel')%nat ->
  wcc_loop d fuel child cur vis = Some b ->
  wcc_loop d fuel' child cur vis = Some b.
Proof.
  revert fuel' cur vis. induction fuel as [|fuel IH]; intros fuel' cur vis Hle.
  - simpl. destruct (truthy cur) eqn:Ht; [discriminate|].
    intros [= <-]. destruct fuel'; simpl; by rewrite Ht.
  - destruct fuel' as [|fuel']; [lia|]. simpl.
    destruct (truthy cur); [|done].
    repeat case_decide; try done.
    destruct (d !! cur); [|done]. apply IH. lia.
Qed.

(** A negative answer: the walk from [cur] stops, and it meets neither the
    child nor an id already visited. *)
Lemma wcc_loop_false fuel child cur vis :
  wcc_loop d fuel child cur vis = Some false ->
  terminates d cur ∧
  ∀ x, rtc (pstep d) cur x -> truthy x = true -> x ≠ child ∧ x ∉ vis.
Proof.
  revert cur vis. induction fuel as [|fuel IH]; intros cur vis; simpl.
  - destruct (truthy cur) eqn:Ht; [discriminate|]. intros _. split.
    + by apply term_falsy.
    + intros x Hr Hx. apply rtc_inv in Hr as [->|(y & [Hy _] & _)]; congruence.
  - destruct (truthy cur) eqn:Ht.
    + destruct (decide (cur = child)) as [|Hne]; [discriminate|].
      destruct (decide (cur ∈ vis)) as [|Hnin]; [discriminate|].
      destruct (d !! cur) as [pe|] eqn:Hcur.
      * intros Hrec. apply IH in Hrec as [Hterm Hpath]. split.
        -- by eapply term_step.
        -- intros x Hr Hx. apply rtc_inv in Hr as [->|(y & Hy & Hr)]; [done|].
           assert (y = parent_id pe) as ->.
           { destruct Hy as [_ (e & He & <-)]. congruence. }
           destruct (Hpath x Hr Hx) as [? Hx']. split; [done|]. set_solver.
      * intros _. split; [by apply term_miss|].
        intros x Hr Hx. apply rtc_inv in Hr as [->|(y & Hy & _)]; [done|].
        destruct Hy as [_ (e & He & _)]. congruence.
    + intros _. split; [by apply term_falsy|].
      intros x Hr Hx. apply rtc_inv in Hr as [->|(y & [Hy _] & _)]; congruence.
Qed.

(** A positive answer: the walk meets the child, or an id that lies on a
    cycle. *)
Lemma wcc_loop_true fuel child cur vis :
  (∀ v, v ∈ vis -> tc (pstep d) v cur) ->
  wcc_loop d fuel child cur vis = Some true ->
  (truthy child = true ∧ rtc (pstep d) cur child)
  ∨ ∃ v, rtc (pstep d) cur v ∧ tc (pstep d) v v.
Proof.
  revert cur vis. induction fuel as [|fuel IH]; intros cur vis Hvis; simpl.
  - destruct (truthy cur); discriminate.
  - destruct (truthy cur) eqn:Ht; [|discriminate].
    destruct (decide (cur = child)) as [<-|Hne]; [intros _; left; split; [done|constructor]|].
    destruct (decide (cur ∈ vis)) as [Hin|Hnin].
    { intros _. right. exists cur. split; [constructor|by apply Hvis]. }
    destruct (d !! cur) as [pe|] eqn:Hcur; [|discriminate].
    assert (pstep d cur (parent_id pe)) as Hstep by (split; eauto).
    intros Hrec. apply IH in Hrec as [[Hc Hr]|(v & Hr & Hv)].
    + left. split; [done|]. by eapply rtc_l.
    + right. exists v. split; [by eapply rtc_l|done].
    + intros v [->%elem_of_singleton|Hv]%elem_of_union.
      * by apply tc_once.
      * eapply tc_r; eauto.
Qed.

Lemma terminates_step a b : terminates d a -> pstep d a b -> terminates d b.
Proof.
  intros Ht [Hta (e & He & <-)]. inversion Ht; subst; congruence.
Qed.

Lemma terminates_rtc a b : terminates d a -> rtc (pstep d) a b -> terminates d b.
Proof. intros Ht Hr. induction Hr; eauto using terminates_step. Qed.

(** A walk that stops does not come back to its start. *)
Lemma terminates_no_cycle a : terminates d a -> ¬ tc (pstep d) a a.
Proof.
  induction 1 as [a Ha|a Ha|a e He Hterm IH]; intros Htc.
  - inversion Htc as [? ? [? _]|? ? ? [? _]]; congruence.
  - inversion Htc as [? ? [_ (e & ? & _)]|? ? ? [_ (e & ? & _)]]; congruence.
  - apply IH. inversion Htc as [? ? Hs|? y ? Hs Hrest]; subst.
    + assert (parent_id e = a) as Heq.
      { destruct Hs as [_ (e' & ? & <-)]. congruence. }
      rewrite Heq. by apply tc_once.
    + assert (y = parent_id e) as ->.
      { destruct Hs as [_ (e' & ? & <-)]. congruence. }
      eapply tc_r; eauto.
Qed.

Lemma would_create_cycle_is_Some child parent :
  is_Some (wcc_loop d (S (size d)) child parent ∅).
Proof.
  apply wcc_loop_total; [set_solver|].
  rewrite difference_empty_L, size_dom. lia.
Qed.

Lemma would_create_cycle_false child parent :
  would_create_cycle d child parent = false <->
  terminates d parent ∧ ¬ (truthy child = true ∧ rtc (pstep d) parent child).
Proof.
  unfold would_create_cycle.
  destruct (would_create_cycle_is_Some child parent) as [b Hb]. rewrite Hb.
  destruct b; split.
  - discriminate.
  - intros [Hterm Hnot]. apply wcc_loop_true in Hb as [?|(v & Hr & Hv)]; [done| |set_solver].
    exfalso. eapply terminates_no_cycle; [|exact Hv]. by eapply terminates_rtc.
  - intros _. apply wcc_loop_false in Hb as [Hterm Hpath]. split; [done|].
    intros [Hc Hr]. by destruct (Hpath child Hr Hc).
  - done.
Qed.

Lemma would_create_cycle_true child parent :
  would_create_cycle d child parent = true <->
  (truthy child = true ∧ rtc (pstep d) parent child)
  ∨ ∃ v, rtc (pstep d) parent v ∧ tc (pstep d) v v.
Proof.
  split.
  - unfold would_create_cycle.
    destruct (would_create_cycle_is_Some child parent) as [b Hb]. rewrite Hb.
    intros ->. apply wcc_loop_true in Hb; [done|set_solver].
  - intros H. destruct (would_create_cycle d child parent) eqn:Hw; [done|].
    apply would_create_cycle_false in Hw as [Hterm Hnot].
    destruct H as [?|(v & Hr & Hv)]; [done|].
    exfalso. eapply terminates_no_cycle; [|exact Hv]. by eapply terminates_rtc.
Qed.

(** The ids added to [visited] are pairwise different and, but for the
    last one, keys of the dictionary. *)
Lemma wcc_visits_bound fuel child cur vis :
  vis ⊆ dom d ->
  NoDup (wcc_visits d fuel child cur vis)
  ∧ (∀ x, x ∈ wcc_visits d fuel child cur vis -> x ∉ vis)
  ∧ (List.length (wcc_visits d fuel child cur vis) <= S (size (dom d ∖ vis)))%nat.
Proof.
  revert cur vis. induction fuel as [|fuel IH]; intros cur vis Hsub; simpl.
  { destruct (truthy cur); (split; [constructor|split; [set_solver|simpl; lia]]). }
  destruct (truthy cur); [|split; [constructor|split; [set_solver|simpl; lia]]].
  destruct (decide (cur = child)); [split; [constructor|split; [set_solver|simpl; lia]]|].
  destruct (decide (cur ∈ vis)) as [|Hnin];
    [split; [constructor|split; [set_solver|simpl; lia]]|].
  destruct (d !! cur) as [pe|] eqn:Hcur.
  - assert (cur ∈ dom d) by (apply elem_of_dom; eauto).
    destruct (IH (parent_id pe) ({[cur]} ∪ vis)) as (Hnd & Hfresh & Hlen); [set_solver|].
    split; [|split].
    + constructor; [|done]. intros Hin. apply Hfresh in Hin. set_solver.
    + intros x [->|Hin]%elem_of_cons; [done|]. apply Hfresh in Hin. set_solver.
    + assert (dom d ∖ ({[cur]} ∪ vis) ⊂ dom d ∖ vis) as Hss by set_solver.
      apply subset_size in Hss. simpl. lia.
  - split; [apply NoDup_singleton|split].
    + intros x ->%list_elem_of_singleton. done.
    + simpl. lia.
Qed.

End CycleGuardFacts.

Lemma size_fold_insert (step : gmap pyid nat -> nat -> gmap pyid nat) l acc :
  (∀ m i, (size (step m i) <= S (size m))%nat) ->
  (size (fold_left step l acc) <= size acc + List.length l)%nat.
Proof.
  intros Hstep. revert acc. induction l as [|i l IH]; intros acc; simpl; [lia|].
  specialize (IH (step acc i)). specialize (Hstep acc i). lia.
Qed.

Lemma size_build_index (emails : list email) :
  (size (build_index emails) <= List.length emails)%nat.
Proof.
  unfold build_index.
  etransitivity; [apply size_fold_insert|].
  - intros m i. destruct (emails !! i) as [e|]; [|lia].
    destruct (truthy _); [|lia].
    destruct (m !! get (message_id e)) eqn:Hk.
    + rewrite map_size_insert_Some by eauto. lia.
    + rewrite map_size_insert_None by done. lia.
  - rewrite map_size_empty. unfold positions. rewrite length_seq. lia.
Qed.

Lemma size_deref (emails : list email) (idx : gmap pyid nat) :
  (size (deref emails idx) <= size idx)%nat.
Proof.
  rewrite <- !size_dom. apply subseteq_size. unfold deref. apply dom_omap_subseteq.
Qed.

Lemma lookup_deref (emails : list email) (idx : gmap pyid nat) k e :
  deref emails idx !! k = Some e <-> ∃ i, idx !! k = Some i ∧ emails !! i = Some e.
Proof.
  unfold deref. rewrite lookup_omap. destruct (idx !! k) as [i|]; simpl.
  - split; [eauto|]. by intros (? & [= <-] & ?).
  - split; [done|]. by intros (? & ? & _).
Qed.

(** C10.  [would_create_cycle] terminates for every dictionary and every
    pair of message ids, whether or not the parent pointers already hold a
    cycle or a dangling reference: with one unit of fuel per record of the
    dictionary and one more the loop returns, more fuel does not change the
    answer, the ids it adds to [visited] are pairwise different (each id is
    visited at most once) and there are at most that many of them; the
    dictionary built from a collection has at most one entry per record. *)
Theorem would_create_cycle_terminates :
  ∀ (by_message_id : gmap pyid email) (child parent : pyid),
    (∃ b, wcc_loop by_message_id (S (size by_message_id)) child parent ∅ = Some b
          ∧ would_create_cycle by_message_id child parent = b
          ∧ ∀ fuel, (S (size by_message_id) <= fuel)%nat ->
                    wcc_loop by_message_id fuel child parent ∅ = Some b)
    ∧ (∀ fuel,
         NoDup (wcc_visits by_message_id fuel child parent ∅)
         ∧ (List.length (wcc_visits by_message_id fuel child parent ∅)
            <= S (size by_message_id))%nat)
    ∧ (∀ emails : list email,
         (S (size (deref emails (build_index emails))) <= S (List.length emails))%nat).
Proof.
  intros d child parent. split; [|split].
  - destruct (would_create_cycle_is_Some d child parent) as [b Hb].
    exists b. split; [done|]. split.
    + unfold would_create_cycle. by rewrite Hb.
    + intros fuel Hle. by eapply wcc_loop_mono.
  - intros fuel.
    destruct (wcc_visits_bound d fuel child parent ∅) as (Hnd & _ & Hlen); [set_solver|].
    split; [done|]. by rewrite difference_empty_L, size_dom in Hlen.
  - intros emails. pose proof (size_deref emails (build_index emails)).
    pose proof (size_build_index emails). lia.
Qed.


(** * Properties of the subject normalizer *)

Section NormalizerFacts.

Ltac all_chars c := destruct c as [[] [] [] [] [] [] [] []]; reflexivity.

Lemma isspace_lower c : isspace (lower_char c) = isspace c.
Proof. all_chars c. Qed.

Lemma tag_char_lower c : tag_char (lower_char c) = tag_char c.
Proof. all_chars c. Qed.

Lemma lower_char_idem c : lower_char (lower_char c) = lower_char c.
Proof. all_chars c. Qed.

Lemma open_bracket_lower c : Ascii.eqb (lower_char c) "[" = Ascii.eqb c "[".
Proof. all_chars c. Qed.

Lemma close_bracket_lower c : Ascii.eqb (lower_char c) "]" = Ascii.eqb c "]".
Proof. all_chars c. Qed.

Lemma lower_idem s : lower (lower s) = lower s.
Proof. induction s as [|c s IH]; simpl; [done|]. by rewrite lower_char_idem, IH. Qed.

Lemma length_lower s : String.length (lower s) = String.length s.
Proof. induction s; simpl; congruence. Qed.

Lemma lower_inj_length s t :
  String.length s ≠ String.length t -> lower s ≠ lower t.
Proof. intros Hne Heq. apply Hne. by rewrite <- (length_lower s), Heq, length_lower. Qed.

Lemma lstrip_lower s : lstrip (lower s) = lower (lstrip s).
Proof.
  induction s as [|c s IH]; simpl; [done|].
  rewrite isspace_lower. by destruct (isspace c).
Qed.

Lemma rstrip_lower s : rstrip (lower s) = lower (rstrip s).
Proof.
  induction s as [|c s IH]; simpl; [done|].
  rewrite IH, isspace_lower.
  destruct (rstrip s); simpl; [by destruct (isspace c)|done].
Qed.

Lemma strip_lower s : strip (lower s) = lower (strip s).
Proof. unfold strip. by rewrite lstrip_lower, rstrip_lower. Qed.

Lemma length_lstrip s : (String.length (lstrip s) <= String.length s)%nat.
Proof. induction s as [|c s IH]; simpl; [lia|]. destruct (isspace c); simpl; lia. Qed.

Lemma length_rstrip s : (String.length (rstrip s) <= String.length s)%nat.
Proof.
  induction s as [|c s IH]; simpl; [lia|].
  destruct (rstrip s); simpl in *; [destruct (isspace c); simpl; lia|lia].
Qed.

Lemma length_strip s : (String.length (strip s) <= String.length s)%nat.
Proof.
  unfold strip. pose proof (length_rstrip (lstrip s)). pose proof (length_lstrip s). lia.
Qed.

Lemma lstrip_head c s : lstrip s = String c s -> False.
Proof.
  intros H. pose proof (length_lstrip s) as Hl. rewrite H in Hl. simpl in Hl. lia.
Qed.

Lemma lstrip_rstrip_fixed t : lstrip t = t -> lstrip (rstrip t) = rstrip t.
Proof.
  destruct t as [|c t]; [done|]. simpl.
  destruct (isspace c) eqn:Hc.
  { intros H. by apply lstrip_head in H. }
  intros _. destruct (rstrip t); simpl; by rewrite Hc.
Qed.

Lemma rstrip_idem t : rstrip (rstrip t) = rstrip t.
Proof.
  induction t as [|c t IH]; [done|]. simpl.
  destruct (rstrip t) as [|a r] eqn:Hr.
  - destruct (isspace c) eqn:Hc; simpl; [done|]. by rewrite Hc.
  - change (rstrip (String c (String a r))) with
      (match rstrip (String a r) with
       | EmptyString => if isspace c then EmptyString else String c EmptyString
       | r' => String c r'
       end).
    by rewrite IH.
Qed.

Lemma lstrip_idem s : lstrip (lstrip s) = lstrip s.
Proof.
  induction s as [|c s IH]; [done|]. simpl.
  destruct (isspace c) eqn:Hc; [done|]. simpl. by rewrite Hc.
Qed.

Lemma strip_idem s : strip (strip s) = strip s.
Proof.
  unfold strip. rewrite lstrip_rstrip_fixed by apply lstrip_idem. apply rstrip_idem.
Qed.

Lemma ci_prefix_length lit s r :
  ci_prefix lit s = Some r ->
  (String.length r + String.length lit)%nat = String.length s.
Proof.
  revert s. induction lit as [|a lit IH]; intros s; simpl.
  - intros [= ->]. lia.
  - destruct s as [|c s]; [discriminate|].
    destruct (Ascii.eqb _ _); [|discriminate].
    intros H. apply IH in H. simpl. lia.
Qed.

Lemma ci_prefix_lower lit s : ci_prefix lit (lower s) = lower <$> ci_prefix lit s.
Proof.
  revert s. induction lit as [|a lit IH]; intros s; simpl; [done|].
  destruct s as [|c s]; simpl; [done|].
  rewrite lower_char_idem. destruct (Ascii.eqb _ _); [apply IH|done].
Qed.

Lemma tag_run_length s : (String.length s = (tag_run s).1 + String.length (tag_run s).2)%nat.
Proof.
  induction s as [|c s IH]; simpl; [done|].
  destruct (tag_char c); [|done].
  destruct (tag_run s) as [n r]. simpl in *. lia.
Qed.

Lemma tag_run_lower s : tag_run (lower s) = ((tag_run s).1, lower (tag_run s).2).
Proof.
  induction s as [|c s IH]; simpl; [done|].
  rewrite tag_char_lower. destruct (tag_char c); [|done].
  rewrite IH. by destruct (tag_run s).
Qed.

Lemma match_prefix_lower p s : match_prefix p (lower s) = lower <$> match_prefix p s.
Proof.
  destruct p as [lit|]; simpl.
  - rewrite ci_prefix_lower. destruct (ci_prefix lit s); simpl; [|done].
    by rewrite lstrip_lower.
  - destruct s as [|c s]; simpl; [done|].
    pose proof (open_bracket_lower c) as Hc.
    destruct (Ascii.eqb_spec c "[") as [->|Hne].
    + change (lower_char "[") with "["%char.
      rewrite tag_run_lower. destruct (tag_run s) as [[|n] [|c' r]]; simpl; try done.
      pose proof (close_bracket_lower c') as Hc'.
      destruct (Ascii.eqb_spec c' "]") as [->|Hne'].
      * change (lower_char "]") with "]"%char. simpl. by rewrite lstrip_lower.
      * apply Ascii.eqb_neq in Hc'.
        transitivity (@None string).
        -- by repeat (case_match; try done; subst).
        -- by repeat (case_match; try done; subst).
    + apply Ascii.eqb_neq in Hc.
      transitivity (@None string).
      * by repeat (case_match; try done; subst).
      * by repeat (case_match; try done; subst).
Qed.

Lemma match_prefix_shorter p s r :
  p ∈ prefixes -> match_prefix p s = Some r ->
  (String.length r < String.length s)%nat.
Proof.
  intros Hp. destruct p as [lit|]; simpl.
  - destruct (ci_prefix lit s) as [rest|] eqn:Hrest; [|discriminate].
    intros [= <-]. apply ci_prefix_length in Hrest.
    pose proof (length_lstrip rest).
    assert (0 < String.length lit)%nat; [|lia].
    unfold prefixes in Hp.
    repeat (apply elem_of_cons in Hp as [Hp|Hp];
            [first [discriminate|injection Hp as ->; simpl; lia]|]).
    by apply elem_of_nil in Hp.
  - destruct s as [|c s]; [discriminate|].
    destruct (Ascii.eqb_spec c "[") as [->|Hne].
    + pose proof (tag_run_length s) as Hl.
      destruct (tag_run s) as [[|n] [|c' rest]]; try discriminate.
      destruct (Ascii.eqb_spec c' "]") as [->|Hne'].
      * intros [= <-]. pose proof (length_lstrip rest). simpl in *. lia.
      * intros H. exfalso. repeat (case_match; try done; subst).
    + intros H. exfalso. repeat (case_match; try done; subst).
Qed.

Lemma re_sub_fixed p s :
  p ∈ prefixes -> re_sub p s = s <-> match_prefix p s = None.
Proof.
  intros Hp. unfold re_sub. destruct (match_prefix p s) as [r|] eqn:Hr; [|done].
  apply match_prefix_shorter in Hr; [|done]. split; [|done].
  intros ->. lia.
Qed.

Lemma re_sub_lower p s : re_sub p (lower s) = lower (re_sub p s).
Proof. unfold re_sub. rewrite match_prefix_lower. by destruct (match_prefix p s). Qed.

Lemma strip_step_lower p s ch :
  p ∈ prefixes ->
  strip_step (lower s, ch) p = ((lower (strip_step (s, ch) p).1), (strip_step (s, ch) p).2).
Proof.
  intros Hp. unfold strip_step. rewrite re_sub_lower.
  destruct (decide (re_sub p s = s)) as [Heq|Hne].
  - rewrite Heq. by rewrite decide_True.
  - rewrite decide_False; [simpl; by rewrite strip_lower|].
    apply lower_inj_length. unfold re_sub in *.
    destruct (match_prefix p s) as [r|] eqn:Hr; [|done].
    apply match_prefix_shorter in Hr; [lia|done].
Qed.

Lemma strip_fold_lower ps s ch :
  Forall (fun p => p ∈ prefixes) ps ->
  fold_left strip_step ps (lower s, ch)
  = (lower (fold_left strip_step ps (s, ch)).1, (fold_left strip_step ps (s, ch)).2).
Proof.
  intros Hps. revert s ch.
  induction Hps as [|p ps Hp _ IH]; intros s ch; cbn [fold_left]; [done|].
  rewrite strip_step_lower by done.
  destruct (strip_step (s, ch) p) as [s1 ch1]. apply IH.
Qed.

Lemma prefixes_all : Forall (fun p => p ∈ prefixes) prefixes.
Proof. by apply Forall_forall. Qed.

Lemma strip_pass_lower s :
  strip_pass (lower s) = (lower (strip_pass s).1, (strip_pass s).2).
Proof. apply strip_fold_lower, prefixes_all. Qed.

(** What a run of the [for] loop leaves: an unchanged string that no prefix
    matches, or a shorter one. *)
Lemma strip_fold_spec ps s ch :
  Forall (fun p => p ∈ prefixes) ps ->
  let r := fold_left strip_step ps (s, ch) in
  (r.2 = false -> ch = false ∧ r.1 = s ∧ Forall (fun p => match_prefix p s = None) ps)
  ∧ (r.2 = true -> ch = true ∨ (String.length r.1 < String.length s)%nat)
  ∧ (String.length r.1 <= String.length s)%nat
  ∧ (strip s = s -> strip r.1 = r.1).
Proof.
  intros Hps. revert s ch.
  induction Hps as [|p ps Hp _ IH]; intros s ch; cbn [fold_left].
  { cbn. split; [|split; [|split]]; auto. }
  change (strip_step (s, ch) p) with
    (if decide (re_sub p s = s) then (s, ch) else (strip (re_sub p s), true)).
  destruct (decide (re_sub p s = s)) as [Heq|Hne].
  - destruct (IH s ch) as (H1 & H2 & H3 & H4).
    split; [|split; [|split]]; try done.
    intros H. destruct (H1 H) as (? & ? & ?).
    split; [done|split; [done|]].
    constructor; [by apply (re_sub_fixed p s Hp)|done].
  - assert (String.length (strip (re_sub p s)) < String.length s)%nat as Hlt.
    { pose proof (length_strip (re_sub p s)). unfold re_sub in *.
      destruct (match_prefix p s) as [r|] eqn:Hr; [|done].
      apply match_prefix_shorter in Hr; [lia|done]. }
    destruct (IH (strip (re_sub p s)) true) as (H1 & H2 & H3 & H4).
    split; [|split; [|split]].
    + intros H. by apply H1 in H as [? _].
    + intros _. right. lia.
    + lia.
    + intros _. apply H4, strip_idem.
Qed.

Lemma strip_pass_spec s :
  let r := strip_pass s in
  (r.2 = false -> r.1 = s ∧ Forall (fun p => match_prefix p s = None) prefixes)
  ∧ (r.2 = true -> (String.length r.1 < String.length s)%nat)
  ∧ (strip s = s -> strip r.1 = r.1).
Proof.
  destruct (strip_fold_spec prefixes s false prefixes_all) as (H1 & H2 & H3 & H4).
  split; [|split]; [| |done].
  - intros Hr. by destruct (H1 Hr) as (_ & ? & ?).
  - intros Hr. by destruct (H2 Hr).
Qed.

(** The loop ends because a pass changed nothing, never because the fuel
    ran out. *)
Lemma strip_loop_fixpoint fuel s :
  (String.length s < fuel)%nat ->
  strip s = s ->
  strip_pass (strip_loop fuel s) = (strip_loop fuel s, false)
  ∧ strip (strip_loop fuel s) = strip_loop fuel s.
Proof.
  revert s. induction fuel as [|fuel IH]; intros s Hlen Hs; [lia|].
  simpl. destruct (strip_pass_spec s) as (H1 & H2 & H3).
  destruct (strip_pass s) as [s' ch] eqn:Hpass. simpl in *.
  destruct ch.
  - apply IH; [specialize (H2 eq_refl); lia|auto].
  - destruct (H1 eq_refl) as [-> _]. by rewrite Hpass.
Qed.

Lemma normalize_subject_lower_fixpoint s :
  strip s = s -> strip_pass s = (s, false) ->
  normalize_subject (Some (lower s)) = lower s.
Proof.
  intros Hs Hpass. unfold normalize_subject.
  destruct (lower s) as [|c n] eqn:Hn; [done|]. rewrite <- Hn.
  rewrite strip_lower, Hs. cbn [strip_loop].
  rewrite strip_pass_lower, Hpass. simpl.
  by rewrite strip_lower, Hs, lower_idem.
Qed.

End NormalizerFacts.


(** * Properties of the containers *)

Section SortFacts.

Context {A : Type} (le : A -> A -> bool).

Lemma insert_sorted_perm x l : insert_sorted le x l ≡ₚ x :: l.
Proof.
  induction l as [|y l IH]; simpl; [done|].
  destruct (le x y); [done|]. rewrite IH. apply Permutation_swap.
Qed.

Lemma stable_sort_perm l : stable_sort le l ≡ₚ l.
Proof.
  induction l as [|x l IH]; simpl; [done|].
  rewrite insert_sorted_perm. by rewrite IH.
Qed.

Lemma elem_of_stable_sort x l : x ∈ stable_sort le l <-> x ∈ l.
Proof. by rewrite stable_sort_perm. Qed.

Lemma length_stable_sort l : List.length (stable_sort le l) = List.length l.
Proof. by rewrite stable_sort_perm. Qed.

Lemma NoDup_stable_sort l : NoDup l -> NoDup (stable_sort le l).
Proof. by rewrite stable_sort_perm. Qed.

Context (Htotal : ∀ x y, le x y = true ∨ le y x = true).

Lemma insert_sorted_head x l :
  Sorted (fun a b => le a b = true) l ->
  Sorted (fun a b => le a b = true) (insert_sorted le x l).
Proof.
  induction 1 as [|y l Hs IH Hhd]; simpl.
  - repeat constructor.
  - destruct (le x y) eqn:Hxy.
    + constructor; [by constructor|]. by constructor.
    + constructor; [done|].
      destruct l as [|z l]; simpl.
      * constructor. destruct (Htotal x y); congruence.
      * destruct (le x z).
        -- constructor. destruct (Htotal x y); congruence.
        -- constructor. by inversion Hhd.
Qed.

Lemma stable_sort_sorted l : Sorted (fun a b => le a b = true) (stable_sort le l).
Proof.
  induction l as [|x l IH]; simpl; [constructor|]. by apply insert_sorted_head.
Qed.

End SortFacts.

Lemma alist_get_append k k' i g :
  alist_get k (alist_append k' i g)
  = if String.eqb k k' then alist_get k g ++ [i] else alist_get k g.
Proof.
  induction g as [|[k0 l] g IH]; simpl.
  - destruct (String.eqb_spec k k'); by simpl.
  - destruct (String.eqb_spec k' k0) as [->|Hne]; simpl.
    + by destruct (String.eqb_spec k k0).
    + destruct (String.eqb_spec k k0) as [->|Hne'].
      * destruct (String.eqb_spec k0 k'); [congruence|done].
      * done.
Qed.

Lemma alist_get_map (f : list nat -> list nat) k (g : list (string * list nat)) :
  f [] = [] ->
  alist_get k ((fun kl => (kl.1, f kl.2)) <$> g) = f (alist_get k g).
Proof.
  intros Hf. induction g as [|[k0 l] g IH]; simpl; [done|].
  by destruct (String.eqb k k0).
Qed.

Lemma alist_get_group_fold keep (emails : list email) k l g :
  alist_get k
    (fold_left
       (fun g i =>
          match emails !! i with
          | Some e =>
              if keep e && negb (String.eqb (norm_subj_of e) "")
              then alist_append (norm_subj_of e) i g else g
          | None => g
          end) l g)
  = alist_get k g ++ List.filter (in_group keep emails k) l.
Proof.
  revert g. induction l as [|i l IH]; intros g; simpl; [by rewrite app_nil_r|].
  rewrite IH. unfold in_group at 2.
  destruct (emails !! i) as [e|]; [|done].
  destruct (keep e && negb (String.eqb (norm_subj_of e) "")); simpl; [|done].
  rewrite alist_get_append, (String.eqb_sym k).
  destruct (String.eqb (norm_subj_of e) k); [by rewrite <- app_assoc|done].
Qed.

Lemma alist_get_group keep (emails : list email) k :
  alist_get k (group_by_subject keep emails)
  = List.filter (in_group keep emails k) (positions emails).
Proof. unfold group_by_subject. by rewrite alist_get_group_fold. Qed.

Lemma alist_get_sorted_by_subject (emails : list email) k :
  alist_get k (sorted_by_subject emails)
  = stable_sort (le_at String.leb date_key "" emails)
      (List.filter (in_group (fun _ => true) emails k) (positions emails)).
Proof.
  unfold sorted_by_subject.
  rewrite (alist_get_map (stable_sort (le_at String.leb date_key "" emails))) by done.
  by rewrite alist_get_group.
Qed.

Lemma elem_of_positions (emails : list email) i :
  i ∈ positions emails <-> is_Some (emails !! i).
Proof.
  unfold positions. rewrite elem_of_seq, lookup_lt_is_Some. lia.
Qed.

(** The candidates of a subject: exactly the records that carry it, each
    once, ordered by their date string. *)
Lemma same_subject_spec (emails : list email) k :
  let cands := alist_get k (sorted_by_subject emails) in
  (∀ j, j ∈ cands <->
        ∃ e, emails !! j = Some e ∧ norm_subj_of e = k ∧ k ≠ "")
  ∧ NoDup cands
  ∧ Sorted (fun a b => le_at String.leb date_key "" emails a b = true) cands.
Proof.
  cbv zeta. rewrite alist_get_sorted_by_subject. split; [|split].
  - intros j. rewrite elem_of_stable_sort, list_elem_of_In, filter_In, <- list_elem_of_In.
    rewrite elem_of_positions. unfold in_group.
    destruct (emails !! j) as [e|]; simpl.
    + destruct (String.eqb_spec (norm_subj_of e) "") as [He|He],
        (String.eqb_spec (norm_subj_of e) k) as [Hk|Hk]; simpl.
      * split; [by intros [_ [=]]|]. intros (e' & [= <-] & ? & ?). congruence.
      * split; [by intros [_ [=]]|]. intros (e' & [= <-] & ? & ?). congruence.
      * split; [|eauto]. intros _. exists e. repeat split; congruence.
      * split; [by intros [_ [=]]|]. intros (e' & [= <-] & ? & ?). congruence.
    + split; [by intros [_ [=]]|by intros (e' & [=] & _)].
  - apply NoDup_stable_sort. apply NoDup_ListNoDup, List.NoDup_filter, NoDup_ListNoDup.
    apply NoDup_seq.
  - apply stable_sort_sorted. intros x y. unfold le_at. apply String.leb_total.
Qed.

Lemma alist_append_keys k i (g : list (string * list nat)) :
  (alist_append k i g).*1 = if decide (k ∈ g.*1) then g.*1 else g.*1 ++ [k].
Proof.
  induction g as [|[k0 l] g IH].
  - cbn -[decide]. by rewrite decide_False by apply not_elem_of_nil.
  - cbn -[decide]. destruct (String.eqb_spec k k0) as [->|Hne]; cbn -[decide].
    + rewrite decide_True; [done|by left].
    + change (list_fmap _ _ fst ?x) with (x.*1). rewrite IH.
      destruct (decide (k ∈ g.*1)) as [Hin|Hnin].
      * rewrite decide_True; [done|by right].
      * rewrite decide_False; [done|]. by intros [?|?]%elem_of_cons.
Qed.

Lemma alist_append_NoDup k i (g : list (string * list nat)) :
  NoDup g.*1 -> NoDup (alist_append k i g).*1.
Proof.
  intros Hnd. rewrite alist_append_keys. case_decide; [done|].
  apply NoDup_app. split_and!; [done| |apply NoDup_singleton].
  intros x Hx ->%list_elem_of_singleton. done.
Qed.

Lemma group_by_subject_NoDup keep (emails : list email) :
  NoDup (group_by_subject keep emails).*1.
Proof.
  unfold group_by_subject.
  assert (NoDup ([] : list (string * list nat)).*1) as H by constructor.
  revert H. generalize ([] : list (string * list nat)).
  induction (positions emails) as [|i l IH]; intros g Hg; simpl; [done|].
  apply IH. destruct (emails !! i) as [e|]; [|done].
  destruct (_ && _); [by apply alist_append_NoDup|done].
Qed.

Lemma alist_get_elem k l (g : list (string * list nat)) :
  NoDup g.*1 -> (k, l) ∈ g -> alist_get k g = l.
Proof.
  induction g as [|[k0 l0] g IH]; simpl; [by intros _ ?%elem_of_nil|].
  intros [Hk0 Hnd]%NoDup_cons [[= -> ->]|Hin]%elem_of_cons.
  - by rewrite String.eqb_refl.
  - destruct (String.eqb_spec k k0) as [->|Hne]; [|by apply IH].
    exfalso. apply Hk0. apply list_elem_of_fmap. by exists (k0, l).
Qed.

Lemma Sorted_weaken {A} (R R' : A -> A -> Prop) l :
  (∀ a b, R a b -> R' a b) -> Sorted R l -> Sorted R' l.
Proof.
  intros HR. induction 1 as [|x l Hs IH Hhd]; constructor; [done|].
  destruct Hhd; constructor; auto.
Qed.

Lemma omap_fst_NoDup {A} (f : nat -> option (nat * A)) l :
  (∀ r x, f r = Some x -> x.1 = r) -> NoDup l -> NoDup (omap f l).*1.
Proof.
  intros Hf. induction 1 as [|r l Hr Hnd IH]; simpl; [constructor|].
  destruct (f r) as [x|] eqn:Hx; [|done]. simpl. constructor; [|done].
  rewrite (Hf r x Hx). intros Hin. apply Hr.
  apply list_elem_of_fmap in Hin as (y & -> & Hy).
  apply list_elem_of_omap in Hy as (r' & Hr' & Hy). by rewrite (Hf r' y Hy).
Qed.

(** * Properties of the records and of the store *)

Global Instance same_message_equiv : Equivalence same_message.
Proof.
  split.
  - intros e. unfold same_message. tauto.
  - intros e e' H. unfold same_message in *. intuition congruence.
  - intros e1 e2 e3 H1 H2. unfold same_message in *. intuition congruence.
Qed.

Lemma same_message_well_keyed e e' : same_message e e' -> well_keyed e -> well_keyed e'.
Proof. intros (Hid & Hmid & _) [? ?]. split; congruence. Qed.

Lemma same_message_norm_subj e e' : same_message e e' -> norm_subj_of e = norm_subj_of e'.
Proof. intros H. unfold norm_subj_of. unfold same_message in H. intuition congruence. Qed.

Lemma add_child_same c e : same_message e (add_child c e).
Proof. unfold add_child. case_decide; [reflexivity|]. unfold same_message. by simpl. Qed.

Lemma add_child_created_eq c e : add_child_created c e = add_child c e.
Proof.
  unfold add_child_created, add_child, ensure_children.
  destruct e as [? ? ? ? ? ? ? ? ? ? ? ? [kids|] ? ? ? ? ? ? ?]; cbn -[decide]; [done|].
  rewrite !decide_False; [done|apply not_elem_of_nil..].
Qed.

Lemma matched_orphan_same orphan cand score :
  same_message orphan (matched_orphan orphan cand score).
Proof. unfold same_message. by simpl. Qed.

Lemma grown_refl e : grown e e.
Proof. split; [by destruct e|done]. Qed.

Lemma grown_trans e1 e2 e3 : grown e1 e2 -> grown e2 e3 -> grown e1 e3.
Proof.
  intros [H1 P1] [H2 P2]. split; [|by etransitivity].
  rewrite H2. rewrite H1 at 1. by destruct e1.
Qed.

Lemma grown_add_child c e : grown e (add_child c e).
Proof.
  unfold add_child. case_decide; [apply grown_refl|].
  split; [by destruct e|]. simpl. by apply prefix_app_r.
Qed.

Lemma Forall2_insert_r {A B} (R : A -> B -> Prop) (l : list A) (k : list B) i y :
  Forall2 R l k -> (∀ x, l !! i = Some x -> R x y) -> Forall2 R l (<[i:=y]> k).
Proof.
  intros H. revert i. induction H as [|a b l k Hab H IH]; intros [|i] Hi; simpl.
  - constructor.
  - constructor.
  - constructor; [by apply Hi|done].
  - constructor; [done|]. apply IH. intros x Hx. by apply Hi.
Qed.

(** A relation between an old and a new store survives a link when it holds
    for the new child and is kept by the addition of a child. *)
Lemma linked_Forall2 (R : email -> email -> Prop) old (emails : list email) i j child' cmid :
  Forall2 R old emails ->
  (∀ x, old !! i = Some x -> R x child') ->
  (∀ x y, old !! j = Some x -> R x y -> R x (add_child cmid y)) ->
  Forall2 R old (linked emails i j child' cmid).
Proof.
  intros H Hi Hj. unfold linked. apply Forall2_alter_r.
  - by apply Forall2_insert_r.
  - intros x y Hx _ Hxy. by eapply Hj.
Qed.

Lemma Forall2_refl_rel {A} (R : A -> A -> Prop) (l : list A) :
  (∀ x, R x x) -> Forall2 R l l.
Proof. intros H. induction l; by constructor. Qed.

Lemma lookup_linked_child (emails : list email) i j child' cmid :
  i ≠ j -> (i < List.length emails)%nat ->
  linked emails i j child' cmid !! i = Some child'.
Proof.
  intros Hij Hlt. unfold linked.
  rewrite list_lookup_alter_ne by done. by apply list_lookup_insert_eq.
Qed.

Lemma lookup_linked_parent (emails : list email) i j child' cmid cand :
  i ≠ j -> emails !! j = Some cand ->
  linked emails i j child' cmid !! j = Some (add_child cmid cand).
Proof.
  intros Hij Hj. unfold linked.
  rewrite list_lookup_alter_eq, list_lookup_insert_ne by done. by rewrite Hj.
Qed.

Lemma lookup_linked_other (emails : list email) i j child' cmid k :
  k ≠ i -> k ≠ j -> linked emails i j child' cmid !! k = emails !! k.
Proof.
  intros Hi Hj. unfold linked.
  rewrite list_lookup_alter_ne, list_lookup_insert_ne by done. done.
Qed.

Lemma length_linked (emails : list email) i j child' cmid :
  List.length (linked emails i j child' cmid) = List.length emails.
Proof. unfold linked. by rewrite length_alter, length_insert. Qed.

Lemma grown_status e e' : grown e e' -> orphan_status e' = orphan_status e.
Proof. intros [-> _]. done. Qed.

Lemma kept_unless_orphan_refl e : kept_unless_orphan e e.
Proof. intros _. apply grown_refl. Qed.

Lemma kept_unless_orphan_trans e1 e2 e3 :
  kept_unless_orphan e1 e2 -> kept_unless_orphan e2 e3 -> kept_unless_orphan e1 e3.
Proof.
  intros H1 H2 Hst. specialize (H1 Hst). eapply grown_trans; [done|].
  apply H2. by rewrite (grown_status _ _ H1).
Qed.

Lemma store_well_keyed (old emails : list email) :
  Forall well_keyed old -> Forall2 same_message old emails -> Forall well_keyed emails.
Proof.
  intros Hk H. eapply Forall2_Forall_r; [exact H|].
  eapply Forall_impl; [exact Hk|]. intros x Hx y Hxy. by eapply same_message_well_keyed.
Qed.

Lemma subscript_present f : f ≠ Absent -> subscript f = Ok (get f).
Proof. by destruct f. Qed.

(** Reads the keys that are known to be present. *)
Ltac read_keys :=
  repeat match goal with
         | H : ?f ≠ Absent |- _ => rewrite (subscript_present f H) in *
         end;
  cbn [bind] in *.


Lemma well_keyed_lookup (emails : list email) i e :
  Forall well_keyed emails -> emails !! i = Some e -> well_keyed e.
Proof. intros H Hi. eapply Forall_forall; [exact H|]. by eapply list_elem_of_lookup_2. Qed.


Lemma build_by_id_ok (emails : list email) :
  Forall well_keyed emails -> ∃ by_id, build_by_id emails = Ok by_id.
Proof.
  intros Hk. unfold build_by_id. generalize (∅ : gmap pyid nat).
  assert (∀ i e, emails !! i = Some e -> id e ≠ Absent) as Hid.
  { intros i e Hi. by destruct (well_keyed_lookup _ _ _ Hk Hi). }
  induction (positions emails) as [|i l IH]; intros acc; simpl; [eauto|].
  destruct (emails !! i) as [e|] eqn:Hi; [|apply IH].
  specialize (Hid _ _ Hi). read_keys. apply IH.
Qed.


(** The index built from a snapshot holds, under a truthy message id, the
    position of a record that carries it. *)
Lemma build_index_lookup (emails : list email) k i :
  build_index emails !! k = Some i ->
  ∃ e, emails !! i = Some e ∧ get (message_id e) = k ∧ truthy k = true.
Proof.
  unfold build_index.
  assert (∀ l (acc : gmap pyid nat),
            (∀ k i, acc !! k = Some i ->
                    ∃ e, emails !! i = Some e ∧ get (message_id e) = k ∧ truthy k = true) ->
            ∀ k i,
              fold_left
                (fun idx i =>
                   match emails !! i with
                   | Some e =>
                       if truthy (get (message_id e))
                       then <[get (message_id e) := i]> idx else idx
                   | None => idx
                   end) l acc !! k = Some i ->
              ∃ e, emails !! i = Some e ∧ get (message_id e) = k ∧ truthy k = true) as H.
  { induction l as [|j l IH]; intros acc Hacc; simpl; [done|].
    apply IH. destruct (emails !! j) as [e|] eqn:He; [|done].
    destruct (truthy (get (message_id e))) eqn:Ht; [|done].
    intros k' i'. rewrite lookup_insert. case_decide as Hk; [|by apply Hacc].
    intros [= <-]. subst k'. eauto. }
  apply H. intros k' i'. by rewrite lookup_empty.
Qed.

(** * Properties of the Direct Linker and of the Orphan Classifier *)

Lemma link_step_parent_of idx acc e k :
  parent_of (link_step idx acc e) !! k
  = if truthy (in_reply_to e) && bool_decide (is_Some (idx !! in_reply_to e))
       && bool_decide (get (message_id e) = k)
    then Some (in_reply_to e) else parent_of acc !! k.
Proof.
  unfold link_step. destruct (truthy (in_reply_to e)); [|done]. cbn [andb].
  destruct (idx !! in_reply_to e) as [p|] eqn:Hp.
  - rewrite bool_decide_eq_true_2 by eauto. cbn [andb parent_of].
    case_bool_decide as Hk.
    + subst k. by rewrite lookup_insert_eq.
    + by rewrite lookup_insert_ne.
  - rewrite bool_decide_eq_false_2; [done|]. by intros [? ?].
Qed.

(** [parent_of] holds, under a message id, the last resolving [in_reply_to]
    among the records that carry the id. *)
Lemma parent_of_fold idx l acc k v :
  parent_of (fold_left (link_step idx) l acc) !! k = Some v ->
  parent_of acc !! k = Some v
  ∨ ∃ e, e ∈ l ∧ get (message_id e) = k ∧ in_reply_to e = v
         ∧ truthy v = true ∧ is_Some (idx !! v).
Proof.
  revert acc. induction l as [|e l IH]; intros acc; simpl; [by left|].
  intros H. apply IH in H as [H|(e' & He' & ?)].
  - rewrite link_step_parent_of in H.
    destruct (truthy (in_reply_to e)) eqn:Ht; [|by left].
    case_bool_decide as Hr; [|by left]. case_bool_decide as Hk; [|by left].
    simpl in H. injection H as <-. right. exists e. split_and!; try done. by left.
  - right. exists e'. split; [by right|done].
Qed.

Lemma parent_of_fold_last idx l acc e k :
  truthy (in_reply_to e) = true -> is_Some (idx !! in_reply_to e) ->
  get (message_id e) = k ->
  parent_of (fold_left (link_step idx) (l ++ [e]) acc) !! k = Some (in_reply_to e).
Proof.
  intros Ht Hr Hk. rewrite fold_left_app. simpl.
  rewrite link_step_parent_of, Ht, !bool_decide_eq_true_2 by done. done.
Qed.

Lemma lookup_build_thread_trees_output (raw : list email) k e :
  raw !! k = Some e ->
  build_thread_trees_output raw !! k = Some (annotate (collect_links raw) e).
Proof. intros Hk. unfold build_thread_trees_output. by rewrite list_lookup_fmap, Hk. Qed.

(** A record is left without a parent when no record with its message id
    has an [in_reply_to] that resolves. *)
Lemma unlinked_by_direct_linker (raw : list email) e :
  (∀ e', e' ∈ raw -> get (message_id e') = get (message_id e) -> resolves raw e' = false) ->
  parent_id (annotate (collect_links raw) e) = None.
Proof.
  intros Hun. cbn.
  destruct (parent_of (collect_links raw) !! get (message_id e)) as [v|] eqn:Hv; [|done].
  apply parent_of_fold in Hv as [Hv|(e' & He' & Hid & Hv & Ht & Hr)]; [done|].
  specialize (Hun e' He' Hid). unfold resolves in Hun.
  rewrite Hv, Ht, bool_decide_eq_true_2 in Hun by done. done.
Qed.

Lemma annotate_same l e : same_message e (annotate l e).
Proof. unfold same_message. by simpl. Qed.

Lemma map_result_lookup {A B} (f : A -> result B) l l' k x :
  map_result f l = Ok l' -> l !! k = Some x ->
  ∃ y, f x = Ok y ∧ l' !! k = Some y.
Proof.
  revert l' k. induction l as [|a l IH]; intros l' k; simpl; [done|].
  destruct (f a) as [b|] eqn:Hfa; [|done]. cbn [bind].
  destruct (map_result f l) as [bs|] eqn:Hl; [|done]. cbn [bind].
  intros [= <-]. destruct k as [|k]; simpl.
  - intros [= <-]. eauto.
  - intros Hk. by apply (IH bs k).
Qed.

Lemma map_result_ok {A B} (f : A -> result B) (P : A -> Prop) (R : A -> B -> Prop) l :
  (∀ x, P x -> ∃ y, f x = Ok y ∧ R x y) ->
  Forall P l -> ∃ l', map_result f l = Ok l' ∧ Forall2 R l l'.
Proof.
  intros Hf. induction 1 as [|a l Ha _ (l' & IH & HR)]; simpl; [by exists []|].
  destruct (Hf a Ha) as (b & -> & Hab). cbn [bind]. rewrite IH. cbn [bind].
  exists (b :: l'). split; [done|]. by constructor.
Qed.

Lemma classify_ok e :
  id e ≠ Absent ->
  ∃ e', classify e = Ok e' ∧ same_message e (set_normalized_subject (normalized_subject e) e')
        ∧ message_id e' = message_id e ∧ id e' = id e
        ∧ parent_id e' = parent_id e
        ∧ orphan_status e'
          = Some (if bool_decide (is_Some (parent_id e)) then has_parent
                  else if is_reply_subject (subject e) then orphan_reply
                  else true_root).
Proof.
  intros Hid. unfold classify.
  destruct (String.eqb _ ""); read_keys;
    destruct (bool_decide (is_Some (parent_id e)));
    try destruct (is_reply_subject (subject e)); read_keys;
    eexists; (split; [reflexivity|]); unfold same_message; by simpl.
Qed.

Lemma classify_status e e' :
  classify e = Ok e' ->
  parent_id e = None -> is_reply_subject (subject e) = false ->
  orphan_status e' = Some true_root.
Proof.
  unfold classify. intros H Hp Hr. rewrite Hp, Hr in H.
  rewrite bool_decide_eq_false_2 in H by (by intros [? ?]).
  destruct (String.eqb _ ""); cbn [bind] in H.
  - by injection H as <-.
  - destruct (subscript (id e)); [|done]. cbn [bind] in H. by injection H as <-.
Qed.

(** The Orphan Classifier does not raise on records that have an [id]. *)
Lemma identify_orphans_output_ok (emails : list email) :
  Forall well_keyed emails ->
  ∃ emails', identify_orphans_output emails = Ok emails'
    ∧ Forall well_keyed emails'
    ∧ Forall2 (fun e e' => parent_id e' = parent_id e
                 ∧ message_id e' = message_id e
                 ∧ orphan_status e'
                   = Some (if bool_decide (is_Some (parent_id e)) then has_parent
                           else if is_reply_subject (subject e) then orphan_reply
                           else true_root)) emails emails'.
Proof.
  intros Hk. unfold identify_orphans_output.
  destruct (map_result_ok classify well_keyed
              (fun e e' => well_keyed e' ∧ parent_id e' = parent_id e
                 ∧ message_id e' = message_id e
                 ∧ orphan_status e'
                   = Some (if bool_decide (is_Some (parent_id e)) then has_parent
                           else if is_reply_subject (subject e) then orphan_reply
                           else true_root)) emails)
    as (emails' & -> & H2); [|done|].
  { intros e [Hid Hmid]. destruct (classify_ok e Hid) as (e' & He' & _ & Hm & Hi & Hp & Hs).
    exists e'. split; [done|]. split_and!; try done. split; congruence. }
  cbn [bind].
  assert (Forall well_keyed emails') as Hk'.
  { eapply Forall2_Forall_r; [exact H2|]. apply Forall_forall. by intros x _ y [? _]. }
  destruct (build_by_id_ok emails' Hk') as [by_id ->]. cbn [bind].
  exists emails'. split_and!; [done|done|].
  eapply Forall2_impl; [exact H2|]. by intros x y (_ & ? & ? & ?).
Qed.

(** * Properties of the Subject Matcher *)

Lemma proximity_bonus_bounds gap : 0 <= proximity_bonus gap <= 5.
Proof. unfold proximity_bonus. repeat case_match; lia. Qed.

Lemma score_candidate_bounds od cd c : 0 <= score_candidate od cd c <= 23.
Proof.
  unfold score_candidate.
  assert (0 <= match od, cd with
               | Some o, Some c' => proximity_bonus (o - c')
               | _, _ => 0
               end <= 5).
  { destruct od, cd; try lia. apply proximity_bonus_bounds. }
  repeat case_match; lia.
Qed.

Lemma candidate_score_bounds emails orphan j :
  0 <= candidate_score emails orphan j <= 23.
Proof.
  unfold candidate_score. destruct (emails !! j); [apply score_candidate_bounds|lia].
Qed.

Section Choice.

Context (emails : list email) (idx : gmap pyid nat) (orphan : email).
Context (Hkeys : Forall well_keyed emails) (Horphan : well_keyed orphan).

Let od := parse_date (date_parsed orphan).
Let elig := eligible emails idx orphan.
Let sc := candidate_score emails orphan.

(** One candidate: it replaces the best one when it is eligible and scores
    strictly more. *)
Lemma consider_spec acc j :
  ∃ acc', consider emails idx orphan od acc j = Ok acc'
    ∧ (best_parent acc', best_score acc')
      = if elig j && (best_score acc <? sc j) then (Some j, sc j)
        else (best_parent acc, best_score acc).
Proof.
  unfold elig, eligible, sc, candidate_score.
  destruct (consider emails idx orphan od acc j) as [acc'|err] eqn:E;
    unfold consider in E; destruct (emails !! j) as [cand|] eqn:Hj;
    cbv beta iota in E.
  - assert (well_keyed cand) as [Hid Hmid].
    { eapply Forall_forall; [exact Hkeys|]. by eapply list_elem_of_lookup_2. }
    destruct Horphan as [Hoid Homid].
    read_keys.
    exists acc'. split; [done|].
    destruct (decide (get (id cand) = get (id orphan))) as [Heq|Hne].
    { rewrite bool_decide_eq_true_2 by done. by injection E as <-. }
    rewrite bool_decide_eq_false_2 by done. fold od.
    destruct (not_earlier od (parse_date (date_parsed cand))); [by injection E as <-|].
    read_keys.
    destruct (would_create_cycle _ _ _); [by injection E as <-|]. cbn [negb andb].
    destruct (best_score acc <? _); by injection E as <-.
  - injection E as <-. eauto.
  - exfalso.
    assert (well_keyed cand) as [Hid Hmid].
    { eapply Forall_forall; [exact Hkeys|]. by eapply list_elem_of_lookup_2. }
    destruct Horphan as [Hoid Homid].
    read_keys.
    destruct (decide _); [done|].
    destruct (not_earlier _ _); [done|].
    read_keys.
    destruct (would_create_cycle _ _ _); [done|]. by destruct (_ <? _).
  - done.
Qed.

Lemma consider_chosen seen acc j :
  chosen emails idx orphan seen acc ->
  ∃ acc', consider emails idx orphan od acc j = Ok acc' ∧ chosen emails idx orphan (seen ++ [j]) acc'.
Proof.
  intros Hch. destruct (consider_spec acc j) as (acc' & Hc & Hbest).
  exists acc'. split; [done|]. unfold chosen in Hch |- *. fold elig sc in Hch |- *.
  pose proof (candidate_score_bounds emails orphan j) as Hb. fold sc in Hb.
  destruct (elig j) eqn:Hj; cbn [andb] in Hbest.
  - destruct (best_score acc <? sc j) eqn:Hlt;
      [apply Z.ltb_lt in Hlt|apply Z.ltb_ge in Hlt];
      injection Hbest as -> ->.
    + split; [done|]. split; [done|]. exists seen, []. split; [done|].
      split; [|by intros k ?%elem_of_nil].
      destruct (best_parent acc) as [j0|].
      * destruct Hch as (Hj0 & Hs0 & l1 & l2 & -> & H1 & H2).
        intros k [Hk|[->|Hk]%elem_of_cons]%elem_of_app Hek.
        -- specialize (H1 k Hk Hek). lia.
        -- lia.
        -- specialize (H2 k Hk Hek). lia.
      * destruct Hch as [_ Hnone]. intros k Hk Hek. rewrite Hnone in Hek; done.
    + destruct (best_parent acc) as [j0|].
      * destruct Hch as (Hj0 & Hs0 & l1 & l2 & -> & H1 & H2).
        split; [done|]. split; [done|].
        exists l1, (l2 ++ [j]). split; [by rewrite <- app_assoc|].
        split; [done|].
        intros k [Hk| ->%list_elem_of_singleton]%elem_of_app Hek; [by apply H2|lia].
      * destruct Hch as [Hm _]. lia.
  - injection Hbest as -> ->.
    destruct (best_parent acc) as [j0|].
    + destruct Hch as (Hj0 & Hs0 & l1 & l2 & -> & H1 & H2).
      split; [done|]. split; [done|].
      exists l1, (l2 ++ [j]). split; [by rewrite <- app_assoc|].
      split; [done|].
      intros k [Hk| ->%list_elem_of_singleton]%elem_of_app Hek; [by apply H2|congruence].
    + destruct Hch as [Hm Hnone]. split; [done|].
      intros k [Hk| ->%list_elem_of_singleton]%elem_of_app; auto.
Qed.

Lemma for_each_consider_chosen rest seen acc :
  chosen emails idx orphan seen acc ->
  ∃ acc', for_each (consider emails idx orphan od) rest acc = Ok acc'
    ∧ chosen emails idx orphan (seen ++ rest) acc'.
Proof.
  revert seen acc. induction rest as [|j rest IH]; intros seen acc Hch; simpl.
  - exists acc. by rewrite app_nil_r.
  - destruct (consider_chosen seen acc j Hch) as (acc1 & -> & Hch1). cbn [bind].
    destruct (IH _ _ Hch1) as (acc' & -> & Hch').
    exists acc'. split; [done|]. by rewrite <- app_assoc in Hch'.
Qed.

(** The choice among all the candidates. *)
Lemma choose_parent_spec cands :
  ∃ c, for_each (consider emails idx orphan od) cands
         {| best_parent := None; best_score := -1; cycles_seen := O |} = Ok c
    ∧ chosen emails idx orphan cands c.
Proof.
  apply (for_each_consider_chosen cands []). split; [done|]. by intros k ?%elem_of_nil.
Qed.

End Choice.

Lemma eligible_self (emails : list email) idx i orphan :
  emails !! i = Some orphan -> eligible emails idx orphan i = false.
Proof. intros Hi. unfold eligible. rewrite Hi. by rewrite bool_decide_eq_true_2. Qed.

Lemma link_orphan_spec m i j score cycles orphan cand :
  m_emails m !! i = Some orphan -> m_emails m !! j = Some cand ->
  well_keyed orphan -> well_keyed cand ->
  ∃ m', link_orphan m i j score cycles = Ok m'
    ∧ m_emails m'
      = linked (m_emails m) i j (matched_orphan orphan cand score) (get (message_id orphan))
    ∧ m_index m' = <[get (message_id orphan) := i]> (m_index m).
Proof.
  intros Hi Hj [_ Ho] [_ Hc]. unfold link_orphan. rewrite Hi, Hj.
  read_keys. eauto.
Qed.

(** The body of the main loop on an orphan: the choice among the
    candidates of its subject, and the store after it. *)
Lemma match_one_spec by_subject m i orphan :
  Forall well_keyed (m_emails m) ->
  m_emails m !! i = Some orphan ->
  orphan_status orphan = Some orphan_reply ->
  let cands := alist_get (norm_subj_of orphan) by_subject in
  (norm_subj_of orphan = "" -> cands = []) ->
  (norm_subj_of orphan ≠ "" -> i ∈ cands) ->
  ∃ m' c, match_one by_subject m i = Ok m'
    ∧ chosen (m_emails m) (m_index m) orphan cands c
    ∧ match best_parent c with
      | None => m_emails m' = m_emails m ∧ m_index m' = m_index m
      | Some j =>
          ∃ cand, m_emails m !! j = Some cand ∧ j ≠ i
            ∧ m_emails m'
              = linked (m_emails m) i j (matched_orphan orphan cand (best_score c))
                  (get (message_id orphan))
            ∧ m_index m' = <[get (message_id orphan) := i]> (m_index m)
      end.
Proof.
  intros Hkeys Hi Hst cands Hempty Hin.
  pose proof (well_keyed_lookup _ _ _ Hkeys Hi) as Hok.
  unfold match_one. rewrite Hi. rewrite decide_True by done.
  set (none := {| best_parent := None; best_score := -1; cycles_seen := O |}).
  destruct (String.eqb_spec (norm_subj_of orphan) "") as [He|Hne].
  { exists (count_unmatched 0 m), none. split; [done|]. split; [|done].
    split; [done|]. intros k Hk. rewrite Hempty in Hk by done. by apply elem_of_nil in Hk. }
  fold cands. specialize (Hin Hne).
  destruct (List.length cands <=? 1)%nat eqn:Hlen.
  { exists (count_unmatched 0 m), none. split; [done|]. split; [|done].
    split; [done|]. intros k Hk. apply Nat.leb_le in Hlen.
    destruct cands as [|x [|y l]]; [by apply elem_of_nil in Hk| |simpl in Hlen; lia].
    apply list_elem_of_singleton in Hk, Hin. subst. by apply eligible_self. }
  destruct (choose_parent_spec (m_emails m) (m_index m) orphan Hkeys Hok cands)
    as (c & Hc & Hch).
  fold none in Hc. rewrite Hc. cbn [bind].
  destruct (best_parent c) as [j|] eqn:Hbest.
  - assert (eligible (m_emails m) (m_index m) orphan j = true) as Hel.
    { unfold chosen in Hch. rewrite Hbest in Hch. tauto. }
    assert (∃ cand, m_emails m !! j = Some cand) as [cand Hj].
    { unfold eligible in Hel. destruct (m_emails m !! j); [eauto|done]. }
    assert (j ≠ i) as Hji.
    { intros ->. by rewrite (eligible_self _ _ _ _ Hi) in Hel. }
    destruct (link_orphan_spec m i j (best_score c) (cycles_seen c) orphan cand)
      as (m' & Hm' & Hem & Hidx); eauto using well_keyed_lookup.
    exists m', c. rewrite Hbest. eauto 10.
  - exists (count_unmatched (cycles_seen c) m), c. rewrite Hbest. done.
Qed.

(** A record that is not an orphan reply is skipped. *)
Lemma match_one_skip by_subject m i e :
  m_emails m !! i = Some e -> orphan_status e ≠ Some orphan_reply ->
  match_one by_subject m i = Ok m.
Proof. intros Hi Hst. unfold match_one. rewrite Hi. by rewrite decide_False. Qed.

Section MatcherRun.

Context (emails0 : list email) (Hkeys : Forall well_keyed emails0).

Let by_subject := sorted_by_subject emails0.

(** The orphan is among the candidates of its own subject. *)
Lemma candidates_of_orphan (emails : list email) i orphan :
  Forall2 same_message emails0 emails ->
  emails !! i = Some orphan ->
  (norm_subj_of orphan = "" -> alist_get (norm_subj_of orphan) by_subject = [])
  ∧ (norm_subj_of orphan ≠ "" -> i ∈ alist_get (norm_subj_of orphan) by_subject).
Proof.
  intros Hsame Hi.
  destruct (same_subject_spec emails0 (norm_subj_of orphan)) as (Hmem & _ & _).
  fold by_subject in Hmem. split.
  - intros He. apply elem_of_nil_inv. intros j Hj. apply Hmem in Hj as (_ & _ & _ & ?).
    done.
  - intros Hne. apply Hmem.
    destruct (Forall2_lookup_r _ _ _ _ _ Hsame Hi) as (e0 & He0 & Hs).
    exists e0. split; [done|]. split; [|done]. by apply same_message_norm_subj.
Qed.

(** One iteration of the main loop never raises on well-keyed records; it
    is a step of a matching phase and touches only an orphan reply and the
    children of its new parent. *)
Lemma match_one_step m i :
  Forall2 same_message emails0 (m_emails m) ->
  ∃ m', match_one by_subject m i = Ok m'
    ∧ Forall2 same_message emails0 (m_emails m')
    ∧ phase_step m m'
    ∧ Forall2 kept_unless_orphan (m_emails m) (m_emails m').
Proof.
  intros Hsame.
  pose proof (store_well_keyed _ _ Hkeys Hsame) as Hk.
  assert (Forall2 kept_unless_orphan (m_emails m) (m_emails m)) as Hrefl.
  { apply Forall2_refl_rel, kept_unless_orphan_refl. }
  destruct (m_emails m !! i) as [orphan|] eqn:Hi; cycle 1.
  { exists m. unfold match_one. rewrite Hi. repeat split; auto. by left. }
  destruct (decide (orphan_status orphan = Some orphan_reply)) as [Hst|Hst]; cycle 1.
  { exists m. rewrite (match_one_skip _ _ _ _ Hi Hst). repeat split; auto. by left. }
  destruct (candidates_of_orphan _ _ _ Hsame Hi) as [Hempty Hin].
  destruct (match_one_spec by_subject m i orphan Hk Hi Hst Hempty Hin)
    as (m' & c & Hm' & Hch & Heff).
  exists m'. split; [done|].
  destruct (best_parent c) as [j|] eqn:Hbest.
  - destruct Heff as (cand & Hj & Hji & Hem & Hidx).
    unfold chosen in Hch. rewrite Hbest in Hch. destruct Hch as (Hel & _).
    rewrite Hem. split; [|split].
    + apply linked_Forall2; [done| |].
      * intros x Hx. destruct (Forall2_lookup_l _ _ _ _ _ Hsame Hx) as (y & Hy & Hxy).
        rewrite Hi in Hy. injection Hy as <-.
        etransitivity; [done|]. apply matched_orphan_same.
      * intros x y _ Hxy. etransitivity; [done|]. apply add_child_same.
    + right. exists i, j, orphan, cand, (matched_orphan orphan cand (best_score c)).
      split_and!; try done.
      unfold eligible in Hel. rewrite Hj in Hel.
      apply andb_prop in Hel as [_ Hw]. by apply negb_true_iff in Hw.
    + apply linked_Forall2; [done| |].
      * intros x Hx Hxst. rewrite Hi in Hx. by injection Hx as <-.
      * intros x y _ Hxy. eapply kept_unless_orphan_trans; [done|].
        intros _. apply grown_add_child.
  - destruct Heff as [Hem Hidx]. rewrite Hem. repeat split; auto. by left.
Qed.

(** Any number of iterations. *)
Lemma match_run_steps l m :
  Forall2 same_message emails0 (m_emails m) ->
  ∃ m', for_each (match_one by_subject) l m = Ok m'
    ∧ Forall2 same_message emails0 (m_emails m')
    ∧ rtc phase_step m m'
    ∧ Forall2 kept_unless_orphan (m_emails m) (m_emails m').
Proof.
  revert m. induction l as [|i l IH]; intros m Hsame; simpl.
  - exists m. split_and!; [done|done|done|].
    apply Forall2_refl_rel, kept_unless_orphan_refl.
  - destruct (match_one_step m i Hsame) as (m1 & -> & Hs1 & Hstep & Hk1). cbn [bind].
    destruct (IH m1 Hs1) as (m' & -> & Hs' & Hsteps & Hk').
    exists m'. split_and!; [done|done| |].
    + by eapply rtc_l.
    + eapply Forall2_trans; [|exact Hk1|exact Hk']. apply kept_unless_orphan_trans.
Qed.

End MatcherRun.

(** The Subject Matcher runs to its end on well-keyed records; the records
    stay the same messages, every change is a guarded link, and a record
    that is not an orphan reply only has its children extended. *)
Lemma match_orphans_run_ok (emails : list email) :
  Forall well_keyed emails ->
  ∃ m, match_orphans_run emails = Ok m
    ∧ Forall2 same_message emails (m_emails m)
    ∧ rtc phase_step (matcher_start emails) m
    ∧ Forall2 kept_unless_orphan emails (m_emails m).
Proof.
  intros Hk. unfold match_orphans_run.
  destruct (build_by_id_ok emails Hk) as [by_id ->]. cbn [bind].
  apply (match_run_steps emails Hk (positions emails) (matcher_start emails)).
  by apply Forall2_refl_rel.
Qed.

(** The state in which the main loop reaches the record at position [n]. *)
Lemma match_state_reached (emails0 : list email) n m :
  Forall well_keyed emails0 ->
  for_each (match_one (sorted_by_subject emails0)) (take n (positions emails0))
    (matcher_start emails0) = Ok m ->
  Forall2 same_message emails0 (m_emails m).
Proof.
  intros Hk Hrun.
  destruct (match_run_steps emails0 Hk (take n (positions emails0)) (matcher_start emails0))
    as (m' & Hm' & Hsame & _); [by apply Forall2_refl_rel|].
  congruence.
Qed.

Lemma eligible_spec (emails : list email) idx orphan j :
  eligible emails idx orphan j = true <->
  ∃ cand, emails !! j = Some cand
    ∧ get (id cand) ≠ get (id orphan)
    ∧ ¬ (∃ od cd, parse_date (date_parsed orphan) = Some od
                  ∧ parse_date (date_parsed cand) = Some cd ∧ od <= cd)
    ∧ would_create_cycle (deref emails idx)
        (get (message_id orphan)) (get (message_id cand)) = false.
Proof.
  unfold eligible. destruct (emails !! j) as [cand|]; [|by split; [|intros (? & ? & _)]].
  rewrite !andb_true_iff, !negb_true_iff, bool_decide_eq_false.
  unfold not_earlier. split.
  - intros [[Hid Hd] Hw]. exists cand. split_and!; [done|done| |done].
    intros (od & cd & Ho & Hc & Hle). rewrite Ho, Hc in Hd. apply Z.leb_gt in Hd. lia.
  - intros (c & [= <-] & Hid & Hd & Hw). split_and!; [done| |done].
    destruct (parse_date (date_parsed orphan)) as [od|]; [|done].
    destruct (parse_date (date_parsed cand)) as [cd|]; [|done].
    apply Z.leb_gt. destruct (decide (od <= cd)); [|lia]. exfalso. apply Hd. eauto.
Qed.

Lemma candidate_score_spec (emails : list email) orphan j cand :
  emails !! j = Some cand ->
  candidate_score emails orphan j
  = (if decide (orphan_status cand = Some true_root) then 10 else 0)
    + (if has_children cand then 5 else 0)
    + (if truthy (parent_id cand) then 3 else 0)
    + match parse_date (date_parsed orphan), parse_date (date_parsed cand) with
      | Some od, Some cd =>
          if od - cd <? 86400 * usec_per_second then 5
          else if od - cd <? 604800 * usec_per_second then 3
          else if od - cd <? 2592000 * usec_per_second then 1
          else 0
      | _, _ => 0
      end.
Proof. intros Hj. unfold candidate_score. by rewrite Hj. Qed.



(** * Properties of the Time-Proximity Merger *)

(** What a guarded link does to the store and to the index. *)
Lemma link_guarded_spec mark m i j child cand :
  m_emails m !! i = Some child -> m_emails m !! j = Some cand ->
  well_keyed child -> well_keyed cand ->
  ∃ m', link_guarded mark m i j = Ok m'
    ∧ ((would_create_cycle (deref (m_emails m) (m_index m))
          (get (message_id child)) (get (message_id cand)) = true
        ∧ m_emails m' = m_emails m ∧ m_index m' = m_index m)
       ∨ (would_create_cycle (deref (m_emails m) (m_index m))
            (get (message_id child)) (get (message_id cand)) = false
          ∧ m_emails m'
            = linked (m_emails m) i j
                (mark (set_parent_id (get (message_id cand)) child))
                (get (message_id child))
          ∧ m_index m' = <[get (message_id child) := i]> (m_index m))).
Proof.
  intros Hi Hj [_ Hc] [_ Hp]. unfold link_guarded. rewrite Hi, Hj. read_keys.
  destruct (would_create_cycle _ _ _) eqn:Hw.
  - eexists. split; [done|]. left. done.
  - eexists. split; [done|]. right. split; [done|]. split; [|done].
    cbn [m_emails]. unfold linked.
    apply list_alter_ext; [|done]. intros x _. apply add_child_created_eq.
Qed.

(** A guarded link is a step of a matching phase and keeps the records the
    same messages. *)
Lemma link_guarded_step mark (old : list email) m i j child cand :
  mark_ok mark ->
  Forall well_keyed old ->
  Forall2 same_message old (m_emails m) ->
  m_emails m !! i = Some child -> m_emails m !! j = Some cand ->
  ∃ m', link_guarded mark m i j = Ok m'
    ∧ Forall2 same_message old (m_emails m')
    ∧ phase_step m m'.
Proof.
  intros Hmark Hk Hsame Hi Hj.
  pose proof (store_well_keyed _ _ Hk Hsame) as Hkm.
  destruct (link_guarded_spec mark m i j child cand Hi Hj)
    as (m' & Hm' & [(Hw & He & Hx)|(Hw & He & Hx)]);
    eauto using well_keyed_lookup.
  - exists m'. split; [done|]. rewrite He. split; [done|]. by left.
  - exists m'. split; [done|]. rewrite He.
    destruct (Hmark (set_parent_id (get (message_id cand)) child)) as (Hs & Hp & Hc).
    split.
    + apply linked_Forall2; [done| |].
      * intros x Hx'. destruct (Forall2_lookup_l _ _ _ _ _ Hsame Hx') as (y & Hy & Hxy).
        rewrite Hi in Hy. injection Hy as <-.
        etransitivity; [done|]. etransitivity; [|exact Hs]. unfold same_message. by simpl.
      * intros x y _ Hxy. etransitivity; [done|]. apply add_child_same.
    + right. exists i, j, child, cand, (mark (set_parent_id (get (message_id cand)) child)).
      split_and!; try done.
Qed.

Lemma merged_mark_ok days :
  mark_ok (fun e => set_time_proximity_days (Some days)
                      (set_orphan_status (Some matched_by_time_proximity) e)).
Proof. intros e. unfold same_message. by simpl. Qed.

Section MergerRun.

Context (max_days : Z).
Context (old : list email) (Hkeys : Forall well_keyed old).

(** One member of a group. *)
Lemma walk_step_ok w later :
  Forall2 same_message old (m_emails (w_state w)) ->
  is_Some (old !! later.1) -> is_Some (old !! canonical_root w) ->
  ∃ w', walk_step max_days w later = Ok w'
    ∧ Forall2 same_message old (m_emails (w_state w'))
    ∧ phase_step (w_state w) (w_state w')
    ∧ (canonical_root w' = canonical_root w ∨ canonical_root w' = later.1).
Proof.
  intros Hsame [l0 Hl] [c0 Hc]. destruct later as [later_root later_date].
  unfold walk_step.
  destruct (max_days <? days_of (later_date - canonical_date w)).
  - eexists. split; [done|]. simpl. split_and!; [done|by left|by right].
  - destruct (Forall2_lookup_l _ _ _ _ _ Hsame Hl) as (child & Hchild & _).
    destruct (Forall2_lookup_l _ _ _ _ _ Hsame Hc) as (cand & Hcand & _).
    destruct (link_guarded_step _ old (w_state w) later_root (canonical_root w) child cand
                (merged_mark_ok (days_of (later_date - canonical_date w))) Hkeys Hsame
                Hchild Hcand) as (m' & -> & Hs' & Hstep).
    cbn [bind]. eexists. split; [done|]. simpl. split_and!; [done|done|by left].
Qed.

Lemma walk_ok rest w :
  Forall2 same_message old (m_emails (w_state w)) ->
  Forall (fun x => is_Some (old !! x.1)) rest -> is_Some (old !! canonical_root w) ->
  ∃ w', for_each (walk_step max_days) rest w = Ok w'
    ∧ Forall2 same_message old (m_emails (w_state w'))
    ∧ rtc phase_step (w_state w) (w_state w').
Proof.
  intros Hsame Hrest. revert w Hsame.
  induction Hrest as [|x rest Hx _ IH]; intros w Hsame Hc; simpl;
    [by exists w; split_and!|].
  destruct (walk_step_ok w x Hsame Hx Hc) as (w1 & -> & Hs1 & Hstep & Hcan). cbn [bind].
  destruct (IH w1 Hs1) as (w' & -> & Hs' & Hsteps).
  { destruct Hcan as [-> | ->]; done. }
  exists w'. split_and!; [done|done|]. by eapply rtc_l.
Qed.

Lemma roots_with_dates_valid (emails : list email) roots x :
  x ∈ roots_with_dates emails roots -> is_Some (emails !! x.1).
Proof.
  unfold roots_with_dates. rewrite elem_of_stable_sort, list_elem_of_omap.
  intros (r & _ & Hr). destruct (emails !! r) as [e|] eqn:He; [|done].
  destruct (parse_date (date_parsed e)); [|done]. injection Hr as <-. simpl. eauto.
Qed.

(** One group. *)
Lemma merge_group_ok m group :
  Forall2 same_message old (m_emails m) ->
  ∃ m', merge_group max_days m group = Ok m'
    ∧ Forall2 same_message old (m_emails m')
    ∧ rtc phase_step m m'.
Proof.
  intros Hsame. unfold merge_group.
  destruct (roots_with_dates (m_emails m) group.2) as [|[r0 d0] [|x rest]] eqn:Hr;
    [by exists m; split_and!..|].
  assert (∀ y, y ∈ roots_with_dates (m_emails m) group.2 -> is_Some (old !! y.1)) as Hvalid.
  { intros y Hy. apply roots_with_dates_valid in Hy as [e He].
    destruct (Forall2_lookup_r _ _ _ _ _ Hsame He) as (e0 & -> & _). eauto. }
  rewrite Hr in Hvalid.
  destruct (walk_ok (x :: rest)
              {| w_state := m; canonical_root := r0; canonical_date := d0 |})
    as (w' & Hw' & Hs' & Hsteps).
  - done.
  - apply Forall_forall. intros y Hy. apply Hvalid. by right.
  - apply (Hvalid (r0, d0)). by left.
  - rewrite Hw'. cbn [bind]. eauto.
Qed.

Lemma merge_groups_ok groups m :
  Forall2 same_message old (m_emails m) ->
  ∃ m', for_each (merge_group max_days) groups m = Ok m'
    ∧ Forall2 same_message old (m_emails m')
    ∧ rtc phase_step m m'.
Proof.
  revert m. induction groups as [|g groups IH]; intros m Hsame; simpl;
    [by exists m; split_and!|].
  destruct (merge_group_ok m g Hsame) as (m1 & -> & Hs1 & Hsteps1). cbn [bind].
  destruct (IH m1 Hs1) as (m' & -> & Hs' & Hsteps).
  exists m'. split_and!; [done|done|]. by etransitivity.
Qed.

End MergerRun.

(** The Time-Proximity Merger runs to its end on well-keyed records. *)
Lemma merge_by_time_proximity_run_ok max_days (emails : list email) :
  Forall well_keyed emails ->
  ∃ m, merge_by_time_proximity_run max_days emails = Ok m
    ∧ Forall2 same_message emails (m_emails m)
    ∧ rtc phase_step (phase_start emails) m.
Proof.
  intros Hk. unfold merge_by_time_proximity_run.
  apply (merge_groups_ok max_days emails Hk). by apply Forall2_refl_rel.
Qed.

Lemma lookup_linked_grown (emails : list email) i j child' cmid k rec :
  k ≠ i -> emails !! k = Some rec ->
  ∃ rec', linked emails i j child' cmid !! k = Some rec' ∧ grown rec rec'.
Proof.
  intros Hki Hk. unfold linked. rewrite list_lookup_alter.
  case_decide as Hjk.
  - subst k. rewrite list_lookup_insert_ne, Hk by done. simpl.
    eexists. split; [done|]. apply grown_add_child.
  - rewrite list_lookup_insert_ne, Hk by done. eexists. split; [done|]. apply grown_refl.
Qed.

Section Walk.

Context (max_days : Z).

(** The exact effect of the walk on one member. *)
Lemma walk_step_spec w later l_rec c_rec :
  m_emails (w_state w) !! later.1 = Some l_rec ->
  m_emails (w_state w) !! canonical_root w = Some c_rec ->
  well_keyed l_rec -> well_keyed c_rec ->
  ∃ w', walk_step max_days w later = Ok w'
    ∧ if max_days <? days_of (later.2 - canonical_date w) then
        m_emails (w_state w') = m_emails (w_state w)
        ∧ canonical_root w' = later.1 ∧ canonical_date w' = later.2
      else
        canonical_root w' = canonical_root w ∧ canonical_date w' = canonical_date w
        ∧ ((guard_at w l_rec c_rec = true
            ∧ m_emails (w_state w') = m_emails (w_state w))
           ∨ (guard_at w l_rec c_rec = false
              ∧ m_emails (w_state w')
                = linked (m_emails (w_state w)) later.1 (canonical_root w)
                    (merged_root (days_of (later.2 - canonical_date w)) c_rec l_rec)
                    (get (message_id l_rec)))).
Proof.
  intros Hl Hc Hkl Hkc. destruct later as [x dx]. unfold walk_step. simpl in *.
  destruct (max_days <? days_of (dx - canonical_date w)).
  - eexists. split; [done|]. done.
  - destruct (link_guarded_spec
                (fun e => set_time_proximity_days (Some (days_of (dx - canonical_date w)))
                            (set_orphan_status (Some matched_by_time_proximity) e))
                (w_state w) x (canonical_root w) l_rec c_rec Hl Hc Hkl Hkc)
      as (m' & -> & [(Hg & He & _)|(Hg & He & _)]); cbn [bind];
      (eexists; split; [done|]); simpl; split_and!; auto.
Qed.

(** A record that is not among the members still to come is only
    extended with children. *)
Lemma walk_frame rest w w' k rec :
  Forall well_keyed (m_emails (w_state w)) ->
  for_each (walk_step max_days) rest w = Ok w' ->
  k ∉ rest.*1 ->
  m_emails (w_state w) !! k = Some rec ->
  ∃ rec', m_emails (w_state w') !! k = Some rec' ∧ grown rec rec'.
Proof.
  revert w rec. induction rest as [|[x dx] rest IH]; intros w rec Hk; cbn [for_each].
  - intros [= <-] _ Hrec. exists rec. split; [done|apply grown_refl].
  - intros Hrun Hnot Hrec.
    apply not_elem_of_cons in Hnot as [Hkx Hnot].
    destruct (walk_step max_days w (x, dx)) as [w1|] eqn:Hstep;
      cbn [bind] in Hrun; [|done].
    assert (∃ rec1, m_emails (w_state w1) !! k = Some rec1 ∧ grown rec rec1
                    ∧ Forall well_keyed (m_emails (w_state w1))) as (rec1 & H1 & Hg1 & Hk1).
    { unfold walk_step in Hstep.
      destruct (max_days <? _).
      - injection Hstep as <-. exists rec. split_and!; [done|apply grown_refl|done].
      - destruct (link_guarded _ (w_state w) x (canonical_root w)) as [m1|] eqn:Hlink;
          cbn [bind] in Hstep; [|done]. injection Hstep as <-. cbn [w_state].
        unfold link_guarded in Hlink.
        destruct (m_emails (w_state w) !! x) as [child|] eqn:Hx; cycle 1.
        { injection Hlink as <-. exists rec. split_and!; [done|apply grown_refl|done]. }
        destruct (m_emails (w_state w) !! canonical_root w) as [cand|] eqn:Hc; cycle 1.
        { injection Hlink as <-. exists rec. split_and!; [done|apply grown_refl|done]. }
        destruct (link_guarded_spec
                    (fun e => set_time_proximity_days
                                (Some (days_of (dx - canonical_date w)))
                                (set_orphan_status (Some matched_by_time_proximity) e))
                    (w_state w) x (canonical_root w) child cand Hx Hc)
          as (m' & Hm' & Heff); eauto using well_keyed_lookup.
        unfold link_guarded in Hm'. rewrite Hx, Hc in Hm'.
        assert (m' = m1) as -> by congruence.
        destruct Heff as [(_ & He & _)|(_ & He & _)]; rewrite He.
        + exists rec. split_and!; [done|apply grown_refl|done].
        + destruct (lookup_linked_grown (m_emails (w_state w)) x (canonical_root w)
                      (merged_root (days_of (dx - canonical_date w)) cand child)
                      (get (message_id child)) k rec Hkx Hrec) as (rec1 & Hr1 & Hg).
          exists rec1. split_and!; [done|done|].
          eapply store_well_keyed; [exact Hk|].
          apply linked_Forall2; [by apply Forall2_refl_rel| |].
          * intros y Hy. rewrite Hx in Hy. injection Hy as <-. unfold same_message. by simpl.
          * intros y z _ Hyz. etransitivity; [done|]. apply add_child_same. }
    destruct (IH w1 rec1 Hk1 Hrun Hnot H1) as (rec' & Hr' & Hg').
    exists rec'. split; [done|]. by eapply grown_trans.
Qed.

(** A record that is neither the canonical root nor among the members
    still to come is not touched at all. *)
Lemma walk_frame_exact rest w w' k :
  for_each (walk_step max_days) rest w = Ok w' ->
  k ∉ rest.*1 -> k ≠ canonical_root w ->
  m_emails (w_state w') !! k = m_emails (w_state w) !! k.
Proof.
  revert w. induction rest as [|[x dx] rest IH]; intros w; cbn [for_each].
  - by intros [= <-] _ _.
  - intros Hrun Hnot Hkc.
    apply not_elem_of_cons in Hnot as [Hkx Hnot].
    destruct (walk_step max_days w (x, dx)) as [w1|] eqn:Hstep;
      cbn [bind] in Hrun; [|done].
    assert (m_emails (w_state w1) !! k = m_emails (w_state w) !! k
            ∧ k ≠ canonical_root w1) as [H1 Hk1].
    { unfold walk_step in Hstep. destruct (max_days <? _).
      - by injection Hstep as <-.
      - destruct (link_guarded _ (w_state w) x (canonical_root w)) as [m1|] eqn:Hlink;
          cbn [bind] in Hstep; [|done]. injection Hstep as <-. cbn [w_state canonical_root].
        split; [|done]. unfold link_guarded in Hlink.
        destruct (m_emails (w_state w) !! x) as [child|]; [|by injection Hlink as <-].
        destruct (m_emails (w_state w) !! canonical_root w) as [cand|];
          [|by injection Hlink as <-].
        destruct (subscript (message_id child)); cbn [bind] in Hlink; [|done].
        destruct (subscript (message_id cand)); cbn [bind] in Hlink; [|done].
        destruct (would_create_cycle _ _ _); injection Hlink as <-; [done|].
        cbn [m_emails]. by rewrite list_lookup_alter_ne, list_lookup_insert_ne. }
    rewrite <- H1. by apply IH.
Qed.

Lemma merged_root_same days c c' l :
  message_id c = message_id c' -> merged_root days c l = merged_root days c' l.
Proof. intros H. unfold merged_root. by rewrite H. Qed.

Lemma assign_canonical_members canon rest later canonical v :
  (later, canonical, v) ∈ assign_canonical max_days canon rest ->
  later ∈ rest ∧ (canonical = canon ∨ canonical ∈ rest)
  ∧ match v with
    | InWindow => days_of (later.2 - canonical.2) <= max_days
    | NewCanonical => max_days < days_of (later.2 - canonical.2)
    end.
Proof.
  revert canon. induction rest as [|x rest IH]; intros canon; simpl;
    [by intros ?%elem_of_nil|].
  destruct (max_days <? days_of (x.2 - canon.2)) eqn:Hd;
    [apply Z.ltb_lt in Hd|apply Z.ltb_ge in Hd];
    (intros [[= -> -> ->]|Hin]%elem_of_cons;
     [split_and!; [by left|by left|done]|]);
    apply IH in Hin as (H1 & H2 & H3);
    (split_and!; [by right| |done]); destruct H2 as [->|?]; auto.
  - right. by left.
  - right. by right.
  - right. by right.
Qed.

(** The walk over the members of a group, as a whole. *)
Lemma walk_assign rest w :
  Forall well_keyed (m_emails (w_state w)) ->
  NoDup (canonical_root w :: rest.*1) ->
  (∀ x, x ∈ canonical_root w :: rest.*1 -> is_Some (m_emails (w_state w) !! x)) ->
  ∃ w', for_each (walk_step max_days) rest w = Ok w'
    ∧ ∀ later canonical v,
        (later, canonical, v)
          ∈ assign_canonical max_days (canonical_root w, canonical_date w) rest ->
        ∃ l_rec c_rec,
          m_emails (w_state w) !! later.1 = Some l_rec
          ∧ m_emails (w_state w) !! canonical.1 = Some c_rec
          ∧ match v with
            | InWindow =>
                ∃ pre post w_at,
                  rest = pre ++ later :: post
                  ∧ for_each (walk_step max_days) pre w = Ok w_at
                  ∧ ((guard_at w_at l_rec c_rec = true
                      ∧ m_emails (w_state w') !! later.1 = Some l_rec)
                     ∨ (guard_at w_at l_rec c_rec = false
                        ∧ m_emails (w_state w') !! later.1
                          = Some (merged_root (days_of (later.2 - canonical.2))
                                    c_rec l_rec)
                        ∧ ∃ c', m_emails (w_state w') !! canonical.1 = Some c'
                                ∧ get (message_id l_rec)
                                    ∈ default [] (children_ids c')))
            | NewCanonical =>
                ∃ l', m_emails (w_state w') !! later.1 = Some l' ∧ grown l_rec l'
            end.
Proof.
  revert w. induction rest as [|[x dx] rest IH]; intros w Hk Hnd Hvalid.
  { exists w. split; [done|]. simpl. by intros ??? ?%elem_of_nil. }
  cbn [for_each assign_canonical].
  apply NoDup_cons in Hnd as [Hc Hnd]. cbn [fmap list_fmap fst] in *.
  apply NoDup_cons in Hnd as [Hx Hnd].
  apply not_elem_of_cons in Hc as [Hcx Hc].
  destruct (Hvalid x) as [l_rec Hl]; [by right; left|].
  destruct (Hvalid (canonical_root w)) as [c_rec Hcr]; [by left|].
  destruct (walk_step_spec w (x, dx) l_rec c_rec Hl Hcr) as (w1 & Hw1 & Heff);
    eauto using well_keyed_lookup.
  rewrite Hw1. cbn [bind]. cbn [fst snd] in *.
  assert (Forall2 same_message (m_emails (w_state w)) (m_emails (w_state w1))
          ∧ (∀ k, k ≠ x -> k ≠ canonical_root w ->
                  m_emails (w_state w1) !! k = m_emails (w_state w) !! k)) as [Hs1 Hother].
  { destruct (max_days <? _).
    - destruct Heff as (-> & _). split; [by apply Forall2_refl_rel|done].
    - destruct Heff as (_ & _ & [[_ ->]|[_ ->]]); [split; [by apply Forall2_refl_rel|done]|].
      split.
      + apply linked_Forall2; [by apply Forall2_refl_rel| |].
        * intros y Hy. rewrite Hl in Hy. injection Hy as <-. unfold same_message. by simpl.
        * intros y z _ Hyz. etransitivity; [done|]. apply add_child_same.
      + intros k ? ?. by apply lookup_linked_other. }
  pose proof (store_well_keyed _ _ Hk Hs1) as Hk1.
  assert (∀ k, is_Some (m_emails (w_state w) !! k)
               -> is_Some (m_emails (w_state w1) !! k)) as Hv1.
  { intros k [e He]. destruct (Forall2_lookup_l _ _ _ _ _ Hs1 He) as (e' & -> & _). eauto. }
  destruct (max_days <? days_of (dx - canonical_date w)) eqn:Hd.
  - (* the member becomes the canonical root *)
    destruct Heff as (He & Hcr1 & Hcd1).
    destruct (IH w1) as (w' & Hw' & Hrest).
    { done. }
    { rewrite Hcr1. by apply NoDup_cons. }
    { rewrite Hcr1. intros k Hkin. apply Hv1, Hvalid. by right. }
    exists w'. split; [done|]. intros later canonical v Hin.
    apply elem_of_cons in Hin as [[= -> -> ->]|Hin].
    + exists l_rec, c_rec. split_and!; [done|done|].
      destruct (walk_frame rest w1 w' x l_rec Hk1 Hw' Hx) as (l' & Hl' & Hg).
      { by rewrite He. }
      exists l'. done.
    + rewrite Hcr1, Hcd1 in Hrest.
      destruct (Hrest later canonical v Hin) as (l1 & c1 & Hl1 & Hc1 & Hv).
      rewrite He in Hl1, Hc1. exists l1, c1. split_and!; [done|done|].
      destruct v; [|done].
      destruct Hv as (pre & post & w_at & Hsplit & Hpre & Hv).
      exists ((x, dx) :: pre), post, w_at. rewrite Hsplit.
      split_and!; [done| |done]. cbn [for_each]. by rewrite Hw1.
  - (* the member is in the window *)
    destruct Heff as (Hcr1 & Hcd1 & Heff).
    destruct (IH w1) as (w' & Hw' & Hrest).
    { done. }
    { rewrite Hcr1. by apply NoDup_cons. }
    { rewrite Hcr1. intros k Hkin. apply Hv1, Hvalid.
      apply elem_of_cons in Hkin as [->|Hkin]; [by left|by right; right]. }
    exists w'. split; [done|]. intros later canonical v Hin.
    apply elem_of_cons in Hin as [[= -> -> ->]|Hin].
    + exists l_rec, c_rec. split_and!; [done|done|]. cbn [fst snd].
      assert (m_emails (w_state w') !! x = m_emails (w_state w1) !! x) as Hx'.
      { apply (walk_frame_exact rest w1 w' x Hw' Hx). by rewrite Hcr1. }
      exists [], rest, w. split; [done|]. split; [done|].
      rewrite Hx'. destruct Heff as [[Hg He]|[Hg He]]; rewrite He; [by left|right].
      split; [done|].
      assert (x < List.length (m_emails (w_state w)))%nat by (by eapply lookup_lt_Some).
      split; [by apply lookup_linked_child|].
      destruct (walk_frame rest w1 w' (canonical_root w)
                  (add_child (get (message_id l_rec)) c_rec) Hk1 Hw' Hc)
        as (c' & Hc' & [_ Hpre]).
      { rewrite He. by apply lookup_linked_parent. }
      exists c'. split; [done|].
      eapply elem_of_prefix; [|exact Hpre].
      unfold add_child. case_decide; [done|]. simpl. apply elem_of_app. right.
      by apply list_elem_of_singleton.
    + rewrite Hcr1, Hcd1 in Hrest.
      destruct (Hrest later canonical v Hin) as (l1 & c1 & Hl1 & Hc1 & Hv).
      apply assign_canonical_members in Hin as (Hlater & Hcan & _).
      assert (later.1 ≠ x ∧ later.1 ≠ canonical_root w) as [Hlx Hlc].
      { assert (later.1 ∈ rest.*1) by (apply list_elem_of_fmap; eauto).
        split; congruence. }
      rewrite (Hother _ Hlx Hlc) in Hl1.
      destruct (Hvalid canonical.1) as [c0 Hc0].
      { destruct Hcan as [->|Hcan]; [by left|].
        right; right. apply list_elem_of_fmap; eauto. }
      destruct (Forall2_lookup_l _ _ _ _ _ Hs1 Hc0) as (c1' & Hc1' & Hsame).
      rewrite Hc1 in Hc1'. injection Hc1' as <-.
      exists l1, c0. split_and!; [done|done|].
      destruct v; [|done].
      destruct Hv as (pre & post & w_at & Hsplit & Hpre & Hv).
      assert (message_id c0 = message_id c1) as Hmid by (by destruct Hsame as (_ & ? & _)).
      exists ((x, dx) :: pre), post, w_at. rewrite Hsplit.
      split; [done|]. split; [cbn [for_each]; by rewrite Hw1|].
      rewrite (merged_root_same _ c0 c1) by done.
      unfold guard_at in *. by rewrite Hmid.
Qed.

End Walk.

Lemma roots_with_dates_spec (emails : list email) roots :
  NoDup roots ->
  (∀ i d, (i, d) ∈ roots_with_dates emails roots <->
          i ∈ roots ∧ ∃ e, emails !! i = Some e ∧ parse_date (date_parsed e) = Some d)
  ∧ NoDup (roots_with_dates emails roots).*1
  ∧ Sorted (fun a b => a.2 <= b.2) (roots_with_dates emails roots).
Proof.
  intros Hnd. unfold roots_with_dates. split; [|split].
  - intros i d. rewrite elem_of_stable_sort, list_elem_of_omap. split.
    + intros (r & Hr & Hf). destruct (emails !! r) as [e|] eqn:He; [|done].
      destruct (parse_date (date_parsed e)) as [dt|] eqn:Hd; [|done].
      injection Hf as <- <-. eauto.
    + intros (Hi & e & He & Hd). exists i. split; [done|]. by rewrite He, Hd.
  - rewrite stable_sort_perm. apply omap_fst_NoDup; [|done].
    intros r x Hx. destruct (emails !! r) as [e|]; [|done].
    destruct (parse_date (date_parsed e)); [|done]. by injection Hx as <-.
  - eapply Sorted_weaken; [|apply stable_sort_sorted].
    + intros a b Hab. by apply Z.leb_le.
    + intros a b. destruct (Z.le_ge_cases a.2 b.2); [left|right]; by apply Z.leb_le.
Qed.

Lemma in_group_mergeable (emails : list email) subj i :
  in_group is_mergeable_root emails subj i = true <->
  ∃ e, emails !! i = Some e ∧ orphan_status e = Some true_root
       ∧ norm_subj_of e = subj ∧ (3 < String.length subj)%nat.
Proof.
  unfold in_group, is_mergeable_root.
  destruct (emails !! i) as [e|]; [|by split; [|intros (? & ? & _)]].
  rewrite !andb_true_iff, bool_decide_eq_true, negb_true_iff, Nat.ltb_lt.
  split.
  - intros [[[Hst Hlen] _] Hs%String.eqb_eq]. exists e. subst subj. done.
  - intros (e' & [= <-] & Hst & <- & Hlen). split_and!; try done.
    + apply String.eqb_neq. intros Heq. rewrite Heq in Hlen. simpl in Hlen. lia.
    + apply String.eqb_refl.
Qed.

(** The groups that the merger walks. *)
Lemma multi_root_subjects_spec (emails : list email) g subj roots :
  multi_root_subjects emails !! g = Some (subj, roots) ->
  (∀ i, i ∈ roots <->
        ∃ e, emails !! i = Some e ∧ orphan_status e = Some true_root
             ∧ norm_subj_of e = subj ∧ (3 < String.length subj)%nat)
  ∧ NoDup roots ∧ (2 <= List.length roots)%nat.
Proof.
  intros Hg. apply list_elem_of_lookup_2 in Hg.
  unfold multi_root_subjects in Hg. apply list_elem_of_filter in Hg as [Hlen Hin].
  simpl in Hlen.
  pose proof (alist_get_elem subj roots _ (group_by_subject_NoDup _ emails) Hin) as Hget.
  rewrite alist_get_group in Hget. subst roots. split_and!; [|
    apply NoDup_ListNoDup, List.NoDup_filter, NoDup_ListNoDup, NoDup_seq|lia].
  intros i. rewrite list_elem_of_In, filter_In, <- list_elem_of_In, elem_of_positions.
  rewrite in_group_mergeable. split; [by intros [_ ?]|].
  intros (e & He & H). split; eauto.
Qed.


(** * Properties of the Thread Assembler *)

Lemma get_thread_messages_unfold fuel (emails : list email) idx root d :
  get_thread_messages (S fuel) emails idx root d
  = (do below <- thread_children fuel emails idx d
                   (default [] (emails !! root ≫= children_ids));
     Ok ((root, d) :: below)).
Proof. reflexivity. Qed.

Section Traversal.

Context (emails : list email) (idx : gmap pyid nat).

(** The traversal returns within the recursion limit when the children
    relation goes down a ranking. *)
Lemma get_thread_messages_total rank fuel root d :
  ranked emails idx rank -> (rank root < fuel)%nat ->
  ∃ l, get_thread_messages fuel emails idx root d = Ok l.
Proof.
  intros Hr. revert root d. induction fuel as [|fuel IH]; intros root d Hlt; [lia|].
  rewrite get_thread_messages_unfold.
  assert (∀ cs, (∀ c j, c ∈ cs -> idx !! c = Some j -> (rank j < fuel)%nat) ->
                ∃ l, thread_children fuel emails idx d cs = Ok l) as Hcs.
  { induction cs as [|c cs IHcs]; intros Hall; simpl; [eauto|].
    destruct (idx !! c) as [j|] eqn:Hj.
    - destruct (IH j (S d)) as [l1 ->]; [eapply Hall; [by left|done]|]. cbn [bind].
      destruct IHcs as [l2 ->]; [intros; eapply Hall; [by right|done]|]. cbn [bind]. eauto.
    - cbn [bind]. destruct IHcs as [l2 ->]; [intros; eapply Hall; [by right|done]|].
      cbn [bind]. eauto. }
  destruct (emails !! root) as [e|] eqn:He; simpl.
  - destruct (Hcs (default [] (children_ids e))) as [l ->]; [|cbn [bind]; eauto].
    intros c j Hc Hj. specialize (Hr root e c j He Hc Hj). lia.
  - eauto.
Qed.

(** The members of a traversal: the root first, at the depth asked for; the
    others strictly deeper, each one a record that the index holds. *)
Lemma get_thread_messages_members fuel root d l :
  get_thread_messages fuel emails idx root d = Ok l ->
  ∃ l', l = (root, d) :: l'
    ∧ Forall (fun m => (d < m.2)%nat ∧ ∃ k, idx !! k = Some m.1) l'.
Proof.
  revert root d l. induction fuel as [|fuel IH]; intros root d l; [done|].
  rewrite get_thread_messages_unfold.
  assert (∀ cs l', thread_children fuel emails idx d cs = Ok l' ->
            Forall (fun m => (d < m.2)%nat ∧ ∃ k, idx !! k = Some m.1) l') as Hcs.
  { induction cs as [|c cs IHcs]; intros l'; simpl; [by intros [= <-]|].
    destruct (idx !! c) as [j|] eqn:Hj.
    - destruct (get_thread_messages fuel emails idx j (S d)) as [l1|] eqn:H1;
        cbn [bind]; [|done].
      destruct (thread_children fuel emails idx d cs) as [l2|]; cbn [bind]; [|done].
      intros [= <-]. apply Forall_app. split; [|by apply IHcs].
      apply IH in H1 as (l1' & -> & Hl1). constructor.
      + simpl. split; [lia|eauto].
      + eapply Forall_impl; [exact Hl1|]. intros m [? ?]. split; [lia|done].
    - cbn [bind].
      destruct (thread_children fuel emails idx d cs) as [l2|]; cbn [bind]; [|done].
      intros [= <-]. by apply IHcs. }
  destruct (thread_children _ _ _ _ _) as [below|] eqn:Hb; cbn [bind]; [|done].
  intros [= <-]. exists below. split; [done|]. by eapply Hcs.
Qed.

End Traversal.

(** The traversal reads only [children_ids]. *)
Lemma get_thread_messages_ext (emails emails' : list email) idx fuel root d :
  (∀ i, emails' !! i ≫= children_ids = emails !! i ≫= children_ids) ->
  get_thread_messages fuel emails' idx root d = get_thread_messages fuel emails idx root d.
Proof.
  intros Hext. revert root d. induction fuel as [|fuel IH]; intros root d; [done|].
  rewrite !get_thread_messages_unfold, Hext.
  assert (∀ cs, thread_children fuel emails' idx d cs
                = thread_children fuel emails idx d cs) as ->; [|done].
  induction cs as [|c cs IHcs]; simpl; [done|]. rewrite IHcs.
  destruct (idx !! c); [by rewrite IH|done].
Qed.

Lemma foldr_max_spec (l : list nat) :
  (∀ x, x ∈ l -> (x <= foldr Nat.max O l)%nat)
  ∧ (l ≠ [] -> foldr Nat.max O l ∈ l).
Proof.
  induction l as [|x l [IH1 IH2]]; simpl.
  - split; [by intros ? ?%elem_of_nil|done].
  - split.
    + intros y [->|Hy]%elem_of_cons; [lia|]. specialize (IH1 y Hy). lia.
    + intros _. destruct l as [|z l]; [simpl; rewrite Nat.max_0_r; by left|].
      destruct (Nat.max_spec x (foldr Nat.max O (z :: l))) as [[_ ->]|[_ ->]].
      * right. by apply IH2.
      * by left.
Qed.

Lemma existsb_elem {A} (f : A -> bool) l :
  existsb f l = true <-> ∃ x, x ∈ l ∧ f x = true.
Proof.
  rewrite existsb_exists. split; intros (x & Hx & Hf); exists x; split; try done;
    by apply list_elem_of_In.
Qed.

Lemma fold_min_le (l : list Z) x : fold_left Z.min l x <= x
  ∧ (∀ y, y ∈ l -> fold_left Z.min l x <= y)
  ∧ (fold_left Z.min l x = x ∨ fold_left Z.min l x ∈ l).
Proof.
  revert x. induction l as [|y l IH]; intros x; simpl.
  - split_and!; [lia|by intros ? ?%elem_of_nil|by left].
  - destruct (IH (Z.min x y)) as (H1 & H2 & H3). split_and!.
    + lia.
    + intros z [->|Hz]%elem_of_cons; [lia|by apply H2].
    + destruct H3 as [H3|H3]; [|right; by right].
      rewrite H3. destruct (Z.min_spec x y) as [[_ ->]|[_ ->]]; [by left|right; by left].
Qed.

Lemma fold_max_ge (l : list Z) x : x <= fold_left Z.max l x
  ∧ (∀ y, y ∈ l -> y <= fold_left Z.max l x)
  ∧ (fold_left Z.max l x = x ∨ fold_left Z.max l x ∈ l).
Proof.
  revert x. induction l as [|y l IH]; intros x; simpl.
  - split_and!; [lia|by intros ? ?%elem_of_nil|by left].
  - destruct (IH (Z.max x y)) as (H1 & H2 & H3). split_and!.
    + lia.
    + intros z [->|Hz]%elem_of_cons; [lia|by apply H2].
    + destruct H3 as [H3|H3]; [|right; by right].
      rewrite H3. destruct (Z.max_spec x y) as [[_ ->]|[_ ->]]; [right; by left|by left].
Qed.

(** [min_of] and [max_of] are the least and the greatest element, and
    [None] on the empty list only. *)
Lemma min_max_of_spec (l : list Z) :
  (l = [] -> min_of l = None ∧ max_of l = None)
  ∧ (l ≠ [] -> ∃ lo hi, min_of l = Some lo ∧ max_of l = Some hi
                        ∧ lo ∈ l ∧ hi ∈ l ∧ ∀ y, y ∈ l -> lo <= y <= hi).
Proof.
  destruct l as [|x l]; [by split|]. split; [done|]. intros _. simpl.
  destruct (fold_min_le l x) as (H1 & H2 & H3).
  destruct (fold_max_ge l x) as (G1 & G2 & G3).
  exists (fold_left Z.min l x), (fold_left Z.max l x). split_and!; try done.
  - destruct H3 as [->|?]; [by left|by right].
  - destruct G3 as [->|?]; [by left|by right].
  - intros y [->|Hy]%elem_of_cons; [lia|]. split; auto.
Qed.

Lemma stable_sort_ext {A} (le le' : A -> A -> bool) l :
  (∀ a b, le a b = le' a b) -> stable_sort le l = stable_sort le' l.
Proof.
  intros H. induction l as [|x l IH]; simpl; [done|]. rewrite IH.
  generalize (stable_sort le' l). intros k.
  induction k as [|y k IHk]; simpl; [done|]. by rewrite H, IHk.
Qed.

Lemma map_result_subscript (members : list email) :
  Forall well_keyed members ->
  map_result (fun e => subscript (id e)) members = Ok ((fun e => get (id e)) <$> members).
Proof.
  induction 1 as [|e l [He _] _ IH]; simpl; [done|].
  rewrite (subscript_present _ He). cbn [bind]. by rewrite IH.
Qed.

Section Stamps.

Lemma stamped_refl e : stamped e e.
Proof. unfold stamped. by destruct e. Qed.

Lemma stamped_trans e1 e2 e3 : stamped e1 e2 -> stamped e2 e3 -> stamped e1 e3.
Proof. unfold stamped. intros H1 H2. rewrite H2. rewrite H1 at 1. by destruct e1. Qed.

Lemma stamped_set e tid : stamped e (set_thread_id tid e).
Proof. unfold stamped. by destruct e. Qed.

Lemma stamped_same e e' : stamped e e' -> same_message e e'.
Proof. unfold stamped. intros ->. unfold same_message. by simpl. Qed.

Lemma stamped_fields e e' :
  stamped e e' ->
  children_ids e' = children_ids e ∧ parent_id e' = parent_id e
  ∧ id e' = id e ∧ date_parsed e' = date_parsed e ∧ has_pgp e' = has_pgp e
  ∧ sender e' = sender e ∧ subject e' = subject e
  ∧ normalized_subject e' = normalized_subject e ∧ message_id e' = message_id e.
Proof. unfold stamped. intros ->. by split_and!. Qed.

Lemma stamped_lookup (emails emails' : list email) i (f : email -> option (list pyid)) :
  Forall2 stamped emails emails' ->
  (∀ e e', stamped e e' -> f e' = f e) ->
  emails' !! i ≫= f = emails !! i ≫= f.
Proof.
  intros H Hf. destruct (emails !! i) as [e|] eqn:He.
  - destruct (Forall2_lookup_l _ _ _ _ _ H He) as (e' & -> & Hs). simpl. by apply Hf.
  - destruct (emails' !! i) as [e'|] eqn:He'; [|done].
    destruct (Forall2_lookup_r _ _ _ _ _ H He') as (e & He0 & _). congruence.
Qed.

Lemma stamped_members (emails emails' : list email) (tm : list (nat * nat)) :
  Forall2 stamped emails emails' ->
  Forall2 stamped (omap (member emails) tm) (omap (member emails') tm).
Proof.
  intros H. unfold member. induction tm as [|m tm IH]; simpl; [constructor|].
  destruct (emails !! m.1) as [e|] eqn:He.
  - destruct (Forall2_lookup_l _ _ _ _ _ H He) as (e' & -> & Hs). by constructor.
  - destruct (emails' !! m.1) as [e'|] eqn:He'; [|done].
    destruct (Forall2_lookup_r _ _ _ _ _ H He') as (e & He0 & _). congruence.
Qed.

Lemma stamped_fmap {B} (f : email -> B) (l l' : list email) :
  Forall2 stamped l l' -> (∀ e e', stamped e e' -> f e' = f e) -> f <$> l' = f <$> l.
Proof. induction 1; intros Hf; simpl; [done|]. f_equal; auto. Qed.

Lemma stamped_omap {B} (f : email -> option B) (l l' : list email) :
  Forall2 stamped l l' -> (∀ e e', stamped e e' -> f e' = f e) -> omap f l' = omap f l.
Proof.
  induction 1 as [|e e' l l' He _ IH]; intros Hf; simpl; [done|].
  rewrite (Hf e e' He). destruct (f e); [f_equal|]; by apply IH.
Qed.

Lemma stamped_existsb (f : email -> bool) (l l' : list email) :
  Forall2 stamped l l' -> (∀ e e', stamped e e' -> f e' = f e) ->
  existsb f l' = existsb f l.
Proof.
  induction 1 as [|e e' l l' He _ IH]; intros Hf; simpl; [done|].
  rewrite (Hf e e' He), IH by done. done.
Qed.

Lemma stamped_map_result {B} (f : email -> result B) (l l' : list email) :
  Forall2 stamped l l' -> (∀ e e', stamped e e' -> f e' = f e) ->
  map_result f l' = map_result f l.
Proof.
  induction 1 as [|e e' l l' He _ IH]; intros Hf; simpl; [done|].
  rewrite (Hf e e' He), IH by done. done.
Qed.

End Stamps.

(** The thread of a root does not depend on the stamps. *)
Lemma assemble_ext (emails emails' : list email) idx root :
  Forall2 stamped emails emails' ->
  assemble emails' idx root = assemble emails idx root.
Proof.
  intros H. unfold assemble.
  rewrite (get_thread_messages_ext emails emails');
    [|intros i; apply stamped_lookup; [done|by intros e e' (? & _)%stamped_fields]].
  destruct (get_thread_messages recursion_limit emails idx root 0) as [unsorted|];
    cbn [bind]; [|done].
  assert (∀ m, thread_sort_key emails' m = thread_sort_key emails m) as Hkey.
  { intros m. unfold thread_sort_key.
    destruct (emails !! m.1) as [e|] eqn:He.
    - destruct (Forall2_lookup_l _ _ _ _ _ H He) as (e' & -> & Hs). simpl.
      apply stamped_fields in Hs as (_ & _ & _ & -> & _). done.
    - destruct (emails' !! m.1) as [e'|] eqn:He'; [|done].
      destruct (Forall2_lookup_r _ _ _ _ _ H He') as (e & He0 & _). congruence. }
  rewrite (stable_sort_ext _ (fun a b => thread_sort_key emails a <=? thread_sort_key emails b));
    [|by intros a b; rewrite !Hkey].
  set (tm := stable_sort _ unsorted).
  pose proof (stamped_members emails emails' tm H) as Hm.
  rewrite (stamped_map_result _ _ _ Hm);
    [|by intros e e' (_ & _ & -> & _)%stamped_fields].
  destruct (map_result _ _) as [ids|]; cbn [bind]; [|done].
  rewrite (stamped_omap sender _ _ Hm);
    [|by intros e e' (_ & _ & _ & _ & _ & -> & _)%stamped_fields].
  rewrite (stamped_omap (fun e => parse_date (date_parsed e)) _ _ Hm);
    [|by intros e e' (_ & _ & _ & -> & _)%stamped_fields].
  rewrite (stamped_existsb has_pgp _ _ Hm);
    [|by intros e e' (_ & _ & _ & _ & -> & _)%stamped_fields].
  destruct (emails !! root) as [e|] eqn:He.
  - destruct (Forall2_lookup_l _ _ _ _ _ H He) as (e' & -> & Hs).
    apply stamped_fields in Hs as (_ & _ & -> & _ & _ & -> & -> & -> & _). done.
  - destruct (emails' !! root) as [e'|] eqn:He'; [|done].
    destruct (Forall2_lookup_r _ _ _ _ _ H He') as (e & He0 & _). congruence.
Qed.

(** The stamping of the members of one thread. *)
Lemma stamp_members (tid : string) (tm : list (nat * nat)) (emails : list email) :
  let emails' := fold_left (fun es m => alter (set_thread_id (Some tid)) m.1 es) tm emails in
  Forall2 stamped emails emails'
  ∧ (∀ p e, p ∈ tm.*1 -> emails' !! p = Some e -> thread_id e = Some tid)
  ∧ (∀ p, p ∉ tm.*1 -> emails' !! p = emails !! p).
Proof.
  revert emails. induction tm as [|m tm IH]; intros emails; simpl.
  { split_and!; [by apply Forall2_refl_rel, stamped_refl|by intros ?? ?%elem_of_nil|done]. }
  destruct (IH (alter (set_thread_id (Some tid)) m.1 emails)) as (H1 & H2 & H3).
  split_and!.
  - eapply Forall2_trans; [apply stamped_trans| |exact H1].
    apply Forall2_alter_r; [by apply Forall2_refl_rel, stamped_refl|].
    intros x y _ _ Hxy. eapply stamped_trans; [exact Hxy|apply stamped_set].
  - intros p e [->|Hp]%elem_of_cons He; [|by eapply H2].
    destruct (decide (m.1 ∈ tm.*1)) as [Hin|Hnin]; [by eapply H2|].
    rewrite H3, list_lookup_alter_eq in He by done.
    destruct (emails !! m.1); [|done]. by injection He as <-.
  - intros p [Hpm Hp]%not_elem_of_cons. rewrite H3 by done.
    by rewrite list_lookup_alter_ne.
Qed.

Lemma omap_member_valid (emails : list email) (tm : list (nat * nat)) :
  Forall (fun m => is_Some (emails !! m.1)) tm ->
  List.length (omap (member emails) tm) = List.length tm
  ∧ ∀ e, e ∈ omap (member emails) tm <-> ∃ m, m ∈ tm ∧ emails !! m.1 = Some e.
Proof.
  intros Hv. split.
  - unfold member. induction Hv as [|m tm [e He] _ IH]; simpl; [done|].
    rewrite He. simpl. by f_equal.
  - intros e. rewrite list_elem_of_omap. unfold member. done.
Qed.

(** The thread record of a root, read off the definition. *)
Lemma assemble_spec (emails : list email) idx root t tm :
  Forall well_keyed emails ->
  (∀ k j, idx !! k = Some j -> is_Some (emails !! j)) ->
  is_Some (emails !! root) ->
  assemble emails idx root = Ok (t, tm) ->
  ∃ unsorted root_email,
    get_thread_messages recursion_limit emails idx root O = Ok unsorted
    ∧ emails !! root = Some root_email
    ∧ tm = stable_sort
             (fun a b => thread_sort_key emails a <=? thread_sort_key emails b) unsorted
    ∧ Forall (fun m => is_Some (emails !! m.1)) tm
    ∧ (root, O) ∈ tm
    ∧ t_id t = "thread_" +:+ py_str (get (id root_email))
    ∧ root_message_id t = get (id root_email)
    ∧ message_ids t = (fun e => get (id e)) <$> omap (member emails) tm
    ∧ message_count t = List.length tm
    ∧ participants t = elements (list_to_set (omap sender (omap (member emails) tm)) : gset string)
    ∧ participant_count t = List.length (participants t)
    ∧ depth t = foldr Nat.max O tm.*2
    ∧ t_has_pgp t = existsb has_pgp (omap (member emails) tm)
    ∧ date_start t
      = min_of (omap (fun e => parse_date (date_parsed e)) (omap (member emails) tm))
    ∧ date_end t
      = max_of (omap (fun e => parse_date (date_parsed e)) (omap (member emails) tm)).
Proof.
  intros Hk Hidx [root_email Hroot] Ha. unfold assemble in Ha.
  destruct (get_thread_messages recursion_limit emails idx root 0) as [unsorted|] eqn:Hu;
    cbn [bind] in Ha; [|done].
  set (tm0 := stable_sort _ unsorted) in Ha.
  assert (Forall (fun m => is_Some (emails !! m.1)) tm0 ∧ (root, O) ∈ tm0) as [Hvalid Hin].
  { apply get_thread_messages_members in Hu as (l' & -> & Hl'). split.
    - apply Forall_forall. intros m Hm. apply elem_of_stable_sort in Hm.
      apply elem_of_cons in Hm as [->|Hm]; [by eauto|].
      eapply Forall_forall in Hl'; [|exact Hm]. destruct Hl' as (_ & k & Hk').
      by eapply Hidx.
    - apply elem_of_stable_sort. by left. }
  assert (Forall well_keyed (omap (member emails) tm0)) as Hkm.
  { apply Forall_forall. intros e He.
    apply (omap_member_valid emails tm0 Hvalid) in He as (m & _ & He).
    by eapply well_keyed_lookup. }
  rewrite (map_result_subscript _ Hkm) in Ha. cbn [bind] in Ha.
  rewrite Hroot in Ha.
  destruct (well_keyed_lookup _ _ _ Hk Hroot) as [Hid _].
  rewrite (subscript_present _ Hid) in Ha. cbn [bind] in Ha.
  injection Ha as <- <-. exists unsorted, root_email. cbn.
  split_and!; try done.
  rewrite length_fmap. by apply (omap_member_valid emails tm0 Hvalid).
Qed.

Lemma assemble_total (emails : list email) idx rank root :
  Forall well_keyed emails ->
  (∀ k j, idx !! k = Some j -> is_Some (emails !! j)) ->
  ranked emails idx rank -> (rank root < recursion_limit)%nat ->
  is_Some (emails !! root) ->
  ∃ t tm, assemble emails idx root = Ok (t, tm).
Proof.
  intros Hk Hidx Hr Hlt [root_email Hroot]. unfold assemble.
  destruct (get_thread_messages_total emails idx rank recursion_limit root 0 Hr Hlt)
    as [unsorted Hu].
  rewrite Hu. cbn [bind].
  set (tm0 := stable_sort _ unsorted).
  assert (Forall (fun m => is_Some (emails !! m.1)) tm0) as Hvalid.
  { apply get_thread_messages_members in Hu as (l' & -> & Hl').
    apply Forall_forall. intros m Hm. apply elem_of_stable_sort in Hm.
    apply elem_of_cons in Hm as [->|Hm]; [by eauto|].
    eapply Forall_forall in Hl'; [|exact Hm]. destruct Hl' as (_ & k & Hk').
    by eapply Hidx. }
  assert (Forall well_keyed (omap (member emails) tm0)) as Hkm.
  { apply Forall_forall. intros e He.
    apply (omap_member_valid emails tm0 Hvalid) in He as (m & _ & He).
    by eapply well_keyed_lookup. }
  rewrite (map_result_subscript _ Hkm). cbn [bind]. rewrite Hroot.
  destruct (well_keyed_lookup _ _ _ Hk Hroot) as [Hid _].
  rewrite (subscript_present _ Hid). cbn [bind]. eauto.
Qed.

Section ThreadsRun.

Context (emails0 : list email) (idx : gmap pyid nat).

Lemma threads_run rest done acc :
  Forall2 stamped emails0 acc.1 ->
  Forall2 (fun r t => ∃ tm, assemble emails0 idx r = Ok (t, tm)) done acc.2 ->
  stamps_of emails0 idx done acc.1 ->
  (∀ r, r ∈ rest -> ∃ t tm, assemble emails0 idx r = Ok (t, tm)) ->
  ∃ out threads,
    for_each (thread_step idx) rest acc = Ok (out, threads)
    ∧ Forall2 stamped emails0 out
    ∧ Forall2 (fun r t => ∃ tm, assemble emails0 idx r = Ok (t, tm)) (done ++ rest) threads
    ∧ stamps_of emails0 idx (done ++ rest) out.
Proof.
  revert done acc. induction rest as [|r rest IH]; intros done [es ts]; simpl;
    intros Hs Hts Hst Hall.
  { exists es, ts. rewrite app_nil_r. done. }
  destruct (Hall r) as (t & tm & Ha); [by left|].
  rewrite (assemble_ext emails0 es idx r Hs), Ha. cbn [bind].
  destruct (stamp_members (t_id t) tm es) as (H1 & H2 & H3).
  destruct (IH (done ++ [r])
              (fold_left (fun es m => alter (set_thread_id (Some (t_id t))) m.1 es) tm es,
               ts ++ [t])) as (out & threads & Hrun & Hso & Hth & Hsto).
  - simpl. eapply Forall2_trans; [apply stamped_trans|exact Hs|exact H1].
  - simpl. apply Forall2_app; [done|]. constructor; [eauto|constructor].
  - simpl. intros r1 t1 tm1 p e Hr1 Ha1 Hp He.
    destruct (decide (p ∈ tm.*1)) as [Hin|Hnin].
    + exists r, t, tm. split_and!; [apply elem_of_app; right; by left|done|done|].
      by eapply H2.
    + rewrite H3 in He by done.
      apply elem_of_app in Hr1 as [Hr1| ->%list_elem_of_singleton].
      * destruct (Hst r1 t1 tm1 p e Hr1 Ha1 Hp He) as (r' & t' & tm' & ? & ? & ? & ?).
        exists r', t', tm'. split_and!; try done. apply elem_of_app. by left.
      * rewrite Ha in Ha1. injection Ha1 as <- <-. done.
  - intros r' Hr'. apply Hall. by right.
  - exists out, threads. rewrite <- app_assoc in Hth, Hsto. done.
Qed.

End ThreadsRun.

Lemma omap_none {A B} (f : A -> option B) l :
  (∀ x, x ∈ l -> f x = None) -> omap f l = [].
Proof.
  induction l as [|x l IH]; intros H; simpl; [done|].
  rewrite (H x) by (by left). apply IH. intros y Hy. apply H. by right.
Qed.

Lemma elem_of_thread_roots (emails : list email) r :
  r ∈ thread_roots emails <-> ∃ e, emails !! r = Some e ∧ parent_id e = None.
Proof.
  unfold thread_roots. rewrite list_elem_of_filter, elem_of_positions. split.
  - intros [Hp [e He]]. rewrite He in Hp. eauto.
  - intros (e & He & Hp). rewrite He. eauto.
Qed.


(** * The frame of the Subject Matcher and the errors of the phases *)

Lemma build_thread_trees_output_well_keyed (raw : list email) :
  Forall well_keyed raw -> Forall well_keyed (build_thread_trees_output raw).
Proof.
  intros Hk. unfold build_thread_trees_output. apply Forall_fmap.
  eapply Forall_impl; [exact Hk|]. intros e He.
  simpl. by eapply same_message_well_keyed; [apply (annotate_same (collect_links raw) e)|].
Qed.


(** The summary of the Subject Matcher divides by the number of orphan
    replies of its input. *)
Lemma match_orphans_no_orphan (emails : list email) :
  Forall well_keyed emails ->
  count_status orphan_reply emails = O ->
  match_orphans emails = Raise ZeroDivisionError.
Proof.
  intros Hk H0. unfold match_orphans.
  destruct (match_orphans_run_ok emails Hk) as (m & -> & _). cbn [bind].
  by rewrite H0.
Qed.

Lemma for_each_raise {A B} (f : A -> B -> result A) l a x err :
  x ∈ l -> (∀ a', f a' x = Raise err) ->
  (∀ a' y, y ∈ l -> f a' y = Raise err ∨ ∃ a'', f a' y = Ok a'') ->
  for_each f l a = Raise err.
Proof.
  revert a. induction l as [|y l IH]; intros a Hx Hfx Hall; [by apply elem_of_nil in Hx|].
  simpl. apply elem_of_cons in Hx as [->|Hx]; [by rewrite Hfx|].
  destruct (Hall a y) as [->|[a'' ->]]; [by left|done|]. cbn [bind].
  apply IH; [done|done|]. intros a' z Hz. apply Hall. by right.
Qed.

(** A record without [id] makes every phase that builds [by_id] raise. *)
Lemma build_by_id_missing (emails : list email) e :
  e ∈ emails -> id e = Absent -> build_by_id emails = Raise KeyError.
Proof.
  intros [i Hi]%list_elem_of_lookup Hid. unfold build_by_id.
  apply for_each_raise with (x := i).
  - apply elem_of_positions. eauto.
  - intros a. by rewrite Hi, Hid.
  - intros a j _. destruct (emails !! j) as [e'|]; [|eauto].
    destruct (id e'); simpl; eauto.
Qed.

(** C8.  The phases do raise.  The Direct Linker raises ZeroDivisionError in
    its summary when no record has an [in_reply_to], and the Orphan
    Classifier when no record is an orphan reply; the Subject Matcher
    raises ZeroDivisionError in its summary, after its output is written,
    whenever its input holds no orphan reply, as on a single true root; it
    raises KeyError on a record without [id] and on an orphan without
    [message_id] that has a candidate of its subject. *)
Theorem phases_raise :
  build_thread_trees key_escrow = Raise ZeroDivisionError
  ∧ identify_orphans (build_thread_trees_output crypto_wars) = Raise ZeroDivisionError
  ∧ (∀ emails : list email,
       Forall well_keyed emails -> count_status orphan_reply emails = O ->
       match_orphans emails = Raise ZeroDivisionError)
  ∧ match_orphans lone_root = Raise ZeroDivisionError
  ∧ (∀ (emails : list email) e,
       e ∈ emails -> id e = Absent -> match_orphans emails = Raise KeyError)
  ∧ match_orphans [without_id] = Raise KeyError
  ∧ match_orphans (lone_root ++ [without_message_id]) = Raise KeyError.
Proof.
  split; [by vm_compute|]. split; [by vm_compute|].
  split; [apply match_orphans_no_orphan|].
  split.
  { apply match_orphans_no_orphan; [|by vm_compute].
    repeat constructor; by vm_compute. }
  assert (∀ (emails : list email) e,
            e ∈ emails -> id e = Absent -> match_orphans emails = Raise KeyError) as Hid.
  { intros emails e He Hid. unfold match_orphans, match_orphans_run.
    by rewrite (build_by_id_missing emails e He Hid). }
  split; [exact Hid|]. split.
  - apply (Hid _ without_id); [by left|done].
  - by vm_compute.
Qed.
(** * Acyclicity of the parent relation *)

Section ChainFacts.

Context (d : gmap pyid email).

Lemma rooted_terminates a : rooted d a -> terminates d a.
Proof.
  induction 1 as [a Ha|a e He _ IH]; [by apply term_falsy|by eapply term_step].
Qed.

Lemma chain_length_rooted fuel a n : chain_length d fuel a = Some n -> rooted d a.
Proof.
  revert a n. induction fuel as [|fuel IH]; intros a n; simpl.
  - destruct (truthy a) eqn:Ha; [discriminate|]. intros _. by apply rooted_end.
  - destruct (truthy a) eqn:Ha; [|intros _; by apply rooted_end].
    destruct (d !! a) as [e|] eqn:He; [|discriminate].
    destruct (chain_length d fuel (parent_id e)) as [n'|] eqn:Hn; [|discriminate].
    intros _. eapply rooted_step; eauto.
Qed.

(** A walk that ends does not visit an id twice, so that it is no longer
    than the dictionary. *)
Lemma rooted_chain_length a :
  rooted d a ->
  ∀ vis fuel,
    vis ⊆ dom d ->
    (∀ x, rtc (pstep d) a x -> truthy x = true -> x ∉ vis) ->
    (size (dom d ∖ vis) <= fuel)%nat ->
    ∃ n, chain_length d fuel a = Some n ∧ (n <= size (dom d ∖ vis))%nat.
Proof.
  induction 1 as [a Ha|a e He Hroot IH]; intros vis fuel Hsub Hfresh Hfuel.
  - exists O. split; [|lia]. destruct fuel; simpl; by rewrite Ha.
  - destruct (truthy a) eqn:Ha; [|exists O; split; [destruct fuel; simpl; by rewrite Ha|lia]].
    assert (a ∈ dom d) as Hdom by (apply elem_of_dom; eauto).
    assert (a ∉ vis) as Hnin by (by apply Hfresh).
    assert (dom d ∖ ({[a]} ∪ vis) ⊂ dom d ∖ vis) as Hss by set_solver.
    apply subset_size in Hss.
    destruct fuel as [|fuel]; [lia|].
    destruct (IH ({[a]} ∪ vis) fuel) as (n & Hn & Hle); [set_solver| |lia|].
    + intros x Hx Htx. assert (pstep d a (parent_id e)) as Hstep by (split; eauto).
      apply not_elem_of_union. split.
      * intros ->%elem_of_singleton.
        eapply terminates_no_cycle; [apply rooted_terminates; eapply rooted_step; eauto|].
        eapply tc_rtc_r; [by apply tc_once|done].
      * apply Hfresh; [|done]. by eapply rtc_l.
    + exists (S n). split; [|lia]. simpl. by rewrite Ha, He, Hn.
Qed.

Lemma rooted_bound a fuel :
  rooted d a -> (size d <= fuel)%nat ->
  ∃ n, chain_length d fuel a = Some n ∧ (n <= size d)%nat.
Proof.
  intros Hroot Hfuel.
  destruct (rooted_chain_length a Hroot ∅ fuel) as (n & Hn & Hle).
  - set_solver.
  - set_solver.
  - rewrite difference_empty_L, size_dom. lia.
  - exists n. split; [done|]. by rewrite difference_empty_L, size_dom in Hle.
Qed.

End ChainFacts.

(** The walks depend on the entries of the non-empty ids and on the
    parents of the records only. *)
Lemma rooted_ext (d d' : gmap pyid email) a :
  (∀ k e, truthy k = true -> d !! k = Some e ->
          ∃ e', d' !! k = Some e' ∧ parent_id e' = parent_id e) ->
  rooted d a -> rooted d' a.
Proof.
  intros Hext. induction 1 as [a Ha|a e He _ IH]; [by apply rooted_end|].
  destruct (truthy a) eqn:Ha; [|by apply rooted_end].
  destruct (Hext a e Ha He) as (e' & He' & Hp).
  eapply rooted_step; [done|]. by rewrite Hp.
Qed.

Lemma forest_rooted (emails : list email) :
  forest emails <-> ∀ e, e ∈ emails -> rooted (by_message_id_of emails) (parent_id e).
Proof.
  split.
  - intros Hf e He. destruct (Hf e He) as (n & Hn & _).
    by eapply chain_length_rooted.
  - intros Hr e He.
    assert (size (by_message_id_of emails) <= List.length emails)%nat as Hsize.
    { unfold by_message_id_of. pose proof (size_deref emails (build_index emails)).
      pose proof (size_build_index emails). lia. }
    destruct (rooted_bound _ _ (List.length emails) (Hr e He) Hsize) as (n & Hn & Hle).
    exists n. split; [done|lia].
Qed.

(** ** The index and the message ids *)

Lemma build_index_ext (l l' : list email) :
  Forall2 (fun e e' => message_id e' = message_id e) l l' ->
  build_index l' = build_index l.
Proof.
  intros H. unfold build_index, positions.
  rewrite <- (Forall2_length _ _ _ H). generalize (∅ : gmap pyid nat).
  induction (seq 0 (List.length l)) as [|i s IH]; intros acc; simpl; [done|].
  pose proof (proj1 (Forall2_lookup _ _ _) H i) as Hi.
  destruct Hi as [e e' Hm|]; [rewrite Hm|]; apply IH.
Qed.

Lemma unique_ids_ext (l l' : list email) :
  Forall2 (fun e e' => message_id e' = message_id e) l l' ->
  unique_ids l -> unique_ids l'.
Proof.
  intros H. unfold unique_ids.
  assert ((fun e => get (message_id e)) <$> l' = (fun e => get (message_id e)) <$> l) as Heq.
  { induction H as [|e e' l l' Hm _ IH]; [done|]. by rewrite !fmap_cons, Hm, IH. }
  by rewrite Heq.
Qed.

Lemma unique_ids_lookup (emails : list email) i j e e' :
  unique_ids emails ->
  emails !! i = Some e -> emails !! j = Some e' ->
  truthy (get (message_id e)) = true ->
  get (message_id e) = get (message_id e') ->
  i = j.
Proof.
  unfold unique_ids. revert i j.
  induction emails as [|e0 l IH]; intros i j Hnd Hi Hj Ht Heq; [done|].
  assert (∀ k x, l !! k = Some x -> truthy (get (message_id x)) = true ->
                 get (message_id x)
                 ∈ filter (fun k => truthy k = true) ((fun e => get (message_id e)) <$> l))
    as Hin.
  { intros k x Hk Hx. apply list_elem_of_filter. split; [done|].
    apply list_elem_of_fmap. exists x. split; [done|]. by eapply list_elem_of_lookup_2. }
  assert (NoDup (filter (fun k => truthy k = true) ((fun e => get (message_id e)) <$> l)))
    as Hnd'.
  { rewrite fmap_cons, filter_cons in Hnd.
    destruct (decide (truthy (get (message_id e0)) = true)); [|done].
    by apply NoDup_cons in Hnd as [_ ?]. }
  destruct i as [|i], j as [|j]; simpl in Hi, Hj.
  - done.
  - injection Hi as ->. exfalso.
    rewrite fmap_cons, filter_cons in Hnd.
    destruct (decide (truthy (get (message_id e)) = true)); [|done].
    apply NoDup_cons in Hnd as [Hnin _]. apply Hnin.
    rewrite Heq. apply (Hin j e'); [done|]. by rewrite <- Heq.
  - injection Hj as ->. exfalso.
    rewrite fmap_cons, filter_cons in Hnd.
    assert (truthy (get (message_id e')) = true) as Ht' by (by rewrite <- Heq).
    destruct (decide (truthy (get (message_id e')) = true)); [|done].
    apply NoDup_cons in Hnd as [Hnin _]. apply Hnin.
    rewrite <- Heq. by apply (Hin i e).
  - f_equal. by apply IH.
Qed.

(** Every non-empty message id of the store is a key of the index. *)
Lemma build_index_complete (emails : list email) i e :
  emails !! i = Some e -> truthy (get (message_id e)) = true ->
  is_Some (build_index emails !! get (message_id e)).
Proof.
  intros Hi Ht. unfold build_index.
  assert (i ∈ positions emails) as Hpos.
  { unfold positions. apply elem_of_seq. apply lookup_lt_Some in Hi. lia. }
  revert Hpos. generalize (∅ : gmap pyid nat).
  induction (positions emails) as [|p s IH]; intros acc Hpos; [by apply elem_of_nil in Hpos|].
  simpl. apply elem_of_cons in Hpos as [<-|Hpos]; [|by apply IH].
  rewrite Hi, Ht. clear IH.
  assert (is_Some (<[get (message_id e) := i]> acc !! get (message_id e))) as Hacc
    by (rewrite lookup_insert_eq; eauto).
  revert Hacc. generalize (<[get (message_id e) := i]> acc).
  induction s as [|q s IH]; intros acc' Hacc; simpl; [done|].
  apply IH. destruct (emails !! q) as [x|]; [|done].
  destruct (truthy (get (message_id x))); [|done].
  destruct (decide (get (message_id x) = get (message_id e))) as [->|Hne].
  - rewrite lookup_insert_eq. eauto.
  - by rewrite lookup_insert_ne.
Qed.

Lemma build_index_unique (emails : list email) i e :
  unique_ids emails ->
  emails !! i = Some e -> truthy (get (message_id e)) = true ->
  build_index emails !! get (message_id e) = Some i.
Proof.
  intros Hu Hi Ht.
  destruct (build_index_complete emails i e Hi Ht) as [j Hj]. rewrite Hj. f_equal.
  destruct (build_index_lookup _ _ _ Hj) as (e' & Hj' & Heq & _).
  symmetry. by eapply (unique_ids_lookup emails i j e e').
Qed.

Lemma lookup_by_message_id_of (emails : list email) k e :
  by_message_id_of emails !! k = Some e ->
  ∃ i, emails !! i = Some e ∧ get (message_id e) = k ∧ truthy k = true.
Proof.
  unfold by_message_id_of. intros (i & Hk & Hi)%lookup_deref.
  destruct (build_index_lookup _ _ _ Hk) as (e' & He' & ? & ?).
  exists i. split; [done|]. split; [congruence|done].
Qed.

Lemma by_message_id_of_unique (emails : list email) i e :
  unique_ids emails ->
  emails !! i = Some e -> truthy (get (message_id e)) = true ->
  by_message_id_of emails !! get (message_id e) = Some e.
Proof.
  intros Hu Hi Ht. unfold by_message_id_of. apply lookup_deref.
  exists i. split; [by apply build_index_unique|done].
Qed.

(** ** Stores with the same links *)

Lemma by_message_id_of_links (emails out : list email) k e :
  same_links emails out ->
  by_message_id_of emails !! k = Some e ->
  ∃ e', by_message_id_of out !! k = Some e' ∧ parent_id e' = parent_id e.
Proof.
  intros Hl. unfold by_message_id_of. intros (i & Hk & Hi)%lookup_deref.
  destruct (Forall2_lookup_l _ _ _ _ _ Hl Hi) as (e' & Hi' & _ & Hp).
  exists e'. split; [|done]. apply lookup_deref. exists i. split; [|done].
  rewrite (build_index_ext emails out); [done|].
  eapply Forall2_impl; [exact Hl|]. by intros ? ? [? _].
Qed.

Lemma same_links_forest (emails out : list email) :
  same_links emails out -> forest emails -> forest out.
Proof.
  rewrite !forest_rooted. intros Hl Hf e' [i Hi']%list_elem_of_lookup_1.
  destruct (Forall2_lookup_r _ _ _ _ _ Hl Hi') as (e & Hi & _ & Hp).
  rewrite Hp. eapply rooted_ext; [|apply Hf; by eapply list_elem_of_lookup_2].
  intros k x _ Hx. by eapply by_message_id_of_links.
Qed.

Lemma same_links_unique_ids (emails out : list email) :
  same_links emails out -> unique_ids emails -> unique_ids out.
Proof.
  intros Hl. apply unique_ids_ext. eapply Forall2_impl; [exact Hl|]. by intros ? ? [? _].
Qed.

(** ** A guarded link keeps the walks finite *)

Section LinkStep.

Context (d d' : gmap pyid email) (cmid pmid : pyid).
Context (Hupd : ∀ k e, truthy k = true -> d !! k = Some e ->
                  ∃ e', d' !! k = Some e'
                        ∧ parent_id e' = if decide (k = cmid) then pmid else parent_id e).
Context (Hguard : ¬ (truthy cmid = true ∧ rtc (pstep d) pmid cmid)).

(** The walks that do not pass through the child are the same as before. *)
Lemma rooted_off_child x : rooted d x -> ¬ rtc (pstep d) x cmid -> rooted d' x.
Proof.
  induction 1 as [a Ha|a e He _ IH]; intros Hnot; [by apply rooted_end|].
  destruct (truthy a) eqn:Ha; [|by apply rooted_end].
  destruct (Hupd a e Ha He) as (e' & He' & Hp).
  rewrite decide_False in Hp by (intros ->; by apply Hnot).
  eapply rooted_step; [done|]. rewrite Hp. apply IH.
  intros Hr. apply Hnot. eapply rtc_l; [|done]. split; eauto.
Qed.

Lemma rooted_linked x : rooted d pmid -> rooted d x -> rooted d' x.
Proof.
  intros Hroot. induction 1 as [a Ha|a e He _ IH]; [by apply rooted_end|].
  destruct (truthy a) eqn:Ha; [|by apply rooted_end].
  destruct (Hupd a e Ha He) as (e' & He' & Hp).
  eapply rooted_step; [done|]. rewrite Hp.
  destruct (decide (a = cmid)) as [->|]; [|done].
  apply rooted_off_child; [done|]. intros Hr. by apply Hguard.
Qed.

End LinkStep.

Lemma lookup_linked_parent_id (emails : list email) i j child' cmid p e' :
  linked emails i j child' cmid !! p = Some e' ->
  ∃ e, emails !! p = Some e
       ∧ parent_id e' = (if decide (p = i) then parent_id child' else parent_id e).
Proof.
  unfold linked. intros Hp.
  assert (is_Some (emails !! p)) as [e He].
  { apply lookup_lt_is_Some. apply lookup_lt_Some in Hp.
    by rewrite length_alter, length_insert in Hp. }
  exists e. split; [done|].
  assert (<[i:=child']> emails !! p
          = Some (if decide (p = i) then child' else e)) as Hins.
  { destruct (decide (p = i)) as [->|Hne].
    - apply list_lookup_insert_eq. by eapply lookup_lt_Some.
    - by rewrite list_lookup_insert_ne. }
  assert (∀ x, parent_id (add_child cmid x) = parent_id x) as Hadd.
  { intros x. unfold add_child. by destruct (decide (cmid ∈ _)). }
  destruct (decide (p = j)) as [->|Hne].
  - rewrite list_lookup_alter_eq, Hins in Hp. simpl in Hp. injection Hp as <-.
    rewrite Hadd. by destruct (decide (j = i)).
  - rewrite list_lookup_alter_ne, Hins in Hp by done. injection Hp as <-.
    by destruct (decide (p = i)).
Qed.

Section LinkInvariant.

Context (emails0 : list email) (Hunique : unique_ids emails0).

Lemma link_inv_start : forest emails0 -> link_inv emails0 (phase_start emails0).
Proof.
  intros Hf. split; [|split]; simpl.
  - by apply Forall2_refl_rel.
  - done.
  - by apply forest_rooted.
Qed.

(** The record of the running store that the index holds under a
    non-empty id is the one at the position of that id. *)
Lemma link_inv_lookup m k p :
  link_inv emails0 m -> truthy k = true ->
  m_index m !! k = Some p <->
  ∃ e, m_emails m !! p = Some e ∧ get (message_id e) = k.
Proof.
  intros (Hids & Hidx & _) Hk. rewrite (Hidx k Hk). split.
  - intros (e0 & Hp & Hm & _)%build_index_lookup.
    destruct (Forall2_lookup_l _ _ _ _ _ Hids Hp) as (e & He & Heq).
    exists e. split; [done|]. by rewrite Heq.
  - intros (e & He & Hm).
    destruct (Forall2_lookup_r _ _ _ _ _ Hids He) as (e0 & Hp & Heq).
    rewrite <- Hm, Heq. apply build_index_unique; [done..|]. by rewrite <- Heq, Hm.
Qed.

Lemma link_inv_step m m' : link_inv emails0 m -> phase_step m m' -> link_inv emails0 m'.
Proof.
  intros Hinv [[He Hx]|Hlink].
  { unfold link_inv. rewrite He, Hx. exact Hinv. }
  destruct Hlink as (i & j & child & cand & child' & Hi & Hj & Hw & Hsame & Hp & _ & He & Hx).
  pose proof Hinv as (Hids & Hidx & Hroot).
  apply would_create_cycle_false in Hw as [_ Hguard].
  set (cmid := get (message_id child)) in *. set (pmid := get (message_id cand)) in *.
  assert (message_id child' = message_id child) as Hcm by (symmetry; apply Hsame).
  assert (∀ k, truthy k = true -> m_index m' !! k = m_index m !! k) as Hsame_idx.
  { intros k Hk. rewrite Hx. destruct (decide (k = cmid)) as [->|Hne].
    - rewrite lookup_insert_eq. symmetry. apply link_inv_lookup; eauto. 
    - by rewrite lookup_insert_ne. }
  assert (∀ k e, truthy k = true ->
            deref (m_emails m) (m_index m) !! k = Some e ->
            ∃ e', deref (m_emails m') (m_index m') !! k = Some e'
                  ∧ parent_id e' = if decide (k = cmid) then pmid else parent_id e) as Hupd.
  { intros k e Hk (p & Hkp & Hpe)%lookup_deref.
    assert (is_Some (m_emails m' !! p)) as [e' He'].
    { apply lookup_lt_is_Some. rewrite He, length_linked. by eapply lookup_lt_Some. }
    exists e'. split; [apply lookup_deref; exists p; by rewrite Hsame_idx|].
    rewrite He in He'. apply lookup_linked_parent_id in He' as (e1 & He1 & ->).
    assert (e1 = e) as -> by congruence.
    assert (p = i <-> k = cmid) as Hpi.
    { split.
      - intros ->. apply (link_inv_lookup m k i Hinv Hk) in Hkp as (x & Hx' & <-).
        assert (x = child) as -> by congruence. done.
      - intros ->. assert (m_index m !! cmid = Some i) as Hci
          by (apply link_inv_lookup; eauto).
        congruence. }
    destruct (decide (p = i)), (decide (k = cmid)); try done; tauto. }
  assert (rooted (deref (m_emails m) (m_index m)) pmid) as Hpm.
  { destruct (truthy pmid) eqn:Htp; [|by apply rooted_end].
    eapply rooted_step.
    - apply lookup_deref. exists j. split; [|done]. apply link_inv_lookup; eauto.
    - apply Hroot. by eapply list_elem_of_lookup_2. }
  split; [|split].
  - rewrite He. apply linked_Forall2; [done| |].
    + intros x Hx'. destruct (Forall2_lookup_l _ _ _ _ _ Hids Hx') as (y & Hy & Hxy).
      rewrite Hi in Hy. injection Hy as <-. congruence.
    + intros x y _ Hxy. rewrite <- Hxy. symmetry. apply add_child_same.
  - intros k Hk. by rewrite Hsame_idx, Hidx.
  - intros e' [p He']%list_elem_of_lookup_1.
    rewrite He in He'. apply lookup_linked_parent_id in He' as (e & Hpe & ->).
    destruct (decide (p = i)) as [->|Hne].
    + rewrite Hp. eapply rooted_linked; eauto.
    + eapply rooted_linked; eauto. apply Hroot. by eapply list_elem_of_lookup_2.
Qed.

Lemma link_inv_rtc m m' : link_inv emails0 m -> rtc phase_step m m' -> link_inv emails0 m'.
Proof. intros Hinv Hr. induction Hr; eauto using link_inv_step. Qed.

(** What the output of a matching phase inherits. *)
Lemma link_inv_forest m :
  link_inv emails0 m -> forest (m_emails m) ∧ unique_ids (m_emails m).
Proof.
  intros (Hids & Hidx & Hroot). split; [|by eapply unique_ids_ext].
  apply forest_rooted. intros e He.
  eapply rooted_ext; [|by apply Hroot].
  intros k x Hk (p & Hkp & Hpx)%lookup_deref.
  exists x. split; [|done]. apply lookup_deref. exists p. split; [|done].
  by rewrite (build_index_ext emails0 (m_emails m)), <- Hidx.
Qed.

End LinkInvariant.

(** ** The phases that link under the cycle guard *)

Lemma phase_run_forest (emails : list email) m :
  Forall well_keyed emails -> unique_ids emails -> forest emails ->
  Forall2 same_message emails (m_emails m) ->
  rtc phase_step (phase_start emails) m ->
  forest (m_emails m) ∧ unique_ids (m_emails m) ∧ Forall well_keyed (m_emails m).
Proof.
  intros Hk Hu Hf Hsame Hrun.
  destruct (link_inv_forest emails Hu m) as [Hf' Hu'].
  { eapply link_inv_rtc; [done| |done]. by apply link_inv_start. }
  split_and!; [done..|]. by eapply store_well_keyed.
Qed.

Lemma match_orphans_forest (emails : list email) :
  Forall well_keyed emails -> unique_ids emails -> forest emails ->
  ∃ out, match_orphans_output emails = Ok out
    ∧ forest out ∧ unique_ids out ∧ Forall well_keyed out.
Proof.
  intros Hk Hu Hf.
  destruct (match_orphans_run_ok emails Hk) as (m & Hm & Hsame & Hrun & _).
  exists (m_emails m). split; [unfold match_orphans_output; by rewrite Hm|].
  by apply (phase_run_forest emails).
Qed.

Lemma merge_by_time_proximity_forest max_days (emails : list email) :
  Forall well_keyed emails -> unique_ids emails -> forest emails ->
  ∃ out, merge_by_time_proximity_output max_days emails = Ok out
    ∧ forest out ∧ unique_ids out ∧ Forall well_keyed out.
Proof.
  intros Hk Hu Hf.
  destruct (merge_by_time_proximity_run_ok max_days emails Hk) as (m & Hm & Hsame & Hrun).
  exists (m_emails m). split; [unfold merge_by_time_proximity_output; by rewrite Hm|].
  by apply (phase_run_forest emails).
Qed.

(** ** The phases that assign no parent *)

Lemma identify_orphans_forest (emails : list email) :
  Forall well_keyed emails -> unique_ids emails -> forest emails ->
  ∃ out, identify_orphans_output emails = Ok out
    ∧ forest out ∧ unique_ids out ∧ Forall well_keyed out.
Proof.
  intros Hk Hu Hf.
  destruct (identify_orphans_output_ok emails Hk) as (out & Hout & Hk' & Hall).
  assert (same_links emails out) as Hl.
  { eapply Forall2_impl; [exact Hall|]. by intros e e' (? & ? & _). }
  exists out. split_and!; [done| | |done].
  - by eapply same_links_forest.
  - by eapply same_links_unique_ids.
Qed.

Lemma thread_steps_stamped (emails0 : list email) idx rest acc res :
  Forall2 stamped emails0 acc.1 ->
  for_each (thread_step idx) rest acc = Ok res ->
  Forall2 stamped emails0 res.1.
Proof.
  revert acc. induction rest as [|r rest IH]; intros acc Hacc; simpl.
  { by intros [= <-]. }
  destruct (thread_step idx acc r) as [acc'|] eqn:Hstep; cbn [bind]; [|discriminate].
  apply IH. unfold thread_step in Hstep. destruct acc as [es ts].
  destruct (assemble es idx r) as [[t tm]|]; cbn [bind] in Hstep; [|discriminate].
  injection Hstep as <-. simpl in *.
  destruct (stamp_members (t_id t) tm es) as (Hst & _).
  eapply Forall2_trans; [apply stamped_trans|exact Hacc|exact Hst].
Qed.

Lemma build_threads_forest (emails out : list email) threads :
  Forall well_keyed emails -> unique_ids emails -> forest emails ->
  build_threads emails = Ok (out, threads) ->
  forest out ∧ unique_ids out ∧ Forall well_keyed out.
Proof.
  intros Hk Hu Hf. unfold build_threads.
  destruct (build_by_id emails) as [by_id|]; cbn [bind]; [|discriminate].
  intros Hrun. apply thread_steps_stamped with (emails0 := emails) in Hrun;
    [|by apply Forall2_refl_rel, stamped_refl].
  simpl in Hrun.
  assert (same_links emails out) as Hl.
  { eapply Forall2_impl; [exact Hrun|].
    intros e e' Hs. apply stamped_fields in Hs. tauto. }
  split_and!.
  - by eapply same_links_forest.
  - by eapply same_links_unique_ids.
  - eapply store_well_keyed; [done|].
    eapply Forall2_impl; [exact Hrun|]. apply stamped_same.
Qed.

(** ** The Quote Matcher runs to its end, by guarded links *)

Lemma for_each_inv {A B} (P : A -> Prop) (f : A -> B -> result A) l a :
  (∀ a x, x ∈ l -> P a -> ∃ a', f a x = Ok a' ∧ P a') ->
  P a -> ∃ a', for_each f l a = Ok a' ∧ P a'.
Proof.
  revert a. induction l as [|x l IH]; intros a Hf Ha; simpl; [eauto|].
  destruct (Hf a x) as (a' & -> & Ha'); [by left|done|]. cbn [bind].
  apply IH; [|done]. intros a'' y Hy. apply Hf. by right.
Qed.

Lemma build_body_index_ok (emails : list email) :
  Forall well_keyed emails -> ∃ body_index, build_body_index emails = Ok body_index.
Proof.
  intros Hk. unfold build_body_index.
  destruct (for_each_inv (fun _ => True) index_body emails ∅) as (bi & Hbi & _);
    [|done|by exists bi].
  intros acc e He _. unfold index_body.
  assert (id e ≠ Absent) as Hid.
  { rewrite Forall_forall in Hk. by destruct (Hk e He). }
  destruct (nonempty (body e)) as [b|]; [|eauto].
  destruct (String.length b <? 50)%nat; [eauto|].
  apply for_each_inv; [|done]. intros acc' line _ _.
  destruct (30 <? String.length (strip line))%nat; [|eauto].
  destruct (20 <? String.length (normalize_for_matching (strip line)))%nat; [|eauto].
  rewrite (subscript_present _ Hid). cbn [bind]. eauto.
Qed.

Lemma consider_source_ok (emails : list email) by_id quoting email_date acc source_id :
  Forall well_keyed emails -> well_keyed quoting ->
  ∃ acc', consider_source emails by_id quoting email_date acc source_id = Ok acc'.
Proof.
  intros Hk [Hq _]. unfold consider_source.
  destruct (by_id !! source_id) as [j|]; [|eauto].
  destruct (emails !! j) as [source|] eqn:Hj; [|eauto].
  destruct (well_keyed_lookup _ _ _ Hk Hj) as [Hs _].
  rewrite (subscript_present _ Hs), (subscript_present _ Hq). cbn [bind].
  case_decide; [eauto|].
  destruct (not_earlier _ _); [eauto|].
  destruct (_ <? _); eauto.
Qed.

Lemma consider_quote_ok (emails : list email) by_id body_index quoting email_date acc line :
  Forall well_keyed emails -> well_keyed quoting ->
  ∃ acc', consider_quote emails by_id body_index quoting email_date acc line = Ok acc'.
Proof.
  intros Hk Hq. unfold consider_quote.
  destruct (_ <? _)%nat; [eauto|].
  destruct (for_each_inv (fun _ => True)
              (consider_source emails by_id quoting email_date)
              (default [] (body_index !! normalize_for_matching line)) acc)
    as (acc' & Hacc & _); [|done|by exists acc'].
  intros a x _ _. destruct (consider_source_ok emails by_id quoting email_date a x Hk Hq)
    as [a' Ha']. eauto.
Qed.

Lemma quote_mark_ok score :
  mark_ok (fun e => set_quote_match_score (Some score)
                      (set_orphan_status (Some matched_by_quote) e)).
Proof. intros e. unfold same_message. by simpl. Qed.

Section QuoteRun.

Context (old : list email) (Hkeys : Forall well_keyed old).
Context (by_subject : list (string * list nat)) (by_id : gmap pyid nat).
Context (body_index : gmap string (list pyid)).

Lemma match_quote_one_step m cand :
  Forall2 same_message old (m_emails m) ->
  ∃ m', match_quote_one by_subject by_id body_index m cand = Ok m'
    ∧ Forall2 same_message old (m_emails m')
    ∧ phase_step m m'.
Proof.
  intros Hsame. destruct cand as [i quoted_lines]. unfold match_quote_one.
  assert (∀ n, ∃ m', Ok (count_unmatched n m) = Ok m'
            ∧ Forall2 same_message old (m_emails m') ∧ phase_step m m') as Hcount.
  { intros n. exists (count_unmatched n m). split_and!; [done..|]. by left. }
  assert (∃ m', Ok m = Ok m'
            ∧ Forall2 same_message old (m_emails m') ∧ phase_step m m') as Hskip.
  { exists m. split_and!; [done..|]. by left. }
  pose proof (store_well_keyed _ _ Hkeys Hsame) as Hkm.
  destruct (m_emails m !! i) as [quoting|] eqn:Hi; [|done].
  destruct (String.eqb (norm_subj_of quoting) ""); [done|].
  destruct (same_or_similar by_subject (norm_subj_of quoting)); [done|].
  destruct (for_each_inv (fun _ => True)
              (consider_quote (m_emails m) by_id body_index quoting
                 (parse_date (date_parsed quoting)))
              (take 5 quoted_lines) (None, 0)) as (best & Hbest & _); [|done|].
  { intros a x _ _.
    destruct (consider_quote_ok (m_emails m) by_id body_index quoting
                (parse_date (date_parsed quoting)) a x Hkm) as [a' Ha'];
      eauto using well_keyed_lookup. }
  rewrite Hbest. cbn [bind].
  destruct (best.1) as [j|]; [|done].
  destruct (m_emails m !! j) as [source|] eqn:Hj.
  - by eapply link_guarded_step; eauto using quote_mark_ok.
  - unfold link_guarded. by rewrite Hi, Hj.
Qed.

Lemma match_quote_steps l m :
  Forall2 same_message old (m_emails m) ->
  ∃ m', for_each (match_quote_one by_subject by_id body_index) l m = Ok m'
    ∧ Forall2 same_message old (m_emails m')
    ∧ rtc phase_step m m'.
Proof.
  revert m. induction l as [|c l IH]; intros m Hsame; simpl;
    [by exists m; split_and!|].
  destruct (match_quote_one_step m c Hsame) as (m1 & -> & Hsame1 & Hstep). cbn [bind].
  destruct (IH m1 Hsame1) as (m' & Hm' & Hsame' & Hrun).
  exists m'. split_and!; [done..|]. by eapply rtc_l.
Qed.

End QuoteRun.

Lemma match_by_quotes_run_ok (emails : list email) :
  Forall well_keyed emails ->
  ∃ m, match_by_quotes_run emails = Ok m
    ∧ Forall2 same_message emails (m_emails m)
    ∧ rtc phase_step (phase_start emails) m.
Proof.
  intros Hk. unfold match_by_quotes_run.
  destruct (build_by_id_ok emails Hk) as [by_id ->]. cbn [bind].
  destruct (build_body_index_ok emails Hk) as [body_index ->]. cbn [bind].
  apply (match_quote_steps emails Hk). by apply Forall2_refl_rel.
Qed.

Lemma match_by_quotes_forest (emails : list email) :
  Forall well_keyed emails -> unique_ids emails -> forest emails ->
  ∃ out, match_by_quotes_output emails = Ok out
    ∧ forest out ∧ unique_ids out ∧ Forall well_keyed out.
Proof.
  intros Hk Hu Hf.
  destruct (match_by_quotes_run_ok emails Hk) as (m & Hm & Hsame & Hrun).
  exists (m_emails m). split; [unfold match_by_quotes_output; by rewrite Hm|].
  by apply (phase_run_forest emails).
Qed.

(** ** The Direct Linker *)

Section DirectLinker.

Context (raw : list email) (Hunique : unique_ids raw).

Lemma build_thread_trees_output_ids :
  Forall2 (fun e e' => message_id e' = message_id e) raw (build_thread_trees_output raw).
Proof.
  unfold build_thread_trees_output. apply Forall2_fmap_r, Forall2_refl_rel.
  intros e. symmetry. apply annotate_same.
Qed.

Lemma replies_ids :
  Forall2 (fun e e' => message_id e' = message_id e) raw (replies raw).
Proof. unfold replies. by apply Forall2_fmap_r, Forall2_refl_rel. Qed.

(** The parent recorded for a message id is the [in_reply_to] of a record
    with that id, and it is a key of the index. *)
Lemma parent_of_collect_links k v :
  parent_of (collect_links raw) !! k = Some v ->
  ∃ e, e ∈ raw ∧ get (message_id e) = k ∧ in_reply_to e = v
       ∧ truthy v = true ∧ is_Some (build_index raw !! v).
Proof.
  unfold collect_links. intros [Hempty|H]%parent_of_fold; [|done].
  simpl in Hempty. by rewrite lookup_empty in Hempty.
Qed.

Lemma lookup_linked_output v p e0 :
  build_index raw !! v = Some p -> raw !! p = Some e0 ->
  by_message_id_of (build_thread_trees_output raw) !! v
  = Some (annotate (collect_links raw) e0).
Proof.
  intros Hv Hp. unfold by_message_id_of. apply lookup_deref. exists p.
  rewrite (build_index_ext raw) by apply build_thread_trees_output_ids.
  split; [done|]. by apply lookup_build_thread_trees_output.
Qed.

Lemma lookup_replies v eR :
  by_message_id_of (replies raw) !! v = Some eR ->
  ∃ p e0, build_index raw !! v = Some p ∧ raw !! p = Some e0
          ∧ parent_id eR = in_reply_to e0.
Proof.
  unfold by_message_id_of. intros (p & Hv & Hp)%lookup_deref.
  rewrite (build_index_ext raw) in Hv by apply replies_ids.
  unfold replies in Hp. rewrite list_lookup_fmap in Hp.
  destruct (raw !! p) as [e0|] eqn:Hp0; [|done]. injection Hp as <-.
  by exists p, e0.
Qed.

(** A chain of references that stops is the chain of parents that the
    Direct Linker writes, and it ends in a root. *)
Lemma replies_rooted v :
  terminates (by_message_id_of (replies raw)) v ->
  (truthy v = true -> is_Some (build_index raw !! v)) ->
  rooted (by_message_id_of (build_thread_trees_output raw)) v.
Proof.
  induction 1 as [v Hv|v Hmiss|v eR HeR _ IH]; intros Hres.
  - by apply rooted_end.
  - destruct (truthy v) eqn:Hv; [|by apply rooted_end].
    destruct (Hres eq_refl) as [p Hp].
    destruct (build_index_lookup _ _ _ Hp) as (e0 & He0 & _).
    unfold by_message_id_of in Hmiss.
    assert (deref (replies raw) (build_index (replies raw)) !! v
            = Some (set_parent_id (in_reply_to e0) e0)) as Habs.
    { apply lookup_deref. exists p.
      rewrite (build_index_ext raw) by apply replies_ids. split; [done|].
      unfold replies. by rewrite list_lookup_fmap, He0. }
    congruence.
  - destruct (truthy v) eqn:Hv; [|by apply rooted_end].
    destruct (lookup_replies v eR HeR) as (p & e0 & Hp & He0 & Hpar).
    destruct (build_index_lookup _ _ _ Hp) as (e0' & He0' & Hm & _).
    assert (e0' = e0) as -> by congruence.
    eapply rooted_step; [by eapply lookup_linked_output|].
    simpl. rewrite Hm.
    destruct (parent_of (collect_links raw) !! v) as [w|] eqn:Hw; [|by apply rooted_end].
    simpl. destruct (parent_of_collect_links v w Hw) as (e1 & He1 & Hm1 & Hr1 & Htw & Hiw).
    apply list_elem_of_lookup_1 in He1 as [p1 Hp1].
    assert (p = p1) as <-.
    { eapply (unique_ids_lookup raw p p1 e0 e1); eauto; congruence. }
    assert (e1 = e0) as -> by congruence.
    rewrite Hpar, Hr1 in IH. by apply IH.
Qed.

Lemma build_thread_trees_forest :
  replies_end raw ->
  forest (build_thread_trees_output raw) ∧ unique_ids (build_thread_trees_output raw).
Proof.
  intros Hends. split; [|by eapply unique_ids_ext; [apply build_thread_trees_output_ids|]].
  apply forest_rooted. intros e'.
  unfold build_thread_trees_output at 1. intros (e & -> & He)%list_elem_of_fmap.
  simpl.
  destruct (parent_of (collect_links raw) !! get (message_id e)) as [v|] eqn:Hv;
    [|by apply rooted_end].
  simpl. destruct (parent_of_collect_links _ v Hv) as (e1 & He1 & _ & Hr1 & Htv & Hiv).
  apply replies_rooted; [|done].
  unfold replies_end in Hends. rewrite Forall_forall in Hends.
  rewrite <- Hr1. by apply Hends.
Qed.

End DirectLinker.

Lemma forestb_spec (emails : list email) : forestb emails = true <-> forest emails.
Proof.
  unfold forestb. rewrite forallb_forall. split.
  - intros H. apply forest_rooted. intros e He.
    apply list_elem_of_In, H in He.
    destruct (hops_to_root emails e) as [n|] eqn:Hn; [|discriminate].
    by eapply chain_length_rooted.
  - intros Hf e He%list_elem_of_In. by destruct (Hf e He) as (n & -> & _).
Qed.

(** * Further properties of the code *)

(** ** The cycle guard accepts only safe links *)

Section GuardSoundness.

Context (d : gmap pyid email) (child : pyid) (e' : email).

(** A walk that does not meet the child is not changed by the entry of the
    child. *)
Lemma terminates_off_child x :
  terminates d x -> ¬ rtc (pstep d) x child -> terminates (<[child := e']> d) x.
Proof.
  induction 1 as [a Ha|a Ha|a e He _ IH]; intros Hnot.
  - by apply term_falsy.
  - apply term_miss. rewrite lookup_insert_ne; [done|]. intros ->. by apply Hnot.
  - destruct (truthy a) eqn:Hta; [|by apply term_falsy].
    eapply term_step.
    + rewrite lookup_insert_ne; [done|]. intros ->. by apply Hnot.
    + apply IH. intros Hr. apply Hnot. eapply rtc_l; [|done]. split; eauto.
Qed.

Lemma terminates_after_link x :
  terminates (<[child := e']> d) (parent_id e') ->
  terminates d x -> terminates (<[child := e']> d) x.
Proof.
  intros Hp. induction 1 as [a Ha|a Ha|a e He _ IH].
  - by apply term_falsy.
  - destruct (decide (a = child)) as [->|Hne].
    + eapply term_step; [by rewrite lookup_insert_eq|done].
    + apply term_miss. by rewrite lookup_insert_ne.
  - destruct (decide (a = child)) as [->|Hne].
    + eapply term_step; [by rewrite lookup_insert_eq|done].
    + eapply term_step; [by rewrite lookup_insert_ne|done].
Qed.

End GuardSoundness.


(** ** The Direct Linker: counters and summary *)

Lemma filter_none {A} (P : A -> Prop) `{∀ x, Decision (P x)} (l : list A) :
  (∀ x, x ∈ l -> ¬ P x) -> filter P l = [].
Proof.
  induction l as [|x l IH]; intros Hall; [done|].
  rewrite filter_cons, decide_False by (apply Hall; by left).
  apply IH. intros y Hy. apply Hall. by right.
Qed.

Lemma link_step_counts idx l acc :
  let r := fold_left (link_step idx) l acc in
  with_in_reply_to r
  = (with_in_reply_to acc
     + List.length (filter (fun e => truthy (in_reply_to e) = true) l))%nat
  ∧ in_reply_to_matched r
    = (in_reply_to_matched acc
       + List.length
           (filter (fun e => truthy (in_reply_to e)
                             && bool_decide (is_Some (idx !! in_reply_to e)) = true) l))%nat
  ∧ (in_reply_to_matched r + in_reply_to_unmatched r
     = in_reply_to_matched acc + in_reply_to_unmatched acc
       + List.length (filter (fun e => truthy (in_reply_to e) = true) l))%nat.
Proof.
  revert acc. induction l as [|e l IH]; intros acc; simpl; [lia|].
  destruct (IH (link_step idx acc e)) as (H1 & H2 & H3).
  rewrite H3, H1, H2. clear IH H1 H2 H3.
  rewrite !filter_cons. unfold link_step.
  destruct (truthy (in_reply_to e)) eqn:Ht; simpl;
    [destruct (idx !! in_reply_to e) as [p|] eqn:Hp; simpl|];
    repeat case_decide; simpl; try lia; try done.
Qed.

(** X2.  The counters of the Direct Linker.  [emails_with_in_reply_to]
    counts the records with a non-empty [in_reply_to], [in_reply_to_matched]
    those whose [in_reply_to] is a message id of the archive, and the two
    outcomes add up.  The summary divides by the first counter: the function
    returns when some record has a non-empty [in_reply_to] and raises
    ZeroDivisionError when none has, the empty archive included. *)
Theorem direct_linker_counts :
  ∀ emails : list email,
    let l := collect_links emails in
    with_in_reply_to l
    = List.length (filter (fun e => truthy (in_reply_to e) = true) emails)
    ∧ in_reply_to_matched l
      = List.length (filter (fun e => resolves emails e = true) emails)
    ∧ (in_reply_to_matched l + in_reply_to_unmatched l)%nat = with_in_reply_to l
    ∧ (with_in_reply_to l <= List.length emails)%nat
    ∧ (build_thread_trees emails = Ok l
       <-> ∃ e, e ∈ emails ∧ truthy (in_reply_to e) = true)
    ∧ (build_thread_trees emails = Raise ZeroDivisionError
       <-> ∀ e, e ∈ emails -> truthy (in_reply_to e) = false).
Proof.
  intros emails l.
  destruct (link_step_counts (build_index emails) emails
              {| parent_of := ∅; children_of := ∅; with_in_reply_to := O;
                 in_reply_to_matched := O; in_reply_to_unmatched := O |})
    as (H1 & H2 & H3).
  fold (collect_links emails) in H1, H2, H3. fold l in H1, H2, H3. simpl in H1, H2, H3.
  assert (with_in_reply_to l <= List.length emails)%nat as Hle.
  { rewrite H1. apply length_filter. }
  assert (with_in_reply_to l = O
          <-> ∀ e, e ∈ emails -> truthy (in_reply_to e) = false) as Hzero.
  { rewrite H1. split.
    - intros Hz e He. destruct (truthy (in_reply_to e)) eqn:Ht; [|done].
      assert (e ∈ filter (fun e => truthy (in_reply_to e) = true) emails) as Hin
        by (by apply list_elem_of_filter).
      destruct (filter _ emails); [by apply elem_of_nil in Hin|done].
    - intros Hall. rewrite filter_none; [done|].
      intros e He. by rewrite (Hall e He). }
  split; [done|]. split; [done|]. split; [lia|]. split; [done|].
  assert (build_thread_trees emails
          = if decide (with_in_reply_to l = O) then Raise ZeroDivisionError else Ok l)
    as Hrun.
  { unfold build_thread_trees. fold l.
    case_decide as Hz.
    - rewrite Hz. destruct (List.length emails); done.
    - destruct (List.length emails) as [|n] eqn:Hn; [lia|].
      destruct (with_in_reply_to l); [done|]. done. }
  rewrite Hrun. split.
  - case_decide as Hz; split.
    + done.
    + intros (e & He & Ht). rewrite (proj1 Hzero Hz e He) in Ht. done.
    + intros _. destruct (emails) as [|e0 es] eqn:He; [simpl in *; lia|].
      rewrite <- He in *.
      destruct (filter (fun e => truthy (in_reply_to e) = true) emails) as [|e f] eqn:Hf.
      { rewrite H1 in Hz. done. }
      assert (e ∈ filter (fun e => truthy (in_reply_to e) = true) emails) as Hin
        by (rewrite Hf; by left).
      apply list_elem_of_filter in Hin as [? ?]. eauto.
    + done.
  - rewrite <- Hzero. by case_decide.
Qed.

(** ** The Direct Linker: the links it writes *)

Lemma children_of_fold idx l acc p :
  default [] (children_of (fold_left (link_step idx) l acc) !! p)
  = default [] (children_of acc !! p)
    ++ ((fun r => get (message_id r))
          <$> filter (fun r => truthy (in_reply_to r)
                               && bool_decide (is_Some (idx !! in_reply_to r))
                               && bool_decide (in_reply_to r = p) = true) l).
Proof.
  revert acc. induction l as [|e l IH]; intros acc; simpl; [by rewrite app_nil_r|].
  rewrite IH, filter_cons. clear IH. unfold link_step.
  destruct (truthy (in_reply_to e)) eqn:Ht; cbn [andb].
  - destruct (idx !! in_reply_to e) as [q|] eqn:Hq.
    + rewrite (bool_decide_eq_true_2 (is_Some (Some q))) by eauto. cbn [andb children_of].
      destruct (decide (in_reply_to e = p)) as [->|Hne].
      * rewrite lookup_insert_eq, bool_decide_eq_true_2, decide_True by done.
        simpl. by rewrite <- app_assoc.
      * rewrite lookup_insert_ne, bool_decide_eq_false_2, decide_False by done. done.
    + rewrite (bool_decide_eq_false_2 (is_Some None)) by (by intros [? ?]).
      cbn [andb]. by rewrite decide_False.
  - by rewrite decide_False.
Qed.

Lemma parent_of_fold_exact idx l acc k :
  parent_of (fold_left (link_step idx) l acc) !! k
  = match last (filter (fun r => truthy (in_reply_to r)
                                 && bool_decide (is_Some (idx !! in_reply_to r))
                                 && bool_decide (get (message_id r) = k) = true) l) with
    | Some r => Some (in_reply_to r)
    | None => parent_of acc !! k
    end.
Proof.
  induction l as [|e l IH] using rev_ind; [done|].
  rewrite fold_left_app, filter_app, filter_cons, filter_nil. simpl.
  rewrite link_step_parent_of.
  destruct (truthy (in_reply_to e) && bool_decide (is_Some (idx !! in_reply_to e))
            && bool_decide (get (message_id e) = k)) eqn:Hb.
  - rewrite decide_True by done. by rewrite last_snoc.
  - rewrite decide_False by done. by rewrite app_nil_r.
Qed.

(** The threading keys of one record of the output. *)
Lemma annotate_links (raw : list email) e :
  children_ids (annotate (collect_links raw) e)
  = Some ((fun r => get (message_id r)) <$> replies_to raw (get (message_id e)))
  ∧ parent_id (annotate (collect_links raw) e)
    = default None (in_reply_to <$> last (carrying raw (get (message_id e))))
  ∧ is_thread_root (annotate (collect_links raw) e)
    = Some (bool_decide (parent_id (annotate (collect_links raw) e) = None)).
Proof.
  assert (parent_of (collect_links raw) !! get (message_id e)
          = in_reply_to <$> last (carrying raw (get (message_id e)))) as Hpar.
  { unfold collect_links. rewrite parent_of_fold_exact. simpl.
    rewrite lookup_empty. unfold carrying, resolves.
    by destruct (last _). }
  assert (parent_id (annotate (collect_links raw) e)
          = default None (parent_of (collect_links raw) !! get (message_id e))) as ->
    by reflexivity.
  assert (children_ids (annotate (collect_links raw) e)
          = Some (default [] (children_of (collect_links raw) !! get (message_id e))))
    as -> by reflexivity.
  assert (is_thread_root (annotate (collect_links raw) e)
          = Some (bool_decide (parent_of (collect_links raw) !! get (message_id e) = None)))
    as -> by reflexivity.
  split; [|split].
  - f_equal. unfold collect_links. rewrite children_of_fold. simpl.
    by rewrite lookup_empty.
  - exact (f_equal (default None) Hpar).
  - assert (∀ x : option pyid,
              x = in_reply_to <$> last (carrying raw (get (message_id e))) ->
              Some (bool_decide (x = None))
              = Some (bool_decide (default None x = None))) as Hgen.
    { intros x ->. f_equal.
      destruct (last (carrying raw (get (message_id e)))) as [r|] eqn:Hlast; simpl; [|done].
      apply last_Some_elem_of, list_elem_of_filter in Hlast as [Hr _].
      apply andb_true_iff in Hr as [Hr _]. unfold resolves in Hr.
      apply andb_true_iff in Hr as [Ht _].
      destruct (in_reply_to r); [|done].
      by rewrite !bool_decide_eq_false_2. }
    exact (Hgen _ Hpar).
Qed.

(** X3.  The links that the Direct Linker writes.  Every record keeps its
    place and its message; its [children_ids] are the message ids of the
    records whose [in_reply_to] is its message id and resolves, in the
    order of the archive; its [parent_id] is the [in_reply_to] of the last
    record that carries its message id and has a resolving [in_reply_to],
    [None] when there is none; [is_thread_root] tells that [parent_id] is
    [None]. *)
Theorem direct_linker_output :
  ∀ raw : list email,
    Forall2
      (fun e e' =>
         same_message e e'
         ∧ children_ids e'
           = Some ((fun r => get (message_id r)) <$> replies_to raw (get (message_id e)))
         ∧ parent_id e'
           = default None (in_reply_to <$> last (carrying raw (get (message_id e))))
         ∧ is_thread_root e' = Some (bool_decide (parent_id e' = None)))
      raw (build_thread_trees_output raw).
Proof.
  intros raw. unfold build_thread_trees_output.
  apply Forall2_fmap_r, Forall2_refl_rel. intros e.
  split; [apply annotate_same|apply annotate_links].
Qed.

Lemma unique_ids_elem_of (emails : list email) x y :
  unique_ids emails -> x ∈ emails -> y ∈ emails ->
  truthy (get (message_id x)) = true ->
  get (message_id x) = get (message_id y) -> x = y.
Proof.
  intros Hu [i Hi]%list_elem_of_lookup_1 [j Hj]%list_elem_of_lookup_1 Ht Heq.
  assert (i = j) as -> by (by eapply (unique_ids_lookup emails i j x y)).
  congruence.
Qed.


(** ** The subject normalizer: normal forms *)

Lemma ci_prefix_lit_lower lit s : ci_prefix (lower lit) s = ci_prefix lit s.
Proof.
  revert s. induction lit as [|a lit IH]; intros s; simpl; [done|].
  destruct s as [|c s]; [done|]. by rewrite lower_char_idem, IH.
Qed.

(** Two literals that match the same string: the shorter one matches the
    longer one. *)
Lemma ci_prefix_both l1 l2 s r1 r2 :
  ci_prefix l1 s = Some r1 -> ci_prefix l2 s = Some r2 ->
  (String.length l1 <= String.length l2)%nat ->
  is_Some (ci_prefix l1 l2).
Proof.
  revert l2 s. induction l1 as [|a l1 IH]; intros l2 s; simpl; [eauto|].
  destruct s as [|c s]; [discriminate|].
  destruct (Ascii.eqb_spec (lower_char a) (lower_char c)) as [Hac|]; [|discriminate].
  intros H1. destruct l2 as [|b l2]; simpl; [lia|].
  destruct (Ascii.eqb_spec (lower_char b) (lower_char c)) as [Hbc|]; [|discriminate].
  intros H2 Hlen. rewrite Hac, <- Hbc, Ascii.eqb_refl. eapply IH; eauto. lia.
Qed.

Lemma match_prefix_unique p q s r r' :
  p ∈ prefixes -> q ∈ prefixes ->
  match_prefix p s = Some r -> match_prefix q s = Some r' -> r = r'.
Proof.
  intros Hp Hq Hr Hr'.
  destruct p as [l1|], q as [l2|]; simpl in Hr, Hr'.
  - destruct (ci_prefix l1 s) as [x|] eqn:H1; [|discriminate].
    destruct (ci_prefix l2 s) as [y|] eqn:H2; [|discriminate].
    injection Hr as <-. injection Hr' as <-.
    assert (lower l1 = lower l2 -> x = y) as Hsame.
    { intros Hl. rewrite <- ci_prefix_lit_lower, Hl, ci_prefix_lit_lower in H1. congruence. }
    assert (ci_prefix l1 l2 = None -> (String.length l1 <= String.length l2)%nat -> False)
      as Hno1.
    { intros Hn Hle. destruct (ci_prefix_both l1 l2 s x y H1 H2 Hle). congruence. }
    assert (ci_prefix l2 l1 = None -> (String.length l2 <= String.length l1)%nat -> False)
      as Hno2.
    { intros Hn Hle. destruct (ci_prefix_both l2 l1 s y x H2 H1 Hle). congruence. }
    unfold prefixes in Hp, Hq.
    repeat (apply elem_of_cons in Hp as [Hp|Hp]; [try discriminate; injection Hp as ->|]);
      try (by apply elem_of_nil in Hp);
      repeat (apply elem_of_cons in Hq as [Hq|Hq]; [try discriminate; injection Hq as ->|]);
      try (by apply elem_of_nil in Hq);
      first [ by rewrite (Hsame eq_refl)
            | exfalso; apply Hno1; [reflexivity|simpl; lia]
            | exfalso; apply Hno2; [reflexivity|simpl; lia] ].
  - exfalso. destruct s as [|c s]; [discriminate|].
    destruct (Ascii.eqb_spec c "[") as [->|Hne];
      [|by repeat (case_match; try done; subst)].
    unfold prefixes in Hp.
    repeat (apply elem_of_cons in Hp as [Hp|Hp];
            [try discriminate; injection Hp as ->; simpl in Hr; discriminate|]).
    by apply elem_of_nil in Hp.
  - exfalso. destruct s as [|c s]; [discriminate|].
    destruct (Ascii.eqb_spec c "[") as [->|Hne];
      [|by repeat (case_match; try done; subst)].
    unfold prefixes in Hq.
    repeat (apply elem_of_cons in Hq as [Hq|Hq];
            [try discriminate; injection Hq as ->; simpl in Hr'; discriminate|]).
    by apply elem_of_nil in Hq.
  - congruence.
Qed.

Lemma peels_functional s t t' : peels s t -> peels s t' -> t = t'.
Proof.
  intros (p & r & Hp & Hr & ->) (q & r' & Hq & Hr' & ->).
  by rewrite (match_prefix_unique p q s r r').
Qed.

Lemma strip_fold_peels ps s ch :
  Forall (fun p => p ∈ prefixes) ps ->
  rtc peels s (fold_left strip_step ps (s, ch)).1.
Proof.
  intros Hps. revert s ch.
  induction Hps as [|p ps Hp _ IH]; intros s ch; cbn [fold_left]; [done|].
  change (strip_step (s, ch) p) with
    (if decide (re_sub p s = s) then (s, ch) else (strip (re_sub p s), true)).
  destruct (decide (re_sub p s = s)) as [Heq|Hne]; [apply IH|].
  eapply rtc_l; [|apply IH]. unfold re_sub in *.
  destruct (match_prefix p s) as [r|] eqn:Hr; [|done]. by exists p, r.
Qed.

Lemma strip_loop_peels fuel s : rtc peels s (strip_loop fuel s).
Proof.
  revert s. induction fuel as [|fuel IH]; intros s; simpl; [done|].
  pose proof (strip_fold_peels prefixes s false prefixes_all) as Hpass.
  fold (strip_pass s) in Hpass. destruct (strip_pass s) as [s' ch]. simpl in Hpass.
  destruct ch; [|done]. etransitivity; [exact Hpass|apply IH].
Qed.

Lemma strip_pass_normal s t : strip_pass s = (s, false) -> ¬ peels s t.
Proof.
  intros Hpass (p & r & Hp & Hr & _).
  destruct (strip_pass_spec s) as (H1 & _). rewrite Hpass in H1.
  destruct (H1 eq_refl) as [_ Hall].
  rewrite Forall_forall in Hall. rewrite (Hall p Hp) in Hr. done.
Qed.

Lemma peels_normal_form s x y :
  rtc peels s x -> rtc peels s y ->
  (∀ t, ¬ peels x t) -> (∀ t, ¬ peels y t) -> x = y.
Proof.
  intros Hx. revert y. induction Hx as [x|s s1 x Hs1 _ IH]; intros y Hy Hnx Hny.
  - apply rtc_inv in Hy as [<-|(t & Ht & _)]; [done|]. by destruct (Hnx t).
  - apply rtc_inv in Hy as [<-|(t & Ht & Hy)]; [by destruct (Hny s1)|].
    rewrite (peels_functional s t s1 Ht Hs1) in Hy. by apply IH.
Qed.

(** The shape of the result, the empty subject included. *)
Lemma normalize_subject_unfold s :
  normalize_subject (Some s)
  = lower (strip (strip_loop (S (String.length (strip s))) (strip s))).
Proof. destruct s; [|done]. by vm_compute. Qed.

Lemma strip_loop_normal s :
  let x := strip_loop (S (String.length (strip s))) (strip s) in
  rtc peels (strip s) x ∧ (∀ t, ¬ peels x t) ∧ strip x = x
  ∧ strip_pass x = (x, false).
Proof.
  intros x. destruct (strip_loop_fixpoint (S (String.length (strip s))) (strip s))
    as [Hfix Hstrip]; [lia|apply strip_idem|].
  split; [apply strip_loop_peels|]. split; [|done].
  intros t. by apply strip_pass_normal.
Qed.

Lemma strip_loop_lower fuel s : strip_loop fuel (lower s) = lower (strip_loop fuel s).
Proof.
  revert s. induction fuel as [|fuel IH]; intros s; simpl; [done|].
  rewrite strip_pass_lower. destruct (strip_pass s) as [s' ch]. simpl.
  destruct ch; [apply IH|done].
Qed.

Lemma lower_no_upper_head n c s : lower n = String c s -> isupper c = false.
Proof.
  destruct n as [|a n]; [discriminate|]. simpl. intros [= <- _]. clear.
  destruct a as [[] [] [] [] [] [] [] []]; reflexivity.
Qed.


Lemma rstrip_cons_nonspace c s : isspace c = false -> rstrip (String c s) = String c (rstrip s).
Proof. intros Hc. simpl. rewrite Hc. by destruct (rstrip s). Qed.

Lemma rstrip_lstrip_comm s : rstrip (lstrip s) = lstrip (rstrip s).
Proof.
  induction s as [|c s IH]; [done|].
  destruct (isspace c) eqn:Hc.
  - change (lstrip (String c s)) with (if isspace c then lstrip s else String c s).
    rewrite Hc, IH.
    change (rstrip (String c s)) with
      (match rstrip s with
       | EmptyString => if isspace c then EmptyString else String c EmptyString
       | String a r => String c (String a r) end).
    destruct (rstrip s) as [|d r]; [by rewrite Hc|].
    change (lstrip (String c (String d r)))
      with (if isspace c then lstrip (String d r) else String c (String d r)).
    by rewrite Hc.
  - change (lstrip (String c s)) with (if isspace c then lstrip s else String c s).
    rewrite Hc, rstrip_cons_nonspace by done.
    change (lstrip (String c (rstrip s)))
      with (if isspace c then lstrip (rstrip s) else String c (rstrip s)).
    by rewrite Hc.
Qed.


(** ** The Orphan Classifier *)

Lemma classify_classified e :
  id e ≠ Absent -> ∃ e', classify e = Ok e' ∧ classified_from e e' ∧ id e' = id e.
Proof.
  intros Hid. unfold classify, classified_from.
  destruct (String.eqb _ ""); read_keys;
    destruct (bool_decide (is_Some (parent_id e)));
    try destruct (is_reply_subject (subject e)); read_keys;
    eexists; (split; [reflexivity|]); simpl;
    (split_and!; try done); by destruct e.
Qed.

Lemma classify_raises e err : classify e = Raise err -> err = KeyError.
Proof.
  unfold classify. destruct (id e) as [|v]; simpl.
  - destruct (String.eqb _ ""); cbn [bind];
      destruct (bool_decide (is_Some (parent_id e)));
      try destruct (is_reply_subject (subject e)); cbn [bind]; congruence.
  - destruct (String.eqb _ ""); cbn [bind];
      destruct (bool_decide (is_Some (parent_id e)));
      try destruct (is_reply_subject (subject e)); cbn [bind]; congruence.
Qed.

Lemma classify_keeps_id e e' : classify e = Ok e' -> id e' = id e.
Proof.
  unfold classify. intros H.
  destruct (String.eqb _ ""); cbn [bind] in H;
    repeat (match type of H with
            | context [subscript ?f] => destruct (subscript f); cbn [bind] in H
            | context [bool_decide ?P] => destruct (bool_decide P)
            | context [is_reply_subject ?x] => destruct (is_reply_subject x)
            end; try discriminate);
    by injection H as <-.
Qed.

Lemma map_result_raises {A B} (f : A -> result B) l err :
  map_result f l = Raise err -> ∃ x, x ∈ l ∧ f x = Raise err.
Proof.
  induction l as [|a l IH]; simpl; [done|].
  destruct (f a) as [b|e] eqn:Hfa; cbn [bind].
  - destruct (map_result f l) as [bs|e] eqn:Hl; cbn [bind]; [done|].
    intros [= <-]. destruct (IH eq_refl) as (x & Hx & Hfx). exists x. split; [by right|done].
  - intros [= <-]. exists a. split; [by left|done].
Qed.

Lemma map_result_Forall2 {A B} (f : A -> result B) l l' :
  map_result f l = Ok l' -> Forall2 (fun x y => f x = Ok y) l l'.
Proof.
  revert l'. induction l as [|a l IH]; intros l'; simpl; [by intros [= <-]|].
  destruct (f a) as [b|] eqn:Hfa; [|done]. cbn [bind].
  destruct (map_result f l) as [bs|] eqn:Hl; [|done]. cbn [bind].
  intros [= <-]. constructor; [done|]. by apply IH.
Qed.

Lemma count_status_cons s e (l : list email) :
  count_status s (e :: l)
  = ((if decide (orphan_status e = Some s) then 1 else 0) + count_status s l)%nat.
Proof. unfold count_status. rewrite filter_cons. by case_decide. Qed.

(** X7.  The Orphan Classifier.  It raises KeyError exactly when a record
    has no [id].  Otherwise every record of the output is the record of
    the input with its normalized subject, its status ([has_parent] as soon
    as [parent_id] is not [None], else [orphan_reply] for a reply subject
    and [true_root] for any other) and, for an orphan reply, the kind of
    orphan; the three statuses count all the records; and the summary, which
    divides by the number of orphan replies, raises ZeroDivisionError
    exactly when there is none. *)
Theorem orphan_classifier_output :
  ∀ emails : list email,
    (identify_orphans_output emails = Raise KeyError
     <-> ∃ e, e ∈ emails ∧ id e = Absent)
    ∧ ((∀ e, e ∈ emails -> id e ≠ Absent) ->
       ∃ out, identify_orphans_output emails = Ok out
         ∧ Forall2 classified_from emails out
         ∧ (count_status has_parent out + count_status orphan_reply out
            + count_status true_root out)%nat = List.length emails
         ∧ (identify_orphans emails = Raise ZeroDivisionError
            <-> count_status orphan_reply out = O)
         ∧ (identify_orphans emails = Ok (count_status orphan_reply out)
            <-> (0 < count_status orphan_reply out)%nat)).
Proof.
  intros emails.
  assert ((∀ e, e ∈ emails -> id e ≠ Absent) ->
          ∃ out, identify_orphans_output emails = Ok out
                 ∧ Forall2 classified_from emails out) as Hok.
  { intros Hall. unfold identify_orphans_output.
    destruct (map_result_ok classify (fun e => id e ≠ Absent)
                (fun e e' => classified_from e e' ∧ id e' = id e) emails)
      as (out & Hout & HR).
    { intros e He. destruct (classify_classified e He) as (e' & ? & ? & ?). eauto. }
    { by apply Forall_forall. }
    rewrite Hout. cbn [bind].
    assert (∃ by_id, build_by_id out = Ok by_id) as [by_id ->].
    { unfold build_by_id. generalize (∅ : gmap pyid nat).
      induction (positions out) as [|i l IH]; intros acc; simpl; [eauto|].
      destruct (out !! i) as [e'|] eqn:Hi; [|apply IH].
      destruct (Forall2_lookup_r _ _ _ _ _ HR Hi) as (e & He & _ & Hid).
      assert (id e' ≠ Absent) as Hid'.
      { rewrite Hid. apply Hall. by eapply list_elem_of_lookup_2. }
      rewrite (subscript_present _ Hid'). cbn [bind]. apply IH. }
    cbn [bind]. exists out. split; [done|].
    eapply Forall2_impl; [exact HR|]. by intros ? ? [? _]. }
  split.
  - split.
    + intros Hraise.
      destruct (decide (Exists (fun e => id e = Absent) emails)) as [Hex|Hnex].
      { apply Exists_exists in Hex. exact Hex. }
      destruct Hok as (out & Hout & _); [|congruence].
      intros e He Hid. apply Hnex, Exists_exists. eauto.
    + intros (e & He & Hid). unfold identify_orphans_output.
      destruct (map_result classify emails) as [out|err] eqn:Hmap; cbn [bind].
      * assert (∃ e', e' ∈ out ∧ id e' = Absent) as (e' & He' & Hid').
        { apply map_result_Forall2 in Hmap.
          apply list_elem_of_lookup_1 in He as [i Hi].
          destruct (Forall2_lookup_l _ _ _ _ _ Hmap Hi) as (e' & Hi' & Hc).
          exists e'. split; [by eapply list_elem_of_lookup_2|].
          by rewrite (classify_keeps_id _ _ Hc). }
        by rewrite (build_by_id_missing out e' He' Hid').
      * apply map_result_raises in Hmap as (x & _ & Hx).
        by rewrite (classify_raises _ _ Hx).
  - intros Hall. destruct (Hok Hall) as (out & Hout & HR).
    exists out. split; [done|]. split; [done|].
    assert ((count_status has_parent out + count_status orphan_reply out
             + count_status true_root out)%nat = List.length emails) as Hcount.
    { clear Hout Hok Hall. induction HR as [|e e' l l' (_ & Hs & _) _ IH]; [done|].
      rewrite !count_status_cons. simpl. rewrite <- IH, Hs.
      destruct (bool_decide (is_Some (parent_id e)));
        [|destruct (is_reply_subject (subject e))];
        repeat case_decide; try done; lia. }
    split; [done|].
    unfold identify_orphans. rewrite Hout. cbn [bind].
    destruct (count_status orphan_reply out) as [|n]; simpl;
      (split; split; intros H; try done; try lia; try discriminate).
Qed.

(** ** The text helpers of the Quote Matcher *)

Lemma drop_quote_marks_other c s :
  c ≠ ">"%char -> drop_quote_marks (String c s) = lstrip (String c s).
Proof.
  intros Hc. destruct c as [[] [] [] [] [] [] [] []];
    first [reflexivity | exfalso; by apply Hc].
Qed.

Lemma rstrip_tail c s : rstrip (String c s) = String c s -> rstrip s = s.
Proof.
  change (rstrip (String c s)) with
    (match rstrip s with
     | EmptyString => if isspace c then EmptyString else String c EmptyString
     | String a r => String c (String a r) end).
  destruct (rstrip s) as [|a r]; [|by intros [= <-]].
  destruct (isspace c); [done|]. by intros [= <-].
Qed.

Lemma drop_quote_marks_stripped l :
  rstrip l = l -> strip (drop_quote_marks l) = drop_quote_marks l.
Proof.
  induction l as [|c l IH]; intros Hl; [done|].
  destruct (decide (c = ">"%char)) as [->|Hne].
  - simpl. apply IH. by eapply rstrip_tail.
  - rewrite drop_quote_marks_other by done. unfold strip.
    by rewrite lstrip_idem, rstrip_lstrip_comm, Hl.
Qed.

Lemma rstrip_strip s : rstrip (strip s) = strip s.
Proof. unfold strip. apply rstrip_idem. Qed.

Lemma split_on_single c s : count_char c s = O -> split_on c s = [s].
Proof.
  induction s as [|a s IH]; [done|]. simpl.
  destruct (Ascii.eqb a c); [done|]. intros H. by rewrite IH.
Qed.

Lemma length_omap_le {A B} (f : A -> option B) (l : list A) :
  (List.length (omap f l) <= List.length l)%nat.
Proof.
  induction l as [|x l IH]; csimpl; [lia|].
  destruct (f x); csimpl; simpl in *; lia.
Qed.

(** X8.  The quoted lines of a body.  A body that is missing or empty has
    none.  Every extracted line is longer than 20 characters and has no
    space around it, and there are at most as many as the body has lines.
    Quoting round trip: from a line made of the marker [> ] and a text
    without line break, the extraction gives the text back without the
    space around it, whenever that is longer than 20 characters; this is
    the string whose normalization is looked up in the body index, where
    every line was entered under the normalization of the line without the
    space around it. *)
Theorem quoted_lines_round_trip :
  extract_quoted_lines None = []
  ∧ extract_quoted_lines (Some "") = []
  ∧ (∀ body q, q ∈ extract_quoted_lines body ->
               (20 < String.length q)%nat ∧ strip q = q)
  ∧ (∀ body, (List.length (extract_quoted_lines (Some body))
              <= List.length (split_on newline body))%nat)
  ∧ (∀ text, count_char newline text = O ->
             (20 < String.length (strip text))%nat ->
             extract_quoted_lines (Some ("> " +:+ text)) = [strip text]).
Proof.
  split; [done|]. split; [done|]. split; [|split].
  - intros body q. unfold extract_quoted_lines.
    destruct (nonempty body) as [b|]; [|by intros ?%elem_of_nil].
    intros (line & _ & Hq)%list_elem_of_omap. cbv zeta in Hq.
    destruct (starts_with_quote (strip line)); [|done].
    destruct (20 <? String.length (drop_quote_marks (strip line)))%nat eqn:Hlen; [|done].
    injection Hq as <-. split; [by apply Nat.ltb_lt|].
    apply drop_quote_marks_stripped, rstrip_strip.
  - intros body. unfold extract_quoted_lines.
    destruct (nonempty (Some body)) as [b|] eqn:Hb; [|simpl; lia].
    assert (b = body) as -> by (destruct body; simpl in Hb; congruence).
    apply length_omap_le.
  - intros text Hnl Hlen. unfold extract_quoted_lines.
    change (nonempty (Some ("> " +:+ text))) with (Some ("> " +:+ text)).
    cbv beta iota.
    rewrite split_on_single by (simpl; exact Hnl).
    cbn [omap list_omap]. cbv zeta.
    assert (strip ("> " +:+ text) = String ">" (rstrip (String " " text))) as ->.
    { unfold strip. change (lstrip ("> " +:+ text)) with (String ">" (String " " text)).
      by rewrite rstrip_cons_nonspace. }
    cbn [starts_with_quote].
    assert (drop_quote_marks (String ">" (rstrip (String " " text))) = strip text) as ->.
    { cbn [drop_quote_marks].
      assert (drop_quote_marks (rstrip (String " " text))
              = lstrip (rstrip (String " " text))) as ->.
      { change (rstrip (String " " text)) with
          (match rstrip text with
           | EmptyString => EmptyString
           | String a r => String " " (String a r) end).
        by destruct (rstrip text). }
      by rewrite <- rstrip_lstrip_comm. }
    apply Nat.ltb_lt in Hlen. by rewrite Hlen.
Qed.

(** ** The date parser (threading_step3_fixed.py, parse_date) *)

Lemma remove_char_app c a b :
  remove_char c (a +:+ b) = remove_char c a +:+ remove_char c b.
Proof. induction a as [|x a IH]; simpl; [done|]. destruct (Ascii.eqb x c); simpl; by rewrite IH. Qed.

Lemma replace_char_app c d a b :
  replace_char c d (a +:+ b) = replace_char c d a +:+ replace_char c d b.
Proof. induction a as [|x a IH]; simpl; [done|]. by rewrite IH. Qed.

Lemma count_char_app c a b :
  count_char c (a +:+ b) = (count_char c a + count_char c b)%nat.
Proof. induction a as [|x a IH]; simpl; [done|]. rewrite IH. lia. Qed.

Lemma count_char_remove c d s :
  c ≠ d -> count_char c (remove_char d s) = count_char c s.
Proof.
  intros Hcd. induction s as [|x s IH]; simpl; [done|].
  destruct (Ascii.eqb_spec x d) as [->|Hx]; simpl.
  - destruct (Ascii.eqb_spec d c) as [->|_]; [done|]. by rewrite IH.
  - by rewrite IH.
Qed.

Lemma count_char_remove_same c s : count_char c (remove_char c s) = O.
Proof.
  induction s as [|x s IH]; simpl; [done|].
  destruct (Ascii.eqb_spec x c) as [->|Hx]; simpl; [done|].
  destruct (Ascii.eqb_spec x c); [done|]. by rewrite IH.
Qed.

Lemma remove_char_absent c s : count_char c s = O -> remove_char c s = s.
Proof.
  induction s as [|x s IH]; simpl; [done|].
  destruct (Ascii.eqb x c); simpl; [done|]. intros H. by rewrite IH.
Qed.

Lemma count_char_replace c d e s :
  c ≠ d -> c ≠ e -> count_char c (replace_char d e s) = count_char c s.
Proof.
  intros Hd He. induction s as [|x s IH]; simpl; [done|]. rewrite IH. f_equal.
  destruct (Ascii.eqb_spec x d) as [->|Hx].
  - destruct (Ascii.eqb_spec e c) as [->|_]; [done|].
    by destruct (Ascii.eqb_spec d c) as [->|_].
  - done.
Qed.

Lemma length_replace_char c d s :
  String.length (replace_char c d s) = String.length s.
Proof. induction s as [|x s IH]; simpl; [done|]. by rewrite IH. Qed.

Lemma rfind_char_absent c s : count_char c s = O -> rfind_char c s = None.
Proof.
  induction s as [|x s IH]; simpl; [done|].
  destruct (Ascii.eqb x c); simpl; [done|]. intros H. by rewrite IH.
Qed.

Lemma find_char_absent c s : count_char c s = O -> find_char c s = None.
Proof.
  induction s as [|x s IH]; simpl; [done|].
  destruct (Ascii.eqb x c); simpl; [done|]. intros H. by rewrite IH.
Qed.

Lemma find_char_present c s : count_char c s ≠ O -> ∃ n, find_char c s = Some n ∧ (n < String.length s)%nat.
Proof.
  induction s as [|x s IH]; simpl; [done|].
  destruct (Ascii.eqb x c); simpl.
  - intros _. exists O. split; [done|lia].
  - intros H. destruct (IH H) as (n & -> & Hn). exists (S n). split; [done|lia].
Qed.

(** The last occurrence of [c] in [a ++ c ++ b], when [b] has none, is at the
    length of [a]. *)
Lemma rfind_char_cut c a b :
  count_char c b = O -> rfind_char c (a +:+ String c b) = Some (String.length a).
Proof.
  intros Hb. induction a as [|x a IH]; simpl.
  - by rewrite (rfind_char_absent _ _ Hb), Ascii.eqb_refl.
  - by rewrite IH.
Qed.

Lemma find_char_cut c a b :
  count_char c a = O -> find_char c (a +:+ String c b) = Some (String.length a).
Proof.
  induction a as [|x a IH]; simpl.
  - by rewrite Ascii.eqb_refl.
  - destruct (Ascii.eqb x c); [done|]. simpl. intros H. by rewrite IH.
Qed.

Lemma find_char_app_l c a b n :
  find_char c a = Some n -> find_char c (a +:+ b) = Some n.
Proof.
  revert n. induction a as [|x a IH]; simpl; [done|]. intros n.
  destruct (Ascii.eqb x c); [done|].
  destruct (find_char c a) as [k|]; [|done]. intros [= <-]. by rewrite (IH k).
Qed.

Lemma take_str_app a b : take_str (String.length a) (a +:+ b) = a.
Proof.
  unfold take_str. induction a as [|x a IH]; simpl.
  - by destruct b.
  - by rewrite IH.
Qed.

Lemma strip_timezone_plain w :
  count_char "+" w = O -> (count_char "-" w <= 2)%nat -> count_char "." w = O ->
  strip_timezone w = replace_char "T" " " (remove_char "Z" w).
Proof.
  intros Hplus Hdash Hdot. unfold strip_timezone.
  rewrite rfind_char_absent by (by rewrite count_char_remove).
  replace (2 <? count_char "-" (remove_char "Z" w))%nat with false
    by (symmetry; apply Nat.ltb_ge; by rewrite count_char_remove).
  rewrite find_char_absent; [done|].
  rewrite count_char_replace, count_char_remove; done.
Qed.

Lemma strip_timezone_zulu s s' :
  remove_char "Z" s = remove_char "Z" s' -> strip_timezone s = strip_timezone s'.
Proof. unfold strip_timezone. by intros ->. Qed.

Lemma strip_timezone_plus w off :
  count_char "+" w = O -> count_char "+" off = O ->
  strip_timezone (w +:+ String "+" off) = strip_timezone w.
Proof.
  intros Hw Hoff. unfold strip_timezone.
  rewrite remove_char_app.
  change (remove_char "Z" (String "+" off)) with (String "+" (remove_char "Z" off)).
  rewrite rfind_char_cut by (by rewrite count_char_remove).
  rewrite take_str_app.
  by rewrite (rfind_char_absent "+" (remove_char "Z" w)) by (by rewrite count_char_remove).
Qed.

Lemma strip_timezone_minus w off :
  count_char "+" w = O -> count_char "+" off = O -> count_char "-" off = O ->
  count_char "-" w = 2%nat -> count_char "T" w ≠ O ->
  strip_timezone (w +:+ String "-" off) = strip_timezone w.
Proof.
  intros Hw Hoff Hdash Htwo HT. unfold strip_timezone.
  rewrite remove_char_app.
  change (remove_char "Z" (String "-" off)) with (String "-" (remove_char "Z" off)).
  set (w' := remove_char "Z" w). set (off' := remove_char "Z" off).
  assert (count_char "+" w' = O) as Hw' by (unfold w'; by rewrite count_char_remove).
  assert (count_char "+" off' = O) as Hoff' by (unfold off'; by rewrite count_char_remove).
  assert (count_char "-" off' = O) as Hdash' by (unfold off'; by rewrite count_char_remove).
  assert (count_char "-" w' = 2%nat) as Htwo' by (unfold w'; by rewrite count_char_remove).
  assert (count_char "T" w' ≠ O) as HT' by (unfold w'; by rewrite count_char_remove).
  rewrite (rfind_char_absent "+" (w' +:+ _))
    by (rewrite count_char_app; simpl; rewrite Hw', Hoff'; done).
  rewrite (rfind_char_absent "+" w') by done.
  replace (2 <? count_char "-" (w' +:+ String "-" off'))%nat with true
    by (symmetry; apply Nat.ltb_lt; rewrite count_char_app; simpl; lia).
  replace (2 <? count_char "-" w')%nat with false
    by (symmetry; apply Nat.ltb_ge; lia).
  destruct (find_char_present "T" w' HT') as (n & Hn & Hlt).
  rewrite (find_char_app_l _ _ _ _ Hn), rfind_char_cut by done.
  replace (n <? String.length w')%nat with true by (symmetry; by apply Nat.ltb_lt).
  by rewrite take_str_app.
Qed.

Lemma strip_timezone_fraction w frac :
  count_char "+" w = O -> count_char "." w = O -> (count_char "-" w <= 2)%nat ->
  count_char "+" frac = O -> count_char "-" frac = O ->
  strip_timezone (w +:+ String "." frac) = strip_timezone w.
Proof.
  intros Hw Hdot Hdash Hf Hfd.
  rewrite (strip_timezone_plain w) by done. unfold strip_timezone.
  rewrite remove_char_app.
  change (remove_char "Z" (String "." frac)) with (String "." (remove_char "Z" frac)).
  set (w' := remove_char "Z" w). set (frac' := remove_char "Z" frac).
  rewrite (rfind_char_absent "+" (w' +:+ _)).
  2:{ rewrite count_char_app. simpl. unfold w', frac'.
      rewrite !count_char_remove by done. by rewrite Hw, Hf. }
  replace (2 <? count_char "-" (w' +:+ String "." frac'))%nat with false.
  2:{ symmetry. apply Nat.ltb_ge. rewrite count_char_app. simpl. unfold w', frac'.
      rewrite !count_char_remove by done. lia. }
  rewrite replace_char_app.
  change (replace_char "T" " " (String "." frac'))
    with (String "." (replace_char "T" " " frac')).
  rewrite find_char_cut.
  2:{ unfold w'. rewrite count_char_replace, count_char_remove; done. }
  by rewrite take_str_app.
Qed.

Lemma append_empty_r s : s +:+ "" = s.
Proof.
  induction s as [|c s IH]; [done|].
  change (String c (s +:+ "") = String c s). by rewrite IH.
Qed.

Lemma nonempty_app w c rest : nonempty (Some (w +:+ String c rest)) = Some (w +:+ String c rest).
Proof. by destruct w. Qed.

Lemma nonempty_some w : w ≠ "" -> nonempty (Some w) = Some w.
Proof. by destruct w. Qed.

(** X9.  The date parser ignores where a message was sent from: a missing or
    empty date is no date; a trailing [Z], a [+hh:mm] offset, a [-hh:mm]
    offset after a date-and-time with the two dashes of its date, and a
    fraction of a second are dropped before the text reaches
    [datetime.fromisoformat], so that the parsed instant is that of the wall
    clock time alone; a text without any of them is handed over with its
    [T] replaced by a space. *)
Theorem parse_date_drops_timezone :
  parse_date None = None ∧ parse_date (Some "") = None
  ∧ (∀ w, w ≠ "" -> parse_date (Some (w +:+ "Z")) = parse_date (Some w))
  ∧ (∀ w off, w ≠ "" -> count_char "+" w = O -> count_char "+" off = O ->
       parse_date (Some (w +:+ "+" +:+ off)) = parse_date (Some w))
  ∧ (∀ w off, count_char "+" w = O -> count_char "-" w = 2%nat -> count_char "T" w ≠ O ->
       count_char "+" off = O -> count_char "-" off = O ->
       parse_date (Some (w +:+ "-" +:+ off)) = parse_date (Some w))
  ∧ (∀ w frac, w ≠ "" -> count_char "+" w = O -> (count_char "-" w <= 2)%nat ->
       count_char "." w = O -> count_char "+" frac = O -> count_char "-" frac = O ->
       parse_date (Some (w +:+ "." +:+ frac)) = parse_date (Some w))
  ∧ (∀ w, w ≠ "" -> count_char "Z" w = O -> count_char "+" w = O ->
       (count_char "-" w <= 2)%nat -> count_char "." w = O ->
       parse_date (Some w) = fromisoformat (replace_char "T" " " w)).
Proof.
  split; [done|]. split; [done|]. unfold parse_date. repeat split.
  - intros w Hw. rewrite nonempty_app, nonempty_some by done.
    f_equal. apply strip_timezone_zulu. rewrite remove_char_app.
    change (remove_char "Z" "Z") with "". apply append_empty_r.
  - intros w off Hw H1 H2. change ("+" +:+ off) with (String "+" off).
    rewrite nonempty_app, nonempty_some by done. by rewrite strip_timezone_plus.
  - intros w off H1 H2 H3 H4 H5. change ("-" +:+ off) with (String "-" off).
    assert (w ≠ "") by (intros ->; done).
    rewrite nonempty_app, nonempty_some by done. by rewrite strip_timezone_minus.
  - intros w frac Hw H1 H2 H3 H4 H5. change ("." +:+ frac) with (String "." frac).
    rewrite nonempty_app, nonempty_some by done. by rewrite strip_timezone_fraction.
  - intros w Hw H0 H1 H2 H3. rewrite nonempty_some by done.
    by rewrite strip_timezone_plain, remove_char_absent.
Qed.

(** ** The counters of the Subject Matcher (threading_step3_fixed.py) *)

Lemma count_status_statuses s (l : list email) :
  count_status s l = status_count s (orphan_status <$> l).
Proof.
  unfold count_status, status_count. induction l as [|e l IH]; [done|].
  rewrite fmap_cons, !filter_cons. repeat case_decide; simpl; try done; by rewrite IH.
Qed.

Lemma status_count_app s l l' :
  status_count s (l ++ l') = (status_count s l + status_count s l')%nat.
Proof. unfold status_count. by rewrite filter_app, length_app. Qed.

Lemma status_count_cons s o l :
  status_count s (o :: l)
  = ((if decide (o = Some s) then 1 else 0) + status_count s l)%nat.
Proof. unfold status_count. rewrite filter_cons. by case_decide. Qed.

(** Replacing the status at one position moves one unit between two
    counts. *)
Lemma status_count_insert s (l : list (option status)) i o o' :
  l !! i = Some o ->
  (status_count s (<[i := o']> l) + (if decide (o = Some s) then 1 else 0)
   = status_count s l + (if decide (o' = Some s) then 1 else 0))%nat.
Proof.
  intros Hi. pose proof (lookup_lt_Some _ _ _ Hi) as Hlt.
  rewrite insert_take_drop by done.
  rewrite <- (take_drop_middle l i o Hi) at 3.
  rewrite !status_count_app, !status_count_cons. lia.
Qed.

Lemma statuses_alter (f : email -> email) j (l : list email) :
  (∀ e, orphan_status (f e) = orphan_status e) ->
  orphan_status <$> alter f j l = orphan_status <$> l.
Proof.
  intros Hf. rewrite (list_fmap_alter orphan_status f (fun o => o)).
  - by apply list_alter_id.
  - apply Forall_forall. intros e _. apply Hf.
Qed.

Lemma add_child_status c e : orphan_status (add_child c e) = orphan_status e.
Proof. unfold add_child. case_decide; [done|]. by destruct e. Qed.

(** The loop over the candidates only chooses a record of the store. *)
Lemma consider_best_valid (emails : list email) idx orphan od l acc c :
  for_each (consider emails idx orphan od) l acc = Ok c ->
  (∀ j, best_parent acc = Some j -> is_Some (emails !! j)) ->
  ∀ j, best_parent c = Some j -> is_Some (emails !! j).
Proof.
  revert acc. induction l as [|k l IH]; intros acc; simpl.
  - by intros [= <-].
  - destruct (consider emails idx orphan od acc k) as [acc'|] eqn:Hk; [|done].
    cbn [bind]. intros Hrun Hacc. apply (IH acc' Hrun).
    unfold consider in Hk. destruct (emails !! k) as [cand|] eqn:Hck; [|by simplify_eq].
    repeat match type of Hk with
           | bind ?x _ = _ => destruct x; cbn [bind] in Hk; [|done]
           | (if ?b then _ else _) = _ => destruct b
           end; simplify_eq; try done.
    simpl. intros j [= <-]. by rewrite Hck.
Qed.

(** One iteration of the main loop: a record that is no orphan reply is
    passed over; an orphan reply is counted as unmatched, or it is counted
    as matched and its status, and no other status, is changed. *)
Lemma match_one_counts by_subject m i m' :
  match_one by_subject m i = Ok m' ->
  match m_emails m !! i with
  | Some orphan =>
      if decide (orphan_status orphan = Some orphan_reply) then
        (orphan_status <$> m_emails m' = orphan_status <$> m_emails m
         ∧ m_matched m' = m_matched m ∧ m_unmatched m' = S (m_unmatched m))
        ∨ (orphan_status <$> m_emails m'
           = <[i := Some matched_by_subject]> (orphan_status <$> m_emails m)
           ∧ m_matched m' = S (m_matched m) ∧ m_unmatched m' = m_unmatched m)
      else m' = m
  | None => m' = m
  end.
Proof.
  unfold match_one. destruct (m_emails m !! i) as [orphan|] eqn:Hi; [|by intros [= <-]].
  case_decide as Hst; [|by intros [= <-]].
  destruct (String.eqb _ "") eqn:Hsubj; [intros [= <-]; by left|].
  destruct (_ <=? 1)%nat; [intros [= <-]; by left|].
  destruct (for_each _ _ _) as [c|] eqn:Hc; [|done]. cbn [bind].
  destruct (best_parent c) as [j|] eqn:Hbest; [|intros [= <-]; by left].
  destruct (consider_best_valid _ _ _ _ _ _ _ Hc (fun j H => ltac:(done)) j Hbest)
    as [parent Hj].
  unfold link_orphan. rewrite Hi, Hj.
  destruct (subscript (message_id parent)) as [pmid|]; [|done]. cbn [bind].
  destruct (subscript (message_id orphan)) as [emid|]; [|done]. cbn [bind].
  intros [= <-]. right. cbn [m_emails m_matched m_unmatched].
  split; [|done].
  rewrite statuses_alter by apply add_child_status.
  rewrite list_fmap_insert. by destruct orphan.
Qed.

(** The iterations over the positions [k], ..., [k + n - 1]. *)
Lemma match_run_counts by_subject n : ∀ k m m',
  for_each (match_one by_subject) (seq k n) m = Ok m' ->
  let before := orphan_status <$> m_emails m in
  let after := orphan_status <$> m_emails m' in
  List.length after = List.length before
  ∧ drop (k + n) after = drop (k + n) before
  ∧ Forall2 (fun o o' => o' = o ∨ (o = Some orphan_reply ∧ o' = Some matched_by_subject))
      before after
  ∧ (m_matched m' + m_unmatched m'
     = m_matched m + m_unmatched m + status_count orphan_reply (take n (drop k before)))%nat
  ∧ (m_matched m <= m_matched m')%nat
  ∧ (∀ s, status_count s after
          + (if decide (s = orphan_reply) then m_matched m' - m_matched m else 0)
          = status_count s before
            + (if decide (s = matched_by_subject) then m_matched m' - m_matched m else 0))%nat.
Proof.
  induction n as [|n IH]; intros k m m'; simpl.
  - intros [= <-]. split_and!; try done.
    + apply Forall2_refl_rel. by left.
    + intros s. repeat case_decide; lia.
  - destruct (match_one by_subject m k) as [m1|] eqn:Hstep; [|done]. cbn [bind].
    intros Hrun. apply IH in Hrun as (Hlen & Hdrop & Hrel & Hsum & Hle & Hcount).
    apply match_one_counts in Hstep.
    set (before := orphan_status <$> m_emails m) in *.
    set (mid := orphan_status <$> m_emails m1) in *.
    set (after := orphan_status <$> m_emails m') in *.
    assert (before !! k = orphan_status <$> m_emails m !! k) as Hk
      by (unfold before; by rewrite list_lookup_fmap).
    assert (take (S n) (drop k before)
            = match before !! k with
              | Some o => o :: take n (drop (S k) before)
              | None => []
              end) as Htake.
    { destruct (before !! k) as [o|] eqn:Hbk.
      - by rewrite (drop_S _ _ _ Hbk).
      - apply lookup_ge_None in Hbk. rewrite drop_ge by lia. apply take_nil. }
    assert (before !! k = None -> take n (drop (S k) before) = []) as Hnone.
    { intros Hbk. apply lookup_ge_None in Hbk. rewrite drop_ge by lia. apply take_nil. }
    destruct (m_emails m !! k) as [orphan|] eqn:Hek; simpl in Hk; cycle 1.
    { assert (mid = before) as Hmb by (unfold mid, before; by rewrite Hstep).
      rewrite Hmb, Hstep in *. rewrite Htake, Hk.
      rewrite (Hnone Hk) in Hsum.
      replace (k + S n)%nat with (S k + n)%nat by lia. done. }
    case_decide as Hst; cycle 1.
    { assert (mid = before) as Hmb by (unfold mid, before; by rewrite Hstep).
      rewrite Hmb, Hstep in *. rewrite Htake, Hk.
      replace (k + S n)%nat with (S k + n)%nat by lia.
      split_and!; try done.
      rewrite status_count_cons, decide_False by done. exact Hsum. }
    rewrite Htake, Hk, status_count_cons, decide_True by done.
    replace (k + S n)%nat with (S k + n)%nat by lia.
    destruct Hstep as [(Hmid & Hm & Hu)|(Hmid & Hm & Hu)].
    + fold before mid in Hmid. rewrite Hmid in *. split_and!; try done; try lia.
      intros s. specialize (Hcount s). rewrite Hm in Hcount. exact Hcount.
    + fold before mid in Hmid.
      assert (List.length mid = List.length before) as Hl
        by (by rewrite Hmid, length_insert).
      assert (drop (S k) mid = drop (S k) before) as Hd.
      { rewrite Hmid. apply drop_insert_lt. lia. }
      split_and!.
      * congruence.
      * rewrite Hdrop. rewrite <- !(drop_drop _ n (S k)). by rewrite Hd.
      * assert (Forall2 (fun o o' => o' = o
                    ∨ (o = Some orphan_reply ∧ o' = Some matched_by_subject))
                  before mid) as Hbm.
        { rewrite Hmid. apply Forall2_insert_r; [|intros o Ho].
          - apply Forall2_refl_rel. intros ?. by left.
          - right. rewrite Hk in Ho. injection Ho as <-. by rewrite Hst. }
        eapply Forall2_trans; [|exact Hbm|exact Hrel].
        intros o1 o2 o3 [->|[-> ->]] [->|[? ->]]; auto; done.
      * rewrite Hsum, Hd. lia.
      * lia.
      * intros s. specialize (Hcount s).
        pose proof (status_count_insert s before k _ (Some matched_by_subject) Hk) as Hins.
        rewrite <- Hmid in Hins. rewrite Hst in Hins.
        repeat case_decide; simplify_eq; lia.
Qed.

(** X10.  The counters of the Subject Matcher add up: when the phase runs to
    its end, every orphan reply of the input is counted once, as matched or
    as unmatched; the unmatched ones are the orphan replies that are left,
    the matched ones are the records that went from [orphan_reply] to
    [matched_by_subject], and no other status is changed. *)
Theorem subject_matcher_counts (emails : list email) m :
  match_orphans_run emails = Ok m ->
  List.length (m_emails m) = List.length emails
  ∧ (m_matched m + m_unmatched m)%nat = count_status orphan_reply emails
  ∧ count_status orphan_reply (m_emails m) = m_unmatched m
  ∧ count_status matched_by_subject (m_emails m)
    = (count_status matched_by_subject emails + m_matched m)%nat
  ∧ (∀ s, s ≠ orphan_reply -> s ≠ matched_by_subject ->
       count_status s (m_emails m) = count_status s emails)
  ∧ Forall2 (status_moved orphan_reply matched_by_subject) emails (m_emails m).
Proof.
  unfold match_orphans_run. destruct (build_by_id emails) as [by_id|]; [|done].
  cbn [bind]. unfold positions. intros Hrun.
  apply match_run_counts in Hrun. cbn [m_emails m_matched m_unmatched] in Hrun.
  destruct Hrun as (Hlen & _ & Hrel & Hsum & _ & Hcount).
  rewrite !length_fmap in Hlen.
  rewrite drop_0, take_ge in Hsum by (by rewrite length_fmap).
  rewrite !count_status_statuses.
  pose proof (Hcount orphan_reply) as Hor.
  pose proof (Hcount matched_by_subject) as Hms.
  rewrite decide_True, decide_False in Hor by done.
  rewrite decide_False, decide_True in Hms by done.
  split_and!; try lia.
  - intros s H1 H2. specialize (Hcount s). rewrite !decide_False in Hcount by done.
    rewrite !count_status_statuses. lia.
  - apply Forall2_fmap in Hrel. exact Hrel.
Qed.

(** ** The matching key of a line (threading_step3b_quotes.py,
    normalize_for_matching) *)

Lemma string_forall_impl (P Q : ascii -> bool) s :
  (∀ c, P c = true -> Q c = true) -> string_forall P s = true -> string_forall Q s = true.
Proof.
  intros HPQ. induction s as [|c s IH]; simpl; [done|].
  intros [Hc Hs]%andb_prop. by rewrite (HPQ c Hc), IH.
Qed.

Lemma string_forall_lstrip P s :
  string_forall P s = true -> string_forall P (lstrip s) = true.
Proof.
  induction s as [|c s IH]; simpl; [done|].
  intros H. destruct (isspace c); [|done]. apply andb_prop in H as [_ H]. by apply IH.
Qed.

Lemma string_forall_rstrip P s :
  string_forall P s = true -> string_forall P (rstrip s) = true.
Proof.
  induction s as [|c s IH]; simpl; [done|].
  intros [Hc Hs]%andb_prop. specialize (IH Hs).
  destruct (rstrip s) as [|d r].
  - destruct (isspace c); simpl; [done|]. by rewrite Hc.
  - change (P c && string_forall P (String d r) = true). by rewrite Hc, IH.
Qed.

Lemma lower_not_upper s : string_forall (fun c => negb (isupper c)) (lower s) = true.
Proof.
  induction s as [|c s IH]; simpl; [done|]. rewrite IH, andb_true_r.
  destruct c as [[] [] [] [] [] [] [] []]; reflexivity.
Qed.

(** After the runs of white space are collapsed, the only white space is
    the space. *)
Lemma collapse_ws_chars b s :
  string_forall (fun c => negb (isupper c)) s = true ->
  string_forall (fun c => negb (isupper c) && (negb (isspace c) || Ascii.eqb c " "))
    (collapse_ws b s) = true.
Proof.
  revert b. induction s as [|c s IH]; intros b; simpl; [done|].
  intros [Hc Hs]%andb_prop. destruct (isspace c) eqn:Hsp.
  - destruct b; simpl; by rewrite ?IH.
  - simpl. by rewrite Hc, Hsp, IH.
Qed.

Lemma remove_punct_chars s :
  string_forall (fun c => negb (isupper c) && (negb (isspace c) || Ascii.eqb c " ")) s = true ->
  string_forall key_char (remove_punct s) = true.
Proof.
  induction s as [|c s IH]; simpl; [done|].
  intros [Hc Hs]%andb_prop. specialize (IH Hs).
  destruct (isword c || isspace c) eqn:Hkeep; [|done].
  simpl. rewrite IH, andb_true_r. unfold key_char.
  apply andb_prop in Hc as [Hup Hsp]. rewrite Hup, andb_true_r.
  destruct (isword c); [done|]. simpl in *. rewrite Hkeep in Hsp. done.
Qed.

Lemma collapse_ws_lower b s : collapse_ws b (lower s) = lower (collapse_ws b s).
Proof.
  revert b. induction s as [|c s IH]; intros b; simpl; [done|].
  rewrite isspace_lower. destruct (isspace c); [destruct b|]; simpl; by rewrite ?IH.
Qed.

Lemma collapse_ws_idem b s : collapse_ws b (collapse_ws b s) = collapse_ws b s.
Proof.
  revert b. induction s as [|c s IH]; intros b; simpl; [done|].
  destruct (isspace c) eqn:Hsp.
  - destruct b; [apply IH|]. simpl. by rewrite IH.
  - simpl. by rewrite Hsp, IH.
Qed.

Lemma length_collapse_ws b s : (String.length (collapse_ws b s) <= String.length s)%nat.
Proof.
  revert b. induction s as [|c s IH]; intros b; simpl; [done|].
  destruct (isspace c); [destruct b|]; simpl;
    [pose proof (IH true)|pose proof (IH true)|pose proof (IH false)]; lia.
Qed.

Lemma length_remove_punct s : (String.length (remove_punct s) <= String.length s)%nat.
Proof. induction s as [|c s IH]; simpl; [done|]. destruct (_ || _); simpl; lia. Qed.


(** ** The Subject Matcher with and without the cycle guard
    (threading_step3.py and threading_step3_fixed.py) *)

(** The guarded loop over the candidates only adds to its count of
    prevented cycles, and it is the unguarded loop when it adds nothing. *)
Lemma consider_unguarded (emails : list email) idx orphan od acc j acc' :
  consider emails idx orphan od acc j = Ok acc' ->
  (cycles_seen acc <= cycles_seen acc')%nat
  ∧ (cycles_seen acc' = cycles_seen acc ->
     consider_step3 emails orphan od acc j = Ok acc').
Proof.
  unfold consider, consider_step3. destruct (emails !! j) as [cand|]; [|by intros [= <-]].
  destruct (subscript (id cand)) as [cid|]; [|done]. cbn [bind].
  destruct (subscript (id orphan)) as [eid|]; [|done]. cbn [bind].
  case_decide; [by intros [= <-]|].
  destruct (not_earlier _ _); [by intros [= <-]|].
  destruct (subscript (message_id orphan)) as [emid|]; [|done]. cbn [bind].
  destruct (subscript (message_id cand)) as [cmid|]; [|done]. cbn [bind].
  destruct (would_create_cycle _ _ _).
  - intros [= <-]. simpl. split; [lia|]. intros. lia.
  - destruct (_ <? _); intros [= <-]; simpl; by split.
Qed.

Lemma consider_all_unguarded (emails : list email) idx orphan od l : ∀ acc c,
  for_each (consider emails idx orphan od) l acc = Ok c ->
  (cycles_seen acc <= cycles_seen c)%nat
  ∧ (cycles_seen c = cycles_seen acc ->
     for_each (consider_step3 emails orphan od) l acc = Ok c).
Proof.
  induction l as [|j l IH]; intros acc c; simpl.
  - intros [= <-]. by split.
  - destruct (consider emails idx orphan od acc j) as [acc'|] eqn:Hj; [|done].
    cbn [bind]. intros Hrun.
    apply consider_unguarded in Hj as [Hle Heq].
    apply IH in Hrun as [Hle' Heq'].
    split; [lia|]. intros Hc. rewrite Heq by lia. cbn [bind]. apply Heq'. lia.
Qed.

(** One iteration of the main loop. *)
Lemma match_one_unguarded by_subject m i m' m0 :
  match_one by_subject m i = Ok m' -> same_matching m0 m ->
  (m_prevented m <= m_prevented m')%nat
  ∧ (m_prevented m' = m_prevented m ->
     ∃ m0', match_one_step3 by_subject m0 i = Ok m0' ∧ same_matching m0' m').
Proof.
  intros Hstep (Hem & Hma & Hun).
  unfold match_one in Hstep. unfold match_one_step3. rewrite Hem.
  destruct (m_emails m !! i) as [orphan|] eqn:Hi; cycle 1.
  { injection Hstep as <-. split; [done|]. intros _. by exists m0. }
  case_decide; cycle 1.
  { injection Hstep as <-. split; [done|]. intros _. by exists m0. }
  assert (same_matching (count_unmatched 0 m0) (count_unmatched 0 m)) as Hcu.
  { unfold same_matching. simpl. by rewrite Hem, Hma, Hun. }
  destruct (String.eqb _ ""); [injection Hstep as <-; simpl; split; [lia|eauto]|].
  destruct (_ <=? 1)%nat; [injection Hstep as <-; simpl; split; [lia|eauto]|].
  destruct (for_each _ _ _) as [c|] eqn:Hc; [|done]. cbn [bind] in Hstep.
  pose proof (consider_best_valid _ _ _ _ _ _ _ Hc (fun j H => ltac:(done))) as Hvalid.
  apply consider_all_unguarded in Hc as [_ Hc]. simpl in Hc.
  destruct (best_parent c) as [j|] eqn:Hbest.
  - destruct (Hvalid j eq_refl) as [parent Hj].
    unfold link_orphan in Hstep. rewrite Hi, Hj in Hstep.
    destruct (subscript (message_id parent)) as [pmid|] eqn:Hpm; [|done].
    cbn [bind] in Hstep.
    destruct (subscript (message_id orphan)) as [emid|] eqn:Hom; [|done].
    cbn [bind] in Hstep.
    injection Hstep as <-. simpl. split; [lia|]. intros Hp.
    rewrite Hc by lia. cbn [bind]. rewrite Hbest.
    unfold link_orphan_step3. rewrite Hem, Hi, Hj, Hpm, Hom. cbn [bind].
    eexists. split; [done|]. unfold same_matching. simpl. by rewrite Hma, Hun.
  - injection Hstep as <-. simpl. split; [lia|]. intros Hp.
    rewrite Hc by lia. cbn [bind]. rewrite Hbest. eexists. split; [done|].
    unfold same_matching. simpl. by rewrite Hem, Hma, Hun.
Qed.

(** Any number of iterations. *)
Lemma match_run_unguarded by_subject l : ∀ m m' m0,
  for_each (match_one by_subject) l m = Ok m' -> same_matching m0 m ->
  (m_prevented m <= m_prevented m')%nat
  ∧ (m_prevented m' = m_prevented m ->
     ∃ m0', for_each (match_one_step3 by_subject) l m0 = Ok m0' ∧ same_matching m0' m').
Proof.
  induction l as [|i l IH]; intros m m' m0; simpl.
  - intros [= <-] Hsame. split; [done|]. intros _. by exists m0.
  - destruct (match_one by_subject m i) as [m1|] eqn:Hi; [|done]. cbn [bind].
    intros Hrun Hsame.
    destruct (match_one_unguarded _ _ _ _ _ Hi Hsame) as [Hle Hstep].
    pose proof (IH m1 m' ) as IH1.
    assert (m_prevented m1 <= m_prevented m')%nat as Hle'.
    { destruct (IH1 m1 Hrun) as [? _]; [done|lia]. }
    split; [lia|]. intros Hp.
    destruct Hstep as (m0' & -> & Hsame'); [lia|]. cbn [bind].
    destruct (IH1 m0' Hrun Hsame') as [_ Hrest]. apply Hrest. lia.
Qed.

(** X12.  The cycle guard changes the result of the Subject Matcher only
    when it fires: if the guarded phase of threading_step3_fixed.py runs to
    its end and reports no prevented cycle, the phase of threading_step3.py
    runs to its end on the same input with the same records and the same
    counts of matched and unmatched orphans. *)
Theorem guard_silent_same_matching (emails : list email) m :
  match_orphans_run emails = Ok m -> m_prevented m = O ->
  ∃ m0, match_orphans_run_step3 emails = Ok m0
        ∧ m_emails m0 = m_emails m
        ∧ m_matched m0 = m_matched m
        ∧ m_unmatched m0 = m_unmatched m.
Proof.
  unfold match_orphans_run, match_orphans_run_step3.
  destruct (build_by_id emails) as [by_id|]; [|done]. cbn [bind].
  intros Hrun Hp.
  eapply match_run_unguarded in Hrun as [_ Hrun]; [|done].
  destruct Hrun as (m0 & Hm0 & Hsame); [by rewrite Hp|].
  exists m0. split; [exact Hm0|]. exact Hsame.
Qed.

(** ** What the Time-Proximity Merger leaves (threading_step3c_timeprox.py) *)

Lemma days_of_nonneg delta : 0 <= delta -> 0 <= days_of delta.
Proof. intros H. unfold days_of. apply Z.div_pos; [done|]. by vm_compute. Qed.

Lemma add_child_kept c e e' :
  kept_but_children e e' -> kept_but_children e (add_child c e').
Proof.
  unfold kept_but_children, add_child. case_decide; [done|].
  intros <-. by destruct e'.
Qed.

Lemma add_child_merged max_days (emails : list email) i c e e' :
  merged_under max_days emails i e e' -> merged_under max_days emails i e (add_child c e').
Proof.
  unfold merged_under, add_child. case_decide; [done|]. by destruct e'.
Qed.

Section MergerPost.

Context (max_days : Z).
Context (emails0 : list email) (Hkeys : Forall well_keyed emails0).

(** One member of a group. *)
Lemma walk_step_post subj w later w' :
  merger_post max_days emails0 (m_emails (w_state w)) ->
  dated_root emails0 subj (canonical_root w, canonical_date w) ->
  dated_root emails0 subj later ->
  canonical_date w <= later.2 -> canonical_root w ≠ later.1 ->
  walk_step max_days w later = Ok w' ->
  merger_post max_days emails0 (m_emails (w_state w'))
  ∧ ((canonical_root w', canonical_date w') = (canonical_root w, canonical_date w)
     ∨ (canonical_root w', canonical_date w') = later).
Proof.
  intros [Hsame Hpost] (c0 & Hc0 & Hcst & Hcsubj & Hlen & Hcd)
    (l0 & Hl0 & Hlst & Hlsubj & _ & Hld) Hle Hne.
  destruct later as [later_root later_date]. simpl in *. unfold walk_step.
  destruct (max_days <? days_of (later_date - canonical_date w)) eqn:Hfar.
  { intros [= <-]. simpl. split; [by split|by right]. }
  apply Z.ltb_ge in Hfar.
  destruct (Forall2_lookup_l _ _ _ _ _ Hsame Hl0) as (child & Hchild & Hsl).
  destruct (Forall2_lookup_l _ _ _ _ _ Hsame Hc0) as (cand & Hcand & Hsc).
  pose proof (store_well_keyed _ _ Hkeys Hsame) as Hkm.
  destruct (link_guarded_spec
              (fun e => set_time_proximity_days
                          (Some (days_of (later_date - canonical_date w)))
                          (set_orphan_status (Some matched_by_time_proximity) e))
              (w_state w) later_root (canonical_root w) child cand Hchild Hcand)
    as (m' & -> & Hcase); eauto using well_keyed_lookup.
  cbn [bind]. intros [= <-]. simpl. split; [|by left].
  destruct Hcase as [(_ & -> & _)|(_ & -> & _)]; [by split|].
  split.
  - apply linked_Forall2; [done| |].
    + intros x Hx. rewrite Hl0 in Hx. injection Hx as <-.
      etransitivity; [exact Hsl|]. unfold same_message. by simpl.
    + intros x y _ Hxy. etransitivity; [done|]. apply add_child_same.
  - intros k e e' Hk.
    destruct (decide (k = canonical_root w)) as [->|Hkc].
    { rewrite (lookup_linked_parent _ _ _ _ _ cand) by done. intros [= <-].
      destruct (Hpost _ _ _ Hk Hcand) as [?|?];
        [left; by apply add_child_kept|right; by apply add_child_merged]. }
    destruct (decide (k = later_root)) as [->|Hkl].
    { rewrite lookup_linked_child; [|done|by eapply lookup_lt_Some].
      intros [= <-]. right. rewrite Hl0 in Hk. injection Hk as <-.
      split; [done|]. split; [by rewrite Hlsubj|].
      exists (canonical_root w), c0, later_date, (canonical_date w).
      split_and!; try done.
      - congruence.
      - apply days_of_nonneg. lia.
      - simpl. destruct Hsc as (_ & Hmid & _). by rewrite Hmid. }
    rewrite lookup_linked_other by done. by apply Hpost.
Qed.

(** The walk over the members that follow the canonical root. *)
Lemma walk_post subj rest : ∀ w w',
  merger_post max_days emails0 (m_emails (w_state w)) ->
  dated_root emails0 subj (canonical_root w, canonical_date w) ->
  Forall (dated_root emails0 subj) rest ->
  StronglySorted (fun a b : nat * Z => a.2 <= b.2)
    ((canonical_root w, canonical_date w) :: rest) ->
  NoDup (canonical_root w :: rest.*1) ->
  for_each (walk_step max_days) rest w = Ok w' ->
  merger_post max_days emails0 (m_emails (w_state w')).
Proof.
  induction rest as [|later rest IH]; intros w w' Hpost Hcan Hrest Hsorted Hnd; simpl.
  - by intros [= <-].
  - destruct (walk_step max_days w later) as [w1|] eqn:Hstep; [|done]. cbn [bind].
    apply Forall_cons in Hrest as [Hlater Hrest].
    apply StronglySorted_inv in Hsorted as [Hsorted Hall].
    apply Forall_cons in Hall as [Hle Hall]. simpl in Hle.
    rewrite fmap_cons in Hnd.
    apply NoDup_cons in Hnd as [Hnotin Hnd].
    apply not_elem_of_cons in Hnotin as [Hne Hnotin].
    apply NoDup_cons in Hnd as [Hlnotin Hnd].
    destruct (walk_step_post subj w later w1 Hpost Hcan Hlater Hle Hne Hstep)
      as [Hpost1 Hcan1].
    apply (IH w1 w' Hpost1).
    + destruct Hcan1 as [-> | ->]; [done|]. by destruct later.
    + done.
    + destruct Hcan1 as [-> | ->].
      * apply SSorted_cons; [|done]. by apply StronglySorted_inv in Hsorted as [? _].
      * by destruct later.
    + destruct Hcan1 as [Heq|Heq].
      * assert (canonical_root w1 = canonical_root w) as -> by congruence.
        by apply NoDup_cons.
      * assert (canonical_root w1 = later.1) as -> by (by rewrite <- Heq).
        by apply NoDup_cons.
Qed.

(** One group of true roots with the same subject. *)
Lemma merge_group_post m subj roots m' :
  merger_post max_days emails0 (m_emails m) ->
  (subj, roots) ∈ multi_root_subjects emails0 ->
  merge_group max_days m (subj, roots) = Ok m' ->
  merger_post max_days emails0 (m_emails m').
Proof.
  intros Hpost Hin. apply list_elem_of_lookup_1 in Hin as [g Hg].
  destruct (multi_root_subjects_spec emails0 g subj roots Hg) as (Hroots & Hnd & _).
  destruct (roots_with_dates_spec (m_emails m) roots Hnd) as (Hmem & Hnd' & Hsorted).
  unfold merge_group. cbn [snd].
  destruct (roots_with_dates (m_emails m) roots) as [|[r0 d0] [|x rest]] eqn:Hr;
    [by intros [= <-]..|].
  destruct (for_each _ _ _) as [w'|] eqn:Hwalk; [|done]. cbn [bind]. intros [= <-].
  assert (Forall (dated_root emails0 subj) ((r0, d0) :: x :: rest)) as Hdated.
  { apply Forall_forall. intros [i d] Hi. apply Hmem in Hi as (Hi & e & He & Hd).
    apply Hroots in Hi as (e0 & He0 & Hst & Hsubj & Hlen).
    exists e0. simpl. split_and!; try done.
    destruct Hpost as [Hsame _].
    destruct (Forall2_lookup_l _ _ _ _ _ Hsame He0) as (e' & He' & Hs).
    rewrite He in He'. injection He' as <-.
    destruct Hs as (_ & _ & _ & _ & _ & Hdp & _). by rewrite Hdp. }
  apply Forall_cons in Hdated as [Hcan Hrest].
  eapply (walk_post subj (x :: rest)
            {| w_state := m; canonical_root := r0; canonical_date := d0 |});
    [done|exact Hcan|exact Hrest| |exact Hnd'|exact Hwalk].
  apply Sorted_StronglySorted; [|exact Hsorted].
  intros a b c Hab Hbc. lia.
Qed.

Lemma merge_groups_post groups : ∀ m m',
  merger_post max_days emails0 (m_emails m) ->
  groups ⊆ multi_root_subjects emails0 ->
  for_each (merge_group max_days) groups m = Ok m' ->
  merger_post max_days emails0 (m_emails m').
Proof.
  induction groups as [|[subj roots] groups IH]; intros m m' Hpost Hsub; simpl.
  - by intros [= <-].
  - destruct (merge_group max_days m (subj, roots)) as [m1|] eqn:Hg; [|done].
    cbn [bind]. apply IH.
    + eapply merge_group_post; [done| |done]. apply Hsub. by left.
    + intros g Hgin. apply Hsub. by right.
Qed.

End MergerPost.


(** ** What the Quote Matcher leaves (threading_step3b_quotes.py) *)

Lemma for_each_preserves {A B} (P : A -> Prop) (f : A -> B -> result A) l : ∀ a a',
  (∀ a x a', x ∈ l -> P a -> f a x = Ok a' -> P a') ->
  P a -> for_each f l a = Ok a' -> P a'.
Proof.
  induction l as [|x l IH]; intros a a' Hf Ha; simpl.
  - by intros [= <-].
  - destruct (f a x) as [a1|] eqn:Hx; [|done]. cbn [bind]. apply IH.
    + intros b y b' Hy. apply Hf. by right.
    + eapply Hf; [by left|done|done].
Qed.

Lemma day_bonus_bounds d : 0 <= day_bonus d <= 5.
Proof. unfold day_bonus. repeat case_match; lia. Qed.

Lemma score_source_bounds subj ed sd source : 1 <= score_source subj ed sd source <= 16.
Proof.
  unfold score_source.
  assert (0 <= match ed, sd with
                | Some e, Some s => day_bonus (days_of (e - s))
                | _, _ => 0
                end <= 5) as Hd.
  { destruct ed, sd; try lia. apply day_bonus_bounds. }
  destruct (String.eqb _ _); [lia|]. destruct (_ || _); lia.
Qed.

(** [by_id] holds, under an identifier, the position of a record that
    carries it. *)
Lemma build_by_id_lookup (emails : list email) by_id k j :
  build_by_id emails = Ok by_id -> by_id !! k = Some j ->
  ∃ e, emails !! j = Some e ∧ get (id e) = k.
Proof.
  unfold build_by_id. intros Hrun. revert k j.
  eapply (for_each_preserves
            (fun idx : gmap pyid nat =>
               ∀ k j, idx !! k = Some j -> ∃ e, emails !! j = Some e ∧ get (id e) = k));
    [| |exact Hrun].
  - intros idx i idx' _ Hidx. cbv beta. destruct (emails !! i) as [e|] eqn:Hi; [|by intros [= <-]].
    destruct (id e) as [|v] eqn:Hid; [done|]. simpl. intros [= <-] k j.
    destruct (decide (k = v)) as [->|Hk].
    + rewrite lookup_insert_eq. intros [= <-]. exists e. by rewrite Hid.
    + rewrite lookup_insert_ne by done. apply Hidx.
  - intros k j. by rewrite lookup_empty.
Qed.

(** The identifiers that [body_index] holds under a key are those of
    records with a line of that key. *)
Lemma build_body_index_lookup (emails : list email) body_index key k :
  build_body_index emails = Ok body_index ->
  k ∈ default [] (body_index !! key) ->
  ∃ src b line,
    src ∈ emails ∧ get (id src) = k ∧ nonempty (body src) = Some b
    ∧ (50 <= String.length b)%nat ∧ line ∈ split_on newline b
    ∧ (30 < String.length (strip line))%nat
    ∧ normalize_for_matching (strip line) = key.
Proof.
  unfold build_body_index. intros Hrun. revert key k.
  pose (P := fun idx : gmap string (list pyid) =>
               ∀ key k, k ∈ default [] (idx !! key) ->
                 ∃ src b line,
                   src ∈ emails ∧ get (id src) = k ∧ nonempty (body src) = Some b
                   ∧ (50 <= String.length b)%nat ∧ line ∈ split_on newline b
                   ∧ (30 < String.length (strip line))%nat
                   ∧ normalize_for_matching (strip line) = key).
  change (P body_index).
  eapply (for_each_preserves P); [| |exact Hrun].
  - intros idx e idx' He Hidx. unfold index_body.
    destruct (nonempty (body e)) as [b|] eqn:Hb; [|by intros [= <-]].
    destruct (String.length b <? 50)%nat eqn:Hlen; [by intros [= <-]|].
    apply Nat.ltb_ge in Hlen.
    apply (for_each_preserves P); [|done].
    intros acc line acc' Hline Hacc. cbv beta zeta.
    destruct (30 <? String.length (strip line))%nat eqn:Hl30; [|by intros [= <-]].
    apply Nat.ltb_lt in Hl30.
    destruct (20 <? _)%nat; [|by intros [= <-]].
    destruct (id e) as [|v] eqn:Hid; [done|]. simpl. intros [= <-] key k.
    destruct (decide (key = normalize_for_matching (strip line))) as [->|Hkey].
    + rewrite lookup_insert_eq. simpl. intros [Hk|Hk]%elem_of_app.
      * by apply Hacc.
      * apply list_elem_of_singleton in Hk as ->.
        exists e, b, line. rewrite Hid. done.
    + rewrite lookup_insert_ne by done. apply Hacc.
  - intros key k. rewrite lookup_empty. simpl. by intros ?%elem_of_nil.
Qed.

Lemma subscript_get f v : subscript f = Ok v -> v = get f.
Proof. destruct f; [done|]. by intros [= <-]. Qed.

Lemma score_source_same subj ed sd c c' :
  same_message c c' -> score_source subj ed sd c = score_source subj ed sd c'.
Proof. intros Hs. unfold score_source. by rewrite (same_message_norm_subj _ _ Hs). Qed.

Lemma add_child_matched_quote (emails : list email) c e e' :
  matched_quote emails e e' -> matched_quote emails e (add_child c e').
Proof. unfold matched_quote, add_child. case_decide; [done|]. by destruct e'. Qed.

Lemma quote_candidates_spec (emails : list email) i ql :
  (i, ql) ∈ quote_candidates emails ->
  ∃ e, emails !! i = Some e ∧ orphan_status e = Some true_root
       ∧ ql = extract_quoted_lines (body e).
Proof.
  unfold quote_candidates. rewrite list_elem_of_omap. intros (k & _ & Hk).
  destruct (emails !! k) as [e|] eqn:He; [|done].
  case_decide; [|done].
  destruct (extract_quoted_lines (body e)) as [|q l] eqn:Hq; [done|].
  injection Hk as <- <-. exists e. by rewrite Hq.
Qed.

Section QuotePost.

Context (emails0 : list email) (Hkeys : Forall well_keyed emails0).
Context (by_subject : list (string * list nat)).
Context (by_id : gmap pyid nat) (Hbyid : build_by_id emails0 = Ok by_id).
Context (body_index : gmap string (list pyid)).
Context (Hbody : build_body_index emails0 = Ok body_index).

(** One source of one quoted line. *)
Lemma consider_source_best store quoting qs q acc source_id acc' :
  Forall2 same_message emails0 store ->
  q ∈ qs -> quoted_from emails0 q source_id ->
  best_source emails0 store quoting qs acc ->
  consider_source store by_id quoting (parse_date (date_parsed quoting)) acc source_id
  = Ok acc' ->
  best_source emails0 store quoting qs acc'.
Proof.
  intros Hsame Hq Hfrom Hacc. unfold consider_source.
  destruct (by_id !! source_id) as [j|] eqn:Hj; [|by intros [= <-]].
  destruct (build_by_id_lookup _ _ _ _ Hbyid Hj) as (e0 & He0 & Hid0).
  destruct (store !! j) as [source|] eqn:Hs; [|by intros [= <-]].
  destruct (Forall2_lookup_l _ _ _ _ _ Hsame He0) as (y & Hy & Hsm).
  rewrite Hs in Hy. injection Hy as <-.
  destruct (subscript (id source)) as [sid|] eqn:Hsid; [|done]. cbn [bind].
  destruct (subscript (id quoting)) as [eid|] eqn:Heid; [|done]. cbn [bind].
  apply subscript_get in Hsid, Heid. subst sid eid.
  case_decide as Hne; [by intros [= <-]|].
  destruct (not_earlier _ _) eqn:Hearlier; [by intros [= <-]|].
  destruct (_ <? _); [|by intros [= <-]].
  intros [= <-]. right. exists j, source, q. simpl. split_and!; try done.
  destruct Hsm as (Hid & _). by rewrite <- Hid, Hid0.
Qed.

(** One quoted line. *)
Lemma consider_quote_best store quoting qs q acc acc' :
  Forall2 same_message emails0 store -> q ∈ qs ->
  best_source emails0 store quoting qs acc ->
  consider_quote store by_id body_index quoting (parse_date (date_parsed quoting)) acc q
  = Ok acc' ->
  best_source emails0 store quoting qs acc'.
Proof.
  intros Hsame Hq Hacc. unfold consider_quote.
  destruct (_ <? 20)%nat eqn:Hlen; [by intros [= <-]|]. apply Nat.ltb_ge in Hlen.
  apply (for_each_preserves (best_source emails0 store quoting qs)); [|done].
  intros a source_id a' Hin Ha. apply (consider_source_best store quoting qs q); try done.
  split; [done|]. by eapply build_body_index_lookup.
Qed.

(** One true root with quoted text. *)
Lemma match_quote_one_post m i ql e0 m' :
  quote_post emails0 (m_emails m) ->
  emails0 !! i = Some e0 -> orphan_status e0 = Some true_root ->
  ql = extract_quoted_lines (body e0) ->
  match_quote_one by_subject by_id body_index m (i, ql) = Ok m' ->
  quote_post emails0 (m_emails m').
Proof.
  intros [Hsame Hpost] He0 Hst Hql. unfold match_quote_one.
  destruct (Forall2_lookup_l _ _ _ _ _ Hsame He0) as (quoting & Hi & Hsq).
  rewrite Hi.
  destruct (String.eqb_spec (norm_subj_of quoting) "") as [|Hsubj];
    [by intros [= <-]|].
  destruct (same_or_similar _ _); [by intros [= <-]|].
  destruct (for_each _ _ _) as [best|] eqn:Hbest; [|done]. cbn [bind].
  assert (best_source emails0 (m_emails m) quoting (take 5 ql) best) as Hb.
  { revert Hbest.
    apply (for_each_preserves (best_source emails0 (m_emails m) quoting (take 5 ql)));
      [|by left].
    intros a q a' Hq Ha. by apply consider_quote_best. }
  destruct (best.1) as [j|] eqn:Hj; [|by intros [= <-]].
  destruct Hb as [->|(j' & source & q & Hj' & Hs & Hne & Hq & Hfrom & Hearlier & Hscore)];
    [done|].
  rewrite Hj in Hj'. injection Hj' as <-.
  pose proof (store_well_keyed _ _ Hkeys Hsame) as Hkm.
  destruct (link_guarded_spec
              (fun e => set_quote_match_score (Some best.2)
                          (set_orphan_status (Some matched_by_quote) e))
              m i j quoting source Hi Hs)
    as (m1 & -> & Hcase); eauto using well_keyed_lookup.
  intros [= <-].
  destruct Hcase as [(_ & -> & _)|(_ & -> & _)]; [by split|].
  assert (i ≠ j) as Hij by (intros ->; rewrite Hi in Hs; by injection Hs as ->).
  destruct (Forall2_lookup_r _ _ _ _ _ Hsame Hs) as (c & Hc & Hsc).
  split.
  - apply linked_Forall2; [done| |].
    + intros x Hx. rewrite He0 in Hx. injection Hx as <-.
      etransitivity; [exact Hsq|]. unfold same_message. by simpl.
    + intros x y _ Hxy. etransitivity; [done|]. apply add_child_same.
  - intros k e e' Hk.
    destruct (decide (k = j)) as [->|Hkj].
    { rewrite (lookup_linked_parent _ _ _ _ _ source) by done. intros [= <-].
      destruct (Hpost _ _ _ Hk Hs) as [?|?];
        [left; by apply add_child_kept|right; by apply add_child_matched_quote]. }
    destruct (decide (k = i)) as [->|Hki].
    { rewrite lookup_linked_child; [|done|by eapply lookup_lt_Some].
      intros [= <-]. right. rewrite He0 in Hk. injection Hk as <-.
      destruct Hsq as (Hqid & _ & _ & _ & Hqsubj & Hqdate & _).
      pose proof Hsc as (Hcid & Hcmid & _ & _ & _ & Hcdate & _).
      assert (norm_subj_of quoting = norm_subj_of e0) as Hns
        by (unfold norm_subj_of; by rewrite Hqsubj).
      split; [done|]. split; [by rewrite <- Hns|].
      exists c, q. rewrite Hqdate, Hcdate, <- Hns, (score_source_same _ _ _ c source Hsc).
      rewrite <- Hqdate in *. rewrite Hcid, Hqid.
      split_and!; try done; try apply score_source_bounds.
      - by eapply list_elem_of_lookup_2.
      - by subst ql.
      - simpl. congruence.
      - simpl. congruence. }
    rewrite lookup_linked_other by done. by apply Hpost.
Qed.

(** The loop over the true roots with quoted text. *)
Lemma match_quote_run_post l : ∀ m m',
  quote_post emails0 (m_emails m) -> l ⊆ quote_candidates emails0 ->
  for_each (match_quote_one by_subject by_id body_index) l m = Ok m' ->
  quote_post emails0 (m_emails m').
Proof.
  induction l as [|[i ql] l IH]; intros m m' Hpost Hsub; cbn [for_each].
  - by intros [= <-].
  - destruct (match_quote_one by_subject by_id body_index m (i, ql)) as [m1|] eqn:Hone;
      cbn [bind]; [|done].
    destruct (quote_candidates_spec emails0 i ql) as (e0 & He0 & Hst & Hql);
      [apply Hsub; by left|].
    apply IH.
    + by eapply match_quote_one_post.
    + intros x Hx. apply Hsub. by right.
Qed.

End QuotePost.


(** ** The statistics of the Thread Assembler (threading_step4.py) *)

Lemma map_result_length {A B} (f : A -> result B) l l' :
  map_result f l = Ok l' -> List.length l' = List.length l.
Proof.
  revert l'. induction l as [|x l IH]; intros l'; simpl; [by intros [= <-]|].
  destruct (f x) as [y|]; cbn [bind]; [|done].
  destruct (map_result f l) as [ys|]; cbn [bind]; [|done].
  intros [= <-]. simpl. by rewrite (IH ys).
Qed.

(** The thread of a record of the store holds at least that record. *)
Lemma assemble_nonempty (emails : list email) idx root t tm :
  is_Some (emails !! root) -> assemble emails idx root = Ok (t, tm) ->
  (1 <= message_count t)%nat.
Proof.
  intros [root_email Hroot]. unfold assemble.
  destruct (get_thread_messages _ _ _ _ _) as [unsorted|] eqn:Hu; cbn [bind]; [|done].
  apply get_thread_messages_members in Hu as (below & -> & _).
  set (tm0 := stable_sort _ _).
  destruct (map_result _ _) as [ids|] eqn:Hids; cbn [bind]; [|done].
  rewrite Hroot. destruct (subscript (id root_email)); cbn [bind]; [|done].
  intros [= <- <-]. simpl.
  apply map_result_length in Hids. rewrite Hids.
  assert (root_email ∈ omap (member emails) tm0) as Hin.
  { apply list_elem_of_omap. exists (root, O). split; [|done].
    apply elem_of_stable_sort. by left. }
  destruct (omap (member emails) tm0); [by apply elem_of_nil in Hin|simpl; lia].
Qed.

Lemma length_stamped (tid : string) (tm : list (nat * nat)) : ∀ emails : list email,
  List.length (fold_left (fun es m => alter (set_thread_id (Some tid)) m.1 es) tm emails)
  = List.length emails.
Proof.
  induction tm as [|m tm IH]; intros emails; simpl; [done|].
  by rewrite IH, length_alter.
Qed.

Lemma thread_steps_nonempty idx roots : ∀ acc out threads,
  (∀ r, r ∈ roots -> (r < List.length acc.1)%nat) ->
  Forall (fun t => 1 <= message_count t)%nat acc.2 ->
  for_each (thread_step idx) roots acc = Ok (out, threads) ->
  Forall (fun t => 1 <= message_count t)%nat threads.
Proof.
  induction roots as [|r roots IH]; intros [es ts] out threads Hvalid Hts;
    cbn [for_each].
  - by intros [= <- <-].
  - unfold thread_step at 1.
    destruct (assemble es idx r) as [[t tm]|] eqn:Ha; cbn [bind]; [|done].
    apply IH; simpl.
    + intros r' Hr'. rewrite length_stamped. apply Hvalid. by right.
    + apply Forall_app. split; [done|]. constructor; [|done].
      eapply assemble_nonempty; [|done].
      apply lookup_lt_is_Some. apply Hvalid. by left.
Qed.

Lemma count_of_bump k k' d :
  count_of k (bump k' d)
  = ((if String.eqb k' k then 1 else 0) + count_of k d)%nat.
Proof.
  induction d as [|[k0 n] d IH]; simpl.
  - done.
  - destruct (String.eqb_spec k0 k') as [->|Hne]; simpl.
    + destruct (String.eqb_spec k' k) as [->|Hk]; [lia|done].
    + destruct (String.eqb_spec k0 k) as [->|Hk].
      * destruct (String.eqb_spec k' k) as [->|_]; [done|lia].
      * apply IH.
Qed.

Lemma sum_bump k d : sum_list (bump k d).*2 = S (sum_list d.*2).
Proof.
  induction d as [|[k0 n] d IH]; [done|].
  cbn [bump]. destruct (String.eqb k0 k).
  - rewrite !fmap_cons. simpl. lia.
  - rewrite !fmap_cons. cbn [sum_list snd]. rewrite IH. lia.
Qed.

Lemma keys_bump k d :
  NoDup d.*1 -> NoDup (bump k d).*1 ∧ ∀ x, x ∈ (bump k d).*1 <-> x = k ∨ x ∈ d.*1.
Proof using Type.
  induction d as [|[k0 n] d IH]; simpl.
  - intros _. split; [apply NoDup_singleton|]. intros x. rewrite list_elem_of_singleton.
    split; [by left|intros [?|?%elem_of_nil]; done].
  - intros [Hk0 Hd]%NoDup_cons. destruct (String.eqb_spec k0 k) as [->|Hne]; simpl.
    + split; [by apply NoDup_cons|]. intros x. rewrite elem_of_cons.
      split; [by right|]. by intros [->|?]; [left|].
    + destruct (IH Hd) as [Hnd Hin]. split.
      * apply NoDup_cons. split; [|done]. rewrite Hin. intros [?|?]; done.
      * intros x. rewrite !elem_of_cons, Hin.
        split; [intros [->|[->|?]]|intros [->|[->|?]]]; auto.
Qed.

Lemma distribution_fold threads : ∀ d,
  NoDup d.*1 ->
  let d' := fold_left (fun d t => bump (size_bucket (message_count t)) d) threads d in
  NoDup d'.*1
  ∧ sum_list d'.*2 = (sum_list d.*2 + List.length threads)%nat
  ∧ ∀ k, count_of k d'
         = (count_of k d
            + List.length (filter (fun t => size_bucket (message_count t) = k) threads))%nat.
Proof using Type.
  induction threads as [|t threads IH]; intros d Hd; simpl.
  - split; [done|]. split; [lia|]. intros k. rewrite ?filter_nil. simpl. lia.
  - destruct (IH (bump (size_bucket (message_count t)) d)) as (Hnd & Hsum & Hcount).
    { by apply keys_bump. }
    split; [done|]. split.
    + rewrite Hsum, sum_bump. lia.
    + intros k. rewrite Hcount, count_of_bump, filter_cons.
      destruct (String.eqb_spec (size_bucket (message_count t)) k) as [Hk|Hk].
      * rewrite decide_True by done. simpl. lia.
      * rewrite decide_False by done. lia.
Qed.

Lemma foldr_max_bound (l : list nat) :
  (∀ x, x ∈ l -> (x <= foldr Nat.max O l)%nat)
  ∧ (l ≠ [] -> foldr Nat.max O l ∈ l).
Proof.
  induction l as [|x l [IH1 IH2]]; simpl.
  - split; [by intros x ?%elem_of_nil|done].
  - split.
    + intros y [->|Hy]%elem_of_cons; [lia|]. specialize (IH1 y Hy). lia.
    + intros _. destruct l as [|z l].
      * simpl. rewrite Nat.max_0_r. by left.
      * destruct (Nat.max_spec x (foldr Nat.max O (z :: l))) as [[_ ->]|[_ ->]].
        -- right. by apply IH2.
        -- by left.
Qed.

(** X15.  The statistics of the Thread Assembler account for every thread
    once: no thread that the phase builds is empty, so that the threads of
    one message and the threads of several messages make up all threads;
    the sizes counted by [thread_size_distribution] add up to the number of
    threads, each size class holds the number of threads that fall into it
    (the class [1] holds the threads of one message), and
    [max_messages_in_thread] is the size of a largest thread. *)
Theorem thread_statistics (emails out : list email) (threads : list thread) :
  build_threads emails = Ok (out, threads) ->
  Forall (fun t => 1 <= message_count t)%nat threads
  ∧ (single_message_threads threads + multi_message_threads threads)%nat
    = List.length threads
  ∧ sum_list (thread_size_distribution threads).*2 = List.length threads
  ∧ NoDup (thread_size_distribution threads).*1
  ∧ (∀ k, count_of k (thread_size_distribution threads)
          = List.length (filter (fun t => size_bucket (message_count t) = k) threads))
  ∧ count_of "1" (thread_size_distribution threads) = single_message_threads threads
  ∧ (∀ t, t ∈ threads -> (message_count t <= max_messages_in_thread threads)%nat)
  ∧ (threads ≠ [] -> ∃ t, t ∈ threads ∧ message_count t = max_messages_in_thread threads).
Proof.
  unfold build_threads. destruct (build_by_id emails) as [by_id|]; cbn [bind]; [|done].
  intros Hrun.
  assert (Forall (fun t => 1 <= message_count t)%nat threads) as Hne.
  { eapply thread_steps_nonempty; [| |exact Hrun]; simpl; [|done].
    intros r Hr. unfold thread_roots in Hr. apply list_elem_of_filter in Hr as [_ Hr].
    apply elem_of_positions in Hr. by apply lookup_lt_is_Some. }
  destruct (distribution_fold threads []) as (Hnd & Hsum & Hcount); [apply NoDup_nil_2|].
  fold (thread_size_distribution threads) in Hnd, Hsum, Hcount.
  pose proof (foldr_max_bound (message_count <$> threads)) as [Hmax1 Hmax2].
  split_and!; try done.
  - unfold single_message_threads, multi_message_threads.
    clear -Hne. induction Hne as [|t threads Ht _ IH]; [done|].
    rewrite !filter_cons. simpl. repeat case_decide; simpl; lia.
  - rewrite Hcount. simpl. unfold single_message_threads. f_equal.
    apply list_filter_iff. intros t. unfold size_bucket.
    destruct (Nat.eqb_spec (message_count t) 1) as [->|Hn]; [done|].
    split; [|done]. repeat case_match; done.
  - intros t Ht. apply Hmax1. apply list_elem_of_fmap. eauto.
  - intros Hthreads.
    assert (message_count <$> threads ≠ []) as Hm by (by destruct threads).
    apply Hmax2, list_elem_of_fmap in Hm as (t & Ht & Hin). eauto.
Qed.

(** ** The Direct Linker followed by the Orphan Classifier *)

Lemma identify_orphans_output_classified (emails : list email) :
  (∀ e, e ∈ emails -> id e ≠ Absent) ->
  ∃ out, identify_orphans_output emails = Ok out ∧ Forall2 classified_from emails out.
Proof.
  intros Hall. unfold identify_orphans_output.
  destruct (map_result_ok classify (fun e => id e ≠ Absent)
              (fun e e' => classified_from e e' ∧ id e' = id e) emails)
    as (out & Hout & HR).
  { intros e He. destruct (classify_classified e He) as (e' & ? & ? & ?). eauto. }
  { by apply Forall_forall. }
  rewrite Hout. cbn [bind].
  assert (∃ by_id, build_by_id out = Ok by_id) as [by_id ->].
  { unfold build_by_id. generalize (∅ : gmap pyid nat).
    induction (positions out) as [|i l IH]; intros acc; simpl; [eauto|].
    destruct (out !! i) as [e'|] eqn:Hi; [|apply IH].
    destruct (Forall2_lookup_r _ _ _ _ _ HR Hi) as (e & He & _ & Hid).
    assert (id e' ≠ Absent) as Hid'.
    { rewrite Hid. apply Hall. by eapply list_elem_of_lookup_2. }
    rewrite (subscript_present _ Hid'). cbn [bind]. apply IH. }
  cbn [bind]. exists out. split; [done|].
  eapply Forall2_impl; [exact HR|]. by intros ? ? [? _].
Qed.

(** The parent that the Direct Linker gives is not [None] exactly when a
    record with the message id of [e] has an [in_reply_to] that resolves. *)
Lemma linked_parent_set (raw : list email) e :
  default None (in_reply_to <$> last (carrying raw (get (message_id e)))) ≠ None
  <-> carrying raw (get (message_id e)) ≠ [].
Proof.
  destruct (last (carrying raw (get (message_id e)))) as [r|] eqn:Hlast; simpl.
  - assert (r ∈ carrying raw (get (message_id e))) as Hr.
    { apply last_Some in Hlast as [l' ->]. apply elem_of_app. right. by left. }
    split.
    + intros _ Hnil. rewrite Hnil in Hr. by apply elem_of_nil in Hr.
    + intros _ Hnone. unfold carrying in Hr. apply list_elem_of_filter in Hr as [Hr _].
      apply andb_prop in Hr as [Hres _]. unfold resolves in Hres.
      apply andb_prop in Hres as [Ht _]. rewrite Hnone in Ht. done.
  - apply last_None in Hlast. rewrite Hlast. done.
Qed.

(** With message ids that are not shared, the records that carry the id of
    [e] and resolve are [e] itself, if it resolves. *)
Lemma carrying_unique (raw : list email) e r :
  unique_ids raw -> e ∈ raw -> truthy (get (message_id e)) = true ->
  r ∈ carrying raw (get (message_id e)) -> r = e.
Proof.
  intros Hu He Ht Hr. unfold carrying in Hr.
  apply list_elem_of_filter in Hr as [Hr Hin].
  apply andb_prop in Hr as [_ Hid]. apply bool_decide_eq_true in Hid.
  symmetry. eapply unique_ids_elem_of; try done.
Qed.

(** X16.  The first two steps together.  On records that all have an
    [id], the Orphan Classifier run after the Direct Linker gives every
    record its normalized subject and the status [has_parent] when a record
    with its message id has an [in_reply_to] that names a message of the
    archive, else [orphan_reply] for a reply subject and [true_root] for
    any other; the status is [has_parent] exactly when [parent_id] is set.
    When the message ids are not shared, a record with a message id is
    [has_parent] exactly when its own [in_reply_to] names a message of the
    archive, and [in_reply_to] is then its [parent_id]. *)
Theorem raw_records_classified (raw : list email) :
  (∀ e, e ∈ raw -> id e ≠ Absent) ->
  ∃ out,
    identify_orphans_output (build_thread_trees_output raw) = Ok out
    ∧ Forall2
        (fun e e' =>
           id e' = id e ∧ message_id e' = message_id e
           ∧ in_reply_to e' = in_reply_to e ∧ subject e' = subject e
           ∧ normalized_subject e' = Some (normalize_subject (subject e))
           ∧ orphan_status e' = Some (classification raw e)
           ∧ parent_id e'
             = default None (in_reply_to <$> last (carrying raw (get (message_id e))))
           ∧ (orphan_status e' = Some has_parent <-> parent_id e' ≠ None))
        raw out
    ∧ (unique_ids raw ->
       ∀ i e e', raw !! i = Some e -> out !! i = Some e' ->
         truthy (get (message_id e)) = true ->
         (orphan_status e' = Some has_parent <-> resolves raw e = true)
         ∧ (resolves raw e = true -> parent_id e' = in_reply_to e)).
Proof.
  intros Hall.
  destruct (identify_orphans_output_classified (build_thread_trees_output raw))
    as (out & Hout & Hcl).
  { intros e' He'. unfold build_thread_trees_output in He'.
    apply list_elem_of_fmap in He' as (e & -> & He). unfold annotate. simpl.
    by apply Hall. }
  exists out. split; [exact Hout|].
  assert (Forall2
            (fun e e' =>
               id e' = id e ∧ message_id e' = message_id e
               ∧ in_reply_to e' = in_reply_to e ∧ subject e' = subject e
               ∧ normalized_subject e' = Some (normalize_subject (subject e))
               ∧ orphan_status e' = Some (classification raw e)
               ∧ parent_id e'
                 = default None
                     (in_reply_to <$> last (carrying raw (get (message_id e))))
               ∧ (orphan_status e' = Some has_parent <-> parent_id e' ≠ None))
            raw out) as Hfields.
  { unfold build_thread_trees_output in Hcl. rewrite Forall2_fmap_l in Hcl.
    eapply Forall2_impl; [exact Hcl|]. intros e e' (Hns & Hst & _ & Hrest).
    cbv beta in *.
    destruct (annotate_links raw e) as (_ & Hpar & _).
    set (a := annotate (collect_links raw) e) in *.
    assert (id e' = id a ∧ message_id e' = message_id a
            ∧ in_reply_to e' = in_reply_to a ∧ subject e' = subject a
            ∧ parent_id e' = parent_id a) as (H1 & H2 & H3 & H4 & H5).
    { rewrite <- Hrest. by destruct e'. }
    assert (bool_decide (is_Some (parent_id a))
            = bool_decide (carrying raw (get (message_id e)) ≠ [])) as Hb.
    { apply bool_decide_ext. rewrite <- linked_parent_set, <- Hpar.
      rewrite <- not_eq_None_Some. done. }
    split_and!; try done.
    - rewrite Hst. unfold classification. by rewrite Hb.
    - by rewrite H5.
    - rewrite Hst, H5, Hb. rewrite Hpar, linked_parent_set.
      destruct (decide (carrying raw (get (message_id e)) ≠ [])) as [Hc|Hc].
      + rewrite bool_decide_eq_true_2 by done. split; [intros _; exact Hc|done].
      + rewrite bool_decide_eq_false_2 by done.
        split; [by destruct (is_reply_subject _)|done]. }
  split; [exact Hfields|].
  intros Hu i e e' He He' Ht.
  destruct (Forall2_lookup_lr _ _ _ _ _ _ Hfields He He')
    as (_ & _ & _ & _ & _ & Hst & Hpar & Hiff).
  assert (e ∈ raw) as Hin by (by eapply list_elem_of_lookup_2).
  assert (carrying raw (get (message_id e)) ≠ [] <-> resolves raw e = true) as Hres.
  { split.
    - intros Hne. destruct (carrying raw (get (message_id e))) as [|r l] eqn:Hc; [done|].
      assert (r = e) as -> by (eapply carrying_unique; try done; rewrite Hc; by left).
      assert (e ∈ carrying raw (get (message_id e))) as Hr by (rewrite Hc; by left).
      unfold carrying in Hr. apply list_elem_of_filter in Hr as [Hr _].
      by apply andb_prop in Hr as [? _].
    - intros Hr Hnil.
      assert (e ∈ carrying raw (get (message_id e))) as Hc.
      { unfold carrying. apply list_elem_of_filter. split; [|done].
        rewrite Hr. simpl. by apply bool_decide_eq_true. }
      rewrite Hnil in Hc. by apply elem_of_nil in Hc. }
  split.
  - rewrite Hiff, Hpar, linked_parent_set. exact Hres.
  - intros Hr. rewrite Hpar.
    destruct (last (carrying raw (get (message_id e)))) as [r|] eqn:Hlast.
    + assert (r = e) as ->; [|done].
      eapply carrying_unique; try done.
      apply last_Some in Hlast as [l' ->]. apply elem_of_app. right. by left.
    + apply last_None in Hlast. by apply Hres in Hr.
Qed.

(** ** The final output (threading_step5.py) *)

Section Stability.

Context {A : Type} (le : A -> A -> bool) (P : A -> Prop) `{!∀ x, Decision (P x)}.
Context (Hclass : ∀ x y, P x -> P y -> le x y = true).

(** An element is inserted before the elements of its own class. *)
Lemma insert_sorted_filter x l :
  filter P (insert_sorted le x l) = filter P (x :: l).
Proof using Hclass.
  induction l as [|y l IH]; simpl; [done|].
  destruct (le x y) eqn:Hxy; [done|].
  rewrite filter_cons, IH, !filter_cons.
  destruct (decide (P y)) as [Hy|Hy]; [|done].
  destruct (decide (P x)) as [Hx|Hx]; [|done].
  rewrite (Hclass x y Hx Hy) in Hxy. done.
Qed.

(** The sort keeps the order of the elements of a class. *)
Lemma stable_sort_filter l : filter P (stable_sort le l) = filter P l.
Proof using Hclass.
  induction l as [|x l IH]; simpl; [done|].
  rewrite insert_sorted_filter, !filter_cons, IH. done.
Qed.

End Stability.

Lemma string_leb_refl s : String.leb s s = true.
Proof. by destruct (String.leb_total s s). Qed.

Lemma rank_key_set_rank r t : rank_key (set_rank r t) = rank_key t.
Proof. done. Qed.

(** X17.  The ranking of the final output.  The threads are written most
    recent first: the list is a rearrangement of the input in which the
    keys ([date_start], or [0000] for a thread without date) never
    increase, threads with the same key keep the order of the input, and
    the thread at position [i] gets the rank [i + 1], so that the ranks are
    1, 2, ... without gap. *)
Theorem threads_ranked_by_date (threads : list final_thread) :
  threads_sorted threads ≡ₚ threads
  ∧ List.length (ranked_threads threads) = List.length threads
  ∧ (∀ i t', ranked_threads threads !! i = Some t' <->
             ∃ t, threads_sorted threads !! i = Some t ∧ t' = set_rank (S i) t)
  ∧ ft_rank <$> ranked_threads threads = Some <$> seq 1 (List.length threads)
  ∧ Sorted (fun a b => String.leb b a = true) (rank_key <$> ranked_threads threads)
  ∧ (∀ k, filter (fun t => rank_key t = k) (threads_sorted threads)
          = filter (fun t => rank_key t = k) threads)
  ∧ (∀ emails out, create_final_output threads emails = Ok out ->
                   out_threads out = ranked_threads threads).
Proof using Type.
  unfold ranked_threads, threads_sorted. split_and!.
  - apply stable_sort_perm.
  - by rewrite length_imap, length_stable_sort.
  - intros i t'. exact (list_lookup_imap_Some (fun i t => set_rank (S i) t) _ i t').
  - rewrite fmap_imap.
    rewrite (imap_ext _ (fun j _ => Some (S j))) by done.
    rewrite (imap_seq_0 _ (fun j => Some (S j))), length_stable_sort.
    rewrite <- (fmap_add_seq 1 0), <- list_fmap_compose. done.
  - rewrite fmap_imap.
    rewrite (imap_ext _ (const rank_key)) by done.
    rewrite imap_const.
    apply (Sorted_fmap rank_key
             (fun a b => String.leb (rank_key b) (rank_key a) = true)); [done|].
    apply stable_sort_sorted. intros x y. apply String.leb_total.
  - intros k. apply stable_sort_filter. intros x y -> ->. apply string_leb_refl.
  - intros emails out. unfold create_final_output.
    repeat (match goal with
            | |- bind ?x _ = _ -> _ => destruct x; cbn [bind]; [|done]
            end).
    by intros [= <-].
Qed.

Section Dict.

Context {K : Type} (eqb : K -> K -> bool).
Context (Heqb : ∀ a b, eqb a b = true <-> a = b).

Lemma dict_append_keys {V} k (v : V) d :
  NoDup d.*1 ->
  NoDup (dict_append eqb k v d).*1
  ∧ ∀ x, x ∈ (dict_append eqb k v d).*1 <-> x = k ∨ x ∈ d.*1.
Proof using Heqb.
  induction d as [|[k0 vs] d IH]; simpl.
  - intros _. split; [apply NoDup_singleton|]. intros x. rewrite list_elem_of_singleton.
    split; [by left|intros [?|?%elem_of_nil]; done].
  - intros [Hk0 Hd]%NoDup_cons. destruct (eqb k0 k) eqn:He; simpl.
    + apply Heqb in He as ->. split; [by apply NoDup_cons|].
      intros x. rewrite elem_of_cons. split; [by right|]. by intros [->|?]; [left|].
    + destruct (IH Hd) as [Hnd Hin]. split.
      * apply NoDup_cons. split; [|done]. rewrite Hin. intros [->|?]; [|done].
        assert (eqb k k = true) as Hkk by (by apply Heqb). congruence.
      * intros x. rewrite !elem_of_cons, Hin.
        split; [intros [->|[->|?]]|intros [->|[->|?]]]; auto.
Qed.

Lemma eqb_refl_true a : eqb a a = true.
Proof using Heqb. by apply Heqb. Qed.

Lemma dict_lookup_elem_of {V} k (v : V) d :
  NoDup d.*1 -> dict_lookup eqb k d = Some v <-> (k, v) ∈ d.
Proof using Heqb.
  induction d as [|[k0 v0] d IH]; simpl.
  - intros _. split; [done|by intros ?%elem_of_nil].
  - intros [Hk0 Hd]%NoDup_cons. rewrite elem_of_cons.
    destruct (eqb k0 k) eqn:He.
    + apply Heqb in He as ->. split; [intros [= ->]; by left|].
      intros [[= ->]|Hin]; [done|]. exfalso. apply Hk0.
      apply list_elem_of_fmap. by exists (k, v).
    + rewrite (IH Hd). split; [by right|]. intros [[= -> ->]|?]; [|done].
      by rewrite eqb_refl_true in He.
Qed.

Lemma dict_lookup_is_Some {V} k (d : list (K * V)) :
  is_Some (dict_lookup eqb k d) <-> k ∈ d.*1.
Proof using Heqb.
  induction d as [|[k0 v0] d IH]; simpl.
  - split; [by intros [? ?]|by intros ?%elem_of_nil].
  - rewrite elem_of_cons. destruct (eqb k0 k) eqn:He.
    + apply Heqb in He as ->. split; [by left|by eexists].
    + rewrite IH. split; [by right|]. intros [->|?]; [|done].
      by rewrite eqb_refl_true in He.
Qed.

Lemma dict_lookup_append {V} k (v : V) k' d :
  dict_lookup eqb k' (dict_append eqb k v d)
  = if eqb k k' then Some (default [] (dict_lookup eqb k d) ++ [v])
    else dict_lookup eqb k' d.
Proof using Heqb.
  induction d as [|[k0 vs] d IH]; simpl; [done|].
  destruct (eqb k0 k) eqn:He; simpl.
  - apply Heqb in He as ->. by destruct (eqb k k').
  - destruct (eqb k0 k') eqn:He'; [|done].
    apply Heqb in He' as ->. destruct (eqb k k') eqn:He''; [|done].
    apply Heqb in He'' as ->. by rewrite eqb_refl_true in He.
Qed.

Lemma dict_lookup_count k k' (d : list (K * nat)) :
  dict_lookup eqb k' (dict_count eqb k d)
  = if eqb k k' then Some (S (default 0%nat (dict_lookup eqb k d)))
    else dict_lookup eqb k' d.
Proof using Heqb.
  induction d as [|[k0 n] d IH]; simpl; [done|].
  destruct (eqb k0 k) eqn:He; simpl.
  - apply Heqb in He as ->. by destruct (eqb k k').
  - destruct (eqb k0 k') eqn:He'; [|done].
    apply Heqb in He' as ->. destruct (eqb k k') eqn:He''; [|done].
    apply Heqb in He'' as ->. by rewrite eqb_refl_true in He.
Qed.

Lemma dict_count_keys k (d : list (K * nat)) :
  NoDup d.*1 -> NoDup (dict_count eqb k d).*1.
Proof using Heqb.
  induction d as [|[k0 n] d IH]; simpl; [intros _; apply NoDup_singleton|].
  intros [Hk0 Hd]%NoDup_cons. destruct (eqb k0 k) eqn:He; simpl.
  - by apply NoDup_cons.
  - apply NoDup_cons. split; [|by apply IH].
    rewrite <- dict_lookup_is_Some, dict_lookup_count.
    destruct (eqb k k0) eqn:He'.
    + apply Heqb in He' as ->. by rewrite eqb_refl_true in He.
    + by rewrite dict_lookup_is_Some.
Qed.

End Dict.

Lemma Z_eqb_eq a b : Z.eqb a b = true <-> a = b.
Proof. apply Z.eqb_eq. Qed.

(** The five size classes of [thread_size_summary] hold every count that
    is not zero once. *)
Lemma size_classes (counts : list nat) :
  (List.length (filter (fun n => n = 1%nat) counts)
   + List.length (filter (fun n => (2 <= n <= 5)%nat) counts)
   + List.length (filter (fun n => (6 <= n <= 25)%nat) counts)
   + List.length (filter (fun n => (26 <= n <= 100)%nat) counts)
   + List.length (filter (fun n => (100 < n)%nat) counts)
   + List.length (filter (fun n => n = 0%nat) counts))%nat
  = List.length counts.
Proof using Type.
  induction counts as [|n counts IH]; [done|].
  rewrite !filter_cons. repeat case_decide; simpl; lia.
Qed.

Lemma map_result_counts threads counts :
  map_result (fun t => subscript_count (ft_message_count t)) threads = Ok counts ->
  counts = omap ft_message_count threads
  ∧ ∀ t, t ∈ threads -> ft_message_count t ≠ None.
Proof using Type.
  revert counts. induction threads as [|t threads IH]; intros counts; simpl.
  - intros [= <-]. split; [done|]. by intros t ?%elem_of_nil.
  - destruct (ft_message_count t) as [n|] eqn:Hn; simpl; [|done].
    destruct (map_result _ threads) as [cs|]; cbn [bind]; [|done].
    intros [= <-]. destruct (IH cs eq_refl) as [-> Hall].
    split; [done|]. intros t' [->|Ht']%elem_of_cons; [congruence|by apply Hall].
Qed.

(** A loop that appends to [d[key]] the value of every element that has a
    key groups the values by key, in the order of the elements. *)
Section Grouping.

Context {K : Type} `{HdecK : EqDecision K} (eqb : K -> K -> bool).
Context (Heqb : ∀ a b, eqb a b = true <-> a = b).
Context {B V : Type} (key : B -> option K) (val : B -> result V).
Context (f : list (K * list V) -> B -> result (list (K * list V))).
Context (Hf : ∀ acc t, f acc t =
                       match key t with
                       | Some k => do v <- val t; Ok (dict_append eqb k v acc)
                       | None => Ok acc
                       end).

Lemma grouping_step l : ∀ acc d,
  NoDup acc.*1 -> for_each f l acc = Ok d ->
  NoDup d.*1
  ∧ ∀ k, ∃ vs,
      Forall2 (fun t v => val t = Ok v) (filter (fun t => key t = Some k) l) vs
      ∧ dict_lookup eqb k d
        = match vs with
          | [] => dict_lookup eqb k acc
          | _ => Some (default [] (dict_lookup eqb k acc) ++ vs)
          end.
Proof using Heqb Hf.
  induction l as [|t l IH]; intros acc d Hnd; cbn [for_each].
  - intros [= <-]. split; [done|]. intros k. exists []. by rewrite filter_nil.
  - rewrite Hf. destruct (key t) as [k0|] eqn:Hk.
    + destruct (val t) as [v|] eqn:Hv; cbn [bind]; [|done].
      intros Hrun. apply IH in Hrun as [Hd Hall];
        [|by apply (dict_append_keys eqb Heqb)].
      split; [done|]. intros k. destruct (Hall k) as (vs & Hvs & Hlook).
      rewrite dict_lookup_append in Hlook by done. rewrite filter_cons.
      destruct (eqb k0 k) eqn:He.
      * apply Heqb in He as ->. rewrite decide_True by done.
        exists (v :: vs). split; [by constructor|]. rewrite Hlook.
        destruct vs; [done|]. simpl. by rewrite <- app_assoc.
      * rewrite decide_False.
        -- by exists vs.
        -- intros ?. simplify_eq. by rewrite (eqb_refl_true eqb Heqb) in He.
    + cbn [bind]. intros Hrun. apply IH in Hrun as [Hd Hall]; [|done].
      split; [done|]. intros k. destruct (Hall k) as (vs & Hvs & Hlook).
      exists vs. rewrite filter_cons, decide_False by congruence. done.
Qed.

Lemma grouping_spec l d :
  for_each f l [] = Ok d ->
  NoDup d.*1
  ∧ ∀ k vs, (k, vs) ∈ d <->
            vs ≠ []
            ∧ Forall2 (fun t v => val t = Ok v) (filter (fun t => key t = Some k) l) vs.
Proof using Heqb Hf.
  intros Hrun. apply grouping_step in Hrun as [Hd Hall]; [|apply NoDup_nil_2].
  split; [done|]. intros k vs. rewrite <- (dict_lookup_elem_of eqb Heqb) by done.
  destruct (Hall k) as (vs0 & Hvs0 & ->). simpl. split.
  - destruct vs0; [done|]. intros [= <-]. done.
  - intros [Hne Hvs].
    assert (vs = vs0) as <-.
    { eapply Forall2_unique; [exact Hvs|exact Hvs0|]. simpl. congruence. }
    by destruct vs.
Qed.

Lemma grouping_keys l d k :
  for_each f l [] = Ok d -> k ∈ d.*1 <-> ∃ t, t ∈ l ∧ key t = Some k.
Proof using Heqb Hf HdecK.
  intros Hrun. destruct (grouping_step l [] d NoDup_nil_2 Hrun) as [Hd Hall].
  rewrite <- (dict_lookup_is_Some eqb Heqb).
  destruct (Hall k) as (vs & Hvs & ->). simpl.
  apply Forall2_length in Hvs. split.
  - intros Hsome. destruct vs as [|v vs]; [by destruct Hsome|].
    destruct (filter (fun t => key t = Some k) l) as [|t ts] eqn:Hfl; [done|].
    assert (t ∈ filter (fun t => key t = Some k) l) as Hin by (rewrite Hfl; by left).
    apply list_elem_of_filter in Hin as [? ?]. eauto.
  - intros (t & Ht & Hk).
    assert (t ∈ filter (fun t => key t = Some k) l) as Hin
      by (by apply list_elem_of_filter).
    destruct vs; [|by eexists].
    destruct (filter (fun t => key t = Some k) l); [by apply elem_of_nil in Hin|done].
Qed.

End Grouping.

(** The counts that [d[k] = d.get(k, 0) + 1] leaves. *)
Section Counting.

Context {K : Type} `{HdecK : EqDecision K} (eqb : K -> K -> bool).
Context (Heqb : ∀ a b, eqb a b = true <-> a = b).
Context {B : Type} (key : B -> option K).

Lemma counting_step l : ∀ acc,
  NoDup acc.*1 ->
  let d := fold_left
             (fun acc e => match key e with
                           | Some k => dict_count eqb k acc
                           | None => acc
                           end) l acc in
  NoDup d.*1
  ∧ ∀ k, dict_lookup eqb k d
         = match List.length (filter (fun e => key e = Some k) l) with
           | O => dict_lookup eqb k acc
           | n => Some (default 0%nat (dict_lookup eqb k acc) + n)%nat
           end.
Proof using Heqb.
  induction l as [|e l IH]; intros acc Hnd; cbn zeta; cbn [fold_left].
  - split; [done|]. intros k. by rewrite filter_nil.
  - destruct (key e) as [k0|] eqn:Hk.
    + destruct (IH (dict_count eqb k0 acc)) as [Hd Hall];
        [by apply (dict_count_keys eqb Heqb)|].
      split; [done|]. intros k. rewrite (Hall k), dict_lookup_count by done.
      rewrite filter_cons. destruct (eqb k0 k) eqn:He.
      * apply Heqb in He as ->. rewrite decide_True by done. simpl.
        destruct (List.length _); f_equal; lia.
      * rewrite decide_False; [done|].
        intros ?. simplify_eq. by rewrite (eqb_refl_true eqb Heqb) in He.
    + destruct (IH acc Hnd) as [Hd Hall]. split; [done|]. intros k.
      rewrite (Hall k), filter_cons, decide_False by congruence. done.
Qed.

Lemma counting_spec l :
  let d := fold_left
             (fun acc e => match key e with
                           | Some k => dict_count eqb k acc
                           | None => acc
                           end) l [] in
  NoDup d.*1
  ∧ ∀ k c, (k, c) ∈ d <->
           c ≠ O ∧ c = List.length (filter (fun e => key e = Some k) l).
Proof using Heqb.
  destruct (counting_step l [] NoDup_nil_2) as [Hd Hall]. cbn zeta in *.
  split; [done|]. intros k c. rewrite <- (dict_lookup_elem_of eqb Heqb) by done.
  rewrite Hall. simpl. destruct (List.length _); [split; [done|lia]|].
  split; [intros [= <-]; lia|]. intros [_ ->]. done.
Qed.

End Counting.

Lemma subscript_Ok f k : subscript f = Ok k <-> f = Present k.
Proof. destruct f; simpl; split; congruence. Qed.

Lemma ids_of_subscript group ids :
  Forall2 (fun t k => subscript (ft_id t) = Ok k) group ids <-> ids_of group ids.
Proof using Type.
  unfold ids_of. split; intros H; (eapply Forall2_impl; [exact H|]);
    intros t k; by rewrite subscript_Ok.
Qed.

Lemma String_eqb_eq a b : String.eqb a b = true <-> a = b.
Proof. apply String.eqb_eq. Qed.

Lemma index_by_year_groups threads by_year :
  index_by_year threads = Ok by_year ->
  NoDup by_year.*1
  ∧ ∀ y ids, (y, ids) ∈ by_year <->
             ids ≠ [] ∧ ids_of (threads_of_year threads y) ids.
Proof using Type.
  intros Hrun.
  destruct (grouping_spec Z.eqb Z_eqb_eq
              (fun t => truthy_year (ft_year_start t))
              (fun t => subscript (ft_id t)) _ (fun _ _ => eq_refl)
              threads by_year Hrun) as [Hd Hall].
  split; [done|]. intros y ids. by rewrite Hall, ids_of_subscript.
Qed.

Lemma index_by_author_groups threads by_author :
  index_by_author threads = Ok by_author ->
  NoDup by_author.*1
  ∧ ∀ a ids, (a, ids) ∈ by_author <->
             a ≠ "" ∧ ids ≠ [] ∧ ids_of (threads_of_author threads a) ids.
Proof using Type.
  intros Hrun.
  pose (key := fun t => if String.eqb (author_of t) "" then None
                        else Some (author_of t)).
  assert (∀ acc t,
            (let author := author_of t in
             if String.eqb author "" then Ok acc
             else do k <- subscript (ft_id t);
                  Ok (dict_append String.eqb author k acc))
            = match key t with
              | Some k => do v <- subscript (ft_id t);
                          Ok (dict_append String.eqb k v acc)
              | None => Ok acc
              end) as Hf.
  { intros acc t. unfold key. cbv zeta. by destruct (String.eqb (author_of t) ""). }
  destruct (grouping_spec String.eqb String_eqb_eq key _ _ Hf threads by_author Hrun)
    as [Hd Hall].
  split; [done|]. intros a ids. rewrite Hall, ids_of_subscript.
  unfold threads_of_author. destruct (decide (a = "")) as [->|Ha].
  - split; [|by intros [? _]]. intros [Hne Hids]. exfalso. apply Hne.
    rewrite (list_filter_iff _ (fun _ => False)) in Hids.
    + assert (filter (fun _ : final_thread => False) threads = []) as Hnil.
      { clear. induction threads as [|t l IH]; [done|].
        rewrite filter_cons, decide_False; [done|by intros []]. }
      rewrite Hnil in Hids. by apply Forall2_nil_inv_l in Hids.
    + intros t. unfold key. destruct (String.eqb (author_of t) "") eqn:He.
      * split; [done|by intros []].
      * split; [|by intros []]. intros [= Heq]. rewrite Heq in He. done.
  - rewrite (list_filter_iff (fun t => key t = Some a) (fun t => author_of t = a)).
    + split; [intros [? ?]; by split_and!|intros (_ & ? & ?); by split].
    + intros t. unfold key. destruct (String.eqb (author_of t) "") eqn:He.
      * apply String.eqb_eq in He. split; [done|congruence].
      * split; congruence.
Qed.

Lemma index_by_subject_keys threads subject_index :
  index_by_subject threads = Ok subject_index ->
  NoDup subject_index.*1
  ∧ ∀ s, s ∈ subject_index.*1 <->
         ∃ t, t ∈ threads ∧ ft_normalized_subject t = Some s
              ∧ (3 < String.length s)%nat.
Proof using Type.
  intros Hrun.
  pose (key := fun t =>
                 let norm_subj := default "" (ft_normalized_subject t) in
                 if negb (String.eqb norm_subj "") && (3 <? String.length norm_subj)%nat
                 then Some norm_subj else None).
  assert (∀ acc t,
            (let norm_subj := default "" (ft_normalized_subject t) in
             if negb (String.eqb norm_subj "") && (3 <? String.length norm_subj)%nat
             then do k <- subscript (ft_id t);
                  Ok (dict_append String.eqb norm_subj k acc)
             else Ok acc)
            = match key t with
              | Some k => do v <- subscript (ft_id t);
                          Ok (dict_append String.eqb k v acc)
              | None => Ok acc
              end) as Hf.
  { intros acc t. unfold key. cbv zeta. by destruct (_ && _). }
  split.
  - by destruct (grouping_spec String.eqb String_eqb_eq key _ _ Hf threads
                   subject_index Hrun).
  - intros s.
    rewrite (grouping_keys String.eqb String_eqb_eq key _ _ Hf threads
               subject_index s Hrun).
    split; intros (t & Ht & Hk); exists t; (split; [done|]).
    + unfold key in Hk. cbv zeta in Hk.
      destruct (ft_normalized_subject t) as [s'|]; simpl in Hk; [|done].
      destruct (negb (String.eqb s' "") && (3 <? String.length s')%nat) eqn:Hc; [|done].
      injection Hk as ->. apply andb_true_iff in Hc as [_ Hlen].
      apply Nat.ltb_lt in Hlen. done.
    + destruct Hk as [Hs Hlen]. unfold key. cbv zeta. rewrite Hs. simpl.
      assert (String.eqb s "" = false) as ->.
      { apply String.eqb_neq. intros ->. simpl in Hlen. lia. }
      apply Nat.ltb_lt in Hlen. by rewrite Hlen.
Qed.

(** What a run of [create_final_output] that returns has computed. *)
Lemma create_final_output_inv threads emails out :
  create_final_output threads emails = Ok out ->
  ∃ by_year by_author subject_index counts,
    index_by_year threads = Ok by_year
    ∧ index_by_author threads = Ok by_author
    ∧ index_by_subject threads = Ok subject_index
    ∧ map_result (fun t => subscript_count (ft_message_count t)) threads = Ok counts
    ∧ out_threads out = ranked_threads threads
    ∧ out_year_index out = years_sorted by_year
    ∧ out_author_index out = filter (fun kv => (5 <= List.length kv.2)%nat) by_author
    ∧ total_threads (out_stats out) = List.length threads
    ∧ total_emails (out_stats out) = List.length emails
    ∧ threads_by_year (out_stats out)
      = (fun kv => (kv.1, List.length kv.2)) <$> years_sorted by_year
    ∧ emails_by_year (out_stats out) = count_emails_by_year emails
    ∧ stats_top_authors (out_stats out) = take 50 (top_authors by_author)
    ∧ single_message (out_stats out)
      = List.length (filter (fun n => n = 1%nat) counts)
    ∧ small_2_5 (out_stats out)
      = List.length (filter (fun n => (2 <= n <= 5)%nat) counts)
    ∧ medium_6_25 (out_stats out)
      = List.length (filter (fun n => (6 <= n <= 25)%nat) counts)
    ∧ large_26_100 (out_stats out)
      = List.length (filter (fun n => (26 <= n <= 100)%nat) counts)
    ∧ very_large_100plus (out_stats out)
      = List.length (filter (fun n => (100 < n)%nat) counts)
    ∧ unique_normalized_subjects (out_stats out) = List.length subject_index.
Proof using Type.
  unfold create_final_output. cbv zeta.
  destruct (for_each _ emails tt); cbn [bind]; [|done].
  destruct (index_by_year threads) as [by_year|]; cbn [bind]; [|done].
  destruct (index_by_author threads) as [by_author|]; cbn [bind]; [|done].
  destruct (index_by_subject threads) as [subject_index|]; cbn [bind]; [|done].
  destruct (map_result _ threads) as [counts|]; cbn [bind]; [|done].
  intros [= <-]. exists by_year, by_author, subject_index, counts.
  cbn. split_and!; reflexivity.
Qed.

Lemma Sorted_le_NoDup_lt (l : list Z) : Sorted Z.le l -> NoDup l -> Sorted Z.lt l.
Proof using Type.
  intros Hs%Sorted_StronglySorted; [|intros ???; lia].
  induction Hs as [|x l Hl IH Hx]; intros Hnd; [constructor|].
  apply NoDup_cons in Hnd as [Hx' Hnd]. constructor; [by apply IH|].
  destruct l as [|y l]; constructor.
  apply Forall_cons in Hx as [Hxy _].
  assert (x ≠ y) by (intros ->; apply Hx'; by left). lia.
Qed.

Lemma index_by_year_keys threads by_year y :
  index_by_year threads = Ok by_year ->
  y ∈ by_year.*1 <-> threads_of_year threads y ≠ [].
Proof using Type.
  intros Hrun.
  rewrite (grouping_keys Z.eqb Z_eqb_eq (fun t => truthy_year (ft_year_start t))
             (fun t => subscript (ft_id t)) _ (fun _ _ => eq_refl)
             threads by_year y Hrun).
  unfold threads_of_year. split.
  - intros (t & Ht & Hy) Hnil.
    assert (t ∈ filter (fun t => truthy_year (ft_year_start t) = Some y) threads) as Hin
      by (by apply list_elem_of_filter).
    rewrite Hnil in Hin. by apply elem_of_nil in Hin.
  - intros Hne. destruct (filter _ threads) as [|t ts] eqn:Hfl; [done|].
    assert (t ∈ filter (fun t => truthy_year (ft_year_start t) = Some y) threads) as Hin
      by (rewrite Hfl; by left).
    apply list_elem_of_filter in Hin as [? ?]. eauto.
Qed.

Lemma index_by_author_keys threads by_author a :
  index_by_author threads = Ok by_author ->
  a ∈ by_author.*1 <-> a ≠ "" ∧ threads_of_author threads a ≠ [].
Proof using Type.
  intros Hrun. destruct (index_by_author_groups threads by_author Hrun) as [Hd Hall].
  split.
  - intros ([a' ids] & -> & Hin)%list_elem_of_fmap. simpl.
    apply Hall in Hin as (Ha & Hne & Hids). split; [done|].
    intros Hnil. rewrite Hnil in Hids. by apply Forall2_nil_inv_l in Hids.
  - intros [Ha Hne].
    pose (key := fun t => if String.eqb (author_of t) "" then None
                          else Some (author_of t)).
    assert (∀ acc t,
              (let author := author_of t in
               if String.eqb author "" then Ok acc
               else do k <- subscript (ft_id t);
                    Ok (dict_append String.eqb author k acc))
              = match key t with
                | Some k => do v <- subscript (ft_id t);
                            Ok (dict_append String.eqb k v acc)
                | None => Ok acc
                end) as Hf.
    { intros acc t. unfold key. cbv zeta. by destruct (String.eqb (author_of t) ""). }
    rewrite (grouping_keys String.eqb String_eqb_eq key _ _ Hf threads by_author a Hrun).
    unfold threads_of_author in Hne.
    destruct (filter _ threads) as [|t ts] eqn:Hfl; [done|].
    assert (t ∈ filter (fun t => author_of t = a) threads) as Hin
      by (rewrite Hfl; by left).
    apply list_elem_of_filter in Hin as [Hta Ht]. exists t. split; [done|].
    unfold key. rewrite Hta. apply String.eqb_neq in Ha. by rewrite Ha.
Qed.

(** X18.  The index files of the final output.  index_by_year.json lists
    the years in increasing order, each once; under a year it has the ids
    of the threads that start in that year, in the order of the input, and
    it has no year without thread.  index_by_author.json has each author
    once, and exactly the authors with five or more threads; under an
    author it has the ids of the threads whose root author, in lower case,
    is that author, in the order of the input. *)
Theorem final_indexes (threads : list final_thread) (emails : list final_email)
    (out : final_output) :
  create_final_output threads emails = Ok out ->
  Sorted Z.lt (out_year_index out).*1
  ∧ (∀ y ids, (y, ids) ∈ out_year_index out <->
              ids ≠ [] ∧ ids_of (threads_of_year threads y) ids)
  ∧ (∀ y, y ∈ (out_year_index out).*1 <-> threads_of_year threads y ≠ [])
  ∧ NoDup (out_author_index out).*1
  ∧ (∀ a ids, (a, ids) ∈ out_author_index out <->
              a ≠ "" ∧ (5 <= List.length ids)%nat
              ∧ ids_of (threads_of_author threads a) ids)
  ∧ (∀ a, a ∈ (out_author_index out).*1 <->
          a ≠ "" ∧ (5 <= List.length (threads_of_author threads a))%nat).
Proof using Type.
  intros Hrun.
  destruct (create_final_output_inv _ _ _ Hrun)
    as (by_year & by_author & subject_index & counts & Hy & Ha & _ & _ & _ & -> & -> & _).
  destruct (index_by_year_groups _ _ Hy) as [Hdy Hally].
  destruct (index_by_author_groups _ _ Ha) as [Hda Halla].
  unfold years_sorted. split_and!.
  - apply Sorted_le_NoDup_lt.
    + eapply Sorted_fmap; [|apply stable_sort_sorted].
      * intros x z Hxz. simpl in Hxz. by apply Z.leb_le in Hxz.
      * intros x z. destruct (Z.le_ge_cases x.1 z.1); [left|right]; by apply Z.leb_le.
    + rewrite stable_sort_perm. done.
  - intros y ids. by rewrite elem_of_stable_sort.
  - intros y. rewrite stable_sort_perm. by apply index_by_year_keys.
  - eapply sublist_NoDup; [exact Hda|]. apply fmap_sublist, sublist_filter.
  - intros a ids. rewrite list_elem_of_filter, Halla. simpl. split.
    + intros (? & ? & ? & ?). by split_and!.
    + intros (? & Hlen & ?). split_and!; try done. intros ->. simpl in Hlen. lia.
  - intros a. split.
    + intros ([a' ids] & -> & Hin)%list_elem_of_fmap. simpl.
      apply list_elem_of_filter in Hin as [Hlen Hin]. simpl in Hlen.
      apply Halla in Hin as (? & ? & Hids). split; [done|].
      apply Forall2_length in Hids. by rewrite Hids.
    + intros [Hne Hlen].
      assert (a ∈ by_author.*1) as ([a' ids] & -> & Hin)%list_elem_of_fmap.
      { apply (index_by_author_keys threads); [done|]. split; [done|].
        intros Hnil. rewrite Hnil in Hlen. simpl in Hlen. lia. }
      simpl in *. apply list_elem_of_fmap. exists (a', ids). split; [done|].
      apply list_elem_of_filter. split; [|done]. simpl.
      apply Halla in Hin as (_ & _ & Hids). apply Forall2_length in Hids.
      by rewrite <- Hids.
Qed.

Lemma fst_count_pairs {K V} (l : list (K * list V)) :
  ((fun kv => (kv.1, List.length kv.2)) <$> l).*1 = l.*1.
Proof. rewrite <- list_fmap_compose. by apply list_fmap_ext. Qed.

(** X19.  The statistics of the final output (stats.json).  The totals are
    the sizes of the two inputs.  [threads_by_year] has the years in
    increasing order, each once, with the number of threads that start in
    that year, and no year without thread; [emails_by_year] has each year
    once, with the number of messages of that year.  Every thread has a
    message count, and the five classes of [thread_size_summary] together
    with the threads of count zero make up all threads.
    [unique_normalized_subjects] is the number of different normalized
    subjects of more than 3 characters. *)
Theorem final_statistics (threads : list final_thread) (emails : list final_email)
    (out : final_output) :
  create_final_output threads emails = Ok out ->
  let st := out_stats out in
  let counts := omap ft_message_count threads in
  total_threads st = List.length threads
  ∧ total_emails st = List.length emails
  ∧ Sorted Z.lt (threads_by_year st).*1
  ∧ (∀ y c, (y, c) ∈ threads_by_year st <->
            c ≠ O ∧ c = List.length (threads_of_year threads y))
  ∧ NoDup (emails_by_year st).*1
  ∧ (∀ y c, (y, c) ∈ emails_by_year st <->
            c ≠ O
            ∧ c = List.length
                    (filter (fun e => truthy_year (fe_year e) = Some y) emails))
  ∧ List.length counts = List.length threads
  ∧ single_message st = List.length (filter (fun n => n = 1%nat) counts)
  ∧ small_2_5 st = List.length (filter (fun n => (2 <= n <= 5)%nat) counts)
  ∧ medium_6_25 st = List.length (filter (fun n => (6 <= n <= 25)%nat) counts)
  ∧ large_26_100 st = List.length (filter (fun n => (26 <= n <= 100)%nat) counts)
  ∧ very_large_100plus st = List.length (filter (fun n => (100 < n)%nat) counts)
  ∧ (single_message st + small_2_5 st + medium_6_25 st + large_26_100 st
     + very_large_100plus st
     + List.length (filter (fun n => n = 0%nat) counts))%nat
    = List.length threads
  ∧ ∃ subjects,
      NoDup subjects
      ∧ List.length subjects = unique_normalized_subjects st
      ∧ ∀ s, s ∈ subjects <->
             ∃ t, t ∈ threads ∧ ft_normalized_subject t = Some s
                  ∧ (3 < String.length s)%nat.
Proof using Type.
  intros Hrun. cbv zeta.
  destruct (create_final_output_inv _ _ _ Hrun)
    as (by_year & by_author & subject_index & counts & Hy & Ha & Hs & Hc & _ & _ & _
        & -> & -> & -> & -> & _ & -> & -> & -> & -> & -> & ->).
  destruct (index_by_year_groups _ _ Hy) as [Hdy Hally].
  destruct (index_by_subject_keys _ _ Hs) as [Hds Halls].
  assert (List.length counts = List.length threads) as Hlen
    by (by eapply map_result_length).
  destruct (map_result_counts _ _ Hc) as [-> _].
  split_and!; try done.
  - rewrite fst_count_pairs. unfold years_sorted. apply Sorted_le_NoDup_lt.
    + eapply Sorted_fmap; [|apply stable_sort_sorted].
      * intros x z Hxz. simpl in Hxz. by apply Z.leb_le in Hxz.
      * intros x z. destruct (Z.le_ge_cases x.1 z.1); [left|right]; by apply Z.leb_le.
    + rewrite stable_sort_perm. done.
  - intros y c. unfold years_sorted. rewrite list_elem_of_fmap. split.
    + intros ([y' ids] & [= -> ->] & Hin). simpl.
      apply elem_of_stable_sort, Hally in Hin as [Hne Hids].
      apply Forall2_length in Hids. rewrite Hids. split; [|done].
      by destruct ids.
    + intros [Hne ->].
      assert (y ∈ by_year.*1) as ([y' ids] & -> & Hin)%list_elem_of_fmap.
      { apply (index_by_year_keys threads); [done|]. by intros Hnil; rewrite Hnil in Hne. }
      exists (y', ids). split; [|by apply elem_of_stable_sort].
      apply Hally in Hin as [_ Hids]. apply Forall2_length in Hids. simpl.
      by rewrite Hids.
  - apply (counting_spec Z.eqb Z_eqb_eq (fun e => truthy_year (fe_year e)) emails).
  - apply (counting_spec Z.eqb Z_eqb_eq (fun e => truthy_year (fe_year e)) emails).
  - rewrite <- Hlen. apply size_classes.
  - exists subject_index.*1. split_and!; [done|by rewrite length_fmap|done].
Qed.

(** X20.  The top authors of stats.json.  The list has at most 50 authors,
    each once and with the number of threads of which the author is the
    root author; the numbers never increase along the list.  An author
    with a thread who is not in the list is left out only when the list is
    full, and has no more threads than any author of the list. *)
Theorem final_top_authors (threads : list final_thread) (emails : list final_email)
    (out : final_output) :
  create_final_output threads emails = Ok out ->
  let top := stats_top_authors (out_stats out) in
  let count := fun a => List.length (threads_of_author threads a) in
  (List.length top <= 50)%nat
  ∧ NoDup top.*1
  ∧ Sorted (fun x y => (y.2 <= x.2)%nat) top
  ∧ (∀ a c, (a, c) ∈ top -> a ≠ "" ∧ c ≠ O ∧ c = count a)
  ∧ (∀ b, b ≠ "" -> count b ≠ O -> b ∉ top.*1 ->
          List.length top = 50%nat ∧ ∀ a c, (a, c) ∈ top -> (count b <= c)%nat).
Proof using Type.
  intros Hrun. cbv zeta.
  destruct (create_final_output_inv _ _ _ Hrun)
    as (by_year & by_author & subject_index & counts & _ & Ha & _ & _ & _ & _ & _
        & _ & _ & _ & _ & -> & _).
  destruct (index_by_author_groups _ _ Ha) as [Hda Halla].
  unfold top_authors. rewrite take_take. change (50 `min` 100)%nat with 50%nat.
  set (L := (fun kv : string * list pyid => (kv.1, List.length kv.2)) <$> by_author).
  set (le := fun a b : string * nat => (b.2 <=? a.2)%nat).
  set (R := fun x y : string * nat => (y.2 <= x.2)%nat).
  assert (∀ a c, (a, c) ∈ L <-> a ≠ "" ∧ c ≠ O
                               ∧ c = List.length (threads_of_author threads a))
    as HL.
  { intros a c. unfold L. rewrite list_elem_of_fmap. split.
    - intros ([a' ids] & [= -> ->] & Hin). simpl.
      apply Halla in Hin as (? & Hne & Hids). apply Forall2_length in Hids.
      rewrite Hids. split_and!; try done. by destruct ids.
    - intros (Hne & Hc & ->).
      assert (a ∈ by_author.*1) as ([a' ids] & -> & Hin)%list_elem_of_fmap.
      { apply (index_by_author_keys threads); [done|]. split; [done|].
        intros Hnil. by rewrite Hnil in Hc. }
      exists (a', ids). split; [|done]. simpl.
      apply Halla in Hin as (_ & _ & Hids). apply Forall2_length in Hids.
      by rewrite Hids. }
  assert (StronglySorted R (stable_sort le L)) as Hsorted.
  { apply Sorted_StronglySorted; [intros x y z; unfold R; lia|].
    rewrite <- (list_fmap_id (stable_sort le L)).
    eapply Sorted_fmap; [|apply (stable_sort_sorted le)].
    - intros x y Hxy. unfold le in Hxy. by apply Nat.leb_le in Hxy.
    - intros x y. unfold le.
      destruct (Nat.le_ge_cases x.2 y.2); [right|left]; by apply Nat.leb_le. }
  rewrite <- (take_drop 50 (stable_sort le L)) in Hsorted.
  assert (∀ x, x ∈ take 50 (stable_sort le L) -> x ∈ L) as Htop.
  { intros x Hx. apply (elem_of_stable_sort le).
    eapply elem_of_sublist; [exact Hx|apply sublist_take]. }
  split_and!.
  - rewrite length_take. lia.
  - eapply sublist_NoDup; [|apply fmap_sublist, sublist_take].
    rewrite stable_sort_perm. unfold L. by rewrite fst_count_pairs.
  - apply StronglySorted_Sorted. by apply StronglySorted_app_1_l in Hsorted.
  - intros a c Hin. by apply HL, Htop.
  - intros b Hb Hcount Hnot.
    assert ((b, List.length (threads_of_author threads b)) ∈ drop 50 (stable_sort le L))
      as Hdrop.
    { assert ((b, List.length (threads_of_author threads b)) ∈ stable_sort le L) as Hin
        by (by apply elem_of_stable_sort, HL).
      rewrite <- (take_drop 50 (stable_sort le L)) in Hin.
      apply elem_of_app in Hin as [Hin|Hin]; [|done].
      exfalso. apply Hnot. apply list_elem_of_fmap. by eexists (_, _). }
    split.
    + apply length_take_le.
      destruct (decide (50 <= List.length (stable_sort le L))%nat) as [|Hlt]; [done|].
      rewrite drop_ge in Hdrop by lia. by apply elem_of_nil in Hdrop.
    + intros a c Hin.
      by apply (StronglySorted_app_1_elem_of _ _ _ _ _ Hsorted Hin Hdrop).
Qed.

(** A loop whose body raises [KeyError] for the elements that are not
    [good], and returns for the others. *)
Lemma for_each_keyed {A B} (f : A -> B -> result A) (good : B -> Prop) l :
  (∀ x, good x ∨ ¬ good x) ->
  (∀ a x, good x -> ∃ a', f a x = Ok a') ->
  (∀ a x, ¬ good x -> f a x = Raise KeyError) ->
  ∀ a, (Forall good l ∧ ∃ a', for_each f l a = Ok a')
       ∨ (¬ Forall good l ∧ for_each f l a = Raise KeyError).
Proof using Type.
  intros Hdec Hok Hbad. induction l as [|x l IH]; intros a; simpl.
  - left. eauto.
  - destruct (Hdec x) as [Hx|Hx].
    + destruct (Hok a x Hx) as [a' ->]. cbn [bind].
      destruct (IH a') as [[Hl Hrun]|[Hl Hrun]].
      * left. split; [by constructor|done].
      * right. split; [|done]. intros Hall. apply Forall_cons in Hall as [_ ?]. done.
    + rewrite (Hbad a x Hx). right. split; [|done].
      intros Hall. apply Forall_cons in Hall as [? _]. done.
Qed.

Lemma map_result_keyed (threads : list final_thread) :
  (Forall (fun t => ft_message_count t ≠ None) threads
   ∧ ∃ counts,
       map_result (fun t => subscript_count (ft_message_count t)) threads = Ok counts)
  ∨ (¬ Forall (fun t => ft_message_count t ≠ None) threads
     ∧ map_result (fun t => subscript_count (ft_message_count t)) threads
       = Raise KeyError).
Proof using Type.
  induction threads as [|t l IH]; simpl; [left; eauto|].
  destruct (ft_message_count t) as [n|] eqn:Hn; simpl.
  - destruct IH as [[Hl [cs ->]]|[Hl ->]]; cbn [bind].
    + left. split; [|eauto]. constructor; [congruence|done].
    + right. split; [|done]. intros Hall. apply Forall_cons in Hall as [_ ?]. done.
  - right. split; [|done]. intros Hall. apply Forall_cons in Hall as [? _]. done.
Qed.

Lemma index_loop_keyed {K} (eqb : K -> K -> bool) (key : final_thread -> option K)
    (f : list (K * list pyid) -> final_thread -> result (list (K * list pyid))) l :
  (∀ acc t, f acc t =
            match key t with
            | Some k => do v <- subscript (ft_id t); Ok (dict_append eqb k v acc)
            | None => Ok acc
            end) ->
  ∀ acc,
    (Forall (fun t => is_Some (key t) -> ft_id t ≠ Absent) l
     ∧ ∃ d, for_each f l acc = Ok d)
    ∨ (¬ Forall (fun t => is_Some (key t) -> ft_id t ≠ Absent) l
       ∧ for_each f l acc = Raise KeyError).
Proof using Type.
  intros Hf. apply for_each_keyed.
  - intros t. destruct (key t); [|left; by intros [? ?]].
    destruct (ft_id t); [right|left]; [|done]. intros H. by apply H.
  - intros acc t Hgood. rewrite Hf. destruct (key t); [|eauto].
    destruct (ft_id t); [|simpl; eauto]. exfalso. by apply Hgood.
  - intros acc t Hbad. rewrite Hf. destruct (key t).
    + destruct (ft_id t); [done|]. exfalso. by apply Hbad.
    + exfalso. apply Hbad. by intros [? ?].
Qed.


End Pipeline.

(** * The statements on concrete records *)

Lemma key_escrow_well_keyed : Forall well_keyed key_escrow_classified.
Proof. repeat constructor; discriminate. Defined.








Lemma four_messages_ranked :
  ranked four_messages_linked (build_index four_messages_linked) four_messages_rank.
Proof.
  intros i e c j Hi Hc Hj.
  destruct i as [|[|[|[|i]]]]; simpl in Hi; try discriminate;
    injection Hi as <-; simpl in Hc;
    repeat (apply elem_of_cons in Hc as [->|Hc];
            [vm_compute in Hj; injection Hj as <-; simpl; lia|]);
    by apply elem_of_nil in Hc.
Defined.




(** * The further properties on concrete records *)


Lemma direct_linker_counts_witness :
  (∃ e, e ∈ archive ∧ truthy (in_reply_to e) = true)
  ∧ build_thread_trees archive = Ok (collect_links archive).
Proof.
  assert (∃ e, e ∈ archive ∧ truthy (in_reply_to e) = true) as H.
  { exists (message "a2" "m2" (Some "m1") "Re: Remailers" (Some "1993-02-01T12:00:00")).
    split; [|reflexivity]. apply (list_elem_of_lookup_2 _ 1%nat). reflexivity. }
  split; [exact H|].
  destruct (direct_linker_counts archive) as (_ & _ & _ & _ & Hok & _).
  apply Hok. exact H.
Defined.



Lemma orphan_classifier_output_witness :
  (∀ e, e ∈ build_thread_trees_output key_escrow -> id e ≠ Absent)
  ∧ ∃ out, identify_orphans_output (build_thread_trees_output key_escrow) = Ok out
           ∧ Forall2 classified_from (build_thread_trees_output key_escrow) out.
Proof.
  assert (∀ e, e ∈ build_thread_trees_output key_escrow -> id e ≠ Absent) as Hid.
  { intros e He. vm_compute in He.
    repeat (apply elem_of_cons in He as [->|He]; [discriminate|]).
    by apply elem_of_nil in He. }
  split; [exact Hid|].
  destruct (proj2 (orphan_classifier_output (build_thread_trees_output key_escrow)) Hid)
    as (out & Hout & Hcl & _).
  by exists out.
Defined.

Lemma quoted_lines_round_trip_witness :
  count_char newline "Blind signatures make the payments untraceable." = O
  ∧ (20 < String.length (strip "Blind signatures make the payments untraceable."))%nat
  ∧ extract_quoted_lines (Some "> Blind signatures make the payments untraceable.")
    = ["Blind signatures make the payments untraceable."].
Proof.
  assert (count_char newline "Blind signatures make the payments untraceable." = O)
    as Hn by reflexivity.
  assert (20 < String.length (strip "Blind signatures make the payments untraceable."))%nat
    as Hl by (vm_compute; lia).
  split; [exact Hn|]. split; [exact Hl|].
  destruct quoted_lines_round_trip as (_ & _ & _ & _ & Hround).
  exact (Hround "Blind signatures make the payments untraceable." Hn Hl).
Defined.

Lemma parse_date_drops_timezone_witness :
  count_char "+" "1993-01-01T10:00:00" = O
  ∧ count_char "-" "1993-01-01T10:00:00" = 2%nat
  ∧ count_char "T" "1993-01-01T10:00:00" ≠ O
  ∧ count_char "+" "08:00" = O ∧ count_char "-" "08:00" = O
  ∧ parse_date iso_instant (Some "1993-01-01T10:00:00-08:00")
    = parse_date iso_instant (Some "1993-01-01T10:00:00").
Proof.
  assert (count_char "T" "1993-01-01T10:00:00" ≠ O) as HT by (vm_compute; lia).
  split; [reflexivity|]. split; [reflexivity|]. split; [exact HT|].
  split; [reflexivity|]. split; [reflexivity|].
  destruct (parse_date_drops_timezone iso_instant) as (_ & _ & _ & _ & Hminus & _).
  exact (Hminus "1993-01-01T10:00:00" "08:00" eq_refl eq_refl HT eq_refl eq_refl).
Defined.

Lemma subject_matcher_counts_witness :
  ∃ m, match_orphans_run iso_instant key_escrow_classified = Ok m
       ∧ m_matched m = 1%nat ∧ m_unmatched m = O
       ∧ (m_matched m + m_unmatched m)%nat = count_status orphan_reply key_escrow_classified
       ∧ count_status orphan_reply (m_emails m) = m_unmatched m.
Proof.
  eexists. split; [vm_compute; reflexivity|]. split; [reflexivity|].
  split; [reflexivity|].
  destruct (subject_matcher_counts iso_instant key_escrow_classified _ eq_refl)
    as (_ & Hsum & Hleft & _).
  split; [exact Hsum|exact Hleft].
Defined.

Lemma guard_silent_same_matching_witness :
  ∃ m m0, match_orphans_run iso_instant key_escrow_classified = Ok m
          ∧ m_prevented m = O ∧ m_matched m = 1%nat
          ∧ match_orphans_run_step3 iso_instant key_escrow_classified = Ok m0
          ∧ m_emails m0 = m_emails m.
Proof.
  assert (∃ m, match_orphans_run iso_instant key_escrow_classified = Ok m
               ∧ m_prevented m = O ∧ m_matched m = 1%nat) as (m & Hm & Hp & Hone).
  { eexists. split; [vm_compute; reflexivity|]. split; reflexivity. }
  destruct (guard_silent_same_matching iso_instant key_escrow_classified m Hm Hp)
    as (m0 & Hm0 & Hsame & _).
  by exists m, m0.
Defined.



Lemma thread_statistics_witness :
  ∃ out threads,
    build_threads iso_instant 0 1000 four_messages_linked = Ok (out, threads)
    ∧ thread_size_distribution threads = [("2-5", 1%nat)]
    ∧ (single_message_threads threads + multi_message_threads threads)%nat
      = List.length threads
    ∧ sum_list (thread_size_distribution threads).*2 = List.length threads.
Proof.
  eexists _, _. split; [vm_compute; reflexivity|]. split; [reflexivity|].
  destruct (thread_statistics iso_instant 0 1000 four_messages_linked _ _ eq_refl)
    as (_ & Hparts & Hsum & _).
  split; [exact Hparts|exact Hsum].
Defined.

Lemma raw_records_classified_witness :
  (∀ e, e ∈ archive -> id e ≠ Absent)
  ∧ ∃ out,
      identify_orphans_output (build_thread_trees_output archive) = Ok out
      ∧ orphan_status <$> out
        = [Some true_root; Some has_parent; Some has_parent; Some true_root;
           Some orphan_reply; Some true_root; Some true_root; Some true_root;
           Some true_root; Some orphan_reply]
      ∧ Forall2 (fun e e' => orphan_status e' = Some (classification archive e))
          archive out.
Proof.
  assert (∀ e, e ∈ archive -> id e ≠ Absent) as Hid.
  { intros e He. unfold archive in He.
    repeat (apply elem_of_cons in He as [->|He]; [discriminate|]).
    by apply elem_of_nil in He. }
  split; [exact Hid|].
  destruct (raw_records_classified archive Hid) as (out & Hout & Hfields & _).
  exists out. split; [exact Hout|]. split.
  - assert (orphan_status
              <$> output_of (identify_orphans_output (build_thread_trees_output archive))
            = [Some true_root; Some has_parent; Some has_parent; Some true_root;
               Some orphan_reply; Some true_root; Some true_root; Some true_root;
               Some true_root; Some orphan_reply]) as Hs by (vm_compute; reflexivity).
    rewrite Hout in Hs. exact Hs.
  - eapply Forall2_impl; [exact Hfields|]. intros e e' H. apply H.
Defined.

Lemma final_indexes_witness :
  ∃ out,
    create_final_output final_threads final_emails = Ok out
    ∧ out_year_index out
      = [(1993, [Some "thread_a1"; Some "thread_a4"]); (1994, [Some "thread_b1"])]
    ∧ out_author_index out = []
    ∧ (∀ y, y ∈ (out_year_index out).*1 <-> threads_of_year final_threads y ≠ [])
    ∧ (∀ a, a ∈ (out_author_index out).*1 <->
            a ≠ "" ∧ (5 <= List.length (threads_of_author final_threads a))%nat).
Proof.
  eexists. split; [vm_compute; reflexivity|]. split; [reflexivity|].
  split; [reflexivity|].
  destruct (final_indexes final_threads final_emails _ eq_refl)
    as (_ & _ & Hyears & _ & _ & Hauthors).
  split; [exact Hyears|exact Hauthors].
Defined.

Lemma final_statistics_witness :
  ∃ out,
    create_final_output final_threads final_emails = Ok out
    ∧ threads_by_year (out_stats out) = [(1993, 2%nat); (1994, 1%nat)]
    ∧ emails_by_year (out_stats out) = [(1993, 4%nat)]
    ∧ unique_normalized_subjects (out_stats out) = 2%nat
    ∧ (single_message (out_stats out) + small_2_5 (out_stats out)
       + medium_6_25 (out_stats out) + large_26_100 (out_stats out)
       + very_large_100plus (out_stats out)
       + List.length
           (filter (fun n => n = 0%nat) (omap ft_message_count final_threads)))%nat
      = List.length final_threads.
Proof.
  eexists. split; [vm_compute; reflexivity|]. split; [reflexivity|].
  split; [reflexivity|]. split; [reflexivity|].
  destruct (final_statistics final_threads final_emails _ eq_refl)
    as (_ & _ & _ & _ & _ & _ & _ & _ & _ & _ & _ & _ & Hsum & _).
  exact Hsum.
Defined.

Lemma final_top_authors_witness :
  ∃ out,
    create_final_output final_threads final_emails = Ok out
    ∧ stats_top_authors (out_stats out) = [("hal@x.org", 3%nat); ("tim@netcom.com", 1%nat)]
    ∧ ∀ a c, (a, c) ∈ stats_top_authors (out_stats out) ->
             a ≠ "" ∧ c ≠ O ∧ c = List.length (threads_of_author final_threads a).
Proof.
  eexists. split; [vm_compute; reflexivity|]. split; [reflexivity|].
  destruct (final_top_authors final_threads final_emails _ eq_refl)
    as (_ & _ & _ & Htop & _).
  exact Htop.
Defined.
